(** * Call-graph construction of kernel-analyzer: a shallow embedding

    The development follows [src/lib/CallGraph.cc] (the call-graph pass),
    [src/lib/KAMain.cc] (the iterative driver) and [src/lib/Global.h]
    (the shared context).  LLVM objects that the C++ code reaches through
    pointers are represented by a numeric identity together with the
    immutable data the code reads through the pointer. *)

From stdpp Require Import gmap strings list fin_maps.

Set Warnings "-register-all,-clear-no-such-hyp".

Open Scope N_scope.

(** ** LLVM types *)

(** [Type::TypeID] in the declaration order of LLVM 12 to 14, the releases
    whose API the source uses. *)
Inductive TypeID :=
| HalfTyID | BFloatTyID | FloatTyID | DoubleTyID | X86_FP80TyID | FP128TyID
| PPC_FP128TyID | VoidTyID | LabelTyID | MetadataTyID | X86_MMXTyID
| X86_AMXTyID | TokenTyID | IntegerTyID | FunctionTyID | PointerTyID
| StructTyID | ArrayTyID | FixedVectorTyID | ScalableVectorTyID.

Definition TypeID_num (k : TypeID) : N :=
  match k with
  | HalfTyID => 0 | BFloatTyID => 1 | FloatTyID => 2 | DoubleTyID => 3
  | X86_FP80TyID => 4 | FP128TyID => 5 | PPC_FP128TyID => 6 | VoidTyID => 7
  | LabelTyID => 8 | MetadataTyID => 9 | X86_MMXTyID => 10
  | X86_AMXTyID => 11 | TokenTyID => 12 | IntegerTyID => 13
  | FunctionTyID => 14 | PointerTyID => 15 | StructTyID => 16
  | ArrayTyID => 17 | FixedVectorTyID => 18 | ScalableVectorTyID => 19
  end.

(** Primitive types that carry no further structure. *)
Inductive PrimKind :=
| PHalf | PBFloat | PFloat | PDouble | PX86_FP80 | PFP128 | PPPC_FP128
| PLabel | PMetadata | PX86_MMX | PX86_AMX | PToken.

(** An LLVM type.  Types are uniqued inside an [LLVMContext], so pointer
    equality of [Type*] is structural equality of these trees; a named
    (identified) struct is known by its name and its body is not needed by
    the code modelled here. *)
Inductive Ty :=
| VoidTy
| IntegerTy (width : N)
| PointerTy (elem : Ty) (addrSpace : N)
| ArrayTy (elem : Ty) (num : N)
| LiteralStructTy (elems : list Ty)
| NamedStructTy (name : string)
| FunctionTy (ret : Ty) (params : list Ty) (varArg : bool)
| VectorTy (elem : Ty) (num : N) (scalable : bool)
| PrimTy (k : PrimKind).

Definition getTypeID (T : Ty) : TypeID :=
  match T with
  | VoidTy => VoidTyID
  | IntegerTy _ => IntegerTyID
  | PointerTy _ _ => PointerTyID
  | ArrayTy _ _ => ArrayTyID
  | LiteralStructTy _ | NamedStructTy _ => StructTyID
  | FunctionTy _ _ _ => FunctionTyID
  | VectorTy _ _ false => FixedVectorTyID
  | VectorTy _ _ true => ScalableVectorTyID
  | PrimTy PHalf => HalfTyID
  | PrimTy PBFloat => BFloatTyID
  | PrimTy PFloat => FloatTyID
  | PrimTy PDouble => DoubleTyID
  | PrimTy PX86_FP80 => X86_FP80TyID
  | PrimTy PFP128 => FP128TyID
  | PrimTy PPPC_FP128 => PPC_FP128TyID
  | PrimTy PLabel => LabelTyID
  | PrimTy PMetadata => MetadataTyID
  | PrimTy PX86_MMX => X86_MMXTyID
  | PrimTy PX86_AMX => X86_AMXTyID
  | PrimTy PToken => TokenTyID
  end.

Definition isVoidTy (T : Ty) : bool :=
  match T with VoidTy => true | _ => false end.
Definition isIntegerTy (T : Ty) : bool :=
  match T with IntegerTy _ => true | _ => false end.
Definition isIntegerTyOf (w : N) (T : Ty) : bool :=
  match T with IntegerTy w' => w' =? w | _ => false end.
Definition isPointerTy (T : Ty) : bool :=
  match T with PointerTy _ _ => true | _ => false end.
Definition isStructTy (T : Ty) : bool :=
  match T with LiteralStructTy _ | NamedStructTy _ => true | _ => false end.

Definition PrimKind_eqb (a b : PrimKind) : bool :=
  TypeID_num (getTypeID (PrimTy a)) =? TypeID_num (getTypeID (PrimTy b)).

(** [T1 == T2] on [Type*]. *)
Fixpoint Ty_eqb (T1 T2 : Ty) {struct T1} : bool :=
  match T1, T2 with
  | VoidTy, VoidTy => true
  | IntegerTy w1, IntegerTy w2 => w1 =? w2
  | PointerTy e1 a1, PointerTy e2 a2 => Ty_eqb e1 e2 && (a1 =? a2)
  | ArrayTy e1 n1, ArrayTy e2 n2 => Ty_eqb e1 e2 && (n1 =? n2)
  | LiteralStructTy l1, LiteralStructTy l2 =>
      (fix go (l1 l2 : list Ty) {struct l1} : bool :=
         match l1, l2 with
         | [], [] => true
         | x :: xs, y :: ys => Ty_eqb x y && go xs ys
         | _, _ => false
         end) l1 l2
  | NamedStructTy n1, NamedStructTy n2 => String.eqb n1 n2
  | FunctionTy r1 p1 v1, FunctionTy r2 p2 v2 =>
      Ty_eqb r1 r2 && Bool.eqb v1 v2 &&
      (fix go (l1 l2 : list Ty) {struct l1} : bool :=
         match l1, l2 with
         | [], [] => true
         | x :: xs, y :: ys => Ty_eqb x y && go xs ys
         | _, _ => false
         end) p1 p2
  | VectorTy e1 n1 s1, VectorTy e2 n2 s2 =>
      Ty_eqb e1 e2 && (n1 =? n2) && Bool.eqb s1 s2
  | PrimTy k1, PrimTy k2 => PrimKind_eqb k1 k2
  | _, _ => false
  end.

(** ** Type compatibility ([CallGraphPass::isCompatibleType]) *)

Section Compat.

(** The preprocessor constant [LLVM_VERSION_MAJOR]. *)
Variable LLVM_VERSION_MAJOR : N.

Fixpoint isCompatibleType (T1 T2 : Ty) {struct T1} : bool :=
  if Ty_eqb T1 T2 then true
  else match T1 with
  | VoidTy => isVoidTy T2
  | IntegerTy w1 =>
      match T2 with
      | PointerTy _ as2 => if w1 =? as2 then true else false
      | IntegerTy _ => true
      | _ => false
      end
  | PointerTy ElT1 _ =>
      match T2 with
      | PointerTy ElT2 _ =>
          if 12 <? LLVM_VERSION_MAJOR then true
          else if isIntegerTyOf 8 ElT1 || isIntegerTyOf 8 ElT2 then true
          else isCompatibleType ElT1 ElT2
      | _ => false
      end
  | ArrayTy ElT1 _ =>
      match T2 with
      | ArrayTy ElT2 _ => isCompatibleType ElT1 ElT2
      | _ => false
      end
  | LiteralStructTy els1 =>
      match T2 with
      | LiteralStructTy els2 =>
          if negb (N.of_nat (length els1) =? N.of_nat (length els2))
          then false
          else (fix loop (l1 l2 : list Ty) {struct l1} : bool :=
                  match l1, l2 with
                  | x :: xs, y :: ys =>
                      if negb (isCompatibleType x y) then false
                      else loop xs ys
                  | _, _ => true
                  end) els1 els2
      | _ => false
      end
  | NamedStructTy n1 =>
      match T2 with
      | NamedStructTy n2 => String.eqb n1 n2
      | _ => false
      end
  | FunctionTy r1 ps1 va1 =>
      match T2 with
      | FunctionTy r2 ps2 va2 =>
          if negb (isCompatibleType r1 r2) then false
          else if va1 then (if va2 then true else false)
          else if negb (N.of_nat (length ps1) =? N.of_nat (length ps2))
          then false
          else (fix loop (l1 l2 : list Ty) {struct l1} : bool :=
                  match l1, l2 with
                  | x :: xs, y :: ys =>
                      if negb (isCompatibleType x y) then false
                      else loop xs ys
                  | _, _ => true
                  end) ps1 ps2
      | _ => false
      end
  | _ =>
      if TypeID_num (getTypeID T1) <=? TypeID_num FP128TyID
      then TypeID_num (getTypeID T1) =? TypeID_num (getTypeID T2)
      else TypeID_num (getTypeID T1) =? TypeID_num (getTypeID T2)
  end.

End Compat.

(** Pairs of types on which [isCompatibleType] treats its two arguments
    alike: at no pair of corresponding positions (the types themselves,
    pointer and array elements, literal-struct fields, function return and
    parameter types) is an integer of width [w] set against a pointer in
    address space [w], or a variadic function type against a non-variadic
    one. *)
Fixpoint symmetricPair (T1 T2 : Ty) {struct T1} : bool :=
  match T1, T2 with
  | IntegerTy w, PointerTy _ a => negb (w =? a)
  | PointerTy _ a, IntegerTy w => negb (w =? a)
  | PointerTy e1 _, PointerTy e2 _ => symmetricPair e1 e2
  | ArrayTy e1 _, ArrayTy e2 _ => symmetricPair e1 e2
  | LiteralStructTy l1, LiteralStructTy l2 =>
      (fix go (l1 l2 : list Ty) {struct l1} : bool :=
         match l1, l2 with
         | x :: xs, y :: ys => symmetricPair x y && go xs ys
         | _, _ => true
         end) l1 l2
  | FunctionTy r1 p1 v1, FunctionTy r2 p2 v2 =>
      Bool.eqb v1 v2 && symmetricPair r1 r2 &&
      (fix go (l1 l2 : list Ty) {struct l1} : bool :=
         match l1, l2 with
         | x :: xs, y :: ys => symmetricPair x y && go xs ys
         | _, _ => true
         end) p1 p2
  | _, _ => true
  end.

(** Pairs of types without a mixed position: at no pair of corresponding
    positions (the types themselves, pointer and array elements,
    literal-struct fields, function return and parameter types) is an
    integer type set against a pointer type, or a variadic function type
    against a non-variadic one. *)
Fixpoint unmixedPair (T1 T2 : Ty) {struct T1} : bool :=
  match T1, T2 with
  | IntegerTy _, PointerTy _ _ => false
  | PointerTy _ _, IntegerTy _ => false
  | PointerTy e1 _, PointerTy e2 _ => unmixedPair e1 e2
  | ArrayTy e1 _, ArrayTy e2 _ => unmixedPair e1 e2
  | LiteralStructTy l1, LiteralStructTy l2 =>
      (fix go (l1 l2 : list Ty) {struct l1} : bool :=
         match l1, l2 with
         | x :: xs, y :: ys => unmixedPair x y && go xs ys
         | _, _ => true
         end) l1 l2
  | FunctionTy r1 p1 v1, FunctionTy r2 p2 v2 =>
      Bool.eqb v1 v2 && unmixedPair r1 r2 &&
      (fix go (l1 l2 : list Ty) {struct l1} : bool :=
         match l1, l2 with
         | x :: xs, y :: ys => unmixedPair x y && go xs ys
         | _, _ => true
         end) p1 p2
  | _, _ => true
  end.

(** ** The IR as the pass reads it *)

(** An operand: the identity of the [Value*] and its type. *)
Record Value := mkValue { vid : N; vty : Ty }.

(** What the pass reads through a [Function*].  [fid] is the identity of
    the function object (also its identity as a [Value]); [fparent] is the
    identity of the module that owns it; [faddrSpace] is the address space
    the function lives in. *)
Record Function := mkFunction {
  fid : N;
  fname : string;
  fguid : N;
  fparent : N;
  fretTy : Ty;
  fargs : list Value;
  fisVarArg : bool;
  fisIntrinsic : bool;
  fisDeclaration : bool;
  fempty : bool;
  fhasAddressTaken : bool;
  faddrSpace : N
}.

Definition arg_size (F : Function) : N := N.of_nat (length (fargs F)).

(** [F->getFunctionType()] and, for [F] used as an operand, [F->getType()]:
    a pointer to the function type in the address space of [F]. *)
Definition getFunctionType (F : Function) : Ty :=
  FunctionTy (fretTy F) (map vty (fargs F)) (fisVarArg F).
Definition getFunctionPointerType (F : Function) : Ty :=
  PointerTy (getFunctionType F) (faddrSpace F).

(** The called operand of a call site: [isInlineAsm()], a non-null
    [getCalledFunction()], or any other [getCalledOperand()]. *)
Inductive CalledOperand :=
| InlineAsm
| CalledFunction (CF : Function)
| CalledValue (CO : Value).

(** [CallInst] and [InvokeInst], the two [CallBase] classes whose opcodes
    the pass handles. *)
Inductive CallOpcode := Call | Invoke.

Inductive InstKind :=
| NoPointerEffect   (* br, switch, unreachable, binary operators, sext,
                       zext, trunc, icmp, fcmp *)
| Ret (rv : option Value)
| CallBase (op : CallOpcode) (callee : CalledOperand) (args : list Value)
| Alloca
| Load (ptr : Value)
| Store (val ptr : Value)
| GetElementPtr (ptr : Value) (sourceElementType : Ty)
| BitCast (src : Value)
| PHI (incoming : list Value)
| Select (operands : list Value)
| Unhandled.

Record Instruction := mkInst { iid : N; ity : Ty; ikind : InstKind }.

Record GlobalVariable := mkGlobal {
  gvid : N; gvname : string; gvguid : N;
  gvElementType : Ty   (* GV.getType()->getElementType() *)
}.

Record Module := mkModule {
  mid : N;
  mglobals : list GlobalVariable;
  mfunctions : list (Function * list Instruction)
}.

(** [inst_begin(F) .. inst_end(F)]: a function without basic blocks has no
    instructions. *)
Definition instructions (FI : Function * list Instruction) : list Instruction :=
  if fempty (fst FI) then [] else snd FI.

Definition module_instructions (M : Module) : list Instruction :=
  concat (map instructions (mfunctions M)).

Definition isCallInst (I : Instruction) : bool :=
  match ikind I with CallBase Call _ _ => true | _ => false end.
Definition isInvokeInst (I : Instruction) : bool :=
  match ikind I with CallBase Invoke _ _ => true | _ => false end.

Definition getCalledFunction (I : Instruction) : option Function :=
  match ikind I with CallBase _ (CalledFunction CF) _ => Some CF | _ => None end.

Definition isInlineAsm (I : Instruction) : bool :=
  match ikind I with CallBase _ InlineAsm _ => true | _ => false end.

Definition call_args (I : Instruction) : list Value :=
  match ikind I with CallBase _ _ args => args | _ => [] end.

(** The types of the operands of a call site in the order of its operand
    list, which [arg_begin()] points into: the arguments come first; an
    [InvokeInst] has its two destination blocks next; the called operand is
    the last one.  Operand bundles are not represented.  The type of an
    inline-asm callee is not represented either: the pass leaves such a
    call site before it looks at any operand. *)
Definition operand_types (I : Instruction) : list Ty :=
  match ikind I with
  | CallBase op callee args =>
      map vty args ++
      match op with
      | Call => []
      | Invoke => [PrimTy PLabel; PrimTy PLabel]
      end ++
      match callee with
      | InlineAsm => []
      | CalledFunction CF => [getFunctionPointerType CF]
      | CalledValue CO => [vty CO]
      end
  | _ => []
  end.

(** Identities of the operands of an instruction (its use list entries). *)
Definition operand_ids (I : Instruction) : list N :=
  match ikind I with
  | NoPointerEffect | Alloca | Unhandled | Ret None => []
  | Ret (Some v) | Load v | BitCast v | GetElementPtr v _ => [vid v]
  | Store v p => [vid v; vid p]
  | PHI vs | Select vs => map vid vs
  | CallBase _ callee args =>
      map vid args ++
      match callee with
      | InlineAsm => []
      | CalledFunction CF => [fid CF]
      | CalledValue CO => [vid CO]
      end
  end.

(** [F.users()] restricted to instructions: the instructions of the module
    that have [F] among their operands. *)
Definition users (M : Module) (F : Function) : list Instruction :=
  filter (λ I, fid F ∈ operand_ids I) (module_instructions M).

(** ** Points-to sets *)

(** Modelled from the spec: [AndersPtsSet] (PtsSet.h is not part of the
    sources at hand) is a set of node indices enumerated in ascending order
    with [find_first], [find_next] and [getSize]; [getSize] is one past the
    largest index present, and an exhausted enumeration yields [getSize],
    the value the callers compare the cursor with. *)
Abbreviation AndersPtsSet := (gset N) (only parsing).

Definition getSize (s : AndersPtsSet) : N :=
  foldr (λ x acc, N.max (x + 1) acc) 0 (elements s).

Definition least_from (lo : N) (s : AndersPtsSet) : option N :=
  foldr (λ x acc, if lo <=? x
                  then Some (match acc with Some y => N.min x y | None => x end)
                  else acc) None (elements s).

Definition find_first (s : AndersPtsSet) : N :=
  default (getSize s) (least_from 0 s).
Definition find_next (s : AndersPtsSet) (prev : N) : N :=
  default (getSize s) (least_from (prev + 1) s).

(** ** Node indices *)

(** Modelled from the spec: [NodeIndex] is an unsigned 32-bit integer and
    [AndersNodeFactory::InvalidIndex] its largest value (NodeFactory.h is
    not part of the sources at hand). *)
Definition wrap32 (x : Z) : N := Z.to_N (x mod 2 ^ 32).
Definition InvalidIndex : N := 4294967295.

(** A [const Value*] handed back by the factory, as far as the pass looks
    at it: [dyn_cast<Function>] succeeds or not. *)
Inductive ValueRef :=
| FunctionValue (F : Function)
| OtherValue (v : N).

(** The struct-layout oracle's answer for a record type. *)
Record StructInfo := mkStructInfo {
  siId : N;                   (* identity of the [StructInfo] object *)
  siExpandedSize : N;
  siFieldUnion : list bool;
  siRealType : Ty
}.
Definition isFieldUnion (si : StructInfo) (i : N) : bool :=
  default false (siFieldUnion si !! N.to_nat i).

(** The node factory, seen through the member functions the pass calls.
    Lookups answer [InvalidIndex] for an unknown value. *)
Class AndersNodeFactory (NF : Type) := {
  getValueNodeFor : NF → N → N;
  getObjectNodeFor : NF → N → N;
  getReturnNodeFor : NF → N → N;
  getVarargNodeFor : NF → N → N;
  getNullObjectNode : NF → N;
  getValueForNode : NF → N → option ValueRef;
  getObjectSize : NF → N → N;
  getObjectOffset : NF → N → N;
  isSpecialNode : NF → N → bool;
  isObjectNode : NF → N → bool;
  isHeapObject : NF → N → bool;
  isOpaqueObject : NF → N → bool;
  createValueNode : NF → N → NF * N;
  (* createObjectNode(nullptr, type, isUnion, isHeap) *)
  createObjectNode : NF → Ty → bool → bool → NF * N;
  (* createObjectNode(base, fieldIndex, isUnion, isHeap) *)
  createFieldNode : NF → N → N → bool → bool → NF * N;
  createOpaqueObjectNode : NF → N → bool → NF * N;
  setModule : NF → N → NF;
  setDataLayout : NF → N → NF
}.

(** ** The analysis state *)

Section Analysis.

Context {NF : Type} `{AndersNodeFactory NF}.

Variable LLVM_VERSION_MAJOR : N.

(** The struct-layout oracle, [StructAnalyzer::getStructInfo(type, module)];
    [None] is the null pointer. *)
Variable getStructInfo : Ty → N → option StructInfo.

(** Helpers of PointTo.cc, which is not part of the sources at hand:
    [getGEPOffset(GEP, DL)] (a signed 64-bit byte offset),
    [offsetToFieldNum(type, offset, DL, SA, module)], and
    [extendObjectSize(idx, type, NF, SA, graph)].
    Modelled from the spec: resizing an opaque heap object materializes
    its trailing field nodes inside the factory and hands back the index
    to continue with; it takes nothing out of the points-to graph. *)
Variable getGEPOffset : Instruction → N → Z.
Variable offsetToFieldNum : Ty → Z → N → N.
Variable extendObjectSize : NF → N → Ty → N → NF * N.

(** The members of [GlobalContext] the pass touches (first six fields,
    reached through [Ctx] and [NF]) and the members of [CallGraphPass]
    and [IterativeModulePass].  A set of [Function*] whose elements are
    read again is kept as a map from the identity to the function. *)
Record State := mkState {
  Funcs : gmap N Function;               (* GUID -> defining function *)
  ExtGobjs : gset N;                     (* GUIDs of external globals *)
  AddressTakenFuncs : gmap N Function;
  Callees : gmap N (gset N);             (* call site -> functions *)
  Callers : gmap N (gset N);             (* function -> call sites *)
  nodeFactory : NF;
  funcPtsGraph : gmap N (gset N);
  reachable : gset N;
  unvisited : gset N;
  unresolvedFPts : gset N;
  calleeByType : gmap N (gset N);
  typeShortcuts : gmap N N;              (* StructInfo -> object node *)
  typeShortcutsObj : gset N;
  retStructs : gmap N (StructInfo * gset N);
  argStructs : gmap N (StructInfo * gset N);
  globalStructs : gmap N (StructInfo * gset N);
  Iteration : N
}.

Definition upd_AddressTakenFuncs (f : gmap N Function -> gmap N Function) (st : State) : State :=
  {| Funcs := Funcs st; ExtGobjs := ExtGobjs st; AddressTakenFuncs := f (AddressTakenFuncs st); Callees := Callees st; Callers := Callers st; nodeFactory := nodeFactory st; funcPtsGraph := funcPtsGraph st; reachable := reachable st; unvisited := unvisited st; unresolvedFPts := unresolvedFPts st; calleeByType := calleeByType st; typeShortcuts := typeShortcuts st; typeShortcutsObj := typeShortcutsObj st; retStructs := retStructs st; argStructs := argStructs st; globalStructs := globalStructs st; Iteration := Iteration st |}.
Definition upd_Callees (f : gmap N (gset N) -> gmap N (gset N)) (st : State) : State :=
  {| Funcs := Funcs st; ExtGobjs := ExtGobjs st; AddressTakenFuncs := AddressTakenFuncs st; Callees := f (Callees st); Callers := Callers st; nodeFactory := nodeFactory st; funcPtsGraph := funcPtsGraph st; reachable := reachable st; unvisited := unvisited st; unresolvedFPts := unresolvedFPts st; calleeByType := calleeByType st; typeShortcuts := typeShortcuts st; typeShortcutsObj := typeShortcutsObj st; retStructs := retStructs st; argStructs := argStructs st; globalStructs := globalStructs st; Iteration := Iteration st |}.
Definition upd_Callers (f : gmap N (gset N) -> gmap N (gset N)) (st : State) : State :=
  {| Funcs := Funcs st; ExtGobjs := ExtGobjs st; AddressTakenFuncs := AddressTakenFuncs st; Callees := Callees st; Callers := f (Callers st); nodeFactory := nodeFactory st; funcPtsGraph := funcPtsGraph st; reachable := reachable st; unvisited := unvisited st; unresolvedFPts := unresolvedFPts st; calleeByType := calleeByType st; typeShortcuts := typeShortcuts st; typeShortcutsObj := typeShortcutsObj st; retStructs := retStructs st; argStructs := argStructs st; globalStructs := globalStructs st; Iteration := Iteration st |}.
Definition upd_nodeFactory (f : NF -> NF) (st : State) : State :=
  {| Funcs := Funcs st; ExtGobjs := ExtGobjs st; AddressTakenFuncs := AddressTakenFuncs st; Callees := Callees st; Callers := Callers st; nodeFactory := f (nodeFactory st); funcPtsGraph := funcPtsGraph st; reachable := reachable st; unvisited := unvisited st; unresolvedFPts := unresolvedFPts st; calleeByType := calleeByType st; typeShortcuts := typeShortcuts st; typeShortcutsObj := typeShortcutsObj st; retStructs := retStructs st; argStructs := argStructs st; globalStructs := globalStructs st; Iteration := Iteration st |}.
Definition upd_funcPtsGraph (f : gmap N (gset N) -> gmap N (gset N)) (st : State) : State :=
  {| Funcs := Funcs st; ExtGobjs := ExtGobjs st; AddressTakenFuncs := AddressTakenFuncs st; Callees := Callees st; Callers := Callers st; nodeFactory := nodeFactory st; funcPtsGraph := f (funcPtsGraph st); reachable := reachable st; unvisited := unvisited st; unresolvedFPts := unresolvedFPts st; calleeByType := calleeByType st; typeShortcuts := typeShortcuts st; typeShortcutsObj := typeShortcutsObj st; retStructs := retStructs st; argStructs := argStructs st; globalStructs := globalStructs st; Iteration := Iteration st |}.
Definition upd_reachable (f : gset N -> gset N) (st : State) : State :=
  {| Funcs := Funcs st; ExtGobjs := ExtGobjs st; AddressTakenFuncs := AddressTakenFuncs st; Callees := Callees st; Callers := Callers st; nodeFactory := nodeFactory st; funcPtsGraph := funcPtsGraph st; reachable := f (reachable st); unvisited := unvisited st; unresolvedFPts := unresolvedFPts st; calleeByType := calleeByType st; typeShortcuts := typeShortcuts st; typeShortcutsObj := typeShortcutsObj st; retStructs := retStructs st; argStructs := argStructs st; globalStructs := globalStructs st; Iteration := Iteration st |}.
Definition upd_unvisited (f : gset N -> gset N) (st : State) : State :=
  {| Funcs := Funcs st; ExtGobjs := ExtGobjs st; AddressTakenFuncs := AddressTakenFuncs st; Callees := Callees st; Callers := Callers st; nodeFactory := nodeFactory st; funcPtsGraph := funcPtsGraph st; reachable := reachable st; unvisited := f (unvisited st); unresolvedFPts := unresolvedFPts st; calleeByType := calleeByType st; typeShortcuts := typeShortcuts st; typeShortcutsObj := typeShortcutsObj st; retStructs := retStructs st; argStructs := argStructs st; globalStructs := globalStructs st; Iteration := Iteration st |}.
Definition upd_unresolvedFPts (f : gset N -> gset N) (st : State) : State :=
  {| Funcs := Funcs st; ExtGobjs := ExtGobjs st; AddressTakenFuncs := AddressTakenFuncs st; Callees := Callees st; Callers := Callers st; nodeFactory := nodeFactory st; funcPtsGraph := funcPtsGraph st; reachable := reachable st; unvisited := unvisited st; unresolvedFPts := f (unresolvedFPts st); calleeByType := calleeByType st; typeShortcuts := typeShortcuts st; typeShortcutsObj := typeShortcutsObj st; retStructs := retStructs st; argStructs := argStructs st; globalStructs := globalStructs st; Iteration := Iteration st |}.
Definition upd_calleeByType (f : gmap N (gset N) -> gmap N (gset N)) (st : State) : State :=
  {| Funcs := Funcs st; ExtGobjs := ExtGobjs st; AddressTakenFuncs := AddressTakenFuncs st; Callees := Callees st; Callers := Callers st; nodeFactory := nodeFactory st; funcPtsGraph := funcPtsGraph st; reachable := reachable st; unvisited := unvisited st; unresolvedFPts := unresolvedFPts st; calleeByType := f (calleeByType st); typeShortcuts := typeShortcuts st; typeShortcutsObj := typeShortcutsObj st; retStructs := retStructs st; argStructs := argStructs st; globalStructs := globalStructs st; Iteration := Iteration st |}.
Definition upd_typeShortcuts (f : gmap N N -> gmap N N) (st : State) : State :=
  {| Funcs := Funcs st; ExtGobjs := ExtGobjs st; AddressTakenFuncs := AddressTakenFuncs st; Callees := Callees st; Callers := Callers st; nodeFactory := nodeFactory st; funcPtsGraph := funcPtsGraph st; reachable := reachable st; unvisited := unvisited st; unresolvedFPts := unresolvedFPts st; calleeByType := calleeByType st; typeShortcuts := f (typeShortcuts st); typeShortcutsObj := typeShortcutsObj st; retStructs := retStructs st; argStructs := argStructs st; globalStructs := globalStructs st; Iteration := Iteration st |}.
Definition upd_typeShortcutsObj (f : gset N -> gset N) (st : State) : State :=
  {| Funcs := Funcs st; ExtGobjs := ExtGobjs st; AddressTakenFuncs := AddressTakenFuncs st; Callees := Callees st; Callers := Callers st; nodeFactory := nodeFactory st; funcPtsGraph := funcPtsGraph st; reachable := reachable st; unvisited := unvisited st; unresolvedFPts := unresolvedFPts st; calleeByType := calleeByType st; typeShortcuts := typeShortcuts st; typeShortcutsObj := f (typeShortcutsObj st); retStructs := retStructs st; argStructs := argStructs st; globalStructs := globalStructs st; Iteration := Iteration st |}.
Definition upd_retStructs (f : gmap N (StructInfo * gset N) -> gmap N (StructInfo * gset N)) (st : State) : State :=
  {| Funcs := Funcs st; ExtGobjs := ExtGobjs st; AddressTakenFuncs := AddressTakenFuncs st; Callees := Callees st; Callers := Callers st; nodeFactory := nodeFactory st; funcPtsGraph := funcPtsGraph st; reachable := reachable st; unvisited := unvisited st; unresolvedFPts := unresolvedFPts st; calleeByType := calleeByType st; typeShortcuts := typeShortcuts st; typeShortcutsObj := typeShortcutsObj st; retStructs := f (retStructs st); argStructs := argStructs st; globalStructs := globalStructs st; Iteration := Iteration st |}.
Definition upd_argStructs (f : gmap N (StructInfo * gset N) -> gmap N (StructInfo * gset N)) (st : State) : State :=
  {| Funcs := Funcs st; ExtGobjs := ExtGobjs st; AddressTakenFuncs := AddressTakenFuncs st; Callees := Callees st; Callers := Callers st; nodeFactory := nodeFactory st; funcPtsGraph := funcPtsGraph st; reachable := reachable st; unvisited := unvisited st; unresolvedFPts := unresolvedFPts st; calleeByType := calleeByType st; typeShortcuts := typeShortcuts st; typeShortcutsObj := typeShortcutsObj st; retStructs := retStructs st; argStructs := f (argStructs st); globalStructs := globalStructs st; Iteration := Iteration st |}.
Definition upd_globalStructs (f : gmap N (StructInfo * gset N) -> gmap N (StructInfo * gset N)) (st : State) : State :=
  {| Funcs := Funcs st; ExtGobjs := ExtGobjs st; AddressTakenFuncs := AddressTakenFuncs st; Callees := Callees st; Callers := Callers st; nodeFactory := nodeFactory st; funcPtsGraph := funcPtsGraph st; reachable := reachable st; unvisited := unvisited st; unresolvedFPts := unresolvedFPts st; calleeByType := calleeByType st; typeShortcuts := typeShortcuts st; typeShortcutsObj := typeShortcutsObj st; retStructs := retStructs st; argStructs := argStructs st; globalStructs := f (globalStructs st); Iteration := Iteration st |}.
Definition upd_Iteration (f : N -> N) (st : State) : State :=
  {| Funcs := Funcs st; ExtGobjs := ExtGobjs st; AddressTakenFuncs := AddressTakenFuncs st; Callees := Callees st; Callers := Callers st; nodeFactory := nodeFactory st; funcPtsGraph := funcPtsGraph st; reachable := reachable st; unvisited := unvisited st; unresolvedFPts := unresolvedFPts st; calleeByType := calleeByType st; typeShortcuts := typeShortcuts st; typeShortcutsObj := typeShortcutsObj st; retStructs := retStructs st; argStructs := argStructs st; globalStructs := globalStructs st; Iteration := f (Iteration st) |}.

(** *** Computations over the state

    A computation either completes, stops at a failed [assert] or at an
    access the C++ code leaves undefined ([Fatal]), or exhausts the fuel
    of a loop whose cursor is reassigned by its body.  The state reached
    so far is kept in every case. *)
Inductive outcome (A : Type) :=
| Done (a : A)
| Fatal (why : string)
| OutOfFuel.
Global Arguments Done {A} a.
Global Arguments Fatal {A} why.
Global Arguments OutOfFuel {A}.

Definition M (A : Type) : Type := State → outcome A * State.

Definition ret {A} (a : A) : M A := λ st, (Done a, st).
Definition bind {A B} (m : M A) (k : A → M B) : M B :=
  λ st, match m st with
        | (Done a, st') => k a st'
        | (Fatal why, st') => (Fatal why, st')
        | (OutOfFuel, st') => (OutOfFuel, st')
        end.
Definition gets {A} (f : State → A) : M A := λ st, (Done (f st), st).
Definition modify (f : State → State) : M unit := λ st, (Done tt, f st).
Definition fatal {A} (why : string) : M A := λ st, (Fatal why, st).
Definition outOfFuel {A} : M A := λ st, (OutOfFuel, st).
Definition assert (b : bool) (why : string) : M unit :=
  if b then ret tt else fatal why.


Global Instance M_ret : MRet M := @ret.
Global Instance M_bind : MBind M := λ A B k m, bind m k.

(** *** The points-to graph *)

(** Reading the set at a node; an absent key reads as the empty set. *)
Definition pts (g : gmap N (gset N)) (n : N) : gset N := default ∅ (g !! n).

(** [funcPtsGraph.find(n)] *)
Definition ptsFind (n : N) : M (option (gset N)) :=
  gets (λ st, funcPtsGraph st !! n).
(** [itr->second] for an iterator that [find] handed back: the set now
    stored under the key (the reference is live; no key is ever erased,
    and an iterator without its key cannot be dereferenced). *)
Definition ptsDeref (n : N) : M (gset N) :=
  itr ← ptsFind n;
  match itr with
  | Some s => mret s
  | None => fatal "dereferenced an iterator whose key is gone"
  end.
(** [funcPtsGraph[n].insert(idx)]: did the set change? *)
Definition ptsInsert (n idx : N) : M bool :=
  old ← gets (λ st, pts (funcPtsGraph st) n);
  modify (upd_funcPtsGraph (λ g, <[n := {[idx]} ∪ pts g n]> g));;
  mret (bool_decide (idx ∉ old)).
(** [funcPtsGraph[dst].insert(itr->second)] with [itr] the iterator found
    for [src]: how many elements are new? *)
Definition ptsCopy (dst src : N) : M N :=
  s ← ptsDeref src;
  old ← gets (λ st, pts (funcPtsGraph st) dst);
  modify (upd_funcPtsGraph (λ g, <[dst := s ∪ pts g dst]> g));;
  mret (N.of_nat (size (s ∖ old))).

(** The loop
    [for (idx = s.find_first(), end = s.getSize(); idx < end;
          idx = s.find_next(idx))]
    over the set [s] stored at [node].  [s] is a reference into the
    graph, so [find_next] reads the set as it is after the body ran; the
    body hands back the value of [idx] it ends with ([Next]) or leaves the
    loop ([Break]), together with the flag [Changed]. *)
Inductive LoopCtl := Break | Next (idx : N).

Fixpoint forPts (fuel : nat) (node end_ : N)
    (body : N → bool → M (LoopCtl * bool)) (idx : N) (Changed : bool)
    : M bool :=
  if idx <? end_ then
    match fuel with
    | O => outOfFuel
    | S fuel' =>
        r ← body idx Changed;
        match r with
        | (Break, c) => mret c
        | (Next idx', c) =>
            s ← ptsDeref node;
            forPts fuel' node end_ body (find_next s idx') c
        end
    end
  else mret Changed.

Definition forEachPts (node : N) (body : N → bool → M (LoopCtl * bool))
    (Changed : bool) : M bool :=
  s ← ptsDeref node;
  forPts (N.to_nat (getSize s)) node (getSize s) body (find_first s) Changed.

(** *** [CallGraphPass::getFuncDef] *)
Definition getFuncDef (F : Function) : M Function :=
  fs ← gets Funcs;
  mret (default F (fs !! fguid F)).

(** *** [CallGraphPass::findCalleesByType] *)

(** The parameter loop for one function: [FI] runs over the formals and
    [AI] starts at [arg_begin()] and is advanced with [FI].  [AI] is
    never compared with [arg_end()]: when the formals outnumber the
    arguments, which the checks before the loop allow for a variadic
    function, [*AI] is the operand that follows the arguments in the
    operand list of the call site.  Only a read past the last operand is
    outside the array and not defined. *)
Fixpoint argsMatch (formals : list Value) (operands : list Ty)
    : outcome bool :=
  match formals with
  | [] => Done true
  | FI :: formals' =>
      match operands with
      | [] => Fatal "operand iterator past op_end"
      | ActualTy :: operands' =>
          if isCompatibleType LLVM_VERSION_MAJOR (vty FI) ActualTy
          then argsMatch formals' operands'
          else Done false
      end
  end.

(** One round of the loop over [AddressTakenFuncs]: is [F] inserted? *)
Definition typeMatch (CS : Instruction) (F : Function) : outcome bool :=
  if (if fisVarArg F then false
      else if negb (arg_size F =? N.of_nat (length (call_args CS))) then true
      else negb (isCompatibleType LLVM_VERSION_MAJOR (fretTy F) (ity CS)))
  then Done false
  else if fisIntrinsic F then Done false
  else argsMatch (fargs F) (operand_types CS).

Fixpoint findCalleesByType_loop (CS : Instruction) (Fs : list (N * Function))
    (FS : gset N) : outcome (gset N) :=
  match Fs with
  | [] => Done FS
  | (_, F) :: Fs' =>
      match typeMatch CS F with
      | Done true => findCalleesByType_loop CS Fs' ({[fid F]} ∪ FS)
      | Done false => findCalleesByType_loop CS Fs' FS
      | Fatal why => Fatal why
      | OutOfFuel => OutOfFuel
      end
  end.

(** [findCalleesByType(CS, FS)] with [FS = calleeByType[CS]], a reference
    into the map: the key is created by the subscript. *)
Definition findCalleesByType (CS : Instruction) : M (gset N) :=
  modify (upd_calleeByType (λ m, <[iid CS := default ∅ (m !! iid CS)]> m));;
  at_ ← gets AddressTakenFuncs;
  TS ← gets (λ st, default ∅ (calleeByType st !! iid CS));
  match findCalleesByType_loop CS (map_to_list at_) TS with
  | Done TS' =>
      modify (upd_calleeByType (λ m, <[iid CS := TS']> m));;
      mret TS'
  | Fatal why => fatal why
  | OutOfFuel => outOfFuel
  end.


(** *** [CallGraphPass::handleCall] *)

Definition notInvalid (n : N) : bool := negb (n =? InvalidIndex).

(** [CF->getName().find("alloc") != StringRef::npos] *)
Definition nameContainsAlloc (F : Function) : bool :=
  bool_decide (is_Some (String.index 0 "alloc" (fname F))).

(** The argument loop of a non-variadic callee; [CS->getArgOperand(i)]
    and [CF->getArg(i)] advance together, the two counts being equal. *)
Fixpoint bindArgs (actuals formals : list Value) (Changed : bool) : M bool :=
  match actuals, formals with
  | arg :: actuals', farg :: formals' =>
      nf ← gets nodeFactory;
      let argNode := getValueNodeFor nf (vid arg) in
      assert (notInvalid argNode) "Actual argument node not found!";;
      itr ← ptsFind argNode;
      match itr with
      | Some _ =>
          let formalNode := getValueNodeFor nf (vid farg) in
          assert (notInvalid formalNode) "Formal argument node not found!";;
          tso ← gets typeShortcutsObj;
          if bool_decide (formalNode ∈ tso)
          then bindArgs actuals' formals' Changed
          else
            n ← ptsCopy formalNode argNode;
            bindArgs actuals' formals' (if 0 <? n then true else Changed)
      | None => bindArgs actuals' formals' Changed
      end
  | _, _ => mret Changed
  end.

(** One round of the loop over [pts(retNode)]. *)
Definition bindReturn (CS : Instruction) (CF : Function) (callNode : N)
    (idx : N) (Changed : bool) : M (LoopCtl * bool) :=
  nf ← gets nodeFactory;
  idx ← (if isHeapObject nf idx && isOpaqueObject nf idx
            && nameContainsAlloc CF
         then
           let '(nf', fresh) := createOpaqueObjectNode nf (iid CS) true in
           modify (upd_nodeFactory (λ _, nf'));;
           mret fresh
         else mret idx);
  c ← ptsInsert callNode idx;
  mret (Next idx, Changed || c).

Definition handleCall (CS : Instruction) (CF : Function) : M bool :=
  if fisIntrinsic CF then mret false
  else if fempty CF then mret false
  else
    let actuals := call_args CS in
    let numArgs := N.of_nat (length actuals) in
    (* handle args; [None] is the early [return false] *)
    r ← (if fisVarArg CF then
           nf ← gets nodeFactory;
           let formalNode := getVarargNodeFor nf (fid CF) in
           assert (notInvalid formalNode) "Formal argument node not found!";;
           (* a missing actual node is only reported *)
           mret (Some false)
         else if negb (numArgs =? arg_size CF) then mret None
         else c ← bindArgs actuals (fargs CF) false; mret (Some c));
    match r with
    | None => mret false
    | Some Changed =>
        (* handle return *)
        if negb (isVoidTy (fretTy CF)) then
          nf ← gets nodeFactory;
          let retNode := getReturnNodeFor nf (fid CF) in
          assert (notInvalid retNode) "Return node not found!";;
          let callNode := getValueNodeFor nf (iid CS) in
          assert (notInvalid callNode) "Call node not found!";;
          itr ← ptsFind retNode;
          match itr with
          | Some _ => forEachPts retNode (bindReturn CS CF callNode) Changed
          | None => mret Changed
          end
        else mret Changed
    end.

(** [getElementTy] *)
Fixpoint getElementTy (T : Ty) : Ty :=
  match T with
  | ArrayTy e _ => getElementTy e
  | VectorTy e _ _ => getElementTy e
  | _ => T
  end.

(** *** [CallGraphPass::runOnFunction], one instruction at a time *)

(** [if (reachable.insert(F).second) unvisited.insert(F);
     Ctx->Callees[CS].insert(F);] *)
Definition addCallee (CS : Instruction) (F : Function) : M unit :=
  r ← gets reachable;
  modify (upd_reachable (λ r, {[fid F]} ∪ r));;
  (if bool_decide (fid F ∉ r)
   then modify (upd_unvisited (λ u, {[fid F]} ∪ u))
   else mret tt);;
  modify (upd_Callees (λ m, <[iid CS := {[fid F]} ∪ default ∅ (m !! iid CS)]> m)).

(** One round of the loop over the objects the callee operand points to. *)
Definition indirectCallee (CS : Instruction) (idx : N) (Changed : bool)
    : M (LoopCtl * bool) :=
  nf ← gets nodeFactory;
  if isSpecialNode nf idx then mret (Next idx, Changed)
  else
    assert (isObjectNode nf idx) "Function pointer points to non-object!";;
    match getValueForNode nf idx with
    | None => mret (Next idx, Changed)
    | Some (OtherValue _) => mret (Next idx, Changed)
    | Some (FunctionValue CF) =>
        addCallee CS CF;;
        c ← handleCall CS CF;
        mret (Next idx, Changed || c)
    end.

Definition runCall (CS : Instruction) (callee : CalledOperand)
    (Changed : bool) : M bool :=
  match callee with
  | InlineAsm => mret Changed
  | CalledFunction CF =>
      (* direct call *)
      RCF ← getFuncDef CF;
      addCallee CS RCF;;
      c ← handleCall CS RCF;
      mret (Changed || c)
  | CalledValue CO =>
      (* indirect call *)
      nf ← gets nodeFactory;
      let callee := getValueNodeFor nf (vid CO) in
      assert (notInvalid callee) "Callee node not found!";;
      itr ← ptsFind callee;
      match itr with
      | Some _ =>
          Changed ← forEachPts callee (indirectCallee CS) Changed;
          s ← ptsDeref callee;
          (if negb (getSize s =? 0)
           then modify (upd_unresolvedFPts (λ u, u ∖ {[callee]}))
           else mret tt);;
          mret Changed
      | None =>
          TS ← findCalleesByType CS;
          (if negb (bool_decide (TS = ∅))
           then modify (upd_unresolvedFPts (λ u, {[callee]} ∪ u))
           else mret tt);;
          mret Changed
      end
  end.

Definition runRet (F : Function) (rv : Value) (Changed : bool) : M bool :=
  nf ← gets nodeFactory;
  let rvNode := getValueNodeFor nf (vid rv) in
  assert (notInvalid rvNode) "Return value node not found!";;
  let RT := getReturnNodeFor nf (fid F) in
  assert (notInvalid RT) "Return node not found!";;
  tso ← gets typeShortcutsObj;
  if bool_decide (RT ∈ tso) then mret Changed
  else
    itr ← ptsFind rvNode;
    match itr with
    | Some _ =>
        n ← ptsCopy RT rvNode;
        mret (if 0 <? n then true else Changed)
    | None => mret Changed
    end.


(** [typeShortcuts.find(stInfo)]; a null [stInfo] is no key of the map. *)
Definition findTypeShortcut (stInfo : option StructInfo) : M (option N) :=
  match stInfo with
  | Some si => gets (λ st, typeShortcuts st !! siId si)
  | None => mret None
  end.

(** Inner loop of a load: copy [pts(idx)] into [pts(valNode)]. *)
Definition loadInner (valNode idx2 : N) (Changed : bool)
    : M (LoopCtl * bool) :=
  c ← ptsInsert valNode idx2;
  mret (Next idx2, if c : bool then true else Changed).

(** Outer loop of a load over the objects the source pointer points to;
    [end_] is the bound computed when the loop was entered. *)
Definition loadOuter (valNode ptrNode end_ idx : N) (Changed : bool)
    : M (LoopCtl * bool) :=
  nf ← gets nodeFactory;
  s ← ptsDeref ptrNode;
  if (idx =? getNullObjectNode nf) && (find_next s idx =? end_) then
    ptsInsert valNode idx;;
    mret (Break, Changed)
  else
    itr2 ← ptsFind idx;
    match itr2 with
    | Some _ =>
        c ← forEachPts idx (loadInner valNode) Changed;
        mret (Next idx, c)
    | None => mret (Next idx, Changed)
    end.

Definition runLoad (F : Function) (I : Instruction) (ptr : Value)
    (Changed : bool) : M bool :=
  nf ← gets nodeFactory;
  let valNode := getValueNodeFor nf (iid I) in
  tso ← gets typeShortcutsObj;
  if bool_decide (valNode ∈ tso) then mret Changed
  else
    (* try apply type shortcuts first *)
    Changed ←
      match ity I with
      | PointerTy ElTy _ =>
          if isStructTy ElTy then
            itr ← findTypeShortcut (getStructInfo ElTy (fparent F));
            match itr with
            | Some obj =>
                c ← ptsInsert valNode obj;
                modify (upd_typeShortcutsObj (λ t, {[valNode]} ∪ t));;
                mret (Changed || c)
            | None => mret Changed
            end
          else mret Changed
      | _ => mret Changed
      end;
    (* normal handling *)
    let ptrNode := getValueNodeFor nf (vid ptr) in
    itr ← ptsFind ptrNode;
    match itr with
    | Some s =>
        let end_ := getSize s in
        forPts (N.to_nat end_) ptrNode end_
               (loadOuter valNode ptrNode end_) (find_first s) Changed
    | None => mret Changed
    end.

Definition storeBody (valNode idx : N) (Changed : bool)
    : M (LoopCtl * bool) :=
  nf ← gets nodeFactory;
  if isSpecialNode nf idx then mret (Next idx, Changed)
  else
    n ← ptsCopy idx valNode;
    mret (Next idx, Changed || (0 <? n)).

Definition runStore (val ptr : Value) (Changed : bool) : M bool :=
  if negb (isPointerTy (vty val)) then mret Changed
  else
    nf ← gets nodeFactory;
    let valNode := getValueNodeFor nf (vid val) in
    let ptrNode := getValueNodeFor nf (vid ptr) in
    itr ← ptsFind valNode;
    match itr with
    | Some _ =>
        itr2 ← ptsFind ptrNode;
        match itr2 with
        | Some _ => forEachPts ptrNode (storeBody valNode) Changed
        | None => mret Changed
        end
    | None => mret Changed
    end.

(** Unsigned 32-bit arithmetic of the GEP case. *)
Definition add32 (a b : N) : N := (a + b) mod 2 ^ 32.
Definition sub32 (a b : N) : N := wrap32 (Z.of_N a - Z.of_N b).

(** The resize check of the GEP case: the index to go on with, or [None]
    for the [continue] that drops the object. *)
Definition gepResize (F : Function) (ptrTy : Ty) (idx allocSize : N)
    : M (option N) :=
  if isStructTy ptrTy then
    match getStructInfo ptrTy (fparent F) with
    | None => fatal "Struct info not found!"
    | Some stInfo =>
        let ptrSize := siExpandedSize stInfo in
        if allocSize <? ptrSize then
          nf ← gets nodeFactory;
          if isOpaqueObject nf idx then
            assert (isHeapObject nf idx)
                   "GEP: non-heap obj needs to be resized!";;
            let '(nf', idx') := extendObjectSize nf idx ptrTy (fparent F) in
            modify (upd_nodeFactory (λ _, nf'));;
            mret (Some idx')
          else mret None
        else mret (Some idx)
    end
  else mret (Some idx).

Definition gepBody (F : Function) (I : Instruction) (srcTy : Ty)
    (valNode idx : N) (Changed : bool) : M (LoopCtl * bool) :=
  nf ← gets nodeFactory;
  if isSpecialNode nf idx then
    c ← ptsInsert valNode idx;
    mret (Next idx, Changed || c)
  else
    let allocSize := getObjectSize nf idx in
    r ← gepResize F (getElementTy srcTy) idx allocSize;
    match r with
    | None => mret (Next idx, Changed)
    | Some idx =>
        let offset := getGEPOffset I (fparent F) in
        if (offset <? 0)%Z then mret (Break, Changed)
        else
          let fieldNum := offsetToFieldNum srcTy offset (fparent F) in
          nf ← gets nodeFactory;
          let nidx :=
            if allocSize <? add32 (getObjectOffset nf idx) fieldNum
            then sub32 allocSize 1
            else add32 idx fieldNum in
          c ← ptsInsert valNode nidx;
          mret (Next idx, Changed || c)
    end.

Definition runGEP (F : Function) (I : Instruction) (ptr : Value)
    (srcTy : Ty) (Changed : bool) : M bool :=
  nf ← gets nodeFactory;
  let ptrNode := getValueNodeFor nf (vid ptr) in
  let valNode := getValueNodeFor nf (iid I) in
  itr ← ptsFind ptrNode;
  match itr with
  | Some _ => forEachPts ptrNode (gepBody F I srcTy valNode) Changed
  | None => mret Changed
  end.

(** [pts(dst) ∪= pts(src)] for one source of a bitcast, phi or select. *)
Definition copyFrom (why : string) (dstNode : N) (src : Value)
    (Changed : bool) : M bool :=
  nf ← gets nodeFactory;
  let srcNode := getValueNodeFor nf (vid src) in
  assert (notInvalid srcNode) why;;
  itr ← ptsFind srcNode;
  match itr with
  | Some _ =>
      n ← ptsCopy dstNode srcNode;
      mret (Changed || (0 <? n))
  | None => mret Changed
  end.

Fixpoint copyFromAll (why : string) (dstNode : N) (srcs : list Value)
    (Changed : bool) : M bool :=
  match srcs with
  | [] => mret Changed
  | src :: srcs' =>
      c ← copyFrom why dstNode src Changed;
      copyFromAll why dstNode srcs' c
  end.

(** The body of the instruction loop of [runOnFunction]. *)
Definition runOnInstruction (F : Function) (I : Instruction)
    (Changed : bool) : M bool :=
  match ikind I with
  | NoPointerEffect => mret Changed
  | Ret None => mret Changed
  | Ret (Some rv) => runRet F rv Changed
  | CallBase _ callee _ => runCall I callee Changed
  | Alloca => mret Changed
  | Load ptr => runLoad F I ptr Changed
  | Store val ptr => runStore val ptr Changed
  | GetElementPtr ptr srcTy => runGEP F I ptr srcTy Changed
  | BitCast src =>
      nf ← gets nodeFactory;
      (* the destination node is looked up after the source node;
         neither lookup changes the factory *)
      copyFrom "Failed to find bitcast src node"
               (getValueNodeFor nf (iid I)) src Changed
  | PHI incoming =>
      nf ← gets nodeFactory;
      copyFromAll "Failed to find phi src node"
                  (getValueNodeFor nf (iid I)) incoming Changed
  | Select operands =>
      nf ← gets nodeFactory;
      copyFromAll "Failed to find select src node"
                  (getValueNodeFor nf (iid I)) (tail operands) Changed
  | Unhandled => mret Changed
  end.

Fixpoint runOnInstructions (F : Function) (Is : list Instruction)
    (Changed : bool) : M bool :=
  match Is with
  | [] => mret Changed
  | Inst :: Is' =>
      c ← runOnInstruction F Inst Changed;
      runOnInstructions F Is' c
  end.

Definition runOnFunction (FI : Function * list Instruction) : M bool :=
  modify (upd_unvisited (λ u, u ∖ {[fid (fst FI)]}));;
  runOnInstructions (fst FI) (instructions FI) false.


(** *** [CallGraphPass::doInitialization] *)

Fixpoint forM {A} (f : A → M unit) (l : list A) : M unit :=
  match l with
  | [] => mret tt
  | x :: l' => f x;; forM f l'
  end.

(** [dyn_cast<PointerType>(T)], its element type a struct, looked up in
    the layout oracle. *)
Definition structOfPointer (T : Ty) (module : N) : option StructInfo :=
  match T with
  | PointerTy ElTy _ =>
      if isStructTy ElTy then getStructInfo ElTy module else None
  | _ => None
  end.

(** [table[stInfo].insert(node)] for the three struct tables. *)
Definition recordStruct (si : StructInfo) (node : N)
    (m : gmap N (StructInfo * gset N)) : gmap N (StructInfo * gset N) :=
  <[siId si := (si, {[node]} ∪ default ∅ (snd <$> m !! siId si))]> m.

Fixpoint collapseArrayTy (T : Ty) : Ty :=
  match T with
  | ArrayTy e _ => collapseArrayTy e
  | _ => T
  end.

Definition initGlobal (Mod : Module) (GV : GlobalVariable) : M unit :=
  eg ← gets ExtGobjs;
  if bool_decide (gvguid GV ∈ eg) then mret tt
  else
    let T := collapseArrayTy (gvElementType GV) in
    if isStructTy T then
      match getStructInfo T (mid Mod) with
      | Some stInfo =>
          nf ← gets nodeFactory;
          modify (upd_globalStructs
                    (recordStruct stInfo (getValueNodeFor nf (gvid GV))))
      | None => mret tt
      end
    else mret tt.

(** [CI->getCalledFunction() == &F] *)
Definition callsFunction (F : Function) (U : Instruction) : bool :=
  match getCalledFunction U with
  | Some CF => fid CF =? fid F
  | None => false
  end.

(** [F.getName().equals("main") || F.getName().startswith("SyS_")] *)
Definition isEntry (F : Function) : bool :=
  String.eqb (fname F) "main" || String.prefix "SyS_" (fname F).

Definition initFunction (Mod : Module) (F : Function) : M unit :=
  (* initialize callers *)
  RF ← getFuncDef F;
  modify (upd_Callers (λ m,
    <[fid RF :=
        list_to_set (map iid (filter (λ U, isCallInst U && callsFunction F U)
                                     (users Mod F)))
        ∪ default ∅ (m !! fid RF)]> m));;
  (* collect address-taken functions *)
  (if fhasAddressTaken F then
     modify (upd_AddressTakenFuncs (λ m, <[fid F := F]> m));;
     nf ← gets nodeFactory;
     let '(nf', valNode) := createValueNode nf (fid F) in
     modify (upd_nodeFactory (λ _, nf'));;
     let objNode := getObjectNodeFor nf' (fid F) in
     assert (notInvalid objNode) "Object node not found!";;
     ptsInsert valNode objNode;;
     mret tt
   else mret tt);;
  (* reachable? *)
  (if isEntry F then
     modify (upd_reachable (λ r, {[fid F]} ∪ r));;
     modify (upd_unvisited (λ u, {[fid F]} ∪ u))
   else mret tt);;
  (* type shortcut heuristic? *)
  match structOfPointer (fretTy F) (mid Mod) with
  | Some stInfo =>
      nf ← gets nodeFactory;
      modify (upd_retStructs
                (recordStruct stInfo (getValueNodeFor nf (fid F))))
  | None => mret tt
  end;;
  forM (λ A,
          match structOfPointer (vty A) (mid Mod) with
          | Some stInfo =>
              nf ← gets nodeFactory;
              modify (upd_argStructs
                        (recordStruct stInfo (getValueNodeFor nf (vid A))))
          | None => mret tt
          end) (fargs F).

Definition doInitialization (Mod : Module) : M bool :=
  forM (initGlobal Mod) (mglobals Mod);;
  forM (λ FI, initFunction Mod (fst FI)) (mfunctions Mod);;
  mret false.

(** *** [CallGraphPass::doFinalization] *)

Definition finalizeInstruction (CI : Instruction) : M unit :=
  if isCallInst CI then
    if isInlineAsm CI then mret tt
    else
      (* FuncSet &FS = Ctx->Callees[CI] *)
      modify (upd_Callees (λ m, <[iid CI := default ∅ (m !! iid CI)]> m));;
      FS ← gets (λ st, default ∅ (Callees st !! iid CI));
      forM (λ CF, modify (upd_Callers (λ m,
              <[CF := {[iid CI]} ∪ default ∅ (m !! CF)]> m)))
           (elements FS);;
      (* collect indirect call targets by type *)
      findCalleesByType CI;;
      mret tt
  else mret tt.

Definition doFinalization (Mod : Module) : M bool :=
  forM (λ FI, forM finalizeInstruction (instructions FI)) (mfunctions Mod);;
  mret false.

(** *** [CallGraphPass::doModulePass] *)

Definition shortcutNode (obj node : N) : M unit :=
  ptsInsert node obj;;
  modify (upd_typeShortcutsObj (λ t, {[node]} ∪ t)).

(** One round of the loop over [retStructs]. *)
Definition createTypeShortcut (entry : N * (StructInfo * gset N)) : M unit :=
  let stInfo := fst (snd entry) in
  let nodes := snd (snd entry) in
  as_ ← gets argStructs;
  gs ← gets globalStructs;
  match as_ !! siId stInfo with
  | Some argEntry =>
      if bool_decide (gs !! siId stInfo = None) then
        (* create obj nodes *)
        let stSize := siExpandedSize stInfo in
        nf ← gets nodeFactory;
        let '(nf', obj) :=
          createObjectNode nf (siRealType stInfo) (isFieldUnion stInfo 0) true in
        modify (upd_nodeFactory (λ _, nf'));;
        assert (notInvalid obj) "Failed to create object node!";;
        forM (λ i,
                modify (upd_nodeFactory (λ nf,
                  fst (createFieldNode nf obj i (isFieldUnion stInfo i) true))))
             (map N.of_nat (seq 1 (N.to_nat stSize - 1)));;
        (* setup the type shortcut *)
        modify (upd_typeShortcuts (λ m, <[siId stInfo := obj]> m));;
        (* add point2 info *)
        forM (shortcutNode obj) (elements nodes);;
        forM (shortcutNode obj) (elements (snd argEntry))
      else mret tt
  | None => mret tt
  end.

Fixpoint processFunctions (Fs : list (Function * list Instruction))
    (Changed : bool) : M bool :=
  match Fs with
  | [] => mret Changed
  | FI :: Fs' =>
      if fisDeclaration (fst FI) || fisIntrinsic (fst FI) || fempty (fst FI)
      then processFunctions Fs' Changed
      else
        c ← runOnFunction FI;
        processFunctions Fs' (Changed || c)
  end.

(** [NF.setModule(M); NF.setDataLayout(&M->getDataLayout());] *)
Definition enterModule (Mod : Module) (st : State) : State :=
  upd_nodeFactory (λ nf, setDataLayout (setModule nf (mid Mod)) (mid Mod)) st.

(** [if (typeShortcuts.empty()) for (... : retStructs) ...] *)
Definition createTypeShortcuts : M unit :=
  ts ← gets typeShortcuts;
  if bool_decide (ts = ∅) then
    rs ← gets retStructs;
    forM createTypeShortcut (map_to_list rs)
  else mret tt.

Definition doModulePass (Mod : Module) : M bool :=
  modify (enterModule Mod);;
  (* create type shortcut *)
  createTypeShortcuts;;
  it ← gets Iteration;
  if it <? 2 then processFunctions (mfunctions Mod) false
  else mret false.

(** ** The driver, [IterativeModulePass::run] (KAMain.cc) *)

Section IterativeModulePass.

(** The three virtual member functions. *)
Variable doInitialization' : Module → M bool.
Variable doFinalization' : Module → M bool.
Variable doModulePass' : Module → M bool.

Definition nextIteration : M unit :=
  modify (upd_Iteration (λ i, i + 1)).

(** [for (...) again |= pass(i->first);] *)
Fixpoint sweep (pass : Module → M bool) (modules : list Module)
    (again : bool) : M bool :=
  match modules with
  | [] => mret again
  | Mod :: modules' =>
      r ← pass Mod;
      sweep pass modules' (again || r)
  end.

(** [while (again) { again = false; sweep; Iteration++; }] *)
Fixpoint whileAgain (fuel : nat) (pass : Module → M bool)
    (modules : list Module) : M unit :=
  match fuel with
  | O => outOfFuel
  | S fuel' =>
      again ← sweep pass modules false;
      nextIteration;;
      if again : bool then whileAgain fuel' pass modules else mret tt
  end.

(** [for (...) if (doModulePass(i->first)) ++changed;] *)
Fixpoint countChanged (modules : list Module) (changed : N) : M N :=
  match modules with
  | [] => mret changed
  | Mod :: modules' =>
      r ← doModulePass' Mod;
      countChanged modules' (if r : bool then changed + 1 else changed)
  end.

(** [while (changed) { changed = 0; sweep; Iteration++; }] *)
Fixpoint whileChanged (fuel : nat) (modules : list Module) : M unit :=
  match fuel with
  | O => outOfFuel
  | S fuel' =>
      changed ← countChanged modules 0;
      nextIteration;;
      if negb ((changed : N) =? 0) then whileChanged fuel' modules
      else mret tt
  end.

Definition run (fuel : nat) (modules : list Module) : M unit :=
  modify (upd_Iteration (λ _, 0));;
  whileAgain fuel doInitialization' modules;;
  whileChanged fuel modules;;
  modify (upd_Iteration (λ _, 0));;
  whileAgain fuel doFinalization' modules.

End IterativeModulePass.

(** [CGPass.run(GlobalCtx.Modules)] *)
Definition CallGraphPass_run (fuel : nat) (modules : list Module) : M unit :=
  run doInitialization doFinalization doModulePass fuel modules.

End Analysis.

(** ** A concrete node factory *)

(** Modelled from the spec: NodeFactory.h and PointTo.cc are not part of
    the sources at hand.  Nodes are numbered densely in creation order;
    the object nodes of one allocation site are contiguous and each knows
    its distance from the base; the size of a group is the number of its
    nodes; indices 0 and 1 are the special objects [Universal] and
    [NullObject].  A fresh node takes the next free index. *)
Module SpecFactory.

Inductive NodeKind :=
| ValueNode | ObjectNode | ReturnNode | VarargNode | SpecialNode.

Record Node := mkNode {
  nkind : NodeKind;
  nvalue : option ValueRef;
  noffset : N;
  nheap : bool;
  nopaque : bool
}.

Record t := mkFactory {
  nodes : list Node;
  valueNodes : gmap N N;
  objectNodes : gmap N N;
  returnNodes : gmap N N;
  varargNodes : gmap N N;
  curModule : N
}.

Definition node (nf : t) (i : N) : option Node := nodes nf !! N.to_nat i.

Definition isKind (k : NodeKind) (n : Node) : bool :=
  match k, nkind n with
  | ValueNode, ValueNode | ObjectNode, ObjectNode | ReturnNode, ReturnNode
  | VarargNode, VarargNode | SpecialNode, SpecialNode => true
  | _, _ => false
  end.

Definition offsetOf (nf : t) (i : N) : N :=
  from_option noffset 0 (node nf i).

(** Length of the run of object nodes with offsets [k], [k+1], ... *)
Fixpoint groupLen (ns : list Node) (k : N) : N :=
  match ns with
  | n :: ns' =>
      if isKind ObjectNode n && (noffset n =? k)
      then 1 + groupLen ns' (k + 1) else 0
  | [] => 0
  end.

Definition baseOf (nf : t) (i : N) : N := i - offsetOf nf i.

Definition sizeOf (nf : t) (i : N) : N :=
  groupLen (drop (N.to_nat (baseOf nf i)) (nodes nf)) 0.

Definition push (nf : t) (n : Node) : t * N :=
  ({| nodes := nodes nf ++ [n]; valueNodes := valueNodes nf;
      objectNodes := objectNodes nf; returnNodes := returnNodes nf;
      varargNodes := varargNodes nf; curModule := curModule nf |},
   N.of_nat (length (nodes nf))).

Definition withValueNode (v i : N) (nf : t) : t :=
  {| nodes := nodes nf; valueNodes := <[v := i]> (valueNodes nf);
     objectNodes := objectNodes nf; returnNodes := returnNodes nf;
     varargNodes := varargNodes nf; curModule := curModule nf |}.

Definition withModule (m : N) (nf : t) : t :=
  {| nodes := nodes nf; valueNodes := valueNodes nf;
     objectNodes := objectNodes nf; returnNodes := returnNodes nf;
     varargNodes := varargNodes nf; curModule := m |}.

Definition lookupIndex (m : gmap N N) (v : N) : N :=
  default InvalidIndex (m !! v).

#[global] Instance factory : AndersNodeFactory t := {|
  getValueNodeFor nf v := lookupIndex (valueNodes nf) v;
  getObjectNodeFor nf v := lookupIndex (objectNodes nf) v;
  getReturnNodeFor nf f := lookupIndex (returnNodes nf) f;
  getVarargNodeFor nf f := lookupIndex (varargNodes nf) f;
  getNullObjectNode _ := 1;
  getValueForNode nf i := node nf i ≫= nvalue;
  getObjectSize := sizeOf;
  getObjectOffset := offsetOf;
  isSpecialNode nf i := from_option (isKind SpecialNode) false (node nf i);
  isObjectNode nf i := from_option (isKind ObjectNode) false (node nf i);
  isHeapObject nf i := from_option nheap false (node nf i);
  isOpaqueObject nf i := from_option nopaque false (node nf i);
  createValueNode nf v :=
    let '(nf', i) := push nf (mkNode ValueNode (Some (OtherValue v)) 0 false false) in
    (withValueNode v i nf', i);
  createObjectNode nf _ _ heap :=
    push nf (mkNode ObjectNode None 0 heap false);
  createFieldNode nf _ i _ heap :=
    push nf (mkNode ObjectNode None i heap false);
  createOpaqueObjectNode nf cs heap :=
    push nf (mkNode ObjectNode (Some (OtherValue cs)) 0 heap true);
  setModule nf m := withModule m nf;
  setDataLayout nf _ := nf
|}.

Definition withNodes (ns : list Node) (nf : t) : t :=
  {| nodes := ns; valueNodes := valueNodes nf;
     objectNodes := objectNodes nf; returnNodes := returnNodes nf;
     varargNodes := varargNodes nf; curModule := curModule nf |}.

(** Resizing an opaque heap object in place: possible in a dense
    numbering when the object is the last node; its type is then known
    and its trailing fields are materialized.  The base index is handed
    back in every case. *)
Definition extendObjectSize (expandedSize : Ty → N → N)
    (nf : t) (idx : N) (T : Ty) (module : N) : t * N :=
  if N.of_nat (length (nodes nf)) =? idx + 1 then
    let known :=
      alter (λ n, mkNode (nkind n) (nvalue n) (noffset n) (nheap n) false)
            (N.to_nat idx) (nodes nf) in
    (foldl (λ nf i, fst (push nf (mkNode ObjectNode None i true false)))
           (withNodes known nf)
           (map N.of_nat (seq 1 (N.to_nat (expandedSize T module) - 1))),
     idx)
  else (nf, idx).

Definition special : Node := mkNode SpecialNode None 0 false false.

(** The factory before any value is registered. *)
Definition empty : t :=
  {| nodes := [special; special]; valueNodes := ∅; objectNodes := ∅;
     returnNodes := ∅; varargNodes := ∅; curModule := 0 |}.

End SpecFactory.


(** * Concrete programs *)

Module Examples.

Import SpecFactory.

(** A function [void name(void)] with a body, in module 1. *)
Definition voidFn (id : N) (name : string) : Function :=
  {| fid := id; fname := name; fguid := id; fparent := 1; fretTy := VoidTy;
     fargs := []; fisVarArg := false; fisIntrinsic := false;
     fisDeclaration := false; fempty := false; fhasAddressTaken := false;
     faddrSpace := 0 |}.

Definition retVoid (id : N) : Instruction := mkInst id VoidTy (Ret None).
Definition callVoid (id : N) (F : Function) : Instruction :=
  mkInst id VoidTy (CallBase Call (CalledFunction F) []).

(** The state before [run]: nothing recorded yet. *)
Definition initial (nf : SpecFactory.t) : State :=
  {| Funcs := ∅; ExtGobjs := ∅; AddressTakenFuncs := ∅; Callees := ∅;
     Callers := ∅; nodeFactory := nf; funcPtsGraph := ∅; reachable := ∅;
     unvisited := ∅; unresolvedFPts := ∅; calleeByType := ∅;
     typeShortcuts := ∅; typeShortcutsObj := ∅; retStructs := ∅;
     argStructs := ∅; globalStructs := ∅; Iteration := 0 |}.

(** Oracles for programs without struct types and without GEPs. *)
Definition noStructInfo (T : Ty) (module : N) : option StructInfo := None.
Definition noGEPOffset (I : Instruction) (module : N) : Z := 0%Z.
Definition fieldZero (T : Ty) (offset : Z) (module : N) : N := 0.
Definition sizeOne (T : Ty) (module : N) : N := 1.

Definition runPass (fuel : nat) (modules : list Module) (st : State)
    : outcome unit * State :=
  CallGraphPass_run 14 noStructInfo noGEPOffset fieldZero
                    (SpecFactory.extendObjectSize sizeOne) fuel modules st.

(** ** [main] calls nothing; [foo], which nobody calls, calls [bar] *)

Definition f_main : Function := voidFn 100 "main".
Definition f_foo : Function := voidFn 101 "foo".
Definition f_bar : Function := voidFn 102 "bar".

Definition detached : Module :=
  {| mid := 1; mglobals := [];
     mfunctions := [(f_main, [retVoid 200]);
                    (f_foo, [callVoid 201 f_bar; retVoid 202]);
                    (f_bar, [retVoid 203])] |}.

Definition detached_final : State :=
  snd (runPass 2 [detached] (initial SpecFactory.empty)).

(** ** The call chain of tests/1.c, with [void] functions: [main] calls
    [foo], [foo] calls [bar] *)

Definition chain : Module :=
  {| mid := 1; mglobals := [];
     mfunctions := [(f_bar, [retVoid 210]);
                    (f_foo, [callVoid 211 f_bar; retVoid 212]);
                    (f_main, [callVoid 213 f_foo; retVoid 214])] |}.

Definition chain_final : State :=
  snd (runPass 2 [chain] (initial SpecFactory.empty)).

(** ** The same chain beside [cb], a function whose address is taken *)

Definition f_cb : Function :=
  {| fid := 103; fname := "cb"; fguid := 103; fparent := 1; fretTy := VoidTy;
     fargs := []; fisVarArg := false; fisIntrinsic := false;
     fisDeclaration := false; fempty := false; fhasAddressTaken := true;
     faddrSpace := 0 |}.

Definition chainTaken : Module :=
  {| mid := 1; mglobals := [];
     mfunctions := mfunctions chain ++ [(f_cb, [retVoid 215])] |}.

(** The factory holds the object node of [cb], at index 2. *)
Definition cbFactory : SpecFactory.t :=
  {| nodes := [special; special;
               mkNode ObjectNode (Some (FunctionValue f_cb)) 0 false false];
     valueNodes := ∅; objectNodes := {[103 := 2]};
     returnNodes := ∅; varargNodes := ∅; curModule := 1 |}.

Definition chainTaken_final : State :=
  snd (runPass 2 [chainTaken] (initial cbFactory)).

End Examples.

(** ** A GEP into the last field of a global *)

Module GepExample.

Import SpecFactory.

(** Nodes 0 and 1 are special; 2 and 3 are the value nodes of the
    pointer operand (value 300) and of the GEP (instruction 301); 4, 5, 6
    are the three fields of one global; 7 is another global. *)
Definition valueNode (v : N) : Node :=
  mkNode ValueNode (Some (OtherValue v)) 0 false false.
Definition fieldNode (v offset : N) : Node :=
  mkNode ObjectNode (Some (OtherValue v)) offset false false.

Definition factory : SpecFactory.t :=
  {| nodes := [special; special; valueNode 300; valueNode 301;
               fieldNode 400 0; fieldNode 400 1; fieldNode 400 2;
               fieldNode 401 0];
     valueNodes := {[300 := 2; 301 := 3]};
     objectNodes := {[400 := 4; 401 := 7]};
     returnNodes := ∅; varargNodes := ∅; curModule := 1 |}.

(** [struct pair], two fields, and [struct triple], three. *)
Definition pairTy : Ty := NamedStructTy "struct.pair".
Definition tripleTy : Ty := NamedStructTy "struct.triple".
Definition structInfo (T : Ty) (module : N) : option StructInfo :=
  match T with
  | NamedStructTy "struct.pair" => Some (mkStructInfo 1 2 [false; false] T)
  | NamedStructTy "struct.triple" =>
      Some (mkStructInfo 2 3 [false; false; false] T)
  | _ => None
  end.

(** Both GEPs address the last field of their source type. *)
Definition gepOffset (I : Instruction) (module : N) : Z := 8%Z.
Definition lastField (T : Ty) (offset : Z) (module : N) : N :=
  match T with
  | NamedStructTy "struct.pair" => 1
  | _ => 2
  end.

Definition f : Function := Examples.voidFn 100 "f".
Definition ptr : Value := mkValue 300 (PointerTy pairTy 0).
Definition gepPair : Instruction :=
  mkInst 301 (PointerTy (IntegerTy 32) 0) (GetElementPtr ptr pairTy).
Definition gepTriple : Instruction :=
  mkInst 301 (PointerTy (IntegerTy 32) 0) (GetElementPtr ptr tripleTy).

(** The pointer operand points to the last field of the global. *)
Definition before : State :=
  upd_funcPtsGraph (λ _, {[2 := {[6]}]}) (Examples.initial factory).

Definition after (I : Instruction) : outcome bool * State :=
  runOnInstruction 14 structInfo gepOffset lastField
    (SpecFactory.extendObjectSize (λ T m, from_option siExpandedSize 1 (structInfo T m)))
    f I false before.

End GepExample.

(** ** A call of an allocation wrapper *)

Module AllocExample.

Import SpecFactory.

(** Nodes 0 and 1 are special; 2 is the return node of [my_alloc]
    (function 100); 3 is the value node of the call (instruction 500);
    4 is an opaque heap object; 5 is a global object. *)
Definition factory : SpecFactory.t :=
  {| nodes := [special; special;
               mkNode ReturnNode None 0 false false;
               mkNode ValueNode (Some (OtherValue 500)) 0 false false;
               mkNode ObjectNode (Some (OtherValue 600)) 0 true true;
               mkNode ObjectNode (Some (OtherValue 601)) 0 false false];
     valueNodes := {[500 := 3]};
     objectNodes := {[600 := 4; 601 := 5]};
     returnNodes := {[100 := 2]}; varargNodes := ∅; curModule := 1 |}.

Definition my_alloc : Function :=
  {| fid := 100; fname := "my_alloc"; fguid := 100; fparent := 1;
     fretTy := PointerTy (IntegerTy 8) 0; fargs := [];
     fisVarArg := false; fisIntrinsic := false; fisDeclaration := false;
     fempty := false; fhasAddressTaken := false;
     faddrSpace := 0 |}.

Definition call : Instruction :=
  mkInst 500 (PointerTy (IntegerTy 8) 0)
         (CallBase Call (CalledFunction my_alloc) []).

(** [my_alloc] may return the heap object or the global. *)
Definition before : State :=
  upd_funcPtsGraph (λ _, {[2 := {[4; 5]}]}) (Examples.initial factory).

Definition after : outcome bool * State := handleCall call my_alloc before.

End AllocExample.

(** ** Indirect calls and two address-taken functions *)

Module TypeExample.

(** [double printf_like(...)], variadic, its address taken. *)
Definition variadic : Function :=
  {| fid := 300; fname := "printf_like"; fguid := 300; fparent := 1;
     fretTy := PrimTy PDouble; fargs := [];
     fisVarArg := true; fisIntrinsic := false; fisDeclaration := false;
     fempty := false; fhasAddressTaken := true;
     faddrSpace := 0 |}.

(** [void handler(void)], its address taken. *)
Definition handler : Function :=
  {| fid := 301; fname := "handler"; fguid := 301; fparent := 1;
     fretTy := VoidTy; fargs := [];
     fisVarArg := false; fisIntrinsic := false; fisDeclaration := false;
     fempty := false; fhasAddressTaken := true;
     faddrSpace := 0 |}.

Definition fpVoid : Value :=
  mkValue 700 (PointerTy (FunctionTy VoidTy [] false) 0).
Definition callVoid : Instruction :=
  mkInst 702 VoidTy (CallBase Call (CalledValue fpVoid) []).

Definition factory : SpecFactory.t :=
  {| SpecFactory.nodes :=
       [SpecFactory.special; SpecFactory.special;
        SpecFactory.mkNode SpecFactory.ValueNode
          (Some (OtherValue 700)) 0 false false];
     SpecFactory.valueNodes := {[700 := 2]};
     SpecFactory.objectNodes := ∅; SpecFactory.returnNodes := ∅;
     SpecFactory.varargNodes := ∅; SpecFactory.curModule := 1 |}.

Definition taken : State :=
  upd_AddressTakenFuncs (λ _, {[300 := variadic; 301 := handler]})
                        (Examples.initial factory).

End TypeExample.

(** ** An indirect call with two arguments and five candidates *)

Module ParamExample.

Definition bytePtr : Ty := PointerTy (IntegerTy 8) 0.
Definition filePtr : Ty := PointerTy (NamedStructTy "struct.file") 0.

Definition candidate (id : N) (name : string) (retTy : Ty)
    (params : list Ty) (varArg : bool) : Function :=
  {| fid := id; fname := name; fguid := id; fparent := 1; fretTy := retTy;
     fargs := imap (λ i T, mkValue (10 * id + N.of_nat i) T) params;
     fisVarArg := varArg; fisIntrinsic := false; fisDeclaration := false;
     fempty := false; fhasAddressTaken := true; faddrSpace := 0 |}.

(** [reader] takes a pointer to [struct file] and an [i32], and returns
    [i32]. *)
Definition reader : Function :=
  candidate 310 "reader" (IntegerTy 32) [filePtr; IntegerTy 32] false.
(** [scaler] takes a byte pointer and a [double], and returns [i32]. *)
Definition scaler : Function :=
  candidate 311 "scaler" (IntegerTy 32) [bytePtr; PrimTy PDouble] false.
(** [unary] takes a byte pointer, and returns [i32]. *)
Definition unary : Function :=
  candidate 312 "unary" (IntegerTy 32) [bytePtr] false.
(** [logger] is variadic with one named parameter, a byte pointer, and
    returns nothing. *)
Definition logger : Function :=
  candidate 313 "logger" VoidTy [bytePtr] true.
(** [tracer] is variadic with three named parameters (a byte pointer,
    an [i64], a byte pointer), one more than the call site has
    arguments, and returns [i32]. *)
Definition tracer : Function :=
  candidate 314 "tracer" (IntegerTy 32) [bytePtr; IntegerTy 64; bytePtr] true.

(** [%r = call i32 %fp(%s, %n)] with a byte pointer [%s] and an [i64]
    [%n]. *)
Definition fp : Value :=
  mkValue 700 (PointerTy (FunctionTy (IntegerTy 32)
                            [bytePtr; IntegerTy 64] false) 0).
Definition call : Instruction :=
  mkInst 703 (IntegerTy 32)
    (CallBase Call (CalledValue fp)
       [mkValue 704 bytePtr; mkValue 705 (IntegerTy 64)]).

Definition taken : State :=
  upd_AddressTakenFuncs
    (λ _, {[310 := reader; 311 := scaler; 312 := unary; 313 := logger;
            314 := tracer]})
    (Examples.initial TypeExample.factory).

End ParamExample.

(** ** An invoke beside a call *)

Module InvokeExample.

(** [main] invokes [bar] and then calls it. *)
Definition invokeBar : Instruction :=
  mkInst 801 VoidTy (CallBase Invoke (CalledFunction Examples.f_bar) []).

Definition guarded : Module :=
  {| mid := 1; mglobals := [];
     mfunctions := [(Examples.f_bar, [Examples.retVoid 800]);
                    (Examples.f_main,
                     [invokeBar; Examples.callVoid 802 Examples.f_bar;
                      Examples.retVoid 803])] |}.

Definition start : State := Examples.initial SpecFactory.empty.

End InvokeExample.

(** * The reachability equation *)

(** The operator of the reachability equation: the entries, and the
    recorded callees of the call sites in the functions of [R]. *)
Definition reachStep (modules : list Module) (callees : gmap N (gset N))
    (entries R : gset N) : gset N :=
  entries ∪
  ⋃ (map (λ I, default ∅ (callees !! iid I))
         (concat (map instructions
                      (filter (λ FI, fid (fst FI) ∈ R)
                              (concat (map mfunctions modules)))))).


(** * The shared context and the loader (Global.h, KAMain.cc) *)

(** ** [GlobalContext::add] and [GlobalContext::get] *)

Module GlobalContext.

(** [std::map<std::string, void*> PassData].  A [void*] is the address it
    holds; the null pointer is address 0. *)
Definition nullptr : N := 0.

Definition add (name : string) (data : N) (PassData : gmap string N)
    : bool * gmap string N :=
  match PassData !! name with
  | Some _ => (false, PassData)
  | None => (true, <[name := data]> PassData)
  end.

Definition get (name : string) (PassData : gmap string N) : N :=
  match PassData !! name with
  | Some data => data
  | None => nullptr
  end.

(** A run of [add] calls, in order, with the value each call returns. *)
Fixpoint addAll (calls : list (string * N)) (PassData : gmap string N)
    : list bool * gmap string N :=
  match calls with
  | [] => ([], PassData)
  | (name, data) :: calls' =>
      let '(ok, PassData') := add name data PassData in
      let '(oks, PassData'') := addAll calls' PassData' in
      (ok :: oks, PassData'')
  end.

End GlobalContext.

(** ** [doBasicInitialization] and the loading loop of [main] *)

Module KAMain.

(** The maps of [GlobalContext] the loader fills, keyed by GUID, and the
    list of loaded modules with their file names. *)
Record Context := mkContext {
  Gobjs : gmap N GlobalVariable;
  ExtGobjs : gmap N GlobalVariable;
  Funcs : gmap N Function;
  ExtFuncs : gmap N Function;
  Modules : list (Module * string)
}.

Definition empty : Context :=
  {| Gobjs := ∅; ExtGobjs := ∅; Funcs := ∅; ExtFuncs := ∅; Modules := [] |}.

(** [for (x : l) f(x)], an [assert] that fails ending the program. *)
Fixpoint forEach {A} (f : A → Context → outcome Context) (l : list A)
    (ctx : Context) : outcome Context :=
  match l with
  | [] => Done ctx
  | x :: l' =>
      match f x ctx with
      | Done ctx' => forEach f l' ctx'
      | Fatal why => Fatal why
      | OutOfFuel => OutOfFuel
      end
  end.

Section Loader.

(** [GlobalValue::hasExternalLinkage()] of a global variable or a
    function, and [GlobalVariable::isDeclaration()], read through the
    object's identity. *)
Variable hasExternalLinkage : N → bool.
Variable isDeclaration : N → bool.

(** One round of the loop over [M->globals()]. *)
Definition recordGlobal (GV : GlobalVariable) (ctx : Context)
    : outcome Context :=
  if hasExternalLinkage (gvid GV) then
    let GVID := gvguid GV in
    if negb (isDeclaration (gvid GV)) then
      match Gobjs ctx !! GVID with
      | Some _ => Fatal "GlobalCtx.Gobjs.count(GVID) == 0"
      | None =>
          Done {| Gobjs := <[GVID := GV]> (Gobjs ctx);
                  ExtGobjs := ExtGobjs ctx; Funcs := Funcs ctx;
                  ExtFuncs := ExtFuncs ctx; Modules := Modules ctx |}
      end
    else
      Done {| Gobjs := Gobjs ctx;
              ExtGobjs := <[GVID := GV]> (ExtGobjs ctx);
              Funcs := Funcs ctx; ExtFuncs := ExtFuncs ctx;
              Modules := Modules ctx |}
  else Done ctx.

(** One round of the loop over the functions of [M]. *)
Definition recordFunction (F : Function) (ctx : Context)
    : outcome Context :=
  if hasExternalLinkage (fid F) then
    let FID := fguid F in
    if negb (fisDeclaration F) && negb (fempty F) then
      match Funcs ctx !! FID with
      | Some _ => Fatal "GlobalCtx.Funcs.count(FID) == 0"
      | None =>
          Done {| Gobjs := Gobjs ctx; ExtGobjs := ExtGobjs ctx;
                  Funcs := <[FID := F]> (Funcs ctx);
                  ExtFuncs := ExtFuncs ctx; Modules := Modules ctx |}
      end
    else
      Done {| Gobjs := Gobjs ctx; ExtGobjs := ExtGobjs ctx;
              Funcs := Funcs ctx;
              ExtFuncs := <[FID := F]> (ExtFuncs ctx);
              Modules := Modules ctx |}
  else Done ctx.

(** [doBasicInitialization(M)].  The struct analysis it starts with
    fills the layout oracle, which the pass reads as [getStructInfo]. *)
Definition doBasicInitialization (M : Module) (ctx : Context)
    : outcome Context :=
  match forEach recordGlobal (mglobals M) ctx with
  | Done ctx' => forEach recordFunction (map fst (mfunctions M)) ctx'
  | Fatal why => Fatal why
  | OutOfFuel => OutOfFuel
  end.

(** One input file: its name and what [parseIRFile] made of it
    ([None] for a file that does not load, which is reported and
    skipped). *)
Definition loadFile (file : string * option Module) (ctx : Context)
    : outcome Context :=
  match snd file with
  | None => Done ctx
  | Some M =>
      doBasicInitialization M
        {| Gobjs := Gobjs ctx; ExtGobjs := ExtGobjs ctx;
           Funcs := Funcs ctx; ExtFuncs := ExtFuncs ctx;
           Modules := Modules ctx ++ [(M, fst file)] |}
  end.

(** [for (auto &[id, x] : defined) ext.erase(id);] *)
Definition eraseDefined {A} (defined ext : gmap N A) : gmap N A :=
  foldr (λ entry m, delete (fst entry) m) ext (map_to_list defined).

(** "one more preprocessing to clear defined global variables and
    functions" *)
Definition clearDefined (ctx : Context) : Context :=
  {| Gobjs := Gobjs ctx;
     ExtGobjs := eraseDefined (Gobjs ctx) (ExtGobjs ctx);
     Funcs := Funcs ctx;
     ExtFuncs := eraseDefined (Funcs ctx) (ExtFuncs ctx);
     Modules := Modules ctx |}.

(** [main], up to the call of [populateNodeFactory]. *)
Definition loadModules (files : list (string * option Module))
    : outcome Context :=
  match forEach loadFile files empty with
  | Done ctx => Done (clearDefined ctx)
  | Fatal why => Fatal why
  | OutOfFuel => OutOfFuel
  end.

End Loader.

(** The modules that loaded, in the order of the command line. *)
Definition loaded (files : list (string * option Module)) : list Module :=
  omap snd files.

(** The functions and global variables of a list of modules. *)
Definition functionsOf (ms : list Module) : list Function :=
  concat (map (λ M, map fst (mfunctions M)) ms).
Definition globalsOf (ms : list Module) : list GlobalVariable :=
  concat (map mglobals ms).

End KAMain.

(** ** Two files and one that does not load *)

Module LoadExample.

(** [a.bc] defines [main] and declares [foo]; [b.bc] defines [foo].  The
    declaration and the definition of [foo] are two objects with one
    GUID. *)
Definition fooDecl : Function :=
  {| fid := 111; fname := "foo"; fguid := 101; fparent := 1;
     fretTy := VoidTy; fargs := []; fisVarArg := false;
     fisIntrinsic := false; fisDeclaration := true; fempty := true;
     fhasAddressTaken := false;
     faddrSpace := 0 |}.
Definition fooDef : Function :=
  {| fid := 101; fname := "foo"; fguid := 101; fparent := 2;
     fretTy := VoidTy; fargs := []; fisVarArg := false;
     fisIntrinsic := false; fisDeclaration := false; fempty := false;
     fhasAddressTaken := false;
     faddrSpace := 0 |}.

(** [extern int counter;] in [a.bc]; [int limit = 0;] in [b.bc]. *)
Definition counterDecl : GlobalVariable := mkGlobal 121 "counter" 131 (IntegerTy 32).
Definition limitDef : GlobalVariable := mkGlobal 122 "limit" 132 (IntegerTy 32).

Definition a_bc : Module :=
  {| mid := 1; mglobals := [counterDecl];
     mfunctions := [(Examples.f_main,
                     [Examples.callVoid 140 fooDecl; Examples.retVoid 141]);
                    (fooDecl, [])] |}.
Definition b_bc : Module :=
  {| mid := 2; mglobals := [limitDef];
     mfunctions := [(fooDef, [Examples.retVoid 142])] |}.

Definition files : list (string * option Module) :=
  [("a.bc", Some a_bc); ("missing.bc", None); ("b.bc", Some b_bc)].

Definition hasExternalLinkage (v : N) : bool := true.
(** Of the two global variables, [counter] is the declaration. *)
Definition isDeclaration (v : N) : bool := v =? 121.

Definition ctx : KAMain.Context :=
  match KAMain.loadModules hasExternalLinkage isDeclaration files with
  | Done ctx => ctx
  | _ => KAMain.empty
  end.

(** The state the pass starts from: the maps of the context, beside
    empty tables. *)
Definition start : State :=
  {| Funcs := KAMain.Funcs ctx; ExtGobjs := dom (KAMain.ExtGobjs ctx);
     AddressTakenFuncs := ∅; Callees := ∅; Callers := ∅;
     nodeFactory := SpecFactory.empty; funcPtsGraph := ∅; reachable := ∅;
     unvisited := ∅; unresolvedFPts := ∅; calleeByType := ∅;
     typeShortcuts := ∅; typeShortcutsObj := ∅; retStructs := ∅;
     argStructs := ∅; globalStructs := ∅; Iteration := 0 |}.

End LoadExample.

(** ** The virtual member functions of [IterativeModulePass] (Global.h) *)

Module IterativeModulePass.
Section Defaults.

Context {NF : Type} `{AndersNodeFactory NF}.

(** "run on each module before iterative pass" *)
Definition doInitialization (Mod : Module) : M (NF:=NF) bool := mret true.
(** "run on each module after iterative pass" *)
Definition doFinalization (Mod : Module) : M (NF:=NF) bool := mret true.
(** "iterative pass" *)
Definition doModulePass (Mod : Module) : M (NF:=NF) bool := mret false.

End Defaults.
End IterativeModulePass.

(** ** A pointer, a value and three objects *)

Module MemExample.

Import SpecFactory.

(** Nodes 0 and 1 are special (1 is the null object); 2, 3 and 6 are the
    value nodes of the pointer [%p] (value 300), of the value [%v] (value
    301) and of the instruction 302; 4 and 5 are objects, 5 that of the
    function [cb]. *)
Definition factory : SpecFactory.t :=
  {| nodes := [special; special;
               mkNode ValueNode (Some (OtherValue 300)) 0 false false;
               mkNode ValueNode (Some (OtherValue 301)) 0 false false;
               mkNode ObjectNode (Some (OtherValue 400)) 0 false false;
               mkNode ObjectNode (Some (FunctionValue Examples.f_cb))
                      0 false false;
               mkNode ValueNode (Some (OtherValue 302)) 0 false false];
     valueNodes := {[300 := 2; 301 := 3; 302 := 6]};
     objectNodes := {[400 := 4; 103 := 5]};
     returnNodes := ∅; varargNodes := ∅; curModule := 1 |}.

Definition fnPtrTy : Ty := PointerTy (FunctionTy VoidTy [] false) 0.
Definition p : Value := mkValue 300 (PointerTy fnPtrTy 0).
Definition v : Value := mkValue 301 fnPtrTy.

(** [%p] points to the null object and to object 4; [%v] points to
    [cb]. *)
Definition before : State :=
  upd_funcPtsGraph (λ _, {[2 := {[1; 4]}; 3 := {[5]}]})
                   (Examples.initial factory).

(** [store %v, %p], then [%302 = load %p]. *)
Definition store : Instruction := mkInst 303 VoidTy (Store v p).
Definition load : Instruction := mkInst 302 fnPtrTy (Load p).
(** [%302 = bitcast %v] and [%302 = phi [%v], [%p]]. *)
Definition cast : Instruction := mkInst 302 fnPtrTy (BitCast v).
Definition phi : Instruction := mkInst 302 fnPtrTy (PHI [v; p]).

(** The state after the store. *)
Definition stored : State := snd (runStore v p false before).

(** [call void %v()], an indirect call through [%v]. *)
Definition icall : Instruction :=
  mkInst 330 VoidTy (CallBase Call (CalledValue v) []).

(** A module whose only function stores, then loads. *)
Definition prog : Module :=
  {| mid := 1; mglobals := [];
     mfunctions := [(Examples.f_main, [store; load; Examples.retVoid 304])] |}.

(** A module whose only function loads, then stores. *)
Definition late : Module :=
  {| mid := 1; mglobals := [];
     mfunctions := [(Examples.f_main, [load; store; Examples.retVoid 304])] |}.

End MemExample.

(** ** The run over the module that loads before it stores *)

Module CapExample.

Import Examples.

(** The state in which the second round of the fixpoint loop starts:
    after the initialization sweep, one sweep of [doModulePass] and the
    increment of the counter. *)
Definition swept : State :=
  snd ((modify (upd_Iteration (λ _, 0));;
        whileAgain 1 (doInitialization noStructInfo) [MemExample.late];;
        countChanged (doModulePass 14 noStructInfo noGEPOffset fieldZero
                        (SpecFactory.extendObjectSize sizeOne))
                     [MemExample.late] 0;;
        nextIteration)
         MemExample.before).

Definition final : State :=
  snd (runPass 2 [MemExample.late] MemExample.before).

End CapExample.

(** ** A call of a function that hands back a pointer *)

Module CallExample.

Import SpecFactory.

Definition bytePtr : Ty := PointerTy (IntegerTy 8) 0.

(** [i8* pick(i8* %x)], with a body. *)
Definition x : Value := mkValue 310 bytePtr.
Definition pick : Function :=
  {| fid := 104; fname := "pick"; fguid := 104; fparent := 1;
     fretTy := bytePtr; fargs := [x]; fisVarArg := false;
     fisIntrinsic := false; fisDeclaration := false; fempty := false;
     fhasAddressTaken := false;
     faddrSpace := 0 |}.

(** [%320 = call i8* @pick(i8* %v)] *)
Definition v : Value := mkValue 301 bytePtr.
Definition call : Instruction :=
  mkInst 320 bytePtr (CallBase Call (CalledFunction pick) [v]).

(** Nodes 0 and 1 are special; 2, 3 and 5 are the value nodes of [%v],
    of the formal [%x] and of the call; 4 is the return node of [pick];
    6 and 7 are objects. *)
Definition factory : SpecFactory.t :=
  {| nodes := [special; special;
               mkNode ValueNode (Some (OtherValue 301)) 0 false false;
               mkNode ValueNode (Some (OtherValue 310)) 0 false false;
               mkNode ReturnNode None 0 false false;
               mkNode ValueNode (Some (OtherValue 320)) 0 false false;
               mkNode ObjectNode (Some (OtherValue 400)) 0 false false;
               mkNode ObjectNode (Some (OtherValue 401)) 0 false false];
     valueNodes := {[301 := 2; 310 := 3; 320 := 5]};
     objectNodes := {[400 := 6; 401 := 7]};
     returnNodes := {[104 := 4]}; varargNodes := ∅; curModule := 1 |}.

(** [%v] points to object 6; [pick] may return object 7. *)
Definition before : State :=
  upd_funcPtsGraph (λ _, {[2 := {[6]}; 4 := {[7]}]})
                   (Examples.initial factory).

End CallExample.

(** ** The chain beside [cb], when the finalization sweep starts *)

Module FinalExample.

Import Examples.

(** What the initialization sweep and the fixpoint loop leave. *)
Definition analysed : State :=
  snd ((whileAgain 2 (doInitialization noStructInfo) [chainTaken];;
        whileChanged (doModulePass 14 noStructInfo noGEPOffset fieldZero
                        (SpecFactory.extendObjectSize sizeOne))
                     2 [chainTaken])
         (initial cbFactory)).

End FinalExample.

(** ** A struct type that is returned and taken as an argument *)

Module ShortcutExample.

Import SpecFactory.

(** [struct s], two fields; node 2 is the value node of a function that
    returns a [struct s *], node 3 that of an argument of this type. *)
Definition sTy : Ty := NamedStructTy "struct.s".
Definition sInfo : StructInfo := mkStructInfo 1 2 [false; false] sTy.

Definition factory : SpecFactory.t :=
  {| nodes := [special; special;
               mkNode ValueNode (Some (OtherValue 100)) 0 false false;
               mkNode ValueNode (Some (OtherValue 300)) 0 false false];
     valueNodes := {[100 := 2; 300 := 3]}; objectNodes := ∅;
     returnNodes := ∅; varargNodes := ∅; curModule := 1 |}.

Definition before : State :=
  upd_retStructs (λ _, {[1 := (sInfo, {[2]})]})
    (upd_argStructs (λ _, {[1 := (sInfo, {[3]})]})
       (Examples.initial factory)).

Definition entry : N * (StructInfo * gset N) := (1, (sInfo, {[2]})).

Definition structInfo (T : Ty) (module : N) : option StructInfo :=
  match T with
  | NamedStructTy "struct.s" => Some sInfo
  | _ => None
  end.

(** [make] returns a pointer to [struct s] and [use] takes one; both are
    declared only. *)
Definition make : Function :=
  {| fid := 100; fname := "make"; fguid := 100; fparent := 1;
     fretTy := PointerTy sTy 0; fargs := [];
     fisVarArg := false; fisIntrinsic := false; fisDeclaration := true;
     fempty := true; fhasAddressTaken := false;
     faddrSpace := 0 |}.
Definition use : Function :=
  {| fid := 101; fname := "use"; fguid := 101; fparent := 1;
     fretTy := VoidTy; fargs := [mkValue 300 (PointerTy sTy 0)];
     fisVarArg := false; fisIntrinsic := false; fisDeclaration := true;
     fempty := true; fhasAddressTaken := false;
     faddrSpace := 0 |}.

Definition prog : Module :=
  {| mid := 1; mglobals := []; mfunctions := [(make, []); (use, [])] |}.

End ShortcutExample.


(** * Type compatibility *)

Section TyInd.
Variable P : Ty → Prop.
Hypothesis HVoid : P VoidTy.
Hypothesis HInt : ∀ w, P (IntegerTy w).
Hypothesis HPtr : ∀ e a, P e → P (PointerTy e a).
Hypothesis HArr : ∀ e n, P e → P (ArrayTy e n).
Hypothesis HLit : ∀ l, Forall P l → P (LiteralStructTy l).
Hypothesis HNamed : ∀ n, P (NamedStructTy n).
Hypothesis HFun : ∀ r ps va, P r → Forall P ps → P (FunctionTy r ps va).
Hypothesis HVec : ∀ e n s, P e → P (VectorTy e n s).
Hypothesis HPrim : ∀ k, P (PrimTy k).

Fixpoint Ty_nested_ind (T : Ty) : P T :=
  match T with
  | VoidTy => HVoid
  | IntegerTy w => HInt w
  | PointerTy e a => HPtr e a (Ty_nested_ind e)
  | ArrayTy e n => HArr e n (Ty_nested_ind e)
  | LiteralStructTy l =>
      HLit l ((fix go (l : list Ty) : Forall P l :=
                 match l with
                 | [] => Forall_nil_2 P
                 | x :: xs => Forall_cons_2 P x xs (Ty_nested_ind x) (go xs)
                 end) l)
  | NamedStructTy n => HNamed n
  | FunctionTy r ps va =>
      HFun r ps va (Ty_nested_ind r)
           ((fix go (l : list Ty) : Forall P l :=
               match l with
               | [] => Forall_nil_2 P
               | x :: xs => Forall_cons_2 P x xs (Ty_nested_ind x) (go xs)
               end) ps)
  | VectorTy e n s => HVec e n s (Ty_nested_ind e)
  | PrimTy k => HPrim k
  end.
End TyInd.

(** The element-wise loops, named. *)
Definition eqbList := fix go (l1 l2 : list Ty) {struct l1} : bool :=
         match l1, l2 with
         | [], [] => true
         | x :: xs, y :: ys => Ty_eqb x y && go xs ys
         | _, _ => false
         end.

Lemma eqbList_refl l : Forall (λ T, Ty_eqb T T = true) l → eqbList l l = true.
Proof. induction 1; simpl; [done|]. by rewrite H, IHForall. Qed.

Lemma Ty_eqb_refl T : Ty_eqb T T = true.
Proof.
  induction T using Ty_nested_ind; simpl; fold eqbList;
    rewrite ?IHT, ?IHT1, ?N.eqb_refl, ?String.eqb_refl, ?Bool.eqb_reflx, ?eqbList_refl; auto.
  destruct k; reflexivity.
Qed.

Lemma eqbList_sym l1 : Forall (λ T, ∀ T', Ty_eqb T T' = Ty_eqb T' T) l1 →
  ∀ l2, eqbList l1 l2 = eqbList l2 l1.
Proof.
  induction 1; intros [|y ys]; simpl; try done.
  by rewrite H, IHForall.
Qed.

Lemma Ty_eqb_sym T1 : ∀ T2, Ty_eqb T1 T2 = Ty_eqb T2 T1.
Proof.
  induction T1 using Ty_nested_ind; intros []; simpl; fold eqbList; try done.
  - apply N.eqb_sym.
  - by rewrite IHT1, N.eqb_sym.
  - by rewrite IHT1, N.eqb_sym.
  - by apply eqbList_sym.
  - apply String.eqb_sym.
  - rewrite IHT1, (eqbList_sym ps) by done. f_equal. f_equal. by destruct va, varArg.
  - rewrite IHT1, N.eqb_sym. f_equal. by destruct s, scalable.
  - unfold PrimKind_eqb. apply N.eqb_sym.
Qed.

Section CompatFacts.
Variable v : N.

Definition compatList := fix loop (l1 l2 : list Ty) {struct l1} : bool :=
  match l1, l2 with
  | x :: xs, y :: ys =>
      if negb (isCompatibleType v x y) then false else loop xs ys
  | _, _ => true
  end.

Definition symList := fix go (l1 l2 : list Ty) {struct l1} : bool :=
       match l1, l2 with
       | x :: xs, y :: ys => symmetricPair x y && go xs ys
       | _, _ => true
       end.

Lemma isCompatibleType_refl T : isCompatibleType v T T = true.
Proof. destruct T; cbn [isCompatibleType]; by rewrite Ty_eqb_refl. Qed.

Lemma compatList_sym l1 :
  Forall (λ T, ∀ T', symmetricPair T T' = true →
                     isCompatibleType v T T' = isCompatibleType v T' T) l1 →
  ∀ l2, symList l1 l2 = true → length l1 = length l2 →
        compatList l1 l2 = compatList l2 l1.
Proof.
  induction 1 as [|x xs Hx _ IH]; intros [|y ys]; simpl; try done.
  intros [Hxy Hs]%andb_prop Hlen.
  rewrite (Hx y Hxy), IH by (done || lia). done.
Qed.

Lemma isCompatibleType_sym T1 :
  ∀ T2, symmetricPair T1 T2 = true →
        isCompatibleType v T1 T2 = isCompatibleType v T2 T1.
Proof.
  induction T1 using Ty_nested_ind; intros T2 Hs; destruct T2;
    cbn [isCompatibleType]; fold compatList;
    try reflexivity;
    match goal with
    | |- context [Ty_eqb ?a ?b] =>
        rewrite (Ty_eqb_sym b a); destruct (Ty_eqb a b) eqn:Heq
    end;
    try done; try (cbn; done).
  all: cbn in Hs; fold symList in Hs.
  all: try (destruct k; cbn; done).
  all: try (destruct scalable; cbn; done).
  all: try (destruct s; cbn; done).
  all: try (destruct s, k; cbn; done).
  all: try (destruct k, scalable; cbn; done).
  - by destruct (w =? addrSpace).
  - by destruct (width =? a).
  - destruct (12 <? v); [done|].
    rewrite (orb_comm (isIntegerTyOf 8 T2)).
    destruct (isIntegerTyOf 8 T1 || isIntegerTyOf 8 T2); [done|]. by apply IHT1.
  - by apply IHT1.
  - rewrite (N.eqb_sym (N.of_nat (length elems))).
    destruct (N.of_nat (length l) =? N.of_nat (length elems)) eqn:Hl; [|done].
    cbn. apply compatList_sym; [done..|]. apply N.eqb_eq in Hl. lia.
  - apply String.eqb_sym.
  - apply andb_prop in Hs as [[Hv Hr]%andb_prop Hp].
    apply Bool.eqb_prop in Hv as ->.
    rewrite (IHT1 _ Hr).
    destruct (isCompatibleType v T2 T1); cbn; [|done].
    destruct varArg; [done|].
    rewrite (N.eqb_sym (N.of_nat (length params))).
    destruct (N.of_nat (length ps) =? N.of_nat (length params)) eqn:Hl; [|done].
    cbn. apply compatList_sym; [done..|]. apply N.eqb_eq in Hl. lia.
  - by destruct s, scalable.
  - by destruct k, k0.
Qed.
End CompatFacts.

(** A pair without a mixed position is a pair on which the two argument
    orders are treated alike. *)
Lemma unmixedPair_symmetricPair T1 :
  ∀ T2, unmixedPair T1 T2 = true → symmetricPair T1 T2 = true.
Proof.
  induction T1 using Ty_nested_ind; intros T2; destruct T2; cbn;
    try done; auto.
  - revert elems. induction H as [|x xs Hx _ IH]; intros [|y ys]; try done.
    intros [Hxy Hs]%andb_prop. apply andb_true_intro. split; auto.
  - intros [[Hv Hr]%andb_prop Hp]%andb_prop.
    apply andb_true_intro. split; [apply andb_true_intro; split; auto|].
    revert Hp. clear Hv Hr. revert params.
    induction H as [|x xs Hx _ IH]; intros [|y ys]; try done.
    intros [Hxy Hs]%andb_prop. apply andb_true_intro. split; auto.
Qed.

Section Directional.
Variable v : N.

Lemma compatList_Forall2 l1 : ∀ l2,
  length l1 = length l2 →
  compatList v l1 l2 = true ↔
  Forall2 (λ x y, isCompatibleType v x y = true) l1 l2.
Proof.
  induction l1 as [|x xs IH]; intros [|y ys] Hlen; simpl in *; try done.
  destruct (isCompatibleType v x y) eqn:Hc; simpl.
  - rewrite IH by lia. split; [intros ?; by constructor|]. by inversion 1.
  - split; [done|]. inversion 1. congruence.
Qed.

Lemma pointer_never_integer e a w :
  isCompatibleType v (PointerTy e a) (IntegerTy w) = false.
Proof. reflexivity. Qed.

Lemma integer_with_pointer w e a :
  isCompatibleType v (IntegerTy w) (PointerTy e a) = (w =? a).
Proof. cbn. by destruct (w =? a). Qed.

Lemma variadic_never_fixed r1 p1 r2 p2 :
  isCompatibleType v (FunctionTy r1 p1 true) (FunctionTy r2 p2 false) = false.
Proof.
  cbn [isCompatibleType Ty_eqb]. rewrite andb_false_r. cbn.
  by destruct (isCompatibleType v r1 r2).
Qed.

Lemma fixed_with_variadic r1 p1 r2 p2 :
  isCompatibleType v (FunctionTy r1 p1 false) (FunctionTy r2 p2 true) = true ↔
  isCompatibleType v r1 r2 = true ∧ length p1 = length p2 ∧
  Forall2 (λ x y, isCompatibleType v x y = true) p1 p2.
Proof.
  cbn [isCompatibleType Ty_eqb]. rewrite andb_false_r. cbn [andb].
  fold (compatList v).
  destruct (isCompatibleType v r1 r2); cbn; [|by split; [|intros []]].
  destruct (N.of_nat (length p1) =? N.of_nat (length p2)) eqn:Hl; cbn.
  - apply N.eqb_eq in Hl. assert (length p1 = length p2) as Hlen by lia.
    rewrite (compatList_Forall2 _ _ Hlen). tauto.
  - apply N.eqb_neq in Hl. split; [done|]. intros (_ & Hlen & _).
    by rewrite Hlen in Hl.
Qed.
End Directional.

(** C3 (amended): [isCompatibleType] holds of every type with itself; it
    gives the same answer in both argument orders on every pair of types
    in which no integer type is set against a pointer type and no variadic
    function type against a non-variadic one, at the top or at
    corresponding nested positions; on the pairs left out it is
    directional, for every choice of the types involved: a pointer type
    is never compatible with an integer type, while an integer type is
    compatible with a pointer type whenever the test of the integer
    branch passes (it compares the bit width with the number of the
    pointer's address space); and a variadic function type is never
    compatible with a non-variadic one, while a non-variadic one is
    compatible with a variadic one exactly when the return types are
    compatible, the parameter counts are equal and the parameter types
    are compatible position by position. *)
Theorem isCompatibleType_reflexive_symmetric_core (LLVM_VERSION_MAJOR : N) :
  (∀ T, isCompatibleType LLVM_VERSION_MAJOR T T = true) ∧
  (∀ T1 T2, unmixedPair T1 T2 = true →
            isCompatibleType LLVM_VERSION_MAJOR T1 T2 =
            isCompatibleType LLVM_VERSION_MAJOR T2 T1) ∧
  (∀ e a w,
     isCompatibleType LLVM_VERSION_MAJOR (PointerTy e a) (IntegerTy w)
     = false) ∧
  (∀ w e a,
     isCompatibleType LLVM_VERSION_MAJOR (IntegerTy w) (PointerTy e a)
     = (w =? a)) ∧
  (∀ r1 p1 r2 p2,
     isCompatibleType LLVM_VERSION_MAJOR (FunctionTy r1 p1 true)
                      (FunctionTy r2 p2 false) = false) ∧
  (∀ r1 p1 r2 p2,
     isCompatibleType LLVM_VERSION_MAJOR (FunctionTy r1 p1 false)
                      (FunctionTy r2 p2 true) = true ↔
     isCompatibleType LLVM_VERSION_MAJOR r1 r2 = true ∧
     length p1 = length p2 ∧
     Forall2 (λ x y, isCompatibleType LLVM_VERSION_MAJOR x y = true) p1 p2).
Proof.
  split; [apply isCompatibleType_refl|].
  split; [intros T1 T2 Hu; by apply isCompatibleType_sym,
                                    unmixedPair_symmetricPair|].
  split; [apply pointer_never_integer|].
  split; [apply integer_with_pointer|].
  split; [apply variadic_never_fixed|apply fixed_with_variadic].
Qed.

Definition witness_fn1 : Ty :=
  FunctionTy (IntegerTy 32) [PointerTy (NamedStructTy "file") 0; IntegerTy 64] false.
Definition witness_fn2 : Ty :=
  FunctionTy (IntegerTy 64) [PointerTy (IntegerTy 8) 0; IntegerTy 1] false.

Lemma isCompatibleType_reflexive_symmetric_core_witness :
  unmixedPair witness_fn1 witness_fn2 = true ∧
  isCompatibleType 12 witness_fn1 witness_fn2 =
  isCompatibleType 12 witness_fn2 witness_fn1.
Proof.
  split; [reflexivity|].
  apply (proj1 (proj2 (isCompatibleType_reflexive_symmetric_core 12))).
  reflexivity.
Defined.

(** C3, as stated, fails: a 1-bit integer is compatible with a pointer in
    address space 1, but not the other way round; and a non-variadic
    function type is compatible with a variadic one of the same parameters,
    but not the other way round. *)
Example isCompatibleType_not_symmetric :
  isCompatibleType 14 (IntegerTy 1) (PointerTy (IntegerTy 8) 1) = true ∧
  isCompatibleType 14 (PointerTy (IntegerTy 8) 1) (IntegerTy 1) = false ∧
  isCompatibleType 12 (IntegerTy 1) (PointerTy (IntegerTy 8) 1) = true ∧
  isCompatibleType 12 (PointerTy (IntegerTy 8) 1) (IntegerTy 1) = false ∧
  isCompatibleType 14 (FunctionTy VoidTy [IntegerTy 32] false)
                      (FunctionTy VoidTy [IntegerTy 32] true) = true ∧
  isCompatibleType 14 (FunctionTy VoidTy [IntegerTy 32] true)
                      (FunctionTy VoidTy [IntegerTy 32] false) = false.
Proof. repeat split; reflexivity. Qed.

(** * Type-based callee resolution *)

(** [F] passes the checks that come before the parameter loop. *)
Definition survivesRejection (v : N) (CS : Instruction) (F : Function) : Prop :=
  fisIntrinsic F = false ∧
  (fisVarArg F = true ∨
   (arg_size F = N.of_nat (length (call_args CS)) ∧
    isCompatibleType v (fretTy F) (ity CS) = true)).


(** Every formal has an operand at its position, counted from the first
    argument, of a compatible type. *)
Definition operandsCompatible (v : N) (formals : list Value)
    (operands : list Ty) : Prop :=
  (length formals ≤ length operands)%nat ∧
  ∀ (i : nat) FI T, formals !! i = Some FI → operands !! i = Some T →
                    isCompatibleType v (vty FI) T = true.

(** The operands of a call site start with its arguments. *)
Lemma operand_types_args CS :
  ∃ rest, operand_types CS = map vty (call_args CS) ++ rest.
Proof.
  unfold operand_types, call_args. destruct (ikind CS); try by exists [].
  eexists. reflexivity.
Qed.


Section FindCallees.
Variable v : N.

Lemma argsMatch_spec formals : ∀ operands b,
  argsMatch v formals operands = Done b →
  (b = true ↔ operandsCompatible v formals operands).
Proof.
  induction formals as [|FI formals IH]; intros operands b; simpl.
  - intros [= <-]. split; [|done]. intros _. split; [simpl; lia|]. by intros [|i].
  - destruct operands as [|T operands]; [done|].
    destruct (isCompatibleType v (vty FI) T) eqn:Hc.
    + intros Hm. rewrite (IH _ _ Hm). split; intros [Hlen Hall].
      * split; [simpl; lia|]. intros [|i] ? ?; simpl; [by intros [= <-] [= <-]|].
        apply Hall.
      * split; [simpl in Hlen; lia|]. intros i ? ?. apply (Hall (S i)).
    + intros [= <-]. split; [done|]. intros [_ Hall].
      specialize (Hall 0%nat FI T eq_refl eq_refl). congruence.
Qed.

Lemma typeMatch_spec CS F b :
  typeMatch v CS F = Done b →
  (b = true ↔ survivesRejection v CS F ∧
              operandsCompatible v (fargs F) (operand_types CS)).
Proof.
  unfold typeMatch, survivesRejection.
  destruct (fisVarArg F); simpl.
  - destruct (fisIntrinsic F).
    + intros [= <-]. split; [done|]. by intros [[? _] _].
    + intros Hm. rewrite (argsMatch_spec _ _ _ Hm). split; [intros ?|tauto].
      split; [|done]. split; [done|]. by left.
  - destruct (arg_size F =? N.of_nat (length (call_args CS))) eqn:Ha; simpl.
    + destruct (isCompatibleType v (fretTy F) (ity CS)) eqn:Hr; simpl.
      * destruct (fisIntrinsic F).
        -- intros [= <-]. split; [done|]. by intros [[? _] _].
        -- intros Hm. rewrite (argsMatch_spec _ _ _ Hm).
           apply N.eqb_eq in Ha. split; [intros ?|tauto].
           split; [|done]. split; [done|]. by right.
      * intros [= <-]. split; [done|]. intros [[_ [?|[_ ?]]] _]; congruence.
    + intros [= <-]. split; [done|]. apply N.eqb_neq in Ha.
      intros [[_ [?|[? _]]] _]; congruence.
Qed.

Lemma findCalleesByType_loop_spec CS Fs : ∀ FS FS',
  findCalleesByType_loop v CS Fs FS = Done FS' →
  ∀ f, f ∈ FS' ↔
       f ∈ FS ∨ ∃ k F, (k, F) ∈ Fs ∧ fid F = f ∧
                       survivesRejection v CS F ∧
                       operandsCompatible v (fargs F) (operand_types CS).
Proof.
  induction Fs as [|[k F] Fs IH]; intros FS FS'; simpl.
  - intros [= <-] f. split; [by left|]. intros [?|(? & ? & []%elem_of_nil & _)].
    done.
  - destruct (typeMatch v CS F) as [[]| |] eqn:Hm; try done;
      intros Hl f; rewrite (IH _ _ Hl);
      pose proof (typeMatch_spec _ _ _ Hm) as Hspec.
    + split.
      * intros [[->%elem_of_singleton|?]%elem_of_union|(k' & F' & ? & ?)].
        -- right. exists k, F. split; [left|]. split; [done|]. by apply Hspec.
        -- by left.
        -- right. exists k', F'. split; [by right|done].
      * intros [?|(k' & F' & [[= -> ->]|?]%elem_of_cons & ? & ?)].
        -- left. set_solver.
        -- left. set_solver.
        -- right. eauto.
    + split.
      * intros [?|(k' & F' & ? & ?)]; [by left|].
        right. exists k', F'. split; [by right|done].
      * intros [?|(k' & F' & [[= -> ->]|?]%elem_of_cons & ? & ?)]; [by left| |].
        -- destruct Hspec as [_ Hspec]. by discriminate Hspec.
        -- right. eauto.
Qed.

(** The loop of one function returns whenever the call site has an
    operand for every formal. *)
Lemma argsMatch_returns formals : ∀ operands,
  (length formals ≤ length operands)%nat →
  ∃ b, argsMatch v formals operands = Done b.
Proof.
  induction formals as [|FI formals IH]; intros operands Hlen; simpl.
  - by exists true.
  - destruct operands as [|T operands]; simpl in Hlen; [lia|].
    destruct (isCompatibleType v (vty FI) T); [|by exists false].
    apply IH. lia.
Qed.

Lemma operand_types_length CS :
  (length (call_args CS) ≤ length (operand_types CS))%nat.
Proof.
  destruct (operand_types_args CS) as [rest ->].
  rewrite length_app, length_map. lia.
Qed.

Lemma typeMatch_returns_operands CS F :
  (fisVarArg F = true →
   (length (fargs F) ≤ length (operand_types CS))%nat) →
  ∃ b, typeMatch v CS F = Done b.
Proof.
  intros Hva. unfold typeMatch.
  destruct (fisVarArg F); simpl.
  - destruct (fisIntrinsic F); [by exists false|].
    by apply argsMatch_returns, Hva.
  - destruct (arg_size F =? N.of_nat (length (call_args CS))) eqn:Ha; simpl;
      [|by exists false].
    destruct (isCompatibleType v (fretTy F) (ity CS)); simpl;
      [|by exists false].
    destruct (fisIntrinsic F); [by exists false|].
    apply argsMatch_returns. apply N.eqb_eq in Ha. unfold arg_size in Ha.
    pose proof (operand_types_length CS). lia.
Qed.

Lemma findCalleesByType_loop_returns_operands CS Fs :
  (∀ k F, (k, F) ∈ Fs → fisVarArg F = true →
          (length (fargs F) ≤ length (operand_types CS))%nat) →
  ∀ FS, ∃ FS', findCalleesByType_loop v CS Fs FS = Done FS'.
Proof.
  induction Fs as [|[k F] Fs IH]; intros Hva FS; simpl; [by exists FS|].
  destruct (typeMatch_returns_operands CS F) as [b ->]; [apply (Hva k); left|].
  destruct b; apply IH; intros k' F' ?; apply (Hva k'); by right.
Qed.

(** In particular it returns whenever the call site has an argument for
    every formal. *)
Lemma findCalleesByType_loop_returns CS Fs :
  (∀ k F, (k, F) ∈ Fs → fisVarArg F = true →
          (length (fargs F) ≤ length (call_args CS))%nat) →
  ∀ FS, ∃ FS', findCalleesByType_loop v CS Fs FS = Done FS'.
Proof.
  intros Hva. apply findCalleesByType_loop_returns_operands.
  intros k F Hin Hv. pose proof (Hva k F Hin Hv).
  pose proof (operand_types_length CS). lia.
Qed.

End FindCallees.



(** * Transitions of the analysis state *)

Section Transitions.

Context {NF : Type} `{AndersNodeFactory NF}.

Variable LLVM_VERSION_MAJOR : N.
Variable getStructInfo : Ty → N → option StructInfo.
Variable getGEPOffset : Instruction → N → Z.
Variable offsetToFieldNum : Ty → Z → N → N.
Variable extendObjectSize : NF → N → Ty → N → NF * N.

Local Abbreviation State := (State (NF:=NF)).
Local Abbreviation M := (M (NF:=NF)).

(** What one call of [runOnFunction] can do to the state, one primitive
    update at a time. *)
Inductive fstep : State → State → Prop :=
| fstep_local st st' :
    Funcs st' = Funcs st → ExtGobjs st' = ExtGobjs st →
    AddressTakenFuncs st' = AddressTakenFuncs st →
    Callees st' = Callees st → Callers st' = Callers st →
    funcPtsGraph st' = funcPtsGraph st → reachable st' = reachable st →
    typeShortcuts st' = typeShortcuts st →
    retStructs st' = retStructs st → argStructs st' = argStructs st →
    globalStructs st' = globalStructs st → Iteration st' = Iteration st →
    fstep st st'
| fstep_insert st n idx :
    fstep st (upd_funcPtsGraph (λ g, <[n := {[idx]} ∪ pts g n]> g) st)
| fstep_copy st dst src s :
    funcPtsGraph st !! src = Some s →
    fstep st (upd_funcPtsGraph (λ g, <[dst := s ∪ pts g dst]> g) st)
| fstep_callee st CS F :
    fstep st (snd (addCallee CS F st)).

(** What one call of [doModulePass] can do: the above, and the creation
    of a type shortcut. *)
Inductive mstep : State → State → Prop :=
| mstep_fstep st st' : fstep st st' → mstep st st'
| mstep_shortcut st k obj :
    mstep st (upd_typeShortcuts (λ m, <[k := obj]> m) st).

(** What one call of [doInitialization], [doModulePass] or
    [doFinalization] can do; [E] holds the identities of the entry
    functions. *)
Inductive pstep (E : gset N) : State → State → Prop :=
| pstep_mstep st st' : mstep st st' → pstep E st st'
| pstep_setup st st' :
    funcPtsGraph st' = funcPtsGraph st → reachable st' = reachable st →
    Callees st' = Callees st → Iteration st' = Iteration st →
    pstep E st st'
| pstep_touch st cs :
    pstep E st (upd_Callees (λ m, <[cs := default ∅ (m !! cs)]> m) st)
| pstep_entry st f :
    f ∈ E → pstep E st (upd_reachable (λ r, {[f]} ∪ r) st).

(** What the driver can do: the above, and setting the counter. *)
Inductive step (E : gset N) : State → State → Prop :=
| step_pstep st st' : pstep E st st' → step E st st'
| step_iteration st f : step E st (upd_Iteration f st).

(** A computation all of whose state changes are [R]-transitions,
    whatever its outcome. *)
Definition traced (R : State → State → Prop) {A} (m : M A) : Prop :=
  ∀ st, rtc R st (snd (m st)).

Section Traced.
Variable R : State → State → Prop.

Lemma traced_ret {A} (a : A) : traced R (mret a).
Proof. intros st. apply rtc_refl. Qed.

Lemma traced_bind {A B} (m : M A) (k : A → M B) :
  traced R m → (∀ a, traced R (k a)) → traced R (m ≫= k).
Proof.
  intros Hm Hk st. unfold mbind, M_bind, bind.
  specialize (Hm st). destruct (m st) as [[a| |] st']; simpl in *; auto.
  eapply rtc_trans; [exact Hm|apply Hk].
Qed.

Lemma traced_gets {A} (f : State → A) : traced R (gets f).
Proof. intros st. apply rtc_refl. Qed.

Lemma traced_fatal {A} why : traced R (fatal (A:=A) why).
Proof. intros st. apply rtc_refl. Qed.

Lemma traced_outOfFuel {A} : traced R (outOfFuel (A:=A)).
Proof. intros st. apply rtc_refl. Qed.

Lemma traced_assert b why : traced R (assert b why).
Proof. destruct b; [apply traced_ret|apply traced_fatal]. Qed.

Lemma traced_modify f : (∀ st, R st (f st)) → traced R (modify f).
Proof. intros Hf st. apply rtc_once, Hf. Qed.

Lemma traced_forM {A} (f : A → M unit) l :
  (∀ x, x ∈ l → traced R (f x)) → traced R (forM f l).
Proof.
  induction l as [|x l IH]; intros Hf; simpl; [apply traced_ret|].
  apply traced_bind; [apply Hf; left|intros _].
  apply IH. intros y Hy. apply Hf. by right.
Qed.

Lemma traced_ptsFind n : traced R (ptsFind n).
Proof. apply traced_gets. Qed.

Lemma traced_ptsDeref n : traced R (ptsDeref n).
Proof.
  apply traced_bind; [apply traced_ptsFind|intros [s|]];
    [apply traced_ret|apply traced_fatal].
Qed.

Lemma traced_forPts fuel node end_ body :
  (∀ idx c, traced R (body idx c)) →
  ∀ idx c, traced R (forPts fuel node end_ body idx c).
Proof.
  intros Hb. induction fuel as [|fuel IH]; intros idx c; simpl;
    destruct (idx <? end_); try apply traced_ret; [apply traced_outOfFuel|].
  apply traced_bind; [apply Hb|intros [[|idx'] c']]; [apply traced_ret|].
  apply traced_bind; [apply traced_ptsDeref|intros s]. apply IH.
Qed.

Lemma traced_forEachPts node body c :
  (∀ idx c, traced R (body idx c)) → traced R (forEachPts node body c).
Proof.
  intros Hb. apply traced_bind; [apply traced_ptsDeref|intros s].
  by apply traced_forPts.
Qed.

Lemma traced_getFuncDef F : traced R (getFuncDef F).
Proof. apply traced_bind; [apply traced_gets|intros; apply traced_ret]. Qed.


Lemma traced_sweep pass ms :
  (∀ Mod, Mod ∈ ms → traced R (pass Mod)) →
  ∀ again, traced R (sweep pass ms again).
Proof.
  induction ms as [|Mod ms IH]; intros Hp again; simpl;
    [apply traced_ret|].
  apply traced_bind; [apply Hp; left|intros r].
  apply IH. intros. apply Hp. by right.
Qed.

Hypothesis R_iteration : ∀ st f, R st (upd_Iteration f st).

Lemma traced_nextIteration : traced R nextIteration.
Proof. apply traced_modify. intros st. apply R_iteration. Qed.

Lemma traced_whileAgain fuel pass modules :
  (∀ Mod, Mod ∈ modules → traced R (pass Mod)) →
  traced R (whileAgain fuel pass modules).
Proof.
  intros Hp. induction fuel as [|fuel IH]; simpl; [apply traced_outOfFuel|].
  apply traced_bind; [by apply traced_sweep|intros again].
  apply traced_bind; [apply traced_nextIteration|intros _].
  destruct again; [apply IH|apply traced_ret].
Qed.

Lemma traced_countChanged doPass ms :
  (∀ Mod, Mod ∈ ms → traced R (doPass Mod)) →
  ∀ n, traced R (countChanged doPass ms n).
Proof.
  induction ms as [|Mod ms IH]; intros Hp n; simpl; [apply traced_ret|].
  apply traced_bind; [apply Hp; left|intros r].
  apply IH. intros. apply Hp. by right.
Qed.

Lemma traced_whileChanged doPass fuel modules :
  (∀ Mod, Mod ∈ modules → traced R (doPass Mod)) →
  traced R (whileChanged doPass fuel modules).
Proof.
  intros Hp. induction fuel as [|fuel IH]; simpl; [apply traced_outOfFuel|].
  apply traced_bind; [by apply traced_countChanged|intros changed].
  apply traced_bind; [apply traced_nextIteration|intros _].
  destruct (negb (changed =? 0)); [apply IH|apply traced_ret].
Qed.

Lemma traced_run doInit doFinal doPass fuel modules :
  (∀ Mod, Mod ∈ modules → traced R (doInit Mod)) →
  (∀ Mod, Mod ∈ modules → traced R (doFinal Mod)) →
  (∀ Mod, Mod ∈ modules → traced R (doPass Mod)) →
  traced R (run doInit doFinal doPass fuel modules).
Proof.
  intros Hi Hf Hp. unfold run.
  apply traced_bind; [apply traced_modify; intros; apply R_iteration|intros _].
  apply traced_bind; [by apply traced_whileAgain|intros _].
  apply traced_bind; [by apply traced_whileChanged|intros _].
  apply traced_bind; [apply traced_modify; intros; apply R_iteration|intros _].
  by apply traced_whileAgain.
Qed.

End Traced.


Lemma traced_mono (R R' : State → State → Prop) {A} (m : M A) :
  (∀ x y, R x y → R' x y) → traced R m → traced R' m.
Proof. intros HR Hm st. eapply rtc_subrel; [exact HR|apply Hm]. Qed.

End Transitions.

Create HintDb traced.

(** The shape of a computation decides which lemma applies; [leaf] closes
    the primitive updates. *)
Ltac trace_by leaf :=
  repeat first
    [ apply traced_ret | apply traced_gets | apply traced_fatal
    | apply traced_outOfFuel | apply traced_assert
    | apply traced_ptsFind | apply traced_ptsDeref | apply traced_getFuncDef
    | solve [auto with traced nocore]
    | lazymatch goal with
      | |- traced _ (mbind _ _) => apply traced_bind; [|intros ?]
      | |- traced _ (forEachPts _ _ _) => apply traced_forEachPts; intros
      | |- traced _ (forPts _ _ _ _ _ _) => apply traced_forPts; intros
      | |- traced _ (forM _ _) => apply traced_forM; intros ? ?
      | |- traced _ (if ?b then _ else _) => destruct b eqn:?
      | |- traced _ (match ?x with _ => _ end) => destruct x eqn:?
      | |- traced _ (let (_, _) := ?x in _) => destruct x eqn:?
      end
    | leaf ].

Ltac tr :=
  trace_by ltac:(apply traced_modify; intros; apply fstep_local; reflexivity).

Section FunctionSteps.

Context {NF : Type} `{AndersNodeFactory NF}.

Variable LLVM_VERSION_MAJOR : N.
Variable getStructInfo : Ty → N → option StructInfo.
Variable getGEPOffset : Instruction → N → Z.
Variable offsetToFieldNum : Ty → Z → N → N.
Variable extendObjectSize : NF → N → Ty → N → NF * N.

Local Abbreviation State := (State (NF:=NF)).
Local Abbreviation M := (M (NF:=NF)).
Local Abbreviation fstep := (fstep (NF:=NF)).
Local Abbreviation mstep := (mstep (NF:=NF)).
Local Abbreviation pstep := (pstep (NF:=NF)).
Local Abbreviation step := (step (NF:=NF)).

(** ** Every state change of [runOnFunction] is an [fstep] *)

Lemma fstep_ptsInsert n idx : traced fstep (ptsInsert n idx).
Proof. intros st. apply rtc_once. apply fstep_insert. Qed.

Lemma fstep_ptsCopy dst src : traced fstep (ptsCopy dst src).
Proof.
  intros st. unfold ptsCopy, ptsDeref, ptsFind, mbind, M_bind, bind, gets.
  simpl. destruct (funcPtsGraph st !! src) as [s|] eqn:Hs; simpl.
  - apply rtc_once. by eapply fstep_copy.
  - apply rtc_refl.
Qed.

Lemma fstep_addCallee CS F : traced fstep (addCallee CS F).
Proof. intros st. apply rtc_once, fstep_callee. Qed.

#[local] Hint Resolve fstep_ptsInsert fstep_ptsCopy fstep_addCallee : traced.

Lemma fstep_findCalleesByType CS :
  traced fstep (findCalleesByType LLVM_VERSION_MAJOR CS).
Proof. unfold findCalleesByType. tr. Qed.
#[local] Hint Resolve fstep_findCalleesByType : traced.

Lemma fstep_bindArgs actuals : ∀ formals c,
  traced fstep (bindArgs actuals formals c).
Proof.
  induction actuals as [|a actuals IH]; intros [|f formals] c; simpl; tr.
Qed.
#[local] Hint Resolve fstep_bindArgs : traced.

Lemma fstep_bindReturn CS CF callNode idx c :
  traced fstep (bindReturn CS CF callNode idx c).
Proof. unfold bindReturn. tr. Qed.
#[local] Hint Resolve fstep_bindReturn : traced.

Lemma fstep_handleCall CS CF : traced fstep (handleCall CS CF).
Proof. unfold handleCall. tr. Qed.
#[local] Hint Resolve fstep_handleCall : traced.

Lemma fstep_indirectCallee CS idx c : traced fstep (indirectCallee CS idx c).
Proof. unfold indirectCallee. tr. Qed.
#[local] Hint Resolve fstep_indirectCallee : traced.

Lemma fstep_runCall CS callee c :
  traced fstep (runCall LLVM_VERSION_MAJOR CS callee c).
Proof. unfold runCall. tr. Qed.

Lemma fstep_runRet F rv c : traced fstep (runRet F rv c).
Proof. unfold runRet. tr. Qed.

Lemma fstep_loadInner valNode idx2 c : traced fstep (loadInner valNode idx2 c).
Proof. unfold loadInner. tr. Qed.
#[local] Hint Resolve fstep_loadInner : traced.

Lemma fstep_loadOuter valNode ptrNode end_ idx c :
  traced fstep (loadOuter valNode ptrNode end_ idx c).
Proof. unfold loadOuter. tr. Qed.
#[local] Hint Resolve fstep_loadOuter : traced.

Lemma fstep_runLoad F I ptr c : traced fstep (runLoad getStructInfo F I ptr c).
Proof. unfold runLoad, findTypeShortcut. tr. Qed.

Lemma fstep_storeBody valNode idx c : traced fstep (storeBody valNode idx c).
Proof. unfold storeBody. tr. Qed.
#[local] Hint Resolve fstep_storeBody : traced.

Lemma fstep_runStore val ptr c : traced fstep (runStore val ptr c).
Proof. unfold runStore. tr. Qed.

Lemma fstep_gepResize F ptrTy idx allocSize :
  traced fstep (gepResize getStructInfo extendObjectSize F ptrTy idx allocSize).
Proof. unfold gepResize. tr. Qed.
#[local] Hint Resolve fstep_gepResize : traced.

Lemma fstep_gepBody F I srcTy valNode idx c :
  traced fstep (gepBody getStructInfo getGEPOffset offsetToFieldNum
                        extendObjectSize F I srcTy valNode idx c).
Proof. unfold gepBody. tr. Qed.
#[local] Hint Resolve fstep_gepBody : traced.

Lemma fstep_runGEP F I ptr srcTy c :
  traced fstep (runGEP getStructInfo getGEPOffset offsetToFieldNum
                       extendObjectSize F I ptr srcTy c).
Proof. unfold runGEP. tr. Qed.

Lemma fstep_copyFrom why dst src c : traced fstep (copyFrom why dst src c).
Proof. unfold copyFrom. tr. Qed.
#[local] Hint Resolve fstep_copyFrom : traced.

Lemma fstep_copyFromAll why dst srcs : ∀ c,
  traced fstep (copyFromAll why dst srcs c).
Proof. induction srcs as [|src srcs IH]; intros c; simpl; tr. Qed.
#[local] Hint Resolve fstep_copyFromAll fstep_runCall fstep_runRet fstep_runLoad
     fstep_runStore fstep_runGEP : traced.

Lemma fstep_runOnInstruction F I c :
  traced fstep (runOnInstruction LLVM_VERSION_MAJOR getStructInfo getGEPOffset
                  offsetToFieldNum extendObjectSize F I c).
Proof. unfold runOnInstruction. tr. Qed.
#[local] Hint Resolve fstep_runOnInstruction : traced.

Lemma fstep_runOnInstructions F Is : ∀ c,
  traced fstep (runOnInstructions LLVM_VERSION_MAJOR getStructInfo getGEPOffset
                  offsetToFieldNum extendObjectSize F Is c).
Proof. induction Is as [|I Is IH]; intros c; simpl; tr. Qed.
#[local] Hint Resolve fstep_runOnInstructions : traced.

Lemma fstep_runOnFunction FI :
  traced fstep (runOnFunction LLVM_VERSION_MAJOR getStructInfo getGEPOffset
                  offsetToFieldNum extendObjectSize FI).
Proof. unfold runOnFunction. tr. Qed.
#[local] Hint Resolve fstep_runOnFunction : traced.


End FunctionSteps.

#[export] Hint Resolve fstep_ptsInsert fstep_ptsCopy fstep_addCallee
  fstep_findCalleesByType fstep_handleCall fstep_runOnInstruction
  fstep_runOnInstructions fstep_runOnFunction fstep_gepResize : traced.

Ltac tr_m :=
  trace_by ltac:(first
    [ apply traced_mono with fstep; [apply mstep_fstep|]; solve [auto with traced nocore]
    | apply traced_modify; intros; apply mstep_fstep, fstep_local; reflexivity
    | apply traced_modify; intros; apply mstep_shortcut ]).

Ltac tr_p :=
  trace_by ltac:(first
    [ apply traced_mono with fstep;
      [intros ? ? ?; apply pstep_mstep, mstep_fstep; assumption|];
      solve [auto with traced nocore]
    | apply traced_modify; intros; apply pstep_setup; reflexivity
    | apply traced_modify; intros; apply pstep_touch ]).

Section PassSteps.

Context {NF : Type} `{AndersNodeFactory NF}.

Variable LLVM_VERSION_MAJOR : N.
Variable getStructInfo : Ty → N → option StructInfo.
Variable getGEPOffset : Instruction → N → Z.
Variable offsetToFieldNum : Ty → Z → N → N.
Variable extendObjectSize : NF → N → Ty → N → NF * N.

Local Abbreviation State := (State (NF:=NF)).
Local Abbreviation M := (M (NF:=NF)).
Local Abbreviation fstep := (fstep (NF:=NF)).
Local Abbreviation mstep := (mstep (NF:=NF)).
Local Abbreviation pstep := (pstep (NF:=NF)).
Local Abbreviation step := (step (NF:=NF)).

(** ** Every state change of [doModulePass] is an [mstep] *)

Lemma mstep_shortcutNode obj node : traced mstep (shortcutNode obj node).
Proof. unfold shortcutNode. tr_m. Qed.

Lemma mstep_createTypeShortcut entry :
  traced mstep (createTypeShortcut entry).
Proof. unfold createTypeShortcut. tr_m; apply mstep_shortcutNode. Qed.

Lemma mstep_processFunctions Fs : ∀ c,
  traced mstep (processFunctions LLVM_VERSION_MAJOR getStructInfo
                  getGEPOffset offsetToFieldNum extendObjectSize Fs c).
Proof. induction Fs as [|FI Fs IH]; intros c; simpl; tr_m. Qed.

Lemma mstep_doModulePass Mod :
  traced mstep (doModulePass LLVM_VERSION_MAJOR getStructInfo
                  getGEPOffset offsetToFieldNum extendObjectSize Mod).
Proof.
  unfold doModulePass, createTypeShortcuts. tr_m.
  - apply mstep_createTypeShortcut.
  - apply mstep_processFunctions.
Qed.

(** ** Every state change of a pass is a [pstep] *)

Section Steps.
Variable E : gset N.

Lemma pstep_initGlobal Mod GV :
  traced (pstep E) (initGlobal getStructInfo Mod GV).
Proof. unfold initGlobal. tr_p. Qed.

Lemma pstep_initFunction Mod F :
  (isEntry F = true → fid F ∈ E) →
  traced (pstep E) (initFunction getStructInfo Mod F).
Proof.
  intros HE. unfold initFunction. tr_p.
  apply traced_modify. intros st. apply pstep_entry. auto.
Qed.

Lemma pstep_doInitialization Mod :
  (∀ FI, FI ∈ mfunctions Mod → isEntry (fst FI) = true → fid (fst FI) ∈ E) →
  traced (pstep E) (doInitialization getStructInfo Mod).
Proof.
  intros HE. unfold doInitialization. tr_p.
  - apply pstep_initGlobal.
  - apply pstep_initFunction. auto.
Qed.

Lemma pstep_finalizeInstruction CI :
  traced (pstep E) (finalizeInstruction LLVM_VERSION_MAJOR CI).
Proof. unfold finalizeInstruction. tr_p. Qed.

Lemma pstep_doFinalization Mod :
  traced (pstep E) (doFinalization LLVM_VERSION_MAJOR Mod).
Proof. unfold doFinalization. tr_p. apply pstep_finalizeInstruction. Qed.

Lemma pstep_doModulePass Mod :
  traced (pstep E) (doModulePass LLVM_VERSION_MAJOR getStructInfo
                      getGEPOffset offsetToFieldNum extendObjectSize Mod).
Proof.
  eapply traced_mono; [|apply mstep_doModulePass].
  intros x y. apply pstep_mstep.
Qed.

Lemma step_of_pstep {A} (m : M A) :
  traced (pstep E) m → traced (step E) m.
Proof. apply traced_mono. intros x y. apply step_pstep. Qed.

End Steps.

End PassSteps.


(** * Invariants of the transitions *)

Section Invariants.

Context {NF : Type} `{AndersNodeFactory NF}.

Local Abbreviation State := (State (NF:=NF)).
Local Abbreviation fstep := (fstep (NF:=NF)).
Local Abbreviation mstep := (mstep (NF:=NF)).
Local Abbreviation pstep := (pstep (NF:=NF)).
Local Abbreviation step := (step (NF:=NF)).

(** A property of pairs of states that holds across every transition and
    is reflexive and transitive holds across every sequence of them. *)
Lemma rtc_across (R Φ : State → State → Prop) :
  (∀ st, Φ st st) → (∀ a b c, Φ a b → Φ b c → Φ a c) →
  (∀ st st', R st st' → Φ st st') →
  ∀ st st', rtc R st st' → Φ st st'.
Proof. intros Hr Ht HR st st'. induction 1; eauto. Qed.

(** Every points-to set of [st] is included in the one of [st']. *)
Definition graph_le (st st' : State) : Prop :=
  ∀ n, pts (funcPtsGraph st) n ⊆ pts (funcPtsGraph st') n.

(** No key of the graph is bound to the empty set. *)
Definition graph_wf (g : gmap N (gset N)) : Prop :=
  ∀ n s, g !! n = Some s → s ≠ ∅.

(** [f] is a recorded callee of some call site. *)
Definition inCallees (st : State) (f : N) : Prop :=
  ∃ cs s, Callees st !! cs = Some s ∧ f ∈ s.

Lemma pts_insert g n m X :
  pts (<[n := X]> g) m = if decide (n = m) then X else pts g m.
Proof.
  unfold pts. destruct (decide (n = m)) as [->|Hne].
  - by rewrite lookup_insert_eq.
  - by rewrite lookup_insert_ne.
Qed.

Lemma addCallee_reachable CS F (st : State) :
  reachable (snd (addCallee CS F st)) = {[fid F]} ∪ reachable st.
Proof.
  unfold addCallee, mbind, M_bind, bind, gets, modify. simpl.
  by destruct (bool_decide (fid F ∉ reachable st)).
Qed.

Lemma addCallee_Callees CS F (st : State) :
  Callees (snd (addCallee CS F st)) =
  <[iid CS := {[fid F]} ∪ default ∅ (Callees st !! iid CS)]> (Callees st).
Proof.
  unfold addCallee, mbind, M_bind, bind, gets, modify. simpl.
  by destruct (bool_decide (fid F ∉ reachable st)).
Qed.

Lemma addCallee_frame CS F (st : State) :
  let st' := snd (addCallee CS F st) in
  funcPtsGraph st' = funcPtsGraph st ∧ typeShortcuts st' = typeShortcuts st ∧
  retStructs st' = retStructs st ∧ argStructs st' = argStructs st ∧
  globalStructs st' = globalStructs st ∧ Iteration st' = Iteration st ∧
  Callers st' = Callers st ∧ calleeByType st' = calleeByType st.
Proof.
  unfold addCallee, mbind, M_bind, bind, gets, modify. simpl.
  by destruct (bool_decide (fid F ∉ reachable st)).
Qed.

(** ** Monotone growth of the points-to graph *)

Lemma graph_le_refl st : graph_le st st.
Proof. by intros n. Qed.

Lemma graph_le_trans st1 st2 st3 :
  graph_le st1 st2 → graph_le st2 st3 → graph_le st1 st3.
Proof. intros H1 H2 n. etrans; [apply H1|apply H2]. Qed.

Lemma graph_le_eq st st' :
  funcPtsGraph st' = funcPtsGraph st → graph_le st st'.
Proof. intros Hg n. by rewrite Hg. Qed.

Lemma fstep_graph_le st st' : fstep st st' → graph_le st st'.
Proof.
  destruct 1 as [st st' | st n idx | st dst src s Hs | st CS F].
  - by apply graph_le_eq.
  - intros m. simpl. rewrite pts_insert. case_decide; subst; set_solver.
  - intros m. simpl. rewrite pts_insert. case_decide; subst; set_solver.
  - apply graph_le_eq. apply addCallee_frame.
Qed.

Lemma mstep_graph_le st st' : mstep st st' → graph_le st st'.
Proof.
  destruct 1 as [st st' Hf | st k obj];
    [by apply fstep_graph_le|by apply graph_le_eq].
Qed.

Lemma pstep_graph_le E st st' : pstep E st st' → graph_le st st'.
Proof.
  destruct 1 as [st st' Hm | st st' Hg _ _ _ | st cs | st f _];
    [by apply mstep_graph_le|by apply graph_le_eq..].
Qed.

Lemma step_graph_le E st st' : step E st st' → graph_le st st'.
Proof.
  destruct 1 as [st st' Hp | st f];
    [by eapply pstep_graph_le|by apply graph_le_eq].
Qed.

Lemma rtc_fstep_graph_le st st' : rtc fstep st st' → graph_le st st'.
Proof.
  apply rtc_across;
    eauto using graph_le_refl, graph_le_trans, fstep_graph_le.
Qed.

Lemma rtc_mstep_graph_le st st' : rtc mstep st st' → graph_le st st'.
Proof.
  apply rtc_across;
    eauto using graph_le_refl, graph_le_trans, mstep_graph_le.
Qed.

Lemma rtc_step_graph_le E st st' : rtc (step E) st st' → graph_le st st'.
Proof.
  apply rtc_across;
    eauto using graph_le_refl, graph_le_trans, step_graph_le.
Qed.

(** ** No empty binding appears *)

Lemma graph_wf_insert g n X : graph_wf g → X ≠ ∅ → graph_wf (<[n := X]> g).
Proof.
  intros Hwf HX m s. destruct (decide (n = m)) as [->|Hne].
  - rewrite lookup_insert_eq. by intros [= <-].
  - rewrite lookup_insert_ne by done. apply Hwf.
Qed.

Lemma fstep_graph_wf (st st' : State) :
  fstep st st' → graph_wf (funcPtsGraph st) → graph_wf (funcPtsGraph st').
Proof.
  destruct 1 as [st st' | st n idx | st dst src s Hs | st CS F]; intros Hwf.
  - by replace (funcPtsGraph st') with (funcPtsGraph st).
  - simpl. apply graph_wf_insert; [done|set_solver].
  - simpl. apply graph_wf_insert; [done|]. apply Hwf in Hs. set_solver.
  - by replace (funcPtsGraph (snd (addCallee CS F st))) with (funcPtsGraph st)
      by (symmetry; apply addCallee_frame).
Qed.

Lemma mstep_graph_wf (st st' : State) :
  mstep st st' → graph_wf (funcPtsGraph st) → graph_wf (funcPtsGraph st').
Proof. destruct 1; [by apply fstep_graph_wf|done]. Qed.

Lemma pstep_graph_wf E (st st' : State) :
  pstep E st st' → graph_wf (funcPtsGraph st) → graph_wf (funcPtsGraph st').
Proof.
  destruct 1 as [st st' Hm | st st' Hg _ _ _ | st cs | st f _]; try done.
  - by apply mstep_graph_wf.
  - by rewrite Hg.
Qed.

Lemma step_graph_wf E (st st' : State) :
  step E st st' → graph_wf (funcPtsGraph st) → graph_wf (funcPtsGraph st').
Proof. destruct 1; [by eapply pstep_graph_wf|done]. Qed.

Lemma rtc_step_graph_wf E (st st' : State) :
  rtc (step E) st st' →
  graph_wf (funcPtsGraph st) → graph_wf (funcPtsGraph st').
Proof. induction 1; eauto using step_graph_wf. Qed.

(** ** The reachable set and the recorded callees *)

Lemma inCallees_insert (st st' : State) cs X f :
  Callees st' = <[cs := X ∪ default ∅ (Callees st !! cs)]> (Callees st) →
  inCallees st' f ↔ inCallees st f ∨ f ∈ X.
Proof.
  intros HC. unfold inCallees. rewrite HC. split.
  - intros (cs' & s & Hs & Hf). destruct (decide (cs = cs')) as [->|Hne].
    + rewrite lookup_insert_eq in Hs. injection Hs as <-.
      apply elem_of_union in Hf as [Hf|Hf]; [by right|left].
      destruct (Callees st !! cs') as [s'|] eqn:Hs'; [|set_solver]. eauto.
    + rewrite lookup_insert_ne in Hs by done. left. eauto.
  - intros [(cs' & s & Hs & Hf)|Hf].
    + destruct (decide (cs = cs')) as [->|Hne].
      * eexists cs', _. rewrite lookup_insert_eq. split; [done|].
        rewrite Hs. set_solver.
      * exists cs', s. by rewrite lookup_insert_ne.
    + eexists cs, _. rewrite lookup_insert_eq. split; [done|]. set_solver.
Qed.

(** Every recorded callee is reachable, and every reachable function is
    an entry or a recorded callee. *)
Definition reach_inv (E : gset N) (st : State) : Prop :=
  (∀ f, inCallees st f → f ∈ reachable st) ∧
  (∀ f, f ∈ reachable st → f ∈ E ∨ inCallees st f).

Lemma inCallees_eq (st st' : State) f :
  Callees st' = Callees st → inCallees st' f ↔ inCallees st f.
Proof. unfold inCallees. by intros ->. Qed.

Lemma fstep_reach_inv E (st st' : State) :
  fstep st st' → reach_inv E st → reach_inv E st'.
Proof.
  destruct 1 as [st st' ? ? ? HC ? ? Hr | st n idx | st dst src s Hs | st CS F];
    intros [Hlo Hup]; try done.
  - split; intros f; rewrite Hr, (inCallees_eq st st') by done; auto.
  - pose proof (addCallee_reachable CS F st) as Hr.
    pose proof (addCallee_Callees CS F st) as HC.
    split; intros f; rewrite Hr, (inCallees_insert _ _ _ _ _ HC).
    + intros [?|?]; set_solver.
    + intros [?%elem_of_singleton|?]%elem_of_union; [subst; set_solver|].
      destruct (Hup f); auto.
Qed.

Lemma reach_inv_eq E (st st' : State) :
  reachable st' = reachable st → Callees st' = Callees st →
  reach_inv E st → reach_inv E st'.
Proof.
  intros Hr HC [Hlo Hup].
  split; intros f; rewrite Hr, (inCallees_eq st st') by done; auto.
Qed.

Lemma mstep_reach_inv E (st st' : State) :
  mstep st st' → reach_inv E st → reach_inv E st'.
Proof.
  destruct 1; [by apply fstep_reach_inv|by apply (reach_inv_eq E st)].
Qed.

Lemma pstep_reach_inv E (st st' : State) :
  pstep E st st' → reach_inv E st → reach_inv E st'.
Proof.
  intros Hs Hinv.
  destruct Hs as [st st' Hm | st st' Hg Hr HC _ | st cs | st f HE].
  - by eapply mstep_reach_inv.
  - by apply (reach_inv_eq E st).
  - destruct Hinv as [Hlo Hup].
    assert (∀ f, inCallees (upd_Callees
               (λ m, <[cs := default ∅ (m !! cs)]> m) st) f ↔ inCallees st f)
      as Heq.
    { intros f. rewrite (inCallees_insert st _ cs ∅ f).
      - set_solver.
      - simpl. f_equal. set_solver. }
    split; intros f; rewrite Heq; auto.
  - destruct Hinv as [Hlo Hup]. split; intros g; simpl.
    + intros ?%Hlo. set_solver.
    + intros [?%elem_of_singleton|?]%elem_of_union; [subst; auto|].
      destruct (Hup g) as [?|?]; auto.
Qed.

Lemma step_reach_inv E (st st' : State) :
  step E st st' → reach_inv E st → reach_inv E st'.
Proof.
  destruct 1; [by apply pstep_reach_inv|by apply (reach_inv_eq E st)].
Qed.

Lemma rtc_step_reach_inv E (st st' : State) :
  rtc (step E) st st' → reach_inv E st → reach_inv E st'.
Proof. induction 1; eauto using step_reach_inv. Qed.

Lemma fstep_reachable_mono (st st' : State) :
  fstep st st' → reachable st ⊆ reachable st'.
Proof.
  destruct 1 as [st st' ? ? ? HC ? ? Hr | st n idx | st dst src s Hs | st CS F];
    simpl; try set_solver.
  rewrite addCallee_reachable. set_solver.
Qed.

Lemma pstep_reachable_mono E (st st' : State) :
  pstep E st st' → reachable st ⊆ reachable st'.
Proof.
  destruct 1 as [st st' Hm | st st' Hg Hr HC _ | st cs | st f HE];
    simpl; try set_solver.
  destruct Hm; [by apply fstep_reachable_mono|done].
Qed.

Lemma step_reachable_mono E (st st' : State) :
  step E st st' → reachable st ⊆ reachable st'.
Proof. destruct 1; [by eapply pstep_reachable_mono|done]. Qed.

Lemma rtc_step_reachable_mono E (st st' : State) :
  rtc (step E) st st' → reachable st ⊆ reachable st'.
Proof.
  induction 1 as [|x y z Hxy _ IH]; [done|].
  etrans; [by eapply step_reachable_mono|done].
Qed.

(** ** What [doModulePass] leaves alone *)

(** The struct tables and the counter are kept, and a nonempty shortcut
    table stays nonempty. *)
Definition keeps_setup (st st' : State) : Prop :=
  retStructs st' = retStructs st ∧ argStructs st' = argStructs st ∧
  globalStructs st' = globalStructs st ∧ Iteration st' = Iteration st ∧
  (typeShortcuts st ≠ ∅ → typeShortcuts st' ≠ ∅).

Lemma keeps_setup_refl st : keeps_setup st st.
Proof. by repeat split. Qed.

Lemma keeps_setup_trans a b c :
  keeps_setup a b → keeps_setup b c → keeps_setup a c.
Proof.
  intros (? & ? & ? & ? & ?) (? & ? & ? & ? & ?).
  repeat split; try congruence. auto.
Qed.

Lemma mstep_keeps_setup st st' : mstep st st' → keeps_setup st st'.
Proof.
  destruct 1 as [st st' Hf | st k obj].
  - destruct Hf as [st st' ? ? ? ? ? ? ? Hts | st n idx | st dst src s Hs | st CS F].
    + repeat split; try done. by rewrite Hts.
    + by repeat split.
    + by repeat split.
    + pose proof (addCallee_frame CS F st) as (? & Hts & ? & ? & ? & ? & _).
      repeat split; try done. by rewrite Hts.
  - repeat split; try done. simpl. intros _ Hempty.
    apply (f_equal (λ m : gmap N N, m !! k)) in Hempty.
    by rewrite lookup_insert_eq, lookup_empty in Hempty.
Qed.

Lemma rtc_mstep_keeps_setup st st' : rtc mstep st st' → keeps_setup st st'.
Proof.
  apply rtc_across;
    eauto using keeps_setup_refl, keeps_setup_trans, mstep_keeps_setup.
Qed.

(** ** The passes leave the counter alone *)

Lemma pstep_Iteration E (st st' : State) :
  pstep E st st' → Iteration st' = Iteration st.
Proof.
  destruct 1 as [st st' Hm | st st' _ _ _ Hi | st cs | st f _]; try done.
  by apply mstep_keeps_setup in Hm as (_ & _ & _ & ? & _).
Qed.

Lemma rtc_pstep_Iteration E (st st' : State) :
  rtc (pstep E) st st' → Iteration st' = Iteration st.
Proof.
  induction 1 as [|x y z Hxy _ IH]; [done|].
  rewrite IH. by eapply pstep_Iteration.
Qed.

End Invariants.


(** * The pass as a whole *)

(** Identities of the functions [doInitialization] seeds as reachable. *)
Definition entryIds (modules : list Module) : gset N :=
  list_to_set (map (λ FI, fid (fst FI))
                 (filter (λ FI, isEntry (fst FI) = true)
                         (concat (map mfunctions modules)))).

Lemma elem_of_concat {A} (x : A) (ls : list (list A)) :
  x ∈ concat ls ↔ ∃ l, l ∈ ls ∧ x ∈ l.
Proof.
  induction ls as [|l ls IH]; simpl.
  - split; [by intros ?%elem_of_nil|by intros (? & ?%elem_of_nil & _)].
  - rewrite elem_of_app, IH. split.
    + intros [?|(l' & ? & ?)]; [exists l; split; [left|done]|].
      exists l'. split; [by right|done].
    + intros (l' & [->|?]%elem_of_cons & ?); [by left|right; eauto].
Qed.

Lemma entryIds_spec modules f :
  f ∈ entryIds modules ↔
  ∃ Mod FI, Mod ∈ modules ∧ FI ∈ mfunctions Mod ∧
            isEntry (fst FI) = true ∧ fid (fst FI) = f.
Proof.
  unfold entryIds. rewrite elem_of_list_to_set, list_elem_of_fmap. split.
  - intros (FI & -> & [HE Hin]%list_elem_of_filter).
    apply elem_of_concat in Hin as (l & (Mod & -> & HM)%list_elem_of_fmap & Hin).
    by exists Mod, FI.
  - intros (Mod & FI & HM & Hin & HE & <-). exists FI. split; [done|].
    apply list_elem_of_filter. split; [done|].
    apply elem_of_concat. exists (mfunctions Mod). split; [|done].
    apply list_elem_of_fmap. by exists Mod.
Qed.

Section Pass.

Context {NF : Type} `{AndersNodeFactory NF}.

Variable LLVM_VERSION_MAJOR : N.
Variable getStructInfo : Ty → N → option StructInfo.
Variable getGEPOffset : Instruction → N → Z.
Variable offsetToFieldNum : Ty → Z → N → N.
Variable extendObjectSize : NF → N → Ty → N → NF * N.

Local Abbreviation State := (State (NF:=NF)).
Local Abbreviation M := (M (NF:=NF)).
Local Abbreviation fstep := (fstep (NF:=NF)).
Local Abbreviation mstep := (mstep (NF:=NF)).
Local Abbreviation pstep := (pstep (NF:=NF)).
Local Abbreviation step := (step (NF:=NF)).

Local Abbreviation doInit := (doInitialization getStructInfo).
Local Abbreviation doFinal := (doFinalization LLVM_VERSION_MAJOR).
Local Abbreviation doPass :=
  (doModulePass LLVM_VERSION_MAJOR getStructInfo getGEPOffset
                offsetToFieldNum extendObjectSize).
Local Abbreviation passRun :=
  (CallGraphPass_run LLVM_VERSION_MAJOR getStructInfo getGEPOffset
                     offsetToFieldNum extendObjectSize).

Lemma pstep_doInit_in modules Mod :
  Mod ∈ modules → traced (pstep (entryIds modules)) (doInit Mod).
Proof.
  intros HM. apply pstep_doInitialization. intros FI Hin HE.
  apply entryIds_spec. by exists Mod, FI.
Qed.

Lemma step_doInit_in modules Mod :
  Mod ∈ modules → traced (step (entryIds modules)) (doInit Mod).
Proof. intros. by apply step_of_pstep, pstep_doInit_in. Qed.

Lemma step_doFinal E Mod : traced (step E) (doFinal Mod).
Proof. apply step_of_pstep, pstep_doFinalization. Qed.

Lemma step_doPass E Mod : traced (step E) (doPass Mod).
Proof. apply step_of_pstep, pstep_doModulePass. Qed.

Lemma step_CallGraphPass_run fuel modules :
  traced (step (entryIds modules)) (passRun fuel modules).
Proof.
  apply traced_run; intros.
  - apply step_iteration.
  - by apply step_doInit_in.
  - apply step_doFinal.
  - apply step_doPass.
Qed.

(** C9: points-to sets only grow.  Whatever the outcome (completion, a
    failed assertion, exhausted fuel), the set at every node after one
    instruction's transfer function, after [handleCall], after the resize
    check of a GEP, after one [doModulePass], and after the whole run,
    includes the set at that node before. *)
Theorem points_to_sets_grow :
  (∀ F I Changed st,
     graph_le st (snd (runOnInstruction LLVM_VERSION_MAJOR getStructInfo
                         getGEPOffset offsetToFieldNum extendObjectSize
                         F I Changed st))) ∧
  (∀ CS CF st, graph_le st (snd (handleCall CS CF st))) ∧
  (∀ F ptrTy idx allocSize st,
     graph_le st (snd (gepResize getStructInfo extendObjectSize
                         F ptrTy idx allocSize st))) ∧
  (∀ Mod st, graph_le st (snd (doPass Mod st))) ∧
  (∀ fuel modules st, graph_le st (snd (passRun fuel modules st))).
Proof.
  repeat split; intros.
  - apply rtc_fstep_graph_le, fstep_runOnInstruction.
  - apply rtc_fstep_graph_le, fstep_handleCall.
  - apply rtc_fstep_graph_le, fstep_gepResize.
  - apply rtc_mstep_graph_le, mstep_doModulePass.
  - eapply rtc_step_graph_le, step_CallGraphPass_run.
Qed.


(** ** What a completed computation has established *)

Lemma bind_Done {A B} (m : M A) (k : A → M B) st b st' :
  (m ≫= k) st = (Done b, st') →
  ∃ a st1, m st = (Done a, st1) ∧ k a st1 = (Done b, st').
Proof.
  unfold mbind, M_bind, bind. destruct (m st) as [[a| |] st1]; try done.
  intros Hk. by exists a, st1.
Qed.

(** [Q] holds whenever [m] completes. *)
Definition ensures (Q : State → Prop) {A} (m : M A) : Prop :=
  ∀ st a st', m st = (Done a, st') → Q st'.

Section Ensures.
Variable R : State → State → Prop.
Variable Q : State → Prop.
Hypothesis Q_step : ∀ st st', Q st → rtc R st st' → Q st'.

Lemma ensures_bind_l {A B} (m : M A) (k : A → M B) :
  ensures Q m → (∀ a, traced R (k a)) → ensures Q (m ≫= k).
Proof.
  intros Hm Hk st b st' (a & st1 & Hm1 & Hk1)%bind_Done.
  apply (Q_step st1); [by eapply Hm|].
  specialize (Hk a st1). by rewrite Hk1 in Hk.
Qed.

Lemma ensures_bind_r {A B} (m : M A) (k : A → M B) :
  (∀ a, ensures Q (k a)) → ensures Q (m ≫= k).
Proof. intros Hk st b st' (a & st1 & Hm1 & Hk1)%bind_Done. by eapply Hk. Qed.

Lemma ensures_modify f : (∀ st, Q (f st)) → ensures Q (modify f).
Proof. intros Hf st a st' [= _ <-]. apply Hf. Qed.

Lemma ensures_forM {A} (f : A → M unit) l x :
  x ∈ l → ensures Q (f x) → (∀ y, y ∈ l → traced R (f y)) →
  ensures Q (forM f l).
Proof.
  intros Hx Hfx. induction l as [|y l IH]; intros Hf;
    [by apply elem_of_nil in Hx|].
  simpl. apply elem_of_cons in Hx as [->|Hx].
  - apply ensures_bind_l; [done|]. intros _. apply traced_forM.
    intros. apply Hf. by right.
  - apply ensures_bind_r. intros _. apply IH; [done|].
    intros. apply Hf. by right.
Qed.

Lemma ensures_sweep pass ms Mod :
  Mod ∈ ms → ensures Q (pass Mod) →
  (∀ Mod', Mod' ∈ ms → traced R (pass Mod')) →
  ∀ again, ensures Q (sweep pass ms again).
Proof.
  intros HM Hp. induction ms as [|Mod' ms IH]; intros Ht again;
    [by apply elem_of_nil in HM|].
  simpl. apply elem_of_cons in HM as [->|HM].
  - apply ensures_bind_l; [done|]. intros r.
    apply traced_sweep. intros. apply Ht. by right.
  - apply ensures_bind_r. intros r. apply IH; [done|].
    intros. apply Ht. by right.
Qed.
End Ensures.

(** A completed initialization has seeded every entry function. *)
Lemma initFunction_seeds (E : gset N) Mod F :
  isEntry F = true → fid F ∈ E →
  ensures (λ st, fid F ∈ reachable st) (initFunction getStructInfo Mod F).
Proof.
  intros HE HF. unfold initFunction. rewrite HE.
  assert (∀ st st' : State, fid F ∈ reachable st → rtc (step E) st st' →
                            fid F ∈ reachable st') as Hmono.
  { intros st st' Hin Hs. by apply (rtc_step_reachable_mono E st st' Hs). }
  apply ensures_bind_r. intros RF.
  apply ensures_bind_r. intros _.
  apply ensures_bind_r. intros _.
  apply (ensures_bind_l (step E)); [done| |].
  - apply (ensures_bind_l (step E)); [done| |].
    + apply ensures_modify. intros st. simpl. set_solver.
    + intros _. apply step_of_pstep. tr_p.
  - intros _. apply step_of_pstep. tr_p.
Qed.

Lemma doInitialization_seeds (modules : list Module) Mod FI :
  Mod ∈ modules → FI ∈ mfunctions Mod → isEntry (fst FI) = true →
  ensures (λ st, fid (fst FI) ∈ reachable st) (doInit Mod).
Proof.
  intros HM HF HE. set (E := entryIds modules).
  assert (∀ FI', FI' ∈ mfunctions Mod → isEntry (fst FI') = true →
                 fid (fst FI') ∈ E) as HE'.
  { intros FI' ? ?. apply entryIds_spec. by exists Mod, FI'. }
  assert (∀ st st' : State, fid (fst FI) ∈ reachable st →
            rtc (step E) st st' → fid (fst FI) ∈ reachable st') as Hmono.
  { intros st st' Hin Hs. by apply (rtc_step_reachable_mono E st st' Hs). }
  unfold doInitialization.
  apply ensures_bind_r. intros _.
  apply (ensures_bind_l (step E)); [done| |intros; apply traced_ret].
  apply (ensures_forM (step E) _ Hmono _ _ FI); [done| |].
  - apply (initFunction_seeds E); auto.
  - intros FI' Hin. apply step_of_pstep, pstep_initFunction. auto.
Qed.

Lemma run_seeds fuel modules Mod FI :
  Mod ∈ modules → FI ∈ mfunctions Mod → isEntry (fst FI) = true →
  ensures (λ st, fid (fst FI) ∈ reachable st) (passRun fuel modules).
Proof.
  intros HM HF HE. set (E := entryIds modules).
  assert (∀ st st' : State, fid (fst FI) ∈ reachable st →
            rtc (step E) st st' → fid (fst FI) ∈ reachable st') as Hmono.
  { intros st st' Hin Hs. by apply (rtc_step_reachable_mono E st st' Hs). }
  unfold CallGraphPass_run, run.
  assert (∀ st f, step E st (upd_Iteration f st)) as Hit
    by (intros; apply step_iteration).
  apply ensures_bind_r. intros _.
  apply (ensures_bind_l (step E)); [done| |].
  - destruct fuel as [|fuel]; [by intros st a st'|]. simpl.
    apply (ensures_bind_l (step E)); [done| |].
    + apply (ensures_sweep (step E) _ Hmono _ _ Mod); [done| |].
      * by apply (doInitialization_seeds modules).
      * intros. by apply step_doInit_in.
    + intros again.
      apply traced_bind; [by apply traced_nextIteration|intros _].
      destruct again; [|apply traced_ret].
      apply traced_whileAgain; [done|]. intros. by apply step_doInit_in.
  - intros _. apply traced_bind.
    { apply traced_whileChanged; [done|]. intros. apply step_doPass. }
    intros _. apply traced_bind.
    { apply traced_modify. intros st. apply Hit. }
    intros _. apply traced_whileAgain; [done|]. intros. apply step_doFinal.
Qed.

(** After a completed run that started with no function reachable and
    no callee recorded, a function is reachable exactly when it is a
    seeded entry point or is recorded in [Callees]. *)
Lemma run_reachable_inv fuel modules (st st' : State) :
  reachable st = ∅ → Callees st = ∅ →
  passRun fuel modules st = (Done tt, st') →
  ∀ f, f ∈ reachable st' ↔ f ∈ entryIds modules ∨ inCallees st' f.
Proof.
  intros Hr HC Hrun f.
  assert (reach_inv (entryIds modules) st') as [Hlo Hup].
  { pose proof (step_CallGraphPass_run fuel modules st) as Htr.
    rewrite Hrun in Htr. apply (rtc_step_reach_inv _ _ _ Htr).
    split; intros g.
    - intros (cs & s & Hs & _). by rewrite HC in Hs.
    - rewrite Hr. by intros ?%elem_of_empty. }
  split; [apply Hup|]. intros [(Mod & FI & HM & HF & HE & <-)%entryIds_spec|Hin].
  - by eapply (run_seeds fuel modules Mod FI).
  - by apply Hlo.
Qed.


(** ** The fallback of an indirect call *)

(** In a graph without empty bindings a set reads as empty only when
    its key is absent. *)
Lemma graph_wf_empty_absent g n :
  graph_wf g → pts g n = ∅ → g !! n = None.
Proof.
  intros Hwf Hp. destruct (g !! n) as [s|] eqn:Hs; [|done].
  unfold pts in Hp. rewrite Hs in Hp. simpl in Hp. by apply Hwf in Hs.
Qed.

(** The passes never bind a key to the empty set: the hypothesis of the
    theorem below holds throughout a run that starts from such a graph,
    the empty one for instance. *)
Lemma run_keeps_graph_wf fuel modules (st : State) :
  graph_wf (funcPtsGraph st) →
  graph_wf (funcPtsGraph (snd (passRun fuel modules st))).
Proof. apply rtc_step_graph_wf with (entryIds modules), step_CallGraphPass_run. Qed.

(** C6: at an indirect call site whose callee operand has an empty
    points-to set (in a graph where no key is bound to the empty set, as
    in every graph the pass builds, an absent key), the instruction's
    transfer function resolves the site by type: the site's type-based
    set becomes what [findCalleesByType] computes, the operand's node is
    recorded as unresolved exactly when that set is nonempty, and neither
    the graph nor the callee map changes. *)
Theorem indirect_call_falls_back_to_types F CS op CO args Changed
    (st st1 : State) TS :
  ikind CS = CallBase op (CalledValue CO) args →
  graph_wf (funcPtsGraph st) →
  pts (funcPtsGraph st) (getValueNodeFor (nodeFactory st) (vid CO)) = ∅ →
  getValueNodeFor (nodeFactory st) (vid CO) ≠ InvalidIndex →
  findCalleesByType LLVM_VERSION_MAJOR CS st = (Done TS, st1) →
  ∃ st',
    runOnInstruction LLVM_VERSION_MAJOR getStructInfo getGEPOffset
      offsetToFieldNum extendObjectSize F CS Changed st = (Done Changed, st') ∧
    calleeByType st' !! iid CS = Some TS ∧
    (TS ≠ ∅ → unresolvedFPts st' =
              {[getValueNodeFor (nodeFactory st) (vid CO)]} ∪ unresolvedFPts st) ∧
    (TS = ∅ → unresolvedFPts st' = unresolvedFPts st) ∧
    funcPtsGraph st' = funcPtsGraph st ∧ Callees st' = Callees st.
Proof.
  intros Hk Hwf Hempty Hvalid Hfind.
  pose proof (graph_wf_empty_absent _ _ Hwf Hempty) as Habs.
  unfold runOnInstruction. rewrite Hk. unfold runCall.
  unfold mbind, M_bind, bind, gets, ptsFind, assert, notInvalid. simpl.
  apply N.eqb_neq in Hvalid. rewrite Hvalid. simpl. rewrite Habs.
  rewrite Hfind.
  revert Hfind. unfold findCalleesByType, mbind, M_bind, bind, gets, modify.
  simpl. destruct (findCalleesByType_loop _ _ _ _) as [TS'| |]; try done.
  simpl. intros [= <- <-].
  destruct (decide (TS' = ∅)) as [->|Hne].
  - rewrite bool_decide_eq_true_2 by done. simpl. eexists. split; [done|].
    simpl. rewrite lookup_insert_eq. by repeat split.
  - rewrite bool_decide_eq_false_2 by done. simpl. eexists. split; [done|].
    simpl. rewrite lookup_insert_eq. by repeat split.
Qed.

End Pass.


(** * The iteration cap of the driver *)

(** [F] is a function with a body: it is no declaration, no intrinsic and
    has a basic block. *)
Definition hasBody (F : Function) : bool :=
  negb (fisDeclaration F || fisIntrinsic F || fempty F).

Section Cap.

Context {NF : Type} `{AndersNodeFactory NF}.

Variable LLVM_VERSION_MAJOR : N.
Variable getStructInfo : Ty → N → option StructInfo.
Variable getGEPOffset : Instruction → N → Z.
Variable offsetToFieldNum : Ty → Z → N → N.
Variable extendObjectSize : NF → N → Ty → N → NF * N.

Local Abbreviation State := (State (NF:=NF)).
Local Abbreviation M := (M (NF:=NF)).
Local Abbreviation mstep := (mstep (NF:=NF)).
Local Abbreviation pstep := (pstep (NF:=NF)).
Local Abbreviation doInit := (doInitialization getStructInfo).
Local Abbreviation doFinal := (doFinalization LLVM_VERSION_MAJOR).
Local Abbreviation doPass :=
  (doModulePass LLVM_VERSION_MAJOR getStructInfo getGEPOffset
                offsetToFieldNum extendObjectSize).
Local Abbreviation passRun :=
  (CallGraphPass_run LLVM_VERSION_MAJOR getStructInfo getGEPOffset
                     offsetToFieldNum extendObjectSize).

(** A struct type for which [doModulePass] would create a shortcut. *)
Definition shortcutCandidate (st : State) (stInfo : StructInfo) : Prop :=
  is_Some (argStructs st !! siId stInfo) ∧
  globalStructs st !! siId stInfo = None.

(** Nothing is left for the shortcut loop to do: it is skipped, or no
    struct type qualifies. *)
Definition shortcutsSettled (st : State) : Prop :=
  typeShortcuts st ≠ ∅ ∨
  ∀ k e, retStructs st !! k = Some e → ¬ shortcutCandidate st (fst e).

(** [doModulePass] with its guard [Iteration < 2] taken. *)
Definition processPass (Mod : Module) : M bool :=
  modify (enterModule Mod);;
  createTypeShortcuts;;
  processFunctions LLVM_VERSION_MAJOR getStructInfo getGEPOffset
                   offsetToFieldNum extendObjectSize (mfunctions Mod) false.

(** The loop of the fixpoint phase unrolled twice. *)
Definition unrolledFixpoint (modules : list Module) : M unit :=
  changed ← countChanged processPass modules 0;
  nextIteration;;
  if negb ((changed : N) =? 0) then
    forM (λ Mod, modify (enterModule Mod)) modules;;
    nextIteration
  else mret tt.

Definition unrolledRun (modules : list Module) : M unit :=
  modify (upd_Iteration (λ _, 0));;
  (sweep doInit modules false;; nextIteration);;
  unrolledFixpoint modules;;
  modify (upd_Iteration (λ _, 0));;
  (sweep doFinal modules false;; nextIteration).

(** ** The capped fixpoint, by the words of the specification

    The definitions below do not come from the code.  They say, in
    terms of [runOnFunction] alone, what the specification says the
    driver does, and are compared with the code in the theorem. *)

(** The transfer functions run over the given functions, one after the
    other; the result tells whether one of the runs reported a change. *)
Fixpoint transferAll (Fs : list (Function * list Instruction)) : M bool :=
  match Fs with
  | [] => mret false
  | FI :: Fs' =>
      c ← runOnFunction LLVM_VERSION_MAJOR getStructInfo getGEPOffset
                        offsetToFieldNum extendObjectSize FI;
      cs ← transferAll Fs';
      mret (c || cs)
  end.

(** A pass that processes the instructions of a module: the module is
    entered, the type shortcuts are created if there are none, and the
    transfer functions run over every function with a body. *)
Definition processingPass (Mod : Module) : M bool :=
  modify (enterModule Mod);;
  createTypeShortcuts;;
  transferAll (filter (λ FI, hasBody (fst FI) = true) (mfunctions Mod)).

(** A pass that processes no instruction. *)
Definition idlePass (Mod : Module) : M bool :=
  modify (enterModule Mod);;
  createTypeShortcuts;;
  mret false.

(** One sweep of processing passes over the modules; the result tells
    whether some module reported a change. *)
Fixpoint processingSweep (modules : list Module) : M bool :=
  match modules with
  | [] => mret false
  | Mod :: modules' =>
      c ← processingPass Mod;
      cs ← processingSweep modules';
      mret (c || cs)
  end.

(** The fixpoint phase: one processing sweep; when it reported a
    change, one more sweep in which every module is entered and nothing
    else happens. *)
Definition cappedFixpoint (modules : list Module) : M unit :=
  changed ← processingSweep modules;
  nextIteration;;
  if changed : bool then
    forM (λ Mod, modify (enterModule Mod)) modules;;
    nextIteration
  else mret tt.

(** The whole run: one initialization sweep, the capped fixpoint phase,
    one finalization sweep. *)
Definition cappedRun (modules : list Module) : M unit :=
  modify (upd_Iteration (λ _, 0));;
  (sweep doInit modules false;; nextIteration);;
  cappedFixpoint modules;;
  modify (upd_Iteration (λ _, 0));;
  (sweep doFinal modules false;; nextIteration).

Lemma forM_unchanged {A} (f : A → M unit) l (st : State) :
  (∀ x, x ∈ l → f x st = (Done tt, st)) → forM f l st = (Done tt, st).
Proof.
  induction l as [|x l IH]; intros Hf; simpl; [done|].
  unfold mbind, M_bind, bind. rewrite Hf by left.
  apply IH. intros. apply Hf. by right.
Qed.

Lemma createTypeShortcut_unchanged entry (st : State) :
  ¬ shortcutCandidate st (fst (snd entry)) →
  createTypeShortcut entry st = (Done tt, st).
Proof.
  unfold shortcutCandidate, createTypeShortcut, mbind, M_bind, bind, gets.
  simpl. intros Hn.
  destruct (argStructs st !! siId (fst (snd entry))) as [a|] eqn:Ha; [|done].
  destruct (decide (globalStructs st !! siId (fst (snd entry)) = None)) as [Hg|Hg].
  - destruct Hn. eauto.
  - by rewrite bool_decide_eq_false_2.
Qed.

Lemma createTypeShortcuts_settled (st : State) :
  shortcutsSettled st → createTypeShortcuts st = (Done tt, st).
Proof.
  intros Hs. unfold createTypeShortcuts, mbind, M_bind, bind, gets. simpl.
  destruct (decide (typeShortcuts st = ∅)) as [He|Hne].
  - rewrite bool_decide_eq_true_2 by done.
    destruct Hs as [?|Hs]; [done|].
    apply forM_unchanged. intros [k e] Hin%elem_of_map_to_list.
    apply createTypeShortcut_unchanged. simpl. by eapply Hs.
  - by rewrite bool_decide_eq_false_2.
Qed.

Lemma doModulePass_late Mod (st : State) :
  2 ≤ Iteration st → shortcutsSettled st →
  doPass Mod st = (Done false, enterModule Mod st).
Proof.
  intros Hit Hs. unfold doModulePass, mbind, M_bind, bind, modify. simpl.
  rewrite createTypeShortcuts_settled by done. unfold gets. simpl.
  by rewrite (proj2 (N.ltb_ge _ _) Hit).
Qed.


Lemma keeps_setup_settled (st st' : State) :
  keeps_setup st st' → shortcutsSettled st → shortcutsSettled st'.
Proof.
  intros (Hr & Ha & Hg & _ & Hts) [Hne|Hno]; [left; auto|right].
  intros k e. rewrite Hr. intros He [Hsome Hnone].
  apply (Hno k e He). split; [by rewrite <- Ha|by rewrite <- Hg].
Qed.

Lemma settled_step (st st' : State) :
  shortcutsSettled st → rtc mstep st st' → shortcutsSettled st'.
Proof.
  intros Hs Hr. apply (keeps_setup_settled st); [|done].
  by apply rtc_mstep_keeps_setup.
Qed.

Lemma nonempty_step (st st' : State) :
  typeShortcuts st ≠ ∅ → rtc mstep st st' → typeShortcuts st' ≠ ∅.
Proof.
  intros Hs Hr. apply rtc_mstep_keeps_setup in Hr as (_ & _ & _ & _ & Hk).
  auto.
Qed.

Lemma createTypeShortcut_creates entry :
  ensures (λ st, shortcutCandidate st (fst (snd entry)) →
                 typeShortcuts st ≠ ∅) (createTypeShortcut entry).
Proof.
  intros st a st' Hdone.
  pose proof (rtc_mstep_keeps_setup _ _ (mstep_createTypeShortcut entry st))
    as (_ & Ha & Hg & _ & _). rewrite Hdone in Ha, Hg. simpl in Ha, Hg.
  intros [Hsome Hnone]. rewrite Ha in Hsome. rewrite Hg in Hnone.
  unfold createTypeShortcut in Hdone.
  apply bind_Done in Hdone as (as_ & st1 & [= <- <-] & Hk).
  apply bind_Done in Hk as (gs & st1 & [= <- <-] & Hk).
  destruct (argStructs st !! siId (fst (snd entry))) as [argEntry|];
    [|by destruct Hsome].
  rewrite bool_decide_eq_true_2 in Hk by done.
  apply bind_Done in Hk as (nf & st1 & [= <- <-] & Hk).
  destruct (createObjectNode _ _ _ _) as [nf' obj].
  apply bind_Done in Hk as (? & st1 & _ & Hk).
  apply bind_Done in Hk as (? & st2 & _ & Hk).
  apply bind_Done in Hk as (? & st3 & _ & Hk).
  apply bind_Done in Hk as (? & st4 & Hmod & Hk).
  unfold modify in Hmod. injection Hmod as Hst4. subst st4.
  match type of Hk with ?m ?s = _ =>
    assert (traced mstep m) as Htr by (tr_m; apply mstep_shortcutNode);
    specialize (Htr s); rewrite Hk in Htr
  end.
  apply (nonempty_step _ _) in Htr; [done|].
  simpl. intros Hempty.
  apply (f_equal (λ m : gmap N N, m !! siId (fst (snd entry)))) in Hempty.
  by rewrite lookup_insert_eq, lookup_empty in Hempty.
Qed.


#[local] Instance shortcutCandidate_dec (st : State) si :
  Decision (shortcutCandidate st si).
Proof. unfold shortcutCandidate. apply _. Defined.

Lemma createTypeShortcuts_settles :
  ensures shortcutsSettled createTypeShortcuts.
Proof.
  intros st a st' Hdone. unfold createTypeShortcuts in Hdone.
  apply bind_Done in Hdone as (ts & st1 & [= <- <-] & Hk).
  destruct (decide (typeShortcuts st = ∅)) as [He|Hne].
  2:{ rewrite bool_decide_eq_false_2 in Hk by done.
      injection Hk as _ <-. by left. }
  rewrite bool_decide_eq_true_2 in Hk by done.
  apply bind_Done in Hk as (rs & st1 & [= <- <-] & Hk).
  assert (traced mstep (forM createTypeShortcut (map_to_list (retStructs st))))
    as Htr by (tr_m; apply mstep_createTypeShortcut).
  specialize (Htr st). rewrite Hk in Htr. simpl in Htr.
  apply rtc_mstep_keeps_setup in Htr as (Hr & Ha & Hg & _ & _).
  assert (∀ si, shortcutCandidate st' si ↔ shortcutCandidate st si) as Hc.
  { intros si. unfold shortcutCandidate. by rewrite Ha, Hg. }
  destruct (decide (Exists (λ e, shortcutCandidate st (fst (snd e)))
                           (map_to_list (retStructs st)))) as [Hex|Hno].
  - left. apply Exists_exists in Hex as (e & Hin & Hcand).
    eapply (ensures_forM mstep
              (λ s, shortcutCandidate s (fst (snd e)) → typeShortcuts s ≠ ∅));
      [| |apply createTypeShortcut_creates| |exact Hk|by apply Hc].
    + intros s s' HQ Hs. pose proof (rtc_mstep_keeps_setup _ _ Hs)
        as (_ & Ha' & Hg' & _ & Hts).
      intros Hcand'. apply Hts, HQ. revert Hcand'.
      unfold shortcutCandidate. by rewrite Ha', Hg'.
    + done.
    + intros. apply mstep_createTypeShortcut.
  - right. intros k e. rewrite Hr. intros Hin Hcand. apply Hno.
    apply Exists_exists. exists (k, e). split; [|by apply Hc].
    by apply elem_of_map_to_list.
Qed.

Lemma mstep_processPass Mod : traced mstep (processPass Mod).
Proof.
  unfold processPass, createTypeShortcuts. tr_m.
  - apply mstep_createTypeShortcut.
  - apply mstep_processFunctions.
Qed.

Lemma processPass_settles Mod : ensures shortcutsSettled (processPass Mod).
Proof.
  unfold processPass. apply ensures_bind_r. intros _.
  apply (ensures_bind_l mstep); [apply settled_step| |].
  - apply createTypeShortcuts_settles.
  - intros _. apply mstep_processFunctions.
Qed.

Lemma doModulePass_early Mod (st : State) :
  Iteration st < 2 → doPass Mod st = processPass Mod st.
Proof.
  intros Hit. unfold doModulePass, processPass, mbind, M_bind, bind, modify.
  simpl. destruct (createTypeShortcuts _) as [[[]| |] st1] eqn:Hc; try done.
  unfold gets. simpl.
  assert (traced mstep createTypeShortcuts) as Htr.
  { unfold createTypeShortcuts. tr_m. apply mstep_createTypeShortcut. }
  specialize (Htr (enterModule Mod st)). rewrite Hc in Htr.
  apply rtc_mstep_keeps_setup in Htr as (_ & _ & _ & Hi & _).
  simpl in Hi. rewrite Hi. by rewrite (proj2 (N.ltb_lt _ _) Hit).
Qed.

Lemma countChanged_early ms : ∀ n (st : State),
  Iteration st < 2 →
  countChanged doPass ms n st = countChanged processPass ms n st.
Proof.
  induction ms as [|Mod ms IH]; intros n st Hit; simpl; [done|].
  unfold mbind, M_bind, bind. rewrite doModulePass_early by done.
  destruct (processPass Mod st) as [[r| |] st1] eqn:Hp; try done.
  apply IH. pose proof (mstep_processPass Mod st) as Htr.
  rewrite Hp in Htr.
  apply rtc_mstep_keeps_setup in Htr as (_ & _ & _ & Hi & _).
  simpl in Hi. by rewrite Hi.
Qed.

Lemma countChanged_late ms : ∀ n (st : State),
  2 ≤ Iteration st → shortcutsSettled st →
  countChanged doPass ms n st =
  (Done n, foldl (λ s Mod, enterModule Mod s) st ms).
Proof.
  induction ms as [|Mod ms IH]; intros n st Hit Hs; simpl; [done|].
  unfold mbind, M_bind, bind. rewrite doModulePass_late by done.
  by apply IH.
Qed.

Lemma forM_enterModule ms : ∀ st : State,
  forM (λ Mod, modify (enterModule Mod)) ms st =
  (Done tt, foldl (λ s Mod, enterModule Mod s) st ms).
Proof. induction ms as [|Mod ms IH]; intros st; simpl; [done|]. apply IH. Qed.

Lemma countChanged_settles ms n (st st' : State) changed :
  countChanged processPass ms n st = (Done changed, st') →
  changed ≠ n → shortcutsSettled st'.
Proof.
  destruct ms as [|Mod ms]; simpl; [by intros [= <- <-]|]. intros Hc _.
  eapply (ensures_bind_l mstep shortcutsSettled settled_step); [| |exact Hc].
  - apply processPass_settles.
  - intros r. apply traced_countChanged. intros. apply mstep_processPass.
Qed.

Lemma countChanged_Iteration ms n (st st' : State) changed :
  countChanged processPass ms n st = (Done changed, st') →
  Iteration st' = Iteration st.
Proof.
  intros Hc.
  assert (traced mstep (countChanged processPass ms n)) as Htr.
  { apply traced_countChanged. intros. apply mstep_processPass. }
  specialize (Htr st). rewrite Hc in Htr.
  by apply rtc_mstep_keeps_setup in Htr as (_ & _ & _ & Hi & _).
Qed.

Lemma whileChanged_unrolled fuel ms (st : State) :
  Iteration st = 1 →
  whileChanged doPass (S (S fuel)) ms st = unrolledFixpoint ms st.
Proof.
  intros Hit. unfold unrolledFixpoint.
  cbn [whileChanged]. unfold mbind, M_bind, bind.
  rewrite countChanged_early by lia.
  destruct (countChanged processPass ms 0 st) as [[changed| |] st1] eqn:Hc;
    try done.
  pose proof (countChanged_Iteration _ _ _ _ _ Hc) as Hi.
  unfold nextIteration, modify.
  destruct (changed =? 0) eqn:Hz; simpl; [done|].
  apply N.eqb_neq in Hz.
  rewrite countChanged_late, forM_enterModule; simpl.
  - done.
  - lia.
  - assert (shortcutsSettled st1) as Hs
      by (by eapply (countChanged_settles ms 0 st)).
    exact Hs.
Qed.


Lemma ret_false_Done {A} (m : M A) (st st' : State) b :
  (m ≫= λ _, mret false) st = (Done b, st') → b = false.
Proof. intros (? & ? & _ & [= <- _])%bind_Done. done. Qed.

Lemma doInitialization_false Mod (st st' : State) b :
  doInit Mod st = (Done b, st') → b = false.
Proof.
  unfold doInitialization. intros (? & ? & _ & Hk)%bind_Done.
  by apply ret_false_Done in Hk.
Qed.

Lemma doFinalization_false Mod (st st' : State) b :
  doFinal Mod st = (Done b, st') → b = false.
Proof. unfold doFinalization. apply ret_false_Done. Qed.

Lemma sweep_false (pass : Module → M bool) ms :
  (∀ Mod (st st' : State) b, pass Mod st = (Done b, st') → b = false) →
  ∀ (st st' : State) b, sweep pass ms false st = (Done b, st') → b = false.
Proof.
  intros Hp. induction ms as [|Mod ms IH]; intros st st' b; simpl.
  - by intros [= <- _].
  - intros (r & st1 & Hr & Hk)%bind_Done. apply Hp in Hr as ->. by eapply IH.
Qed.

Lemma whileAgain_once fuel (pass : Module → M bool) ms (st : State) :
  (∀ Mod (st st' : State) b, pass Mod st = (Done b, st') → b = false) →
  whileAgain (S fuel) pass ms st = (sweep pass ms false;; nextIteration) st.
Proof.
  intros Hp. cbn [whileAgain]. unfold mbind, M_bind, bind.
  destruct (sweep pass ms false st) as [[again| |] st1] eqn:Hs; try done.
  apply (sweep_false _ _ Hp) in Hs as ->. by unfold nextIteration, modify.
Qed.

Lemma sweep_doInit_Iteration ms (st st' : State) b :
  sweep doInit ms false st = (Done b, st') → Iteration st' = Iteration st.
Proof.
  intros Hs.
  assert (traced (pstep (entryIds ms)) (sweep doInit ms false)) as Htr.
  { apply traced_sweep. intros. by apply pstep_doInit_in. }
  specialize (Htr st). rewrite Hs in Htr.
  by apply rtc_pstep_Iteration in Htr.
Qed.

Lemma bind_cong {A B} (m1 m2 : M A) (k1 k2 : A → M B) (st : State) :
  m1 st = m2 st →
  (∀ a st', m2 st = (Done a, st') → k1 a st' = k2 a st') →
  (m1 ≫= k1) st = (m2 ≫= k2) st.
Proof.
  intros Hm Hk. unfold mbind, M_bind, bind. rewrite Hm.
  destruct (m2 st) as [[a| |] st']; try done. by apply Hk.
Qed.

Lemma run_unrolled fuel ms (st : State) :
  passRun (S (S fuel)) ms st = unrolledRun ms st.
Proof.
  unfold CallGraphPass_run, run, unrolledRun.
  apply bind_cong; [done|]. intros [] st0 [= <-].
  apply bind_cong; [apply whileAgain_once, doInitialization_false|].
  intros [] st1 Hinit.
  assert (Iteration st1 = 1) as Hit.
  { apply bind_Done in Hinit as (b & st' & Hs & [= <-]).
    apply sweep_doInit_Iteration in Hs. simpl. rewrite Hs. done. }
  apply bind_cong; [by apply whileChanged_unrolled|]. intros [] st2 _.
  apply bind_cong; [done|]. intros [] st3 _.
  apply whileAgain_once, doFinalization_false.
Qed.

(** ** The code against the words *)

Lemma processFunctions_transferAll Fs : ∀ c (st : State),
  processFunctions LLVM_VERSION_MAJOR getStructInfo getGEPOffset
                   offsetToFieldNum extendObjectSize Fs c st =
  (r ← transferAll (filter (λ FI, hasBody (fst FI) = true) Fs);
   mret (c || r)) st.
Proof.
  induction Fs as [|FI Fs IH]; intros c st.
  - simpl. unfold mbind, M_bind, bind, mret, M_ret, ret. simpl.
    by rewrite orb_false_r.
  - cbn [processFunctions]. rewrite filter_cons.
    destruct (decide (hasBody (fst FI) = true)) as [Hb|Hb];
      unfold hasBody in Hb.
    2:{ apply not_true_is_false, negb_false_iff in Hb. rewrite Hb.
        apply IH. }
    apply negb_true_iff in Hb. rewrite Hb. cbn [transferAll].
    unfold mbind, M_bind, bind.
    destruct (runOnFunction _ _ _ _ _ FI st) as [[c1| |] st1]; try done.
    rewrite IH. unfold mbind, M_bind, bind.
    destruct (transferAll _ st1) as [[cs| |] st2]; try done.
    unfold mret, M_ret, ret. by rewrite orb_assoc.
Qed.

Lemma processPass_processingPass Mod (st : State) :
  processPass Mod st = processingPass Mod st.
Proof.
  unfold processPass, processingPass, mbind, M_bind, bind, modify.
  destruct (createTypeShortcuts _) as [[[]| |] st1]; try done.
  rewrite processFunctions_transferAll. unfold mbind, M_bind, bind.
  by destruct (transferAll _ st1) as [[r| |] st2].
Qed.

Lemma countChanged_processingSweep ms : ∀ n (st : State),
  match processingSweep ms st, countChanged processPass ms n st with
  | (Done c, s1), (Done k, s2) => s1 = s2 ∧ n ≤ k ∧ c = negb (k =? n)
  | (Fatal w1, s1), (Fatal w2, s2) => w1 = w2 ∧ s1 = s2
  | (OutOfFuel, s1), (OutOfFuel, s2) => s1 = s2
  | _, _ => False
  end.
Proof.
  induction ms as [|Mod ms IH]; intros n st.
  - simpl. unfold mret, M_ret, ret. split; [done|]. split; [lia|].
    by rewrite N.eqb_refl.
  - cbn [processingSweep countChanged]. unfold mbind, M_bind, bind.
    rewrite processPass_processingPass.
    destruct (processingPass Mod st) as [[c| |] st1]; try done.
    specialize (IH (if c then n + 1 else n) st1).
    destruct (processingSweep ms st1) as [[cs| |] s1],
             (countChanged processPass ms _ st1) as [[k| |] s2];
      try done.
    destruct IH as (-> & Hle & ->). unfold mret, M_ret, ret.
    split; [done|]. destruct c; simpl.
    + split; [lia|]. symmetry. apply negb_true_iff, N.eqb_neq. lia.
    + done.
Qed.

Lemma unrolledFixpoint_capped ms (st : State) :
  unrolledFixpoint ms st = cappedFixpoint ms st.
Proof.
  unfold unrolledFixpoint, cappedFixpoint, mbind, M_bind, bind.
  pose proof (countChanged_processingSweep ms 0 st) as Hc.
  destruct (processingSweep ms st) as [[c| |] s1],
           (countChanged processPass ms 0 st) as [[k| |] s2]; try done.
  - destruct Hc as (-> & _ & ->). done.
  - by destruct Hc as [-> ->].
  - by subst.
Qed.

Lemma run_capped fuel ms (st : State) :
  passRun (S (S fuel)) ms st = cappedRun ms st.
Proof.
  rewrite run_unrolled. unfold unrolledRun, cappedRun.
  apply bind_cong; [done|]. intros [] st0 _.
  apply bind_cong; [done|]. intros [] st1 _.
  apply bind_cong; [apply unrolledFixpoint_capped|done].
Qed.

Lemma traced_createTypeShortcuts : traced mstep createTypeShortcuts.
Proof. unfold createTypeShortcuts. tr_m. apply mstep_createTypeShortcut. Qed.

Lemma doModulePass_idle Mod (st : State) :
  2 ≤ Iteration st → doPass Mod st = idlePass Mod st.
Proof.
  intros Hit. unfold doModulePass, idlePass, mbind, M_bind, bind, modify.
  simpl. destruct (createTypeShortcuts _) as [[[]| |] st1] eqn:Hc; try done.
  unfold gets. simpl.
  pose proof (traced_createTypeShortcuts (enterModule Mod st)) as Htr.
  rewrite Hc in Htr.
  apply rtc_mstep_keeps_setup in Htr as (_ & _ & _ & Hi & _).
  simpl in Hi. rewrite Hi. by rewrite (proj2 (N.ltb_ge _ _) Hit).
Qed.

Lemma idlePass_settled Mod (st : State) :
  shortcutsSettled st → idlePass Mod st = (Done false, enterModule Mod st).
Proof.
  intros Hs. unfold idlePass, mbind, M_bind, bind, modify. simpl.
  by rewrite createTypeShortcuts_settled.
Qed.

Lemma doModulePass_settles Mod : ensures shortcutsSettled (doPass Mod).
Proof.
  unfold doModulePass. apply ensures_bind_r. intros _.
  apply (ensures_bind_l mstep); [apply settled_step| |].
  - apply createTypeShortcuts_settles.
  - intros _. tr_m. apply mstep_processFunctions.
Qed.

(** C5: the guard [Iteration < 2] decides what a call of [doModulePass]
    does.  Below 2 the call is a processing pass: it enters the module,
    creates the type shortcuts if there are none and runs the transfer
    functions, [runOnFunction], over every function of the module that
    has a body.  From 2 on it runs no transfer function: it enters the
    module, looks at the shortcut tables and returns [false]; where the
    shortcut loop has nothing left to do, as after every completed
    earlier call, entering the module is all it does.  In the driver the
    counter is shared with the initialization sweep, which leaves it at
    1: with fuel for two rounds or more the run is one initialization
    sweep, one sweep of processing passes, one further sweep that only
    enters the modules when the first reported a change, and one
    finalization sweep. *)
Theorem doModulePass_iteration_cap :
  (∀ Mod (st : State), Iteration st < 2 →
     doPass Mod st = processingPass Mod st) ∧
  (∀ Mod (st : State), 2 ≤ Iteration st →
     doPass Mod st = idlePass Mod st) ∧
  (∀ Mod (st : State), 2 ≤ Iteration st → shortcutsSettled st →
     doPass Mod st = (Done false, enterModule Mod st)) ∧
  (∀ Mod (st st' : State) b,
     doPass Mod st = (Done b, st') → shortcutsSettled st') ∧
  (∀ fuel modules (st : State),
     passRun (S (S fuel)) modules st = cappedRun modules st).
Proof.
  split.
  { intros Mod st Hit. rewrite doModulePass_early by done.
    apply processPass_processingPass. }
  split; [apply doModulePass_idle|].
  split; [apply doModulePass_late|].
  split; [intros Mod st st' b; apply doModulePass_settles|].
  apply run_capped.
Qed.

End Cap.


(** * What the initialization and finalization sweeps record *)

(** Identities of the [CallInst]s of a module. *)
Definition callInstIds (Mod : Module) : gset N :=
  list_to_set (map iid (filter (λ I, isCallInst I = true)
                               (module_instructions Mod))).

Section Sweeps.

Context {NF : Type} `{AndersNodeFactory NF}.

Variable LLVM_VERSION_MAJOR : N.
Variable getStructInfo : Ty → N → option StructInfo.

Local Abbreviation State := (State (NF:=NF)).
Local Abbreviation M := (M (NF:=NF)).

(** [Ctx->Callers[f]], read without creating the key. *)
Definition callersOf (st : State) (f : N) : gset N :=
  default ∅ (Callers st !! f).

(** Between [st] and [st'] only call sites of [C] were added to
    [Callers], and only keys of [C] had their type-based set touched. *)
Definition sweepOnly (C : gset N) (st st' : State) : Prop :=
  (∀ f cs, cs ∈ callersOf st' f → cs ∈ callersOf st f ∨ cs ∈ C) ∧
  (∀ cs, cs ∉ C → calleeByType st' !! cs = calleeByType st !! cs).

Lemma sweepOnly_refl C st : sweepOnly C st st.
Proof. split; auto. Qed.

Lemma sweepOnly_trans C a b c :
  sweepOnly C a b → sweepOnly C b c → sweepOnly C a c.
Proof.
  intros [H1 H2] [H3 H4]. split.
  - intros f cs [Hin|?]%H3; auto.
  - intros cs Hcs. by rewrite H4, H2.
Qed.

Lemma sweepOnly_frame C (st st' : State) :
  Callers st' = Callers st → calleeByType st' = calleeByType st →
  sweepOnly C st st'.
Proof. unfold sweepOnly, callersOf. intros -> ->. auto. Qed.

Lemma sweepOnly_callers C (st : State) f X :
  X ⊆ C →
  sweepOnly C st
    (upd_Callers (λ m, <[f := X ∪ default ∅ (m !! f)]> m) st).
Proof.
  intros HX. split; [|done]. unfold callersOf. simpl. intros g cs.
  destruct (decide (f = g)) as [->|Hne].
  - rewrite lookup_insert_eq. simpl. set_solver.
  - rewrite lookup_insert_ne by done. auto.
Qed.

Lemma sweepOnly_calleeByType C (st : State) cs X :
  cs ∈ C → sweepOnly C st (upd_calleeByType (λ m, <[cs := X m]> m) st).
Proof.
  intros Hcs. split; [auto|]. simpl. intros cs' Hn.
  rewrite lookup_insert_ne; [done|]. by intros ->.
Qed.

Lemma traced_sweepOnly C {A} (m : M A) st :
  traced (sweepOnly C) m → sweepOnly C st (snd (m st)).
Proof.
  intros Htr. apply (rtc_across (sweepOnly C) (sweepOnly C));
    eauto using sweepOnly_refl, sweepOnly_trans.
Qed.

End Sweeps.

Ltac tr_s :=
  trace_by ltac:(first
    [ apply traced_modify; intros; apply sweepOnly_frame; reflexivity ]).

Section SweepSteps.

Context {NF : Type} `{AndersNodeFactory NF}.

Variable LLVM_VERSION_MAJOR : N.
Variable getStructInfo : Ty → N → option StructInfo.

Local Abbreviation State := (State (NF:=NF)).
Local Abbreviation M := (M (NF:=NF)).
Local Abbreviation sweepOnly := (sweepOnly (NF:=NF)).

Lemma sweepOnly_findCalleesByType C CI :
  iid CI ∈ C → traced (sweepOnly C) (findCalleesByType LLVM_VERSION_MAJOR CI).
Proof.
  intros HC. unfold findCalleesByType. tr_s.
  all: apply traced_modify; intros st.
  - by apply (sweepOnly_calleeByType C st (iid CI)
                (λ m, default ∅ (m !! iid CI))).
  - by apply (sweepOnly_calleeByType C st (iid CI) (λ _, _)).
Qed.

Lemma sweepOnly_finalizeInstruction C CI :
  (isCallInst CI = true → iid CI ∈ C) →
  traced (sweepOnly C) (finalizeInstruction LLVM_VERSION_MAJOR CI).
Proof.
  intros HC. unfold finalizeInstruction. tr_s.
  - apply traced_modify. intros st.
    apply (sweepOnly_callers C st _ {[iid CI]}).
    apply singleton_subseteq_l. auto.
  - apply sweepOnly_findCalleesByType. auto.
Qed.

Lemma callInstIds_spec Mod cs :
  cs ∈ callInstIds Mod ↔
  ∃ I, I ∈ module_instructions Mod ∧ isCallInst I = true ∧ iid I = cs.
Proof.
  unfold callInstIds. rewrite elem_of_list_to_set, list_elem_of_fmap. split.
  - intros (I & -> & [? ?]%list_elem_of_filter). eauto.
  - intros (I & ? & ? & <-). exists I. split; [done|].
    by apply list_elem_of_filter.
Qed.

Lemma sweepOnly_doFinalization Mod :
  traced (sweepOnly (callInstIds Mod)) (doFinalization LLVM_VERSION_MAJOR Mod).
Proof.
  unfold doFinalization. tr_s.
  match goal with
  | HF : ?FI ∈ mfunctions Mod, HI : ?CI ∈ instructions ?FI |- _ =>
      apply sweepOnly_finalizeInstruction; intros Hc;
      apply callInstIds_spec; exists CI; split; [|done];
      apply elem_of_concat; exists (instructions FI); split; [|done];
      apply list_elem_of_fmap; by exists FI
  end.
Qed.

Lemma sweepOnly_initFunction Mod F :
  traced (sweepOnly (callInstIds Mod)) (initFunction getStructInfo Mod F).
Proof.
  unfold initFunction, ptsInsert. tr_s.
  apply traced_modify. intros st. apply sweepOnly_callers.
  intros cs (U & -> & [Hc Hu]%list_elem_of_filter)%elem_of_list_to_set%list_elem_of_fmap.
  apply callInstIds_spec. exists U. split; [|split; [|done]].
  - unfold users in Hu. by apply list_elem_of_filter in Hu as [_ ?].
  - by destruct (isCallInst U).
Qed.

Lemma sweepOnly_doInitialization Mod :
  traced (sweepOnly (callInstIds Mod)) (doInitialization getStructInfo Mod).
Proof.
  unfold doInitialization, initGlobal. tr_s. apply sweepOnly_initFunction.
Qed.


Lemma invoke_not_callInst Mod Inv :
  isInvokeInst Inv = true →
  (∀ I, I ∈ module_instructions Mod → iid I = iid Inv → I = Inv) →
  iid Inv ∉ callInstIds Mod.
Proof.
  intros Hinv Hid (I & Hin & Hc & Heq)%callInstIds_spec.
  rewrite (Hid I Hin Heq) in Hc. revert Hinv Hc.
  unfold isInvokeInst, isCallInst. by destruct (ikind Inv) as [| | [] | | | | | | | |].
Qed.

(** C10: a call site that is an [InvokeInst] is not added to [Callers] by
    the initialization sweep or by the finalization sweep of a module,
    and neither sweep touches its type-based set: both look at
    [CallInst]s only.  (The identity of the invoke is that of no other
    instruction of the swept module.) *)
Theorem sweeps_skip_invoke_sites Mod Inv (st : State) :
  isInvokeInst Inv = true →
  (∀ I, I ∈ module_instructions Mod → iid I = iid Inv → I = Inv) →
  (∀ f, iid Inv ∈ callersOf (snd (doInitialization getStructInfo Mod st)) f →
        iid Inv ∈ callersOf st f) ∧
  calleeByType (snd (doInitialization getStructInfo Mod st)) !! iid Inv =
    calleeByType st !! iid Inv ∧
  (∀ f, iid Inv ∈ callersOf (snd (doFinalization LLVM_VERSION_MAJOR Mod st)) f →
        iid Inv ∈ callersOf st f) ∧
  calleeByType (snd (doFinalization LLVM_VERSION_MAJOR Mod st)) !! iid Inv =
    calleeByType st !! iid Inv.
Proof.
  intros Hinv Hid.
  pose proof (invoke_not_callInst Mod Inv Hinv Hid) as Hn.
  destruct (traced_sweepOnly _ _ st (sweepOnly_doInitialization Mod))
    as [Hi1 Hi2].
  destruct (traced_sweepOnly _ _ st (sweepOnly_doFinalization Mod))
    as [Hf1 Hf2].
  repeat split.
  - intros f [?|?]%Hi1; done.
  - by apply Hi2.
  - intros f [?|?]%Hf1; done.
  - by apply Hf2.
Qed.

End SweepSteps.


(** * Where the recorded callees come from *)

(** The instructions the transfer functions work on: those of every
    function with a body, in every module.  Whether the function is
    reachable plays no part. *)
Definition bodyInstructions (modules : list Module) : list Instruction :=
  concat (map instructions
              (filter (λ FI, hasBody (fst FI) = true)
                      (concat (map mfunctions modules)))).

Definition siteIds (modules : list Module) : gset N :=
  list_to_set (map iid (bodyInstructions modules)).

Lemma bodyInstructions_spec modules I :
  I ∈ bodyInstructions modules ↔
  ∃ Mod FI, Mod ∈ modules ∧ FI ∈ mfunctions Mod ∧
            hasBody (fst FI) = true ∧ I ∈ instructions FI.
Proof.
  unfold bodyInstructions. rewrite elem_of_concat. split.
  - intros (l & (FI & -> & [Hb Hin]%list_elem_of_filter)%list_elem_of_fmap & HI).
    apply elem_of_concat in Hin
      as (fs & (Mod & -> & HM)%list_elem_of_fmap & Hin).
    by exists Mod, FI.
  - intros (Mod & FI & HM & HF & Hb & HI). exists (instructions FI).
    split; [|done]. apply list_elem_of_fmap. exists FI. split; [done|].
    apply list_elem_of_filter. split; [done|].
    apply elem_of_concat. exists (mfunctions Mod). split; [|done].
    apply list_elem_of_fmap. by exists Mod.
Qed.

Lemma siteIds_spec modules cs :
  cs ∈ siteIds modules ↔ ∃ I, I ∈ bodyInstructions modules ∧ iid I = cs.
Proof.
  unfold siteIds. rewrite elem_of_list_to_set, list_elem_of_fmap.
  split; intros (I & ? & ?); by exists I.
Qed.

Section Sites.

Context {NF : Type} `{AndersNodeFactory NF}.
Local Abbreviation State := (State (NF:=NF)).
Local Abbreviation M := (M (NF:=NF)).

(** The functions recorded for a call site. *)
Definition calleesOf (st : State) (cs : N) : gset N :=
  default ∅ (Callees st !! cs).

(** From [st] to [st'] the map [Funcs] is kept, no function recorded for
    a call site is dropped, and functions are recorded for the call
    sites in [S] only. *)
Definition calleesWithin (S : N → Prop) (st st' : State) : Prop :=
  Funcs st' = Funcs st ∧
  ∀ cs, calleesOf st cs ⊆ calleesOf st' cs ∧
        (¬ S cs → calleesOf st' cs = calleesOf st cs).

Lemma calleesWithin_refl S st : calleesWithin S st st.
Proof. by split. Qed.

Lemma calleesWithin_trans S st1 st2 st3 :
  calleesWithin S st1 st2 → calleesWithin S st2 st3 →
  calleesWithin S st1 st3.
Proof.
  intros [Hf1 H1] [Hf2 H2]. split; [congruence|]. intros cs.
  destruct (H1 cs) as [Hle1 Heq1], (H2 cs) as [Hle2 Heq2].
  split; [set_solver|]. intros Hn. by rewrite Heq2, Heq1.
Qed.

Lemma calleesWithin_same S (st st' : State) :
  Funcs st' = Funcs st → Callees st' = Callees st → calleesWithin S st st'.
Proof. intros Hf HC. split; [done|]. intros cs. unfold calleesOf. by rewrite HC. Qed.

(** [Ctx->Callees[CI]], a subscript that creates the key. *)
Lemma calleesWithin_touch S (st : State) cs :
  calleesWithin S st
    (upd_Callees (λ m, <[cs := default ∅ (m !! cs)]> m) st).
Proof.
  split; [done|]. intros cs'. unfold calleesOf. simpl.
  destruct (decide (cs = cs')) as [->|Hne].
  - by rewrite lookup_insert_eq.
  - by rewrite lookup_insert_ne.
Qed.

Lemma calleesWithin_iteration S (st : State) f :
  calleesWithin S st (upd_Iteration f st).
Proof. by apply calleesWithin_same. Qed.

Lemma traced_calleesWithin S {A} (m : M A) st :
  traced (calleesWithin S) m → calleesWithin S st (snd (m st)).
Proof.
  intros Htr. apply (rtc_across (calleesWithin S) (calleesWithin S));
    eauto using calleesWithin_refl, calleesWithin_trans.
Qed.

Lemma rtc_calleesWithin S st st' :
  rtc (calleesWithin S) st st' → calleesWithin S st st'.
Proof.
  apply rtc_across; eauto using calleesWithin_refl, calleesWithin_trans.
Qed.

Lemma within_addCallee S CS F :
  S (iid CS) → traced (calleesWithin S) (addCallee CS F).
Proof.
  intros HS st. apply rtc_once. split.
  - unfold addCallee, mbind, M_bind, bind, gets, modify. simpl.
    by destruct (bool_decide (fid F ∉ reachable st)).
  - intros cs. unfold calleesOf. rewrite addCallee_Callees.
    destruct (decide (iid CS = cs)) as [<-|Hne].
    + rewrite lookup_insert_eq. simpl. split; [set_solver|done].
    + by rewrite lookup_insert_ne.
Qed.

End Sites.

Ltac tr_w :=
  trace_by ltac:(first
    [ apply traced_modify; intros; apply calleesWithin_same; reflexivity
    | apply traced_modify; intros; apply calleesWithin_touch ]).

Section Recorded.

Context {NF : Type} `{AndersNodeFactory NF}.

Variable LLVM_VERSION_MAJOR : N.
Variable getStructInfo : Ty → N → option StructInfo.
Variable getGEPOffset : Instruction → N → Z.
Variable offsetToFieldNum : Ty → Z → N → N.
Variable extendObjectSize : NF → N → Ty → N → NF * N.

Local Abbreviation State := (State (NF:=NF)).
Local Abbreviation M := (M (NF:=NF)).
Local Abbreviation calleesWithin := (calleesWithin (NF:=NF)).
Local Abbreviation doInit := (doInitialization getStructInfo).
Local Abbreviation doFinal := (doFinalization LLVM_VERSION_MAJOR).
Local Abbreviation doPass :=
  (doModulePass LLVM_VERSION_MAJOR getStructInfo getGEPOffset
                offsetToFieldNum extendObjectSize).
Local Abbreviation passRun :=
  (CallGraphPass_run LLVM_VERSION_MAJOR getStructInfo getGEPOffset
                     offsetToFieldNum extendObjectSize).
Local Abbreviation runOnFn :=
  (runOnFunction LLVM_VERSION_MAJOR getStructInfo getGEPOffset
                 offsetToFieldNum extendObjectSize).
Local Abbreviation runOnInst :=
  (runOnInstruction LLVM_VERSION_MAJOR getStructInfo getGEPOffset
                    offsetToFieldNum extendObjectSize).
Local Abbreviation runOnInsts :=
  (runOnInstructions LLVM_VERSION_MAJOR getStructInfo getGEPOffset
                     offsetToFieldNum extendObjectSize).
Local Abbreviation transferFns :=
  (transferAll LLVM_VERSION_MAJOR getStructInfo getGEPOffset
               offsetToFieldNum extendObjectSize).
Local Abbreviation procPass :=
  (processingPass LLVM_VERSION_MAJOR getStructInfo getGEPOffset
                  offsetToFieldNum extendObjectSize).
Local Abbreviation procSweep :=
  (processingSweep LLVM_VERSION_MAJOR getStructInfo getGEPOffset
                   offsetToFieldNum extendObjectSize).
Local Abbreviation capFixpoint :=
  (cappedFixpoint LLVM_VERSION_MAJOR getStructInfo getGEPOffset
                  offsetToFieldNum extendObjectSize).
Local Abbreviation capRun :=
  (cappedRun LLVM_VERSION_MAJOR getStructInfo getGEPOffset
             offsetToFieldNum extendObjectSize).

(** ** Every change of [Callees] is made at a processed call site *)

Section Within.
Variable S : N → Prop.

Lemma within_ptsInsert n idx : traced (calleesWithin S) (ptsInsert n idx).
Proof. unfold ptsInsert. tr_w. Qed.

Lemma within_ptsCopy dst src : traced (calleesWithin S) (ptsCopy dst src).
Proof. unfold ptsCopy. tr_w. Qed.

#[local] Hint Resolve within_ptsInsert within_ptsCopy within_addCallee
  : traced.

Lemma within_findCalleesByType CS :
  traced (calleesWithin S) (findCalleesByType LLVM_VERSION_MAJOR CS).
Proof. unfold findCalleesByType. tr_w. Qed.
#[local] Hint Resolve within_findCalleesByType : traced.

Lemma within_bindArgs actuals : ∀ formals c,
  traced (calleesWithin S) (bindArgs actuals formals c).
Proof.
  induction actuals as [|a actuals IH]; intros [|f formals] c; simpl; tr_w.
Qed.
#[local] Hint Resolve within_bindArgs : traced.

Lemma within_bindReturn CS CF callNode idx c :
  traced (calleesWithin S) (bindReturn CS CF callNode idx c).
Proof. unfold bindReturn. tr_w. Qed.
#[local] Hint Resolve within_bindReturn : traced.

Lemma within_handleCall CS CF : traced (calleesWithin S) (handleCall CS CF).
Proof. unfold handleCall. tr_w. Qed.
#[local] Hint Resolve within_handleCall : traced.

Lemma within_indirectCallee CS idx c :
  S (iid CS) → traced (calleesWithin S) (indirectCallee CS idx c).
Proof. intros HS. unfold indirectCallee. tr_w. Qed.
#[local] Hint Resolve within_indirectCallee : traced.

Lemma within_runCall CS callee c :
  S (iid CS) →
  traced (calleesWithin S) (runCall LLVM_VERSION_MAJOR CS callee c).
Proof. intros HS. unfold runCall. tr_w. Qed.

Lemma within_runRet F rv c : traced (calleesWithin S) (runRet F rv c).
Proof. unfold runRet. tr_w. Qed.

Lemma within_loadInner valNode idx2 c :
  traced (calleesWithin S) (loadInner valNode idx2 c).
Proof. unfold loadInner. tr_w. Qed.
#[local] Hint Resolve within_loadInner : traced.

Lemma within_loadOuter valNode ptrNode end_ idx c :
  traced (calleesWithin S) (loadOuter valNode ptrNode end_ idx c).
Proof. unfold loadOuter. tr_w. Qed.
#[local] Hint Resolve within_loadOuter : traced.

Lemma within_runLoad F I ptr c :
  traced (calleesWithin S) (runLoad getStructInfo F I ptr c).
Proof. unfold runLoad, findTypeShortcut. tr_w. Qed.

Lemma within_storeBody valNode idx c :
  traced (calleesWithin S) (storeBody valNode idx c).
Proof. unfold storeBody. tr_w. Qed.
#[local] Hint Resolve within_storeBody : traced.

Lemma within_runStore val ptr c :
  traced (calleesWithin S) (runStore val ptr c).
Proof. unfold runStore. tr_w. Qed.

Lemma within_gepResize F ptrTy idx allocSize :
  traced (calleesWithin S)
         (gepResize getStructInfo extendObjectSize F ptrTy idx allocSize).
Proof. unfold gepResize. tr_w. Qed.
#[local] Hint Resolve within_gepResize : traced.

Lemma within_gepBody F I srcTy valNode idx c :
  traced (calleesWithin S)
         (gepBody getStructInfo getGEPOffset offsetToFieldNum
                  extendObjectSize F I srcTy valNode idx c).
Proof. unfold gepBody. tr_w. Qed.
#[local] Hint Resolve within_gepBody : traced.

Lemma within_runGEP F I ptr srcTy c :
  traced (calleesWithin S)
         (runGEP getStructInfo getGEPOffset offsetToFieldNum
                 extendObjectSize F I ptr srcTy c).
Proof. unfold runGEP. tr_w. Qed.

Lemma within_copyFrom why dst src c :
  traced (calleesWithin S) (copyFrom why dst src c).
Proof. unfold copyFrom. tr_w. Qed.
#[local] Hint Resolve within_copyFrom : traced.

Lemma within_copyFromAll why dst srcs : ∀ c,
  traced (calleesWithin S) (copyFromAll why dst srcs c).
Proof. induction srcs as [|src srcs IH]; intros c; simpl; tr_w. Qed.
#[local] Hint Resolve within_copyFromAll within_runCall within_runRet
  within_runLoad within_runStore within_runGEP : traced.

Lemma within_runOnInstruction F I c :
  S (iid I) → traced (calleesWithin S) (runOnInst F I c).
Proof. intros HS. unfold runOnInstruction. tr_w. Qed.

Lemma within_runOnInstructions F Is : ∀ c,
  (∀ I, I ∈ Is → S (iid I)) → traced (calleesWithin S) (runOnInsts F Is c).
Proof.
  induction Is as [|I Is IH]; intros c HS; simpl; [apply traced_ret|].
  apply traced_bind; [apply within_runOnInstruction, HS; left|intros c'].
  apply IH. intros. apply HS. by right.
Qed.

Lemma within_runOnFunction FI :
  (∀ I, I ∈ instructions FI → S (iid I)) →
  traced (calleesWithin S) (runOnFn FI).
Proof.
  intros HS. unfold runOnFunction.
  apply traced_bind; [tr_w|intros _]. by apply within_runOnInstructions.
Qed.

Lemma within_transferAll Fs :
  (∀ FI I, FI ∈ Fs → I ∈ instructions FI → S (iid I)) →
  traced (calleesWithin S) (transferFns Fs).
Proof.
  induction Fs as [|FI Fs IH]; intros HS; simpl; [apply traced_ret|].
  apply traced_bind.
  { apply within_runOnFunction. intros I. apply HS. left. }
  intros c. apply traced_bind; [|intros; apply traced_ret].
  apply IH. intros FI' I ?. apply HS. by right.
Qed.

Lemma within_shortcutNode obj node :
  traced (calleesWithin S) (shortcutNode obj node).
Proof. unfold shortcutNode. tr_w. Qed.
#[local] Hint Resolve within_shortcutNode : traced.

Lemma within_createTypeShortcut entry :
  traced (calleesWithin S) (createTypeShortcut entry).
Proof. unfold createTypeShortcut. tr_w. Qed.
#[local] Hint Resolve within_createTypeShortcut : traced.

Lemma within_createTypeShortcuts :
  traced (calleesWithin S) createTypeShortcuts.
Proof. unfold createTypeShortcuts. tr_w. Qed.

Lemma within_processingPass Mod :
  (∀ FI I, FI ∈ mfunctions Mod → hasBody (fst FI) = true →
           I ∈ instructions FI → S (iid I)) →
  traced (calleesWithin S) (procPass Mod).
Proof.
  intros HS. unfold processingPass.
  apply traced_bind; [tr_w|intros _].
  apply traced_bind; [apply within_createTypeShortcuts|intros _].
  apply within_transferAll.
  intros FI I [Hb Hin]%list_elem_of_filter. by apply HS.
Qed.

Lemma within_processingSweep ms :
  (∀ Mod FI I, Mod ∈ ms → FI ∈ mfunctions Mod → hasBody (fst FI) = true →
               I ∈ instructions FI → S (iid I)) →
  traced (calleesWithin S) (procSweep ms).
Proof.
  induction ms as [|Mod ms IH]; intros HS; simpl; [apply traced_ret|].
  apply traced_bind.
  { apply within_processingPass. intros FI I. apply HS. left. }
  intros c. apply traced_bind; [|intros; apply traced_ret].
  apply IH. intros Mod' FI I ?. apply HS. by right.
Qed.

Lemma within_enterModules ms :
  traced (calleesWithin S) (forM (λ Mod, modify (enterModule Mod)) ms).
Proof. tr_w. Qed.

Lemma within_cappedFixpoint ms :
  (∀ Mod FI I, Mod ∈ ms → FI ∈ mfunctions Mod → hasBody (fst FI) = true →
               I ∈ instructions FI → S (iid I)) →
  traced (calleesWithin S) (capFixpoint ms).
Proof.
  intros HS. unfold cappedFixpoint.
  apply traced_bind; [by apply within_processingSweep|intros c].
  apply traced_bind;
    [apply traced_nextIteration, calleesWithin_iteration|intros _].
  destruct c; [|apply traced_ret].
  apply traced_bind; [apply within_enterModules|intros _].
  apply traced_nextIteration, calleesWithin_iteration.
Qed.

Lemma within_initGlobal Mod GV :
  traced (calleesWithin S) (initGlobal getStructInfo Mod GV).
Proof. unfold initGlobal. tr_w. Qed.

Lemma within_initFunction Mod F :
  traced (calleesWithin S) (initFunction getStructInfo Mod F).
Proof. unfold initFunction. tr_w. Qed.

Lemma within_doInitialization Mod : traced (calleesWithin S) (doInit Mod).
Proof.
  unfold doInitialization. tr_w.
  - apply within_initGlobal.
  - apply within_initFunction.
Qed.

Lemma within_finalizeInstruction CI :
  traced (calleesWithin S) (finalizeInstruction LLVM_VERSION_MAJOR CI).
Proof. unfold finalizeInstruction. tr_w. Qed.

Lemma within_doFinalization Mod : traced (calleesWithin S) (doFinal Mod).
Proof. unfold doFinalization. tr_w. apply within_finalizeInstruction. Qed.

Lemma within_finalSweep ms :
  traced (calleesWithin S)
         (modify (upd_Iteration (λ _, 0));;
          (sweep doFinal ms false;; nextIteration)).
Proof.
  apply traced_bind;
    [apply traced_modify; intros; apply calleesWithin_iteration|intros _].
  apply traced_bind;
    [|intros _; apply traced_nextIteration, calleesWithin_iteration].
  apply traced_sweep. intros. apply within_doFinalization.
Qed.

Lemma within_cappedRun ms :
  (∀ Mod FI I, Mod ∈ ms → FI ∈ mfunctions Mod → hasBody (fst FI) = true →
               I ∈ instructions FI → S (iid I)) →
  traced (calleesWithin S) (capRun ms).
Proof.
  intros HS. unfold cappedRun.
  apply traced_bind;
    [apply traced_modify; intros; apply calleesWithin_iteration|intros _].
  apply traced_bind.
  { apply traced_bind;
      [|intros _; apply traced_nextIteration, calleesWithin_iteration].
    apply traced_sweep. intros. apply within_doInitialization. }
  intros _. apply traced_bind; [by apply within_cappedFixpoint|intros _].
  apply within_finalSweep.
Qed.

End Within.

(** ** More fuel does not change a completed run *)

Lemma whileAgain_more_fuel pass ms fuel : ∀ (st st' : State),
  whileAgain fuel pass ms st = (Done tt, st') →
  whileAgain (Datatypes.S fuel) pass ms st = (Done tt, st').
Proof.
  induction fuel as [|fuel IH]; intros st st'; [done|].
  intros Hrun. remember (Datatypes.S fuel) as fuel1 eqn:Hf.
  cbn [whileAgain]. rewrite Hf in Hrun. cbn [whileAgain] in Hrun.
  apply bind_Done in Hrun as (again & st1 & Hs & Hrun).
  apply bind_Done in Hrun as ([] & st2 & Hn & Hrun).
  unfold mbind, M_bind, bind. rewrite Hs, Hn.
  destruct again; [|done]. subst fuel1. by apply IH.
Qed.

Lemma whileChanged_more_fuel ms fuel : ∀ (st st' : State),
  whileChanged doPass fuel ms st = (Done tt, st') →
  whileChanged doPass (Datatypes.S fuel) ms st = (Done tt, st').
Proof.
  induction fuel as [|fuel IH]; intros st st'; [done|].
  intros Hrun. remember (Datatypes.S fuel) as fuel1 eqn:Hf.
  cbn [whileChanged]. rewrite Hf in Hrun. cbn [whileChanged] in Hrun.
  apply bind_Done in Hrun as (changed & st1 & Hs & Hrun).
  apply bind_Done in Hrun as ([] & st2 & Hn & Hrun).
  unfold mbind, M_bind, bind. rewrite Hs, Hn.
  destruct (negb (changed =? 0)); [|done]. subst fuel1. by apply IH.
Qed.

Lemma run_more_fuel ms fuel (st st' : State) :
  passRun fuel ms st = (Done tt, st') →
  passRun (Datatypes.S fuel) ms st = (Done tt, st').
Proof.
  unfold CallGraphPass_run, run. intros Hrun.
  apply bind_Done in Hrun as ([] & st0 & H0 & Hrun).
  apply bind_Done in Hrun as ([] & st1 & H1 & Hrun).
  apply bind_Done in Hrun as ([] & st2 & H2 & Hrun).
  apply bind_Done in Hrun as ([] & st3 & H3 & Hrun).
  apply whileAgain_more_fuel in H1, Hrun.
  apply whileChanged_more_fuel in H2.
  unfold mbind, M_bind, bind. by rewrite H0, H1, H2, H3.
Qed.

Lemma run_completed_capped ms fuel (st st' : State) :
  passRun fuel ms st = (Done tt, st') → capRun ms st = (Done tt, st').
Proof.
  intros Hrun. destruct fuel as [|[|fuel]].
  - done.
  - apply run_more_fuel in Hrun. by rewrite run_capped in Hrun.
  - by rewrite run_capped in Hrun.
Qed.

(** ** A direct call in a function with a body is recorded *)

Section Direct.
Variables (CS : Instruction) (CF : Function).
Hypothesis Hdirect : getCalledFunction CS = Some CF.

Let anySite : N → Prop := λ _, True.

(** The definition that [getFuncDef] resolves [CF] to is recorded for
    [CS]. *)
Definition recorded (st : State) : Prop :=
  fid (default CF (Funcs st !! fguid CF)) ∈ calleesOf st (iid CS).

Lemma recorded_step (st st' : State) :
  recorded st → rtc (calleesWithin anySite) st st' → recorded st'.
Proof.
  intros Hr [Hf Hc]%rtc_calleesWithin. unfold recorded.
  rewrite Hf. by apply (Hc (iid CS)).
Qed.

Lemma recorded_runOnInstruction F c : ensures recorded (runOnInst F CS c).
Proof.
  unfold runOnInstruction, getCalledFunction in *.
  destruct (ikind CS) as [| | op [|CF'|] args| | | | | | | |]; try done.
  injection Hdirect as ->. unfold runCall.
  intros st b st' Hrun.
  apply bind_Done in Hrun as (RCF & st1 & [= <- <-] & Hrun).
  apply bind_Done in Hrun as ([] & st2 & Hadd & Hrun).
  apply bind_Done in Hrun as (c' & st3 & Hcall & [= _ <-]).
  apply (recorded_step st2).
  - unfold recorded, calleesOf.
    pose proof (addCallee_Callees CS (default CF (Funcs st !! fguid CF)) st)
      as HC.
    pose proof (within_addCallee anySite CS
                  (default CF (Funcs st !! fguid CF)) I st) as Hw.
    apply rtc_calleesWithin in Hw as [Hf _].
    rewrite Hadd in HC, Hf. simpl in HC, Hf.
    rewrite Hf, HC, lookup_insert_eq. simpl. set_solver.
  - pose proof (within_handleCall anySite CS
                  (default CF (Funcs st !! fguid CF)) st2) as Hw.
    by rewrite Hcall in Hw.
Qed.

Lemma recorded_runOnInstructions F Is :
  CS ∈ Is → ∀ c, ensures recorded (runOnInsts F Is c).
Proof.
  induction Is as [|I Is IH]; intros Hin c; [by apply elem_of_nil in Hin|].
  simpl. apply elem_of_cons in Hin as [<-|Hin].
  - apply (ensures_bind_l (calleesWithin anySite)).
    + apply recorded_step.
    + apply recorded_runOnInstruction.
    + intros c'. by apply within_runOnInstructions.
  - apply ensures_bind_r. intros c'. by apply IH.
Qed.

Lemma recorded_runOnFunction FI :
  CS ∈ instructions FI → ensures recorded (runOnFn FI).
Proof.
  intros Hin. unfold runOnFunction. apply ensures_bind_r. intros _.
  by apply recorded_runOnInstructions.
Qed.

Lemma recorded_transferAll Fs FI :
  FI ∈ Fs → CS ∈ instructions FI → ensures recorded (transferFns Fs).
Proof.
  intros HF Hin. induction Fs as [|FI' Fs IH]; [by apply elem_of_nil in HF|].
  simpl. apply elem_of_cons in HF as [<-|HF].
  - apply (ensures_bind_l (calleesWithin anySite)).
    + apply recorded_step.
    + by apply recorded_runOnFunction.
    + intros c. apply traced_bind; [|intros; apply traced_ret].
      by apply within_transferAll.
  - apply ensures_bind_r. intros c.
    apply (ensures_bind_l (calleesWithin anySite)).
    + apply recorded_step.
    + by apply IH.
    + intros cs. apply traced_ret.
Qed.

Lemma recorded_processingPass Mod FI :
  FI ∈ mfunctions Mod → hasBody (fst FI) = true → CS ∈ instructions FI →
  ensures recorded (procPass Mod).
Proof.
  intros HF Hb Hin. unfold processingPass.
  apply ensures_bind_r. intros _. apply ensures_bind_r. intros _.
  apply (recorded_transferAll _ FI); [|done].
  by apply list_elem_of_filter.
Qed.

Lemma recorded_processingSweep ms Mod FI :
  Mod ∈ ms → FI ∈ mfunctions Mod → hasBody (fst FI) = true →
  CS ∈ instructions FI → ensures recorded (procSweep ms).
Proof.
  intros HM HF Hb Hin.
  induction ms as [|Mod' ms IH]; [by apply elem_of_nil in HM|].
  simpl. apply elem_of_cons in HM as [<-|HM].
  - apply (ensures_bind_l (calleesWithin anySite)).
    + apply recorded_step.
    + by apply (recorded_processingPass _ FI).
    + intros c. apply traced_bind; [|intros; apply traced_ret].
      by apply within_processingSweep.
  - apply ensures_bind_r. intros c.
    apply (ensures_bind_l (calleesWithin anySite)).
    + apply recorded_step.
    + by apply IH.
    + intros cs. apply traced_ret.
Qed.

Lemma recorded_cappedRun ms Mod FI :
  Mod ∈ ms → FI ∈ mfunctions Mod → hasBody (fst FI) = true →
  CS ∈ instructions FI → ensures recorded (capRun ms).
Proof.
  intros HM HF Hb Hin. unfold cappedRun.
  apply ensures_bind_r. intros _. apply ensures_bind_r. intros _.
  apply (ensures_bind_l (calleesWithin anySite)).
  - apply recorded_step.
  - unfold cappedFixpoint.
    apply (ensures_bind_l (calleesWithin anySite)).
    + apply recorded_step.
    + by apply (recorded_processingSweep _ Mod FI).
    + intros c. apply traced_bind;
        [apply traced_nextIteration, calleesWithin_iteration|intros _].
      destruct c; [|apply traced_ret].
      apply traced_bind; [apply within_enterModules|intros _].
      apply traced_nextIteration, calleesWithin_iteration.
  - intros _. apply within_finalSweep.
Qed.

End Direct.

(** C1 (amended): after a completed run that started with no function
    reachable and no callee recorded, a function is reachable exactly
    when it is a seeded entry point or is recorded in [Callees] for a
    call site in a function with a body, reachable or not; and the
    transfer functions have run on the instructions of every function
    with a body, reachable or not: every direct call among these
    instructions has the definition of its callee recorded in
    [Callees]. *)
Theorem reachable_is_entries_and_all_callees fuel modules (st st' : State) :
  reachable st = ∅ → Callees st = ∅ →
  passRun fuel modules st = (Done tt, st') →
  (∀ f, f ∈ reachable st' ↔
        f ∈ entryIds modules ∨
        ∃ CS, CS ∈ bodyInstructions modules ∧
              f ∈ default ∅ (Callees st' !! iid CS)) ∧
  (∀ CS CF, CS ∈ bodyInstructions modules →
            getCalledFunction CS = Some CF →
            fid (default CF (Funcs st !! fguid CF))
              ∈ default ∅ (Callees st' !! iid CS)).
Proof.
  intros Hr HC Hrun.
  pose proof (run_reachable_inv LLVM_VERSION_MAJOR getStructInfo getGEPOffset
                offsetToFieldNum extendObjectSize fuel modules st st'
                Hr HC Hrun) as Hinv.
  apply run_completed_capped in Hrun.
  assert (calleesWithin (λ cs, cs ∈ siteIds modules) st st') as [Hf Hw].
  { pose proof (within_cappedRun (λ cs, cs ∈ siteIds modules) modules) as Htr.
    specialize (Htr ltac:(intros Mod FI I ? ? ? ?; apply siteIds_spec;
                          exists I; split; [|done];
                          apply bodyInstructions_spec; by exists Mod, FI)).
    apply traced_calleesWithin with (st := st) in Htr.
    by rewrite Hrun in Htr. }
  split.
  - intros f. rewrite Hinv. split; (intros [?|Hin]; [by left|right]).
    + destruct Hin as (cs & s & Hs & Hfs).
      destruct (decide (cs ∈ siteIds modules)) as [Hsite|Hno].
      * apply siteIds_spec in Hsite as (CS & HCS & <-).
        exists CS. split; [done|]. by rewrite Hs.
      * destruct (Hw cs) as [_ Heq]. specialize (Heq Hno).
        unfold calleesOf in Heq. rewrite Hs, HC, lookup_empty in Heq.
        simpl in Heq. set_solver.
    + destruct Hin as (CS & _ & Hfs).
      destruct (Callees st' !! iid CS) as [s|] eqn:Hs; [|set_solver].
      by exists (iid CS), s.
  - intros CS CF (Mod & FI & HM & HF & Hb & HI)%bodyInstructions_spec Hd.
    rewrite <- Hf.
    apply (recorded_cappedRun CS CF Hd modules Mod FI HM HF Hb HI _ _ _ Hrun).
Qed.

End Recorded.


(** * The claims on concrete programs *)


(** C1, as stated, fails.  In the module [detached] the function [foo] is
    called by nobody and calls [bar].  The run completes with [main] and
    [bar] reachable.  The set holding [main] alone is closed under the
    equation's operator, so the least fixpoint lies inside it and does not
    hold [bar]. *)
Example reachable_exceeds_least_fixpoint :
  fst (Examples.runPass 2 [Examples.detached]
         (Examples.initial SpecFactory.empty)) = Done tt ∧
  elements (reachable Examples.detached_final) = [102; 100] ∧
  entryIds [Examples.detached] = {[100]} ∧
  reachStep [Examples.detached] (Callees Examples.detached_final)
            (entryIds [Examples.detached]) {[100]} = {[100]} ∧
  bool_decide (102 ∈ ({[100]} : gset N)) = false.
Proof. repeat split; vm_compute; reflexivity. Qed.

(** Witness for C1 (amended): in the run of [detached] the function
    [foo] is not reachable, yet its call of [bar] is recorded and [bar] is
    reachable. *)
Lemma reachable_is_entries_and_all_callees_witness :
  bool_decide (101 ∈ reachable Examples.detached_final) = false ∧
  102 ∈ default ∅ (Callees Examples.detached_final !! 201) ∧
  102 ∈ reachable Examples.detached_final.
Proof.
  split; [vm_compute; reflexivity|].
  destruct (reachable_is_entries_and_all_callees 14 Examples.noStructInfo
              Examples.noGEPOffset Examples.fieldZero
              (SpecFactory.extendObjectSize Examples.sizeOne)
              2 [Examples.detached] (Examples.initial SpecFactory.empty)
              Examples.detached_final) as [Hreach Hrec].
  - reflexivity.
  - reflexivity.
  - vm_compute. reflexivity.
  - assert (Examples.callVoid 201 Examples.f_bar
              ∈ bodyInstructions [Examples.detached]) as Hin.
    { apply list_elem_of_In. vm_compute. tauto. }
    pose proof (Hrec _ Examples.f_bar Hin eq_refl) as H201.
    split; [exact H201|].
    apply Hreach. right. exists (Examples.callVoid 201 Examples.f_bar).
    split; [exact Hin|exact H201].
Defined.

(** C2 fails on the code.  In the call chain of tests/1.c both call
    sites are direct, and after the run both are keys of [calleeByType];
    [doFinalization] takes the type-based set of every [CallInst] that is
    not inline asm.  Beside [cb], whose address is taken and whose type is
    that of [foo] and [bar], the two direct call sites get the type-based
    set holding [cb]. *)
Example direct_call_sites_get_type_based_sets :
  getCalledFunction (Examples.callVoid 211 Examples.f_bar) = Some Examples.f_bar ∧
  getCalledFunction (Examples.callVoid 213 Examples.f_foo) = Some Examples.f_foo ∧
  fst (Examples.runPass 2 [Examples.chain]
         (Examples.initial SpecFactory.empty)) = Done tt ∧
  Callees Examples.chain_final !! 211 = Some {[102]} ∧
  Callees Examples.chain_final !! 213 = Some {[101]} ∧
  calleeByType Examples.chain_final !! 211 = Some ∅ ∧
  calleeByType Examples.chain_final !! 213 = Some ∅ ∧
  fst (Examples.runPass 2 [Examples.chainTaken]
         (Examples.initial Examples.cbFactory)) = Done tt ∧
  Callees Examples.chainTaken_final !! 211 = Some {[102]} ∧
  Callees Examples.chainTaken_final !! 213 = Some {[101]} ∧
  calleeByType Examples.chainTaken_final !! 211 = Some {[103]} ∧
  calleeByType Examples.chainTaken_final !! 213 = Some {[103]}.
Proof. repeat split; vm_compute; reflexivity. Qed.

(** C4 fails on the code.  The object is the last field (index 6, offset
    2) of a group of three based at 4.  A GEP to field 1 of a two-field
    struct passes the bound test, 2 + 1 > 3 being false, and inserts index
    7, the node after the group.  A GEP to field 2 of a three-field struct
    fails the test and inserts [allocSize - 1 = 2], a value node, where the
    last index of the group is 6. *)
Example gep_index_leaves_object_group :
  getObjectSize GepExample.factory 6 = 3 ∧
  getObjectOffset GepExample.factory 6 = 2 ∧
  SpecFactory.baseOf GepExample.factory 6 = 4 ∧
  fst (GepExample.after GepExample.gepPair) = Done true ∧
  pts (funcPtsGraph (snd (GepExample.after GepExample.gepPair))) 3 = {[7]} ∧
  fst (GepExample.after GepExample.gepTriple) = Done true ∧
  pts (funcPtsGraph (snd (GepExample.after GepExample.gepTriple))) 3 = {[2]}.
Proof. repeat split; vm_compute; reflexivity. Qed.

(** C7 fails on the code.  The return node of [my_alloc] points to the
    opaque heap object 4 and to the global object 5.  For 4 a fresh object,
    6, is created and inserted; the loop variable now holds 6, the
    enumeration resumes after it, and 5 is never inserted. *)
Example return_binding_skips_objects :
  pts (funcPtsGraph AllocExample.before) 2 = {[4; 5]} ∧
  isHeapObject AllocExample.factory 4 && isOpaqueObject AllocExample.factory 4
    = true ∧
  isHeapObject AllocExample.factory 5 = false ∧
  nameContainsAlloc AllocExample.my_alloc = true ∧
  fst AllocExample.after = Done true ∧
  pts (funcPtsGraph (snd AllocExample.after)) 3 = {[6]} ∧
  bool_decide (5 ∈ pts (funcPtsGraph (snd AllocExample.after)) 3) = false.
Proof. repeat split; vm_compute; reflexivity. Qed.



(** Witness for C6: [call void %fp()] with nothing known about [%fp];
    both address-taken functions pass the type test. *)
Lemma indirect_call_falls_back_to_types_witness :
  ∃ st',
    runOnInstruction 14 Examples.noStructInfo Examples.noGEPOffset
      Examples.fieldZero (SpecFactory.extendObjectSize Examples.sizeOne)
      TypeExample.handler TypeExample.callVoid false TypeExample.taken
      = (Done false, st') ∧
    calleeByType st' !! iid TypeExample.callVoid = Some {[300; 301]} ∧
    (({[300; 301]} : gset N) ≠ ∅ →
       unresolvedFPts st' =
       {[getValueNodeFor (nodeFactory TypeExample.taken)
                         (vid TypeExample.fpVoid)]}
       ∪ unresolvedFPts TypeExample.taken) ∧
    (({[300; 301]} : gset N) = ∅ →
       unresolvedFPts st' = unresolvedFPts TypeExample.taken) ∧
    funcPtsGraph st' = funcPtsGraph TypeExample.taken ∧
    Callees st' = Callees TypeExample.taken.
Proof.
  apply (indirect_call_falls_back_to_types 14 Examples.noStructInfo
           Examples.noGEPOffset Examples.fieldZero
           (SpecFactory.extendObjectSize Examples.sizeOne)
           TypeExample.handler TypeExample.callVoid Call TypeExample.fpVoid []
           false TypeExample.taken
           (snd (findCalleesByType 14 TypeExample.callVoid TypeExample.taken))).
  - reflexivity.
  - intros n s Hn. simpl in Hn. by rewrite lookup_empty in Hn.
  - reflexivity.
  - vm_compute. discriminate.
  - vm_compute. reflexivity.
Defined.

(** Witness for C10: the invoke of [bar] in [guarded]. *)
Lemma sweeps_skip_invoke_sites_witness :
  (∀ f, iid InvokeExample.invokeBar ∈
          callersOf (snd (doInitialization Examples.noStructInfo
                            InvokeExample.guarded InvokeExample.start)) f →
        iid InvokeExample.invokeBar ∈ callersOf InvokeExample.start f) ∧
  calleeByType (snd (doInitialization Examples.noStructInfo
                       InvokeExample.guarded InvokeExample.start))
    !! iid InvokeExample.invokeBar
  = calleeByType InvokeExample.start !! iid InvokeExample.invokeBar ∧
  (∀ f, iid InvokeExample.invokeBar ∈
          callersOf (snd (doFinalization 14 InvokeExample.guarded
                            InvokeExample.start)) f →
        iid InvokeExample.invokeBar ∈ callersOf InvokeExample.start f) ∧
  calleeByType (snd (doFinalization 14 InvokeExample.guarded
                       InvokeExample.start))
    !! iid InvokeExample.invokeBar
  = calleeByType InvokeExample.start !! iid InvokeExample.invokeBar.
Proof.
  apply (sweeps_skip_invoke_sites 14 Examples.noStructInfo
           InvokeExample.guarded InvokeExample.invokeBar InvokeExample.start).
  - reflexivity.
  - intros I HI Heq. apply list_elem_of_In in HI. simpl in HI.
    destruct HI as [<-|[<-|[<-|[<-|[]]]]]; done.
Defined.

(** Witness for C5: the module [late] loads through [%p] before it
    stores through it.  The store makes the first sweep report a change,
    so the loop goes round again with the counter at 2.  The call of
    [doModulePass] in this round only enters the module, although a
    processing pass from the same state would change the graph (the load
    would now see what the store wrote); the set of the load is empty
    when the run ends. *)
Lemma doModulePass_iteration_cap_witness :
  Iteration CapExample.swept = 2 ∧
  doModulePass 14 Examples.noStructInfo Examples.noGEPOffset
    Examples.fieldZero (SpecFactory.extendObjectSize Examples.sizeOne)
    MemExample.late CapExample.swept
  = (Done false, enterModule MemExample.late CapExample.swept) ∧
  fst (processingPass 14 Examples.noStructInfo Examples.noGEPOffset
         Examples.fieldZero (SpecFactory.extendObjectSize Examples.sizeOne)
         MemExample.late CapExample.swept) = Done true ∧
  Examples.runPass 2 [MemExample.late] MemExample.before
  = cappedRun 14 Examples.noStructInfo Examples.noGEPOffset Examples.fieldZero
      (SpecFactory.extendObjectSize Examples.sizeOne)
      [MemExample.late] MemExample.before ∧
  fst (Examples.runPass 2 [MemExample.late] MemExample.before) = Done tt ∧
  pts (funcPtsGraph CapExample.final) 4 = {[5]} ∧
  pts (funcPtsGraph CapExample.final) 6 = ∅.
Proof.
  destruct (doModulePass_iteration_cap 14 Examples.noStructInfo
              Examples.noGEPOffset Examples.fieldZero
              (SpecFactory.extendObjectSize Examples.sizeOne))
    as (_ & _ & Hlate & _ & Hrun).
  assert (Iteration CapExample.swept = 2) as Hit by (vm_compute; reflexivity).
  split; [exact Hit|]. split.
  { apply Hlate; [rewrite Hit; lia|]. right. intros k e Hk.
    assert (retStructs CapExample.swept = ∅) as Hrs
      by (vm_compute; reflexivity).
    by rewrite Hrs, lookup_empty in Hk. }
  split; [vm_compute; reflexivity|]. split; [apply Hrun|].
  split; [vm_compute; reflexivity|].
  split; vm_compute; reflexivity.
Defined.


(** * The shared context: pass data *)

Lemma addAll_get calls : ∀ PassData name,
  GlobalContext.get name (snd (GlobalContext.addAll calls PassData)) =
  match PassData !! name with
  | Some data => data
  | None =>
      default GlobalContext.nullptr
              (snd <$> find (λ call, bool_decide (fst call = name)) calls)
  end.
Proof.
  induction calls as [|[n d] calls IH]; intros PassData name; simpl.
  - unfold GlobalContext.get. by destruct (PassData !! name).
  - unfold GlobalContext.add.
    destruct (PassData !! n) as [d0|] eqn:Hn.
    + specialize (IH PassData name).
      destruct (GlobalContext.addAll calls PassData) as [oks pd]. simpl in *.
      rewrite IH. destruct (PassData !! name) eqn:Hname; [done|].
      rewrite bool_decide_eq_false_2; [done|]. intros ->. congruence.
    + specialize (IH (<[n := d]> PassData) name).
      destruct (GlobalContext.addAll calls _) as [oks pd]. simpl in *.
      rewrite IH. destruct (decide (n = name)) as [->|Hne].
      * rewrite lookup_insert_eq, Hn. by rewrite bool_decide_eq_true_2.
      * rewrite lookup_insert_ne by done.
        by rewrite (bool_decide_eq_false_2 _ Hne).
Qed.

Lemma addAll_oks calls : ∀ PassData,
  fst (GlobalContext.addAll calls PassData) =
  imap (λ i call,
          bool_decide (PassData !! fst call = None ∧
                       fst call ∉ map fst (take i calls))) calls.
Proof.
  induction calls as [|[n d] calls IH]; intros PassData; simpl; [done|].
  unfold GlobalContext.add.
  destruct (PassData !! n) as [d0|] eqn:Hn.
  - specialize (IH PassData).
    destruct (GlobalContext.addAll calls PassData) as [oks pd]. simpl in *.
    f_equal; try (rewrite bool_decide_eq_false_2; [done|]; by intros [? _]).
    rewrite IH. apply imap_ext. intros i [n' d'] _. simpl.
    apply bool_decide_ext. split; intros [? Hni]; (split; [done|]).
    + intros [->|?]%elem_of_cons; [congruence|done].
    + intros ?. apply Hni. by right.
  - specialize (IH (<[n := d]> PassData)).
    destruct (GlobalContext.addAll calls _) as [oks pd]. simpl in *.
    f_equal;
      try (rewrite bool_decide_eq_true_2; [done|]; split; [done|];
           by intros ?%elem_of_nil).
    rewrite IH. apply imap_ext. intros i [n' d'] _. simpl.
    apply bool_decide_ext. split.
    + intros [Hl Hni]. destruct (decide (n = n')) as [->|Hne].
      * by rewrite lookup_insert_eq in Hl.
      * rewrite lookup_insert_ne in Hl by done. split; [done|].
        intros [->|?]%elem_of_cons; done.
    + intros [Hl Hni]. destruct (decide (n = n')) as [->|Hne].
      * exfalso. apply Hni. by left.
      * rewrite lookup_insert_ne by done. split; [done|].
        intros ?. apply Hni. by right.
Qed.

(** X1: after any run of [add] calls on an empty [PassData], [get]
    hands back the data of the first call made with that name (the null
    pointer for a name never added), and a call returns [true] exactly when
    no earlier call had its name: a later [add] never replaces what is
    registered. *)
Theorem add_first_registration_wins (calls : list (string * N)) :
  (∀ name,
     GlobalContext.get name (snd (GlobalContext.addAll calls ∅)) =
     default GlobalContext.nullptr
             (snd <$> find (λ call, bool_decide (fst call = name)) calls)) ∧
  fst (GlobalContext.addAll calls ∅) =
  imap (λ i call, bool_decide (fst call ∉ map fst (take i calls))) calls.
Proof.
  split.
  - intros name. by rewrite addAll_get, lookup_empty.
  - rewrite addAll_oks. apply imap_ext. intros i call _. simpl.
    apply bool_decide_ext. rewrite lookup_empty. tauto.
Qed.


(** * The loader *)

(** ** Registering a list of objects in a pair of maps *)

Section Register.

Context {A : Type}.
(** The GUID of an object, whether it has external linkage, and whether
    it is a definition. *)
Variable key : A → N.
Variable isExt isDefn : A → bool.

(** What the two loops of [doBasicInitialization] do to the map of the
    definitions and to the map of the declarations; [None] is the failed
    assertion. *)
Fixpoint reg (l : list A) (d e : gmap N A) : option (gmap N A * gmap N A) :=
  match l with
  | [] => Some (d, e)
  | x :: l' =>
      if isExt x then
        if isDefn x then
          match d !! key x with
          | Some _ => None
          | None => reg l' (<[key x := x]> d) e
          end
        else reg l' d (<[key x := x]> e)
      else reg l' d e
  end.

Definition definitions (l : list A) : list A :=
  filter (λ x, isExt x && isDefn x = true) l.
Definition declarations (l : list A) : list A :=
  filter (λ x, isExt x && negb (isDefn x) = true) l.

Lemma reg_app l1 : ∀ l2 d e,
  reg (l1 ++ l2) d e = '(d', e') ← reg l1 d e; reg l2 d' e'.
Proof.
  induction l1 as [|x l1 IH]; intros l2 d e; simpl; [done|].
  destruct (isExt x); [|apply IH].
  destruct (isDefn x); [|apply IH].
  destruct (d !! key x); [done|apply IH].
Qed.

Lemma definitions_cons x l :
  definitions (x :: l) =
  if isExt x && isDefn x then x :: definitions l else definitions l.
Proof.
  unfold definitions. rewrite filter_cons.
  destruct (isExt x && isDefn x); by case_decide.
Qed.

Lemma declarations_cons x l :
  declarations (x :: l) =
  if isExt x && negb (isDefn x) then x :: declarations l else declarations l.
Proof.
  unfold declarations. rewrite filter_cons.
  destruct (isExt x && negb (isDefn x)); by case_decide.
Qed.

(** The registration goes through exactly when no GUID is defined twice
    and none is defined already. *)
Lemma reg_is_Some l : ∀ d e,
  is_Some (reg l d e) ↔
  NoDup (map key (definitions l)) ∧
  ∀ x, x ∈ definitions l → d !! key x = None.
Proof.
  induction l as [|x l IH]; intros d e; simpl.
  - split; [|by eauto]. intros _. split; [constructor|].
    by intros ? ?%elem_of_nil.
  - rewrite definitions_cons.
    destruct (isExt x); simpl; [|apply IH].
    destruct (isDefn x); simpl; [|apply IH].
    destruct (d !! key x) as [y|] eqn:Hx.
    + split; [by intros [? ?]|]. intros [_ Hfresh].
      specialize (Hfresh x (list_elem_of_here _ _)). congruence.
    + rewrite IH. rewrite NoDup_cons. split.
      * intros [Hnd Hfresh]. split; [split; [|done]|].
        -- intros (y & Hk & Hy)%list_elem_of_fmap.
           specialize (Hfresh y Hy). rewrite <- Hk, lookup_insert_eq in Hfresh.
           done.
        -- intros y [->|Hy]%elem_of_cons; [done|].
           specialize (Hfresh y Hy).
           destruct (decide (key x = key y)) as [Heq|Hne].
           ++ by rewrite Heq, lookup_insert_eq in Hfresh.
           ++ by rewrite lookup_insert_ne in Hfresh.
      * intros [[Hnotin Hnd] Hfresh]. split; [done|]. intros y Hy.
        rewrite lookup_insert_ne; [apply Hfresh; by right|].
        intros Heq. apply Hnotin. apply list_elem_of_fmap. by exists y.
Qed.

(** What the maps hold afterwards. *)
Lemma reg_lookup l : ∀ d e d' e',
  reg l d e = Some (d', e') →
  (∀ g a, d' !! g = Some a ↔
          d !! g = Some a ∨ (a ∈ definitions l ∧ key a = g)) ∧
  (∀ g, is_Some (e' !! g) ↔
        is_Some (e !! g) ∨ ∃ a, a ∈ declarations l ∧ key a = g).
Proof.
  induction l as [|x l IH]; intros d e d' e'; simpl.
  - intros [= <- <-]. split; intros g.
    + intros a. split; [by left|]. by intros [?|[?%elem_of_nil _]].
    + split; [by left|]. by intros [?|(? & ?%elem_of_nil & _)].
  - rewrite definitions_cons, declarations_cons.
    destruct (isExt x); simpl; [|apply IH].
    destruct (isDefn x); simpl.
    + destruct (d !! key x) as [y|] eqn:Hx; [done|].
      intros Hr. pose proof Hr as [Hd He]%IH. split; [|done].
      intros g a. rewrite Hd. split.
      * intros [Hl|[? ?]]; [|right; split; [by right|done]].
        destruct (decide (key x = g)) as [<-|Hne].
        -- rewrite lookup_insert_eq in Hl. injection Hl as <-.
           right. split; [by left|done].
        -- rewrite lookup_insert_ne in Hl by done. by left.
      * intros [Hl|[[->|Hin]%elem_of_cons Hk]].
        -- left. rewrite lookup_insert_ne; [done|]. intros <-. congruence.
        -- left. subst g. by rewrite lookup_insert_eq.
        -- by right.
    + intros Hr. pose proof Hr as [Hd He]%IH. split; [done|].
      intros g. rewrite He. split.
      * intros [Hl|(a & ? & ?)]; [|right; exists a; split; [by right|done]].
        destruct (decide (key x = g)) as [<-|Hne].
        -- right. exists x. split; [by left|done].
        -- rewrite lookup_insert_ne in Hl by done. by left.
      * intros [Hl|(a & [->|Hin]%elem_of_cons & Hk)].
        -- left. destruct (decide (key x = g)) as [<-|Hne].
           ++ rewrite lookup_insert_eq. by eauto.
           ++ by rewrite lookup_insert_ne.
        -- left. subst g. rewrite lookup_insert_eq. by eauto.
        -- right. by exists a.
Qed.

End Register.

Lemma eraseDefined_lookup {A} (defined ext : gmap N A) g :
  KAMain.eraseDefined defined ext !! g =
  match defined !! g with Some _ => None | None => ext !! g end.
Proof.
  unfold KAMain.eraseDefined.
  assert (∀ l : list (N * A),
            foldr (λ entry m, delete (fst entry) m) ext l !! g =
            if bool_decide (g ∈ map fst l) then None else ext !! g) as Hl.
  { induction l as [|[k a] l IH]; simpl; [done|].
    destruct (decide (k = g)) as [->|Hne].
    - rewrite lookup_delete_eq. rewrite bool_decide_eq_true_2; [done|]. by left.
    - rewrite lookup_delete_ne by done. rewrite IH.
      apply (f_equal (λ b : bool, if b then None else ext !! g)).
      apply bool_decide_ext. rewrite elem_of_cons. naive_solver. }
  rewrite Hl. destruct (defined !! g) as [a|] eqn:Hg.
  - rewrite bool_decide_eq_true_2; [done|].
    apply list_elem_of_fmap. exists (g, a). split; [done|].
    by apply elem_of_map_to_list.
  - rewrite bool_decide_eq_false_2; [done|].
    intros ([k a] & -> & Hin%elem_of_map_to_list)%list_elem_of_fmap.
    simpl in *. congruence.
Qed.


(** ** [doBasicInitialization] and [main] *)

Section Loading.

Variable hasExternalLinkage : N → bool.
Variable isDeclaration : N → bool.

(** A function with external linkage that is a definition with a body,
    and a global variable with external linkage that is a definition. *)
Definition functionHasExternalLinkage (F : Function) : bool :=
  hasExternalLinkage (fid F).
Definition functionIsDefinition (F : Function) : bool :=
  negb (fisDeclaration F) && negb (fempty F).
Definition globalHasExternalLinkage (GV : GlobalVariable) : bool :=
  hasExternalLinkage (gvid GV).
Definition globalIsDefinition (GV : GlobalVariable) : bool :=
  negb (isDeclaration (gvid GV)).

Definition definedFunctions (ms : list Module) : list Function :=
  definitions functionHasExternalLinkage functionIsDefinition
              (KAMain.functionsOf ms).
Definition declaredFunctions (ms : list Module) : list Function :=
  declarations functionHasExternalLinkage functionIsDefinition
               (KAMain.functionsOf ms).
Definition definedGlobals (ms : list Module) : list GlobalVariable :=
  definitions globalHasExternalLinkage globalIsDefinition
              (KAMain.globalsOf ms).
Definition declaredGlobals (ms : list Module) : list GlobalVariable :=
  declarations globalHasExternalLinkage globalIsDefinition
               (KAMain.globalsOf ms).

Local Abbreviation regF :=
  (reg fguid functionHasExternalLinkage functionIsDefinition).
Local Abbreviation regG :=
  (reg gvguid globalHasExternalLinkage globalIsDefinition).
Local Abbreviation recordFunction := (KAMain.recordFunction hasExternalLinkage).
Local Abbreviation recordGlobal :=
  (KAMain.recordGlobal hasExternalLinkage isDeclaration).
Local Abbreviation loadFile :=
  (KAMain.loadFile hasExternalLinkage isDeclaration).
Local Abbreviation loadModules :=
  (KAMain.loadModules hasExternalLinkage isDeclaration).

(** A loop that went through, in terms of the registrations. *)
Definition loadedAs (gs : list GlobalVariable) (fs : list Function)
    (ctx : KAMain.Context) (r : outcome KAMain.Context) : Prop :=
  match r with
  | Done ctx' =>
      regG gs (KAMain.Gobjs ctx) (KAMain.ExtGobjs ctx)
        = Some (KAMain.Gobjs ctx', KAMain.ExtGobjs ctx') ∧
      regF fs (KAMain.Funcs ctx) (KAMain.ExtFuncs ctx)
        = Some (KAMain.Funcs ctx', KAMain.ExtFuncs ctx')
  | Fatal _ =>
      regG gs (KAMain.Gobjs ctx) (KAMain.ExtGobjs ctx) = None ∨
      regF fs (KAMain.Funcs ctx) (KAMain.ExtFuncs ctx) = None
  | OutOfFuel => False
  end.

Lemma forEach_recordFunction Fs : ∀ ctx,
  loadedAs [] Fs ctx (KAMain.forEach recordFunction Fs ctx).
Proof.
  induction Fs as [|F Fs IH]; intros ctx; [done|].
  unfold loadedAs. simpl. unfold KAMain.recordFunction.
  change (hasExternalLinkage (fid F)) with (functionHasExternalLinkage F).
  change (negb (fisDeclaration F) && negb (fempty F))
    with (functionIsDefinition F).
  destruct (functionHasExternalLinkage F); [|apply IH].
  destruct (functionIsDefinition F).
  - destruct (KAMain.Funcs ctx !! fguid F); [by right|].
    specialize (IH {| KAMain.Gobjs := KAMain.Gobjs ctx;
                      KAMain.ExtGobjs := KAMain.ExtGobjs ctx;
                      KAMain.Funcs := <[fguid F := F]> (KAMain.Funcs ctx);
                      KAMain.ExtFuncs := KAMain.ExtFuncs ctx;
                      KAMain.Modules := KAMain.Modules ctx |}).
    by destruct (KAMain.forEach _ _ _).
  - specialize (IH {| KAMain.Gobjs := KAMain.Gobjs ctx;
                      KAMain.ExtGobjs := KAMain.ExtGobjs ctx;
                      KAMain.Funcs := KAMain.Funcs ctx;
                      KAMain.ExtFuncs := <[fguid F := F]> (KAMain.ExtFuncs ctx);
                      KAMain.Modules := KAMain.Modules ctx |}).
    by destruct (KAMain.forEach _ _ _).
Qed.

Lemma forEach_recordGlobal Gs : ∀ ctx,
  loadedAs Gs [] ctx (KAMain.forEach recordGlobal Gs ctx).
Proof.
  induction Gs as [|G Gs IH]; intros ctx; [done|].
  unfold loadedAs. simpl. unfold KAMain.recordGlobal.
  change (hasExternalLinkage (gvid G)) with (globalHasExternalLinkage G).
  change (negb (isDeclaration (gvid G))) with (globalIsDefinition G).
  destruct (globalHasExternalLinkage G); [|apply IH].
  destruct (globalIsDefinition G).
  - destruct (KAMain.Gobjs ctx !! gvguid G); [by left|].
    specialize (IH {| KAMain.Gobjs := <[gvguid G := G]> (KAMain.Gobjs ctx);
                      KAMain.ExtGobjs := KAMain.ExtGobjs ctx;
                      KAMain.Funcs := KAMain.Funcs ctx;
                      KAMain.ExtFuncs := KAMain.ExtFuncs ctx;
                      KAMain.Modules := KAMain.Modules ctx |}).
    by destruct (KAMain.forEach _ _ _).
  - specialize (IH {| KAMain.Gobjs := KAMain.Gobjs ctx;
                      KAMain.ExtGobjs := <[gvguid G := G]> (KAMain.ExtGobjs ctx);
                      KAMain.Funcs := KAMain.Funcs ctx;
                      KAMain.ExtFuncs := KAMain.ExtFuncs ctx;
                      KAMain.Modules := KAMain.Modules ctx |}).
    by destruct (KAMain.forEach _ _ _).
Qed.

(** Two loops one after the other. *)
Lemma loadedAs_seq gs1 fs1 gs2 fs2 ctx r1
    (k : KAMain.Context → outcome KAMain.Context) :
  loadedAs gs1 fs1 ctx r1 →
  (∀ ctx', r1 = Done ctx' → loadedAs gs2 fs2 ctx' (k ctx')) →
  loadedAs (gs1 ++ gs2) (fs1 ++ fs2) ctx
           match r1 with
           | Done ctx' => k ctx'
           | Fatal why => Fatal why
           | OutOfFuel => OutOfFuel
           end.
Proof.
  destruct r1 as [ctx'| |]; simpl; [|..|done].
  - intros [Hg Hf] Hk. specialize (Hk ctx' eq_refl).
    unfold loadedAs. rewrite !reg_app, Hg, Hf. simpl.
    by destruct (k ctx').
  - intros [Hg|Hf] _; rewrite !reg_app; [left; by rewrite Hg|right; by rewrite Hf].
Qed.

Lemma doBasicInitialization_loadedAs M ctx :
  loadedAs (mglobals M) (map fst (mfunctions M)) ctx
           (KAMain.doBasicInitialization hasExternalLinkage isDeclaration M ctx).
Proof.
  unfold KAMain.doBasicInitialization.
  rewrite <- (app_nil_r (mglobals M)) at 1.
  change (map fst (mfunctions M)) with ([] ++ map fst (mfunctions M)) at 1.
  apply loadedAs_seq; [apply forEach_recordGlobal|].
  intros. apply forEach_recordFunction.
Qed.

Lemma forEach_loadFile files : ∀ ctx,
  loadedAs (KAMain.globalsOf (KAMain.loaded files))
           (KAMain.functionsOf (KAMain.loaded files)) ctx
           (KAMain.forEach loadFile files ctx).
Proof.
  induction files as [|[name [M|]] files IH]; intros ctx; simpl; [done| |].
  - unfold KAMain.loaded, KAMain.globalsOf, KAMain.functionsOf. simpl.
    unfold KAMain.loadFile at 1. simpl.
    apply loadedAs_seq; [|intros; apply IH].
    apply (doBasicInitialization_loadedAs M
             {| KAMain.Gobjs := KAMain.Gobjs ctx;
                KAMain.ExtGobjs := KAMain.ExtGobjs ctx;
                KAMain.Funcs := KAMain.Funcs ctx;
                KAMain.ExtFuncs := KAMain.ExtFuncs ctx;
                KAMain.Modules := KAMain.Modules ctx ++ [(M, name)] |}).
  - apply IH.
Qed.

Lemma loadModules_Done files ctx :
  loadModules files = Done ctx →
  ∃ ge fe,
    regG (KAMain.globalsOf (KAMain.loaded files)) ∅ ∅
      = Some (KAMain.Gobjs ctx, ge) ∧
    regF (KAMain.functionsOf (KAMain.loaded files)) ∅ ∅
      = Some (KAMain.Funcs ctx, fe) ∧
    KAMain.ExtGobjs ctx = KAMain.eraseDefined (KAMain.Gobjs ctx) ge ∧
    KAMain.ExtFuncs ctx = KAMain.eraseDefined (KAMain.Funcs ctx) fe.
Proof.
  unfold KAMain.loadModules.
  pose proof (forEach_loadFile files KAMain.empty) as Hl.
  destruct (KAMain.forEach _ _ _) as [ctx'| |]; [|done..].
  intros [= <-]. destruct Hl as [Hg Hf].
  exists (KAMain.ExtGobjs ctx'), (KAMain.ExtFuncs ctx'). by simpl in *.
Qed.

(** The GUIDs defined by the functions and by the global variables of
    the loaded modules. *)
Definition noDoubleDefinition (ms : list Module) : Prop :=
  NoDup (map fguid (definedFunctions ms)) ∧
  NoDup (map gvguid (definedGlobals ms)).

(** X2: loading completes exactly when no GUID has two definitions with
    external linkage among the functions of the loaded modules, and none
    among their global variables; otherwise an assertion of
    [doBasicInitialization] fails.  Files that do not parse are skipped. *)
Theorem loadModules_completes_iff_no_double_definition
    (files : list (string * option Module)) :
  (∃ ctx, loadModules files = Done ctx) ↔
  noDoubleDefinition (KAMain.loaded files).
Proof.
  unfold KAMain.loadModules, noDoubleDefinition.
  pose proof (forEach_loadFile files KAMain.empty) as Hl.
  pose proof (reg_is_Some fguid functionHasExternalLinkage functionIsDefinition
                (KAMain.functionsOf (KAMain.loaded files)) ∅ ∅) as HF.
  pose proof (reg_is_Some gvguid globalHasExternalLinkage globalIsDefinition
                (KAMain.globalsOf (KAMain.loaded files)) ∅ ∅) as HG.
  destruct (KAMain.forEach _ _ _) as [ctx'|why|]; simpl in Hl; [| |done].
  - destruct Hl as [Hg Hf]. split; [intros _|by eauto].
    split; [apply HF|apply HG]; by eexists.
  - split; [by intros [? ?]|]. intros [Hf Hg]. exfalso.
    destruct Hl as [Hn|Hn].
    + assert (is_Some (regG (KAMain.globalsOf (KAMain.loaded files)) ∅ ∅))
        as [? Hs]; [|simpl in *; congruence].
      apply HG. split; [done|]. intros. apply lookup_empty.
    + assert (is_Some (regF (KAMain.functionsOf (KAMain.loaded files)) ∅ ∅))
        as [? Hs]; [|simpl in *; congruence].
      apply HF. split; [done|]. intros. apply lookup_empty.
Qed.

Lemma loadModules_Funcs files ctx g F :
  loadModules files = Done ctx →
  KAMain.Funcs ctx !! g = Some F ↔
  F ∈ definedFunctions (KAMain.loaded files) ∧ fguid F = g.
Proof.
  intros (ge & fe & _ & Hf & _)%loadModules_Done.
  apply reg_lookup in Hf as [Hd _]. rewrite Hd, lookup_empty. naive_solver.
Qed.

Lemma loadModules_ExtFuncs files ctx g :
  loadModules files = Done ctx →
  is_Some (KAMain.ExtFuncs ctx !! g) ↔
  (∃ F, F ∈ declaredFunctions (KAMain.loaded files) ∧ fguid F = g) ∧
  ¬ ∃ F, F ∈ definedFunctions (KAMain.loaded files) ∧ fguid F = g.
Proof.
  intros (ge & fe & _ & Hf & _ & ->)%loadModules_Done.
  apply reg_lookup in Hf as [Hd He]. rewrite eraseDefined_lookup.
  specialize (He g). rewrite lookup_empty in He.
  destruct (KAMain.Funcs ctx !! g) as [D|] eqn:HD.
  - apply Hd in HD as [HD|HD]; [by rewrite lookup_empty in HD|].
    split; [by intros [? ?]|]. intros [_ Hn]. exfalso. apply Hn. by exists D.
  - rewrite He. split.
    + intros [[? ?]|Hdecl]; [done|]. split; [done|].
      intros (D & HD' & Hk). assert (KAMain.Funcs ctx !! g = Some D) as Hs.
      { apply Hd. by right. }
      congruence.
    + intros [Hdecl _]. by right.
Qed.

Lemma loadModules_Gobjs files ctx g GV :
  loadModules files = Done ctx →
  KAMain.Gobjs ctx !! g = Some GV ↔
  GV ∈ definedGlobals (KAMain.loaded files) ∧ gvguid GV = g.
Proof.
  intros (ge & fe & Hg & _)%loadModules_Done.
  apply reg_lookup in Hg as [Hd _]. rewrite Hd, lookup_empty. naive_solver.
Qed.

Lemma loadModules_ExtGobjs files ctx g :
  loadModules files = Done ctx →
  is_Some (KAMain.ExtGobjs ctx !! g) ↔
  (∃ GV, GV ∈ declaredGlobals (KAMain.loaded files) ∧ gvguid GV = g) ∧
  ¬ ∃ GV, GV ∈ definedGlobals (KAMain.loaded files) ∧ gvguid GV = g.
Proof.
  intros (ge & fe & Hg & _ & -> & _)%loadModules_Done.
  apply reg_lookup in Hg as [Hd He]. rewrite eraseDefined_lookup.
  specialize (He g). rewrite lookup_empty in He.
  destruct (KAMain.Gobjs ctx !! g) as [D|] eqn:HD.
  - apply Hd in HD as [HD|HD]; [by rewrite lookup_empty in HD|].
    split; [by intros [? ?]|]. intros [_ Hn]. exfalso. apply Hn. by exists D.
  - rewrite He. split.
    + intros [[? ?]|Hdecl]; [done|]. split; [done|].
      intros (D & HD' & Hk). assert (KAMain.Gobjs ctx !! g = Some D) as Hs.
      { apply Hd. by right. }
      congruence.
    + intros [Hdecl _]. by right.
Qed.

(** X3: when loading completes, [Funcs] maps a GUID to the function of
    the loaded modules that defines it with external linkage (and to
    nothing else), and [ExtFuncs] holds the GUIDs that some function
    with external linkage declares and none defines; [Gobjs] and
    [ExtGobjs] hold the same for the global variables. *)
Theorem loadModules_separates_definitions
    (files : list (string * option Module)) (ctx : KAMain.Context) :
  loadModules files = Done ctx →
  (∀ g F, KAMain.Funcs ctx !! g = Some F ↔
          F ∈ definedFunctions (KAMain.loaded files) ∧ fguid F = g) ∧
  (∀ g, is_Some (KAMain.ExtFuncs ctx !! g) ↔
        (∃ F, F ∈ declaredFunctions (KAMain.loaded files) ∧ fguid F = g) ∧
        ¬ ∃ F, F ∈ definedFunctions (KAMain.loaded files) ∧ fguid F = g) ∧
  (∀ g GV, KAMain.Gobjs ctx !! g = Some GV ↔
           GV ∈ definedGlobals (KAMain.loaded files) ∧ gvguid GV = g) ∧
  (∀ g, is_Some (KAMain.ExtGobjs ctx !! g) ↔
        (∃ GV, GV ∈ declaredGlobals (KAMain.loaded files) ∧ gvguid GV = g) ∧
        ¬ ∃ GV, GV ∈ definedGlobals (KAMain.loaded files) ∧ gvguid GV = g).
Proof.
  intros Hl. split; [|split; [|split]]; intros.
  - by apply loadModules_Funcs.
  - by apply loadModules_ExtFuncs.
  - by apply loadModules_Gobjs.
  - by apply loadModules_ExtGobjs.
Qed.

End Loading.

(** Witness for X3: [foo] after loading [a.bc] and [b.bc]. *)
Lemma loadModules_separates_definitions_witness :
  KAMain.Funcs LoadExample.ctx !! 101 = Some LoadExample.fooDef ↔
  LoadExample.fooDef ∈
    definedFunctions LoadExample.hasExternalLinkage
                     (KAMain.loaded LoadExample.files) ∧
  fguid LoadExample.fooDef = 101.
Proof.
  apply (proj1 (loadModules_separates_definitions
                  LoadExample.hasExternalLinkage LoadExample.isDeclaration
                  LoadExample.files LoadExample.ctx eq_refl) 101
               LoadExample.fooDef).
Defined.

(** X4: in a state that holds the loader's [Funcs], [getFuncDef] hands
    back an object with the GUID of its argument: the definition with
    external linkage that the loaded modules hold for that GUID, whichever
    module declares the argument, and the argument itself when they hold
    none. *)
Theorem getFuncDef_resolves_to_loaded_definition
    {NF : Type} `{AndersNodeFactory NF}
    (hasExternalLinkage isDeclaration : N → bool)
    (files : list (string * option Module)) (ctx : KAMain.Context)
    (st : State (NF:=NF)) (F : Function) :
  KAMain.loadModules hasExternalLinkage isDeclaration files = Done ctx →
  Funcs st = KAMain.Funcs ctx →
  ∃ D, getFuncDef F st = (Done D, st) ∧ fguid D = fguid F ∧
       (∀ D', D' ∈ definedFunctions hasExternalLinkage (KAMain.loaded files) →
              fguid D' = fguid F → D = D') ∧
       ((∀ D', D' ∈ definedFunctions hasExternalLinkage (KAMain.loaded files) →
               fguid D' ≠ fguid F) → D = F).
Proof.
  intros Hl HF. unfold getFuncDef, mbind, M_bind, bind, gets, mret, M_ret, ret.
  rewrite HF. eexists. split; [done|].
  destruct (KAMain.Funcs ctx !! fguid F) as [D|] eqn:HD; simpl.
  - pose proof (proj1 (loadModules_Funcs _ _ _ _ _ _ Hl) HD) as [HinD HgD].
    split; [done|]. split.
    + intros D' Hin' Hg'.
      pose proof (proj2 (loadModules_Funcs _ _ _ _ (fguid F) D' Hl)
                        (conj Hin' Hg')). congruence.
    + intros Hnone. by destruct (Hnone D HinD).
  - split; [done|]. split; [|done]. intros D' Hin' Hg'.
    pose proof (proj2 (loadModules_Funcs _ _ _ _ (fguid F) D' Hl)
                      (conj Hin' Hg')). congruence.
Qed.

(** Witness for X4: the declaration of [foo] in [a.bc] resolves to the
    definition in [b.bc]. *)
Lemma getFuncDef_resolves_to_loaded_definition_witness :
  ∃ D, getFuncDef LoadExample.fooDecl LoadExample.start
         = (Done D, LoadExample.start) ∧
       fguid D = fguid LoadExample.fooDecl ∧
       (∀ D', D' ∈ definedFunctions LoadExample.hasExternalLinkage
                     (KAMain.loaded LoadExample.files) →
              fguid D' = fguid LoadExample.fooDecl → D = D') ∧
       ((∀ D', D' ∈ definedFunctions LoadExample.hasExternalLinkage
                      (KAMain.loaded LoadExample.files) →
               fguid D' ≠ fguid LoadExample.fooDecl) →
        D = LoadExample.fooDecl).
Proof.
  apply (getFuncDef_resolves_to_loaded_definition
           LoadExample.hasExternalLinkage LoadExample.isDeclaration
           LoadExample.files LoadExample.ctx LoadExample.start
           LoadExample.fooDecl).
  - reflexivity.
  - reflexivity.
Defined.

(** The example behaves as described: the declaration resolves to the
    definition, and the declared global is the one left in [ExtGobjs]. *)
Example load_example_resolves :
  fst (getFuncDef LoadExample.fooDecl LoadExample.start)
    = Done LoadExample.fooDef ∧
  elements (dom (KAMain.ExtGobjs LoadExample.ctx)) = [131] ∧
  elements (dom (KAMain.Gobjs LoadExample.ctx)) = [132] ∧
  elements (dom (KAMain.ExtFuncs LoadExample.ctx)) = [] ∧
  map snd (KAMain.Modules LoadExample.ctx) = ["a.bc"; "b.bc"].
Proof. repeat split; vm_compute; reflexivity. Qed.


(** * The driver with the passes of the base class *)

Section DefaultPasses.

Context {NF : Type} `{AndersNodeFactory NF}.
Local Abbreviation State := (State (NF:=NF)).
Local Abbreviation M := (M (NF:=NF)).

Lemma sweep_true (pass : Module → M bool) ms : ∀ again (st : State),
  (∀ Mod st, pass Mod st = (Done true, st)) →
  sweep pass ms again st = (Done (again || bool_decide (ms ≠ [])), st).
Proof.
  induction ms as [|Mod ms IH]; intros again st Hp; simpl.
  - by rewrite orb_false_r.
  - unfold mbind, M_bind, bind. rewrite Hp, IH by done.
    by rewrite orb_true_r, !orb_true_l.
Qed.

Lemma whileAgain_true (pass : Module → M bool) Mod ms fuel : ∀ st : State,
  (∀ Mod st, pass Mod st = (Done true, st)) →
  fst (whileAgain fuel pass (Mod :: ms) st) = OutOfFuel.
Proof.
  induction fuel as [|fuel IH]; intros st Hp; [done|].
  cbn [whileAgain]. unfold mbind, M_bind, bind.
  rewrite (sweep_true pass (Mod :: ms) _ _ Hp).
  rewrite bool_decide_eq_true_2 by done. simpl. by apply IH.
Qed.

Lemma bind_not_Done {A B} (m : M A) (k : A → M B) (st : State) :
  (∀ a st', m st = (Done a, st') → ∀ b, fst (k a st') ≠ Done b) →
  ∀ b, fst ((m ≫= k) st) ≠ Done b.
Proof.
  intros Hk b. unfold mbind, M_bind, bind.
  destruct (m st) as [[a| |] st'] eqn:Hm; simpl; [by eapply Hk|done..].
Qed.

(** X5: a pass that keeps [doInitialization] of the base class, which
    returns [true], never gets past the first loop of [run] on a
    non-empty list of modules; one that keeps [doFinalization] of the
    base class never completes [run] on such a list. *)
Theorem run_needs_overridden_sweeps :
  (∀ doFinalization' doModulePass' fuel Mod ms (st : State),
     fst (run IterativeModulePass.doInitialization doFinalization'
              doModulePass' fuel (Mod :: ms) st) = OutOfFuel) ∧
  (∀ doInitialization' doModulePass' fuel Mod ms (st : State),
     fst (run doInitialization' IterativeModulePass.doFinalization
              doModulePass' fuel (Mod :: ms) st) ≠ Done tt).
Proof.
  split.
  - intros doFinal doPass fuel Mod ms st. unfold run.
    unfold mbind at 1, M_bind at 1, bind at 1, modify at 1.
    unfold mbind at 1, M_bind at 1, bind at 1.
    pose proof (whileAgain_true IterativeModulePass.doInitialization Mod ms
                  fuel (upd_Iteration (λ _, 0) st) (λ _ _, eq_refl)) as Hw.
    by destruct (whileAgain _ _ _ _) as [[| |] ?].
  - intros doInit doPass fuel Mod ms st. unfold run.
    apply bind_not_Done. intros _ st1 _.
    apply bind_not_Done. intros _ st2 _.
    apply bind_not_Done. intros _ st3 _.
    apply bind_not_Done. intros _ st4 _ b.
    by rewrite (whileAgain_true IterativeModulePass.doFinalization Mod ms
                  fuel st4 (λ _ _, eq_refl)).
Qed.

End DefaultPasses.

(** * Types *)

(** X6: [getElementTy] takes off every array and vector layer: what it
    hands back is neither an array nor a vector type, and applying it again
    changes nothing. *)
Theorem getElementTy_strips_arrays_and_vectors (T : Ty) :
  (∀ e n, getElementTy T ≠ ArrayTy e n) ∧
  (∀ e n s, getElementTy T ≠ VectorTy e n s) ∧
  getElementTy (getElementTy T) = getElementTy T.
Proof. induction T; simpl; try done. Qed.

Lemma TypeID_num_inj a b : TypeID_num a = TypeID_num b → a = b.
Proof. by destruct a, b. Qed.

Lemma Ty_eqb_getTypeID T1 T2 : Ty_eqb T1 T2 = true → getTypeID T1 = getTypeID T2.
Proof.
  destruct T1, T2; simpl; try done.
  - intros [[_ _]%andb_prop Hs%Bool.eqb_prop]%andb_prop. by subst.
  - unfold PrimKind_eqb. intros Hk%N.eqb_eq. by apply TypeID_num_inj.
Qed.

(** X7: compatible types are of one kind (they have the same [TypeID]),
    but for an integer of width [w] set against a pointer in address space
    [w]. *)
Theorem isCompatibleType_same_kind (LLVM_VERSION_MAJOR : N) (T1 T2 : Ty) :
  isCompatibleType LLVM_VERSION_MAJOR T1 T2 = true →
  getTypeID T1 = getTypeID T2 ∨
  ∃ w e, T1 = IntegerTy w ∧ T2 = PointerTy e w.
Proof.
  intros H. destruct (Ty_eqb T1 T2) eqn:He; [left; by apply Ty_eqb_getTypeID|].
  revert H.
  destruct T1; cbn [isCompatibleType]; rewrite He; clear He;
    destruct T2; simpl; try done; try (by left);
    try (destruct (width =? addrSpace) eqn:Hw;
         [apply N.eqb_eq in Hw as ->; intros _; right; by eauto|done]);
    repeat match goal with
           | |- context [match ?b with _ => _ end] => is_var b; destruct b
           end;
    simpl; try done; by left.
Qed.

(** Witness for X7: a function pointer against a byte pointer, and an
    integer against a pointer. *)
Lemma isCompatibleType_same_kind_witness :
  getTypeID (PointerTy (FunctionTy VoidTy [] false) 0)
    = getTypeID (PointerTy (IntegerTy 8) 0) ∨
  ∃ w e, PointerTy (FunctionTy VoidTy [] false) 0 = IntegerTy w ∧
         PointerTy (IntegerTy 8) 0 = PointerTy e w.
Proof.
  apply (isCompatibleType_same_kind 12 (PointerTy (FunctionTy VoidTy [] false) 0)
           (PointerTy (IntegerTy 8) 0)).
  reflexivity.
Defined.

(** * Type-based resolution, repeated *)

Section FindCalleesAgain.

Context {NF : Type} `{AndersNodeFactory NF}.
Variable LLVM_VERSION_MAJOR : N.
Local Abbreviation State := (State (NF:=NF)).

(** The loop only adds to the set it is given. *)
Lemma findCalleesByType_loop_grows CS Fs : ∀ FS FS',
  findCalleesByType_loop LLVM_VERSION_MAJOR CS Fs FS = Done FS' → FS ⊆ FS'.
Proof.
  intros FS FS' Hl f Hf.
  apply (findCalleesByType_loop_spec _ _ _ _ _ Hl). by left.
Qed.

(** Whether the loop returns does not depend on the set it is given. *)
Lemma findCalleesByType_loop_Done CS Fs : ∀ FS1 FS2 FS1',
  findCalleesByType_loop LLVM_VERSION_MAJOR CS Fs FS1 = Done FS1' →
  ∃ FS2', findCalleesByType_loop LLVM_VERSION_MAJOR CS Fs FS2 = Done FS2'.
Proof.
  induction Fs as [|[k F] Fs IH]; intros FS1 FS2 FS1'; simpl; [by eauto|].
  destruct (typeMatch LLVM_VERSION_MAJOR CS F) as [[]| |]; try done; eauto.
Qed.

(** Given what it produced, the loop produces the same again. *)
Lemma findCalleesByType_loop_again CS Fs FS FS' :
  findCalleesByType_loop LLVM_VERSION_MAJOR CS Fs FS = Done FS' →
  findCalleesByType_loop LLVM_VERSION_MAJOR CS Fs FS' = Done FS'.
Proof.
  intros Hl.
  destruct (findCalleesByType_loop_Done CS Fs FS FS' FS' Hl) as [FS'' Hl2].
  rewrite Hl2. f_equal. apply set_eq. intros f.
  rewrite (findCalleesByType_loop_spec _ _ _ _ _ Hl2 f).
  rewrite (findCalleesByType_loop_spec _ _ _ _ _ Hl f). tauto.
Qed.

(** X8: [findCalleesByType] returns whenever no variadic address-taken
    function has more formals than the call site has actuals; it only
    adds to the set of its call site, leaves the set of every other call
    site alone, and a second call right after the first changes nothing
    and returns the same set. *)
Theorem findCalleesByType_is_idempotent (CS : Instruction) (st : State) :
  (∀ k F, AddressTakenFuncs st !! k = Some F → fisVarArg F = true →
          (length (fargs F) ≤ length (call_args CS))%nat) →
  ∃ TS st',
    findCalleesByType LLVM_VERSION_MAJOR CS st = (Done TS, st') ∧
    findCalleesByType LLVM_VERSION_MAJOR CS st' = (Done TS, st') ∧
    default ∅ (calleeByType st !! iid CS) ⊆ TS ∧
    ∀ cs, cs ≠ iid CS → calleeByType st' !! cs = calleeByType st !! cs.
Proof.
  intros Hva.
  destruct (findCalleesByType_loop_returns LLVM_VERSION_MAJOR CS
              (map_to_list (AddressTakenFuncs st))
              (λ k F Hk, Hva k F (proj1 (elem_of_map_to_list _ _ _) Hk))
              (default ∅ (calleeByType st !! iid CS))) as [TS Hl].
  exists TS. eexists. split; [|split; [|split]].
  - unfold findCalleesByType, mbind, M_bind, bind, gets, modify, mret, M_ret, ret.
    simpl. rewrite lookup_insert_eq. simpl. rewrite Hl. simpl. reflexivity.
  - unfold findCalleesByType, mbind, M_bind, bind, gets, modify, mret, M_ret, ret.
    simpl. rewrite !lookup_insert_eq. simpl.
    rewrite (findCalleesByType_loop_again _ _ _ _ Hl). simpl.
    f_equal. unfold upd_calleeByType. simpl. f_equal.
    rewrite ?lookup_insert_eq. simpl. by rewrite !insert_insert_eq.
  - by eapply findCalleesByType_loop_grows.
  - intros cs Hne. simpl. by rewrite !lookup_insert_ne.
Qed.

End FindCalleesAgain.

(** Witness for X8: the indirect call of [TypeExample]. *)
Lemma findCalleesByType_is_idempotent_witness :
  ∃ TS st',
    findCalleesByType 14 TypeExample.callVoid TypeExample.taken = (Done TS, st') ∧
    findCalleesByType 14 TypeExample.callVoid st' = (Done TS, st') ∧
    default ∅ (calleeByType TypeExample.taken !! iid TypeExample.callVoid) ⊆ TS ∧
    ∀ cs, cs ≠ iid TypeExample.callVoid →
          calleeByType st' !! cs = calleeByType TypeExample.taken !! cs.
Proof.
  apply (findCalleesByType_is_idempotent 14 TypeExample.callVoid
           TypeExample.taken).
  intros k F HF _.
  assert (length (fargs F) = 0%nat) as ->; [|simpl; lia].
  simpl in HF. apply lookup_insert_Some in HF as [[_ <-]|[_ HF]]; [done|].
  by apply lookup_singleton_Some in HF as [_ <-].
Defined.


(** * Enumerating a points-to set *)

Lemma getSize_list_spec (l : list N) :
  let r := foldr (λ x acc, N.max (x + 1) acc) 0 l in
  (∀ x, x ∈ l → x < r) ∧ (r = 0 ∨ ∃ x, x ∈ l ∧ r = x + 1).
Proof.
  induction l as [|y l [IH1 IH2]]; simpl.
  - split; [by intros ? ?%elem_of_nil|by left].
  - split.
    + intros x [->|Hx]%elem_of_cons; [lia|]. specialize (IH1 x Hx). lia.
    + right. destruct (N.max_spec (y + 1) (foldr (λ x acc, N.max (x + 1) acc) 0 l))
        as [[Hlt ->]|[Hle ->]].
      * destruct IH2 as [H0|(x & Hx & Heq)]; [lia|].
        exists x. split; [by right|done].
      * exists y. split; [by left|done].
Qed.

Lemma getSize_above (s : gset N) x : x ∈ s → x < getSize s.
Proof.
  intros Hx. apply (proj1 (getSize_list_spec (elements s))).
  by apply elem_of_elements.
Qed.

Lemma getSize_mono (s s' : gset N) : s ⊆ s' → getSize s ≤ getSize s'.
Proof.
  intros Hs. destruct (proj2 (getSize_list_spec (elements s)))
    as [H0|(x & Hx%elem_of_elements & Heq)].
  - unfold getSize. rewrite H0. lia.
  - unfold getSize at 1. rewrite Heq.
    pose proof (getSize_above s' x (Hs x Hx)). lia.
Qed.

Lemma least_from_list_spec lo (l : list N) :
  match foldr (λ x acc, if lo <=? x
                        then Some (match acc with
                                   | Some y => N.min x y
                                   | None => x
                                   end)
                        else acc) None l with
  | Some r => r ∈ l ∧ lo ≤ r ∧ ∀ x, x ∈ l → lo ≤ x → r ≤ x
  | None => ∀ x, x ∈ l → x < lo
  end.
Proof.
  induction l as [|y l IH]; simpl; [by intros ? ?%elem_of_nil|].
  destruct (lo <=? y) eqn:Hy.
  - apply N.leb_le in Hy. destruct (foldr _ None l) as [r|].
    + destruct IH as (Hr & Hlo & Hmin). split; [|split].
      * destruct (N.min_spec y r) as [[_ ->]|[_ ->]]; [left|by right].
      * lia.
      * intros x [->|Hx]%elem_of_cons Hx'; [lia|]. specialize (Hmin x Hx Hx'). lia.
    + split; [left|]. split; [done|].
      intros x [->|Hx]%elem_of_cons Hx'; [lia|]. specialize (IH x Hx). lia.
  - apply N.leb_gt in Hy. destruct (foldr _ None l) as [r|].
    + destruct IH as (Hr & Hlo & Hmin). split; [by right|]. split; [done|].
      intros x [->|Hx]%elem_of_cons Hx'; [lia|]. by apply Hmin.
    + intros x [->|Hx]%elem_of_cons; [done|]. by apply IH.
Qed.

(** [find_next s prev] is the least element above [prev], and [getSize s]
    when there is none. *)
Lemma find_next_spec (s : gset N) prev :
  (find_next s prev ∈ s ∧ prev < find_next s prev ∧
   ∀ x, x ∈ s → prev < x → find_next s prev ≤ x) ∨
  ((∀ x, x ∈ s → x ≤ prev) ∧ find_next s prev = getSize s).
Proof.
  unfold find_next, least_from.
  pose proof (least_from_list_spec (prev + 1) (elements s)) as Hl.
  destruct (foldr _ None (elements s)) as [r|]; simpl.
  - destruct Hl as (Hr%elem_of_elements & Hlo & Hmin). left.
    split; [done|]. split; [lia|]. intros x Hx Hp.
    apply Hmin; [by apply elem_of_elements|lia].
  - right. split; [|done]. intros x Hx%elem_of_elements.
    specialize (Hl x Hx). lia.
Qed.

Lemma find_first_spec (s : gset N) :
  (find_first s ∈ s ∧ ∀ x, x ∈ s → find_first s ≤ x) ∨
  (s = ∅ ∧ find_first s = getSize s).
Proof.
  unfold find_first, least_from.
  pose proof (least_from_list_spec 0 (elements s)) as Hl.
  destruct (foldr _ None (elements s)) as [r|]; simpl.
  - destruct Hl as (Hr%elem_of_elements & Hlo & Hmin). left.
    split; [done|]. intros x Hx. apply Hmin; [by apply elem_of_elements|lia].
  - right. split; [|done]. apply set_eq. intros x. split; [|by intros ?%elem_of_empty].
    intros Hx%elem_of_elements. specialize (Hl x Hx). lia.
Qed.

(** * Computations that return *)

Section Returns.

Context {NF : Type} `{AndersNodeFactory NF}.
Local Abbreviation State := (State (NF:=NF)).
Local Abbreviation M := (M (NF:=NF)).

(** [m] completes from [st], with a result and a state that satisfy
    [Q]. *)
Definition returns {A} (m : M A) (st : State) (Q : A → State → Prop) : Prop :=
  ∃ a st', m st = (Done a, st') ∧ Q a st'.

Lemma returns_ret {A} (a : A) st (Q : A → State → Prop) :
  Q a st → returns (mret a) st Q.
Proof. intros. by exists a, st. Qed.

Lemma returns_bind {A B} (m : M A) (k : A → M B) st (Q : B → State → Prop) :
  returns m st (λ a st1, returns (k a) st1 Q) → returns (m ≫= k) st Q.
Proof.
  intros (a & st1 & Hm & b & st2 & Hk & HQ). exists b, st2. split; [|done].
  unfold mbind, M_bind, bind. by rewrite Hm.
Qed.

Lemma returns_mono {A} (m : M A) st (Q Q' : A → State → Prop) :
  returns m st Q → (∀ a st', Q a st' → Q' a st') → returns m st Q'.
Proof. intros (a & st' & Hm & HQ) HQQ. exists a, st'. auto. Qed.

Lemma returns_gets {A} (f : State → A) st (Q : A → State → Prop) :
  Q (f st) st → returns (gets f) st Q.
Proof. intros. by exists (f st), st. Qed.

Lemma returns_modify f st (Q : unit → State → Prop) :
  Q tt (f st) → returns (modify f) st Q.
Proof. intros. by exists tt, (f st). Qed.

Lemma returns_assert b why st (Q : unit → State → Prop) :
  b = true → Q tt st → returns (assert b why) st Q.
Proof. intros -> ?. by exists tt, st. Qed.

Lemma returns_Done {A} (m : M A) st (Q : A → State → Prop) a st' :
  returns m st Q → m st = (Done a, st') → Q a st'.
Proof. intros (a' & st'' & Hm & HQ) Hd. congruence. Qed.

Lemma returns_ptsDeref n s st (Q : gset N → State → Prop) :
  funcPtsGraph st !! n = Some s → Q s st → returns (ptsDeref n) st Q.
Proof.
  intros Hn HQ. exists s, st. split; [|done].
  unfold ptsDeref, ptsFind, mbind, M_bind, bind, gets. by rewrite Hn.
Qed.

Lemma returns_ptsInsert n idx st (Q : bool → State → Prop) :
  Q (bool_decide (idx ∉ pts (funcPtsGraph st) n))
    (upd_funcPtsGraph (λ g, <[n := {[idx]} ∪ pts g n]> g) st) →
  returns (ptsInsert n idx) st Q.
Proof. intros HQ. eexists _, _. split; [reflexivity|done]. Qed.

Lemma returns_ptsCopy dst src s st (Q : N → State → Prop) :
  funcPtsGraph st !! src = Some s →
  Q (N.of_nat (size (s ∖ pts (funcPtsGraph st) dst)))
    (upd_funcPtsGraph (λ g, <[dst := s ∪ pts g dst]> g) st) →
  returns (ptsCopy dst src) st Q.
Proof.
  intros Hs HQ. eexists _, _. split; [|exact HQ].
  unfold ptsCopy, ptsDeref, ptsFind, mbind, M_bind, bind, gets, modify,
    mret, M_ret, ret. by rewrite Hs.
Qed.

(** The loop over a points-to set: [Inv] holds at every cursor, and the
    cursor moves up. *)
Lemma returns_forPts node end_ body
    (Inv : N → bool → State → Prop) (Post : bool → State → Prop) :
  (∀ idx c st, idx < end_ → Inv idx c st →
     returns (body idx c) st (λ r st',
       match r with
       | (Break, c') => Post c' st'
       | (Next idx', c') =>
           ∃ s, funcPtsGraph st' !! node = Some s ∧
                idx < find_next s idx' ∧ Inv (find_next s idx') c' st'
       end)) →
  (∀ idx c st, end_ ≤ idx → Inv idx c st → Post c st) →
  ∀ fuel idx c st,
    (N.to_nat end_ - N.to_nat idx ≤ fuel)%nat → Inv idx c st →
    returns (forPts fuel node end_ body idx c) st Post.
Proof.
  intros Hbody Hexit. induction fuel as [|fuel IH]; intros idx c st Hf HI;
    simpl; destruct (idx <? end_) eqn:Hlt;
    try (apply N.ltb_ge in Hlt; apply returns_ret; by eapply Hexit).
  - apply N.ltb_lt in Hlt. lia.
  - apply N.ltb_lt in Hlt. apply returns_bind.
    eapply returns_mono; [by apply Hbody|].
    intros [[|idx'] c'] st'; simpl; [by apply returns_ret|].
    intros (s & Hs & Hprog & HI'). apply returns_bind.
    eapply returns_ptsDeref; [exact Hs|]. apply IH; [lia|done].
Qed.

(** A loop whose body keeps its cursor, over a set that can only grow
    meanwhile: every element the set held at the start is visited.  [J]
    holds throughout; [P x] records that [x] was visited and stays true. *)
Lemma returns_forEachPts_covers node body s0
    (J : State → Prop) (P : N → State → Prop) c st :
  funcPtsGraph st !! node = Some s0 → J st →
  (∀ idx c st,
     J st → s0 ⊆ pts (funcPtsGraph st) node →
     is_Some (funcPtsGraph st !! node) → idx ∈ pts (funcPtsGraph st) node →
     returns (body idx c) st (λ r st',
       (fst r = Next idx ∨
        fst r = Break ∧ ∀ x, x ∈ s0 → x ≤ idx) ∧
       J st' ∧
       pts (funcPtsGraph st) node ⊆ pts (funcPtsGraph st') node ∧
       is_Some (funcPtsGraph st' !! node) ∧
       (∀ x, P x st → P x st') ∧ P idx st')) →
  returns (forEachPts node body c) st (λ _ st', J st' ∧ ∀ x, x ∈ s0 → P x st').
Proof.
  intros Hs HJ Hbody. unfold forEachPts. apply returns_bind.
  eapply returns_ptsDeref; [exact Hs|].
  set (Inv := λ (idx : N) (_ : bool) (st : State),
         J st ∧ is_Some (funcPtsGraph st !! node) ∧
         s0 ⊆ pts (funcPtsGraph st) node ∧
         (idx ∈ pts (funcPtsGraph st) node ∨ getSize s0 ≤ idx) ∧
         ∀ x, x ∈ s0 → x < idx → P x st).
  apply (returns_forPts node (getSize s0) body Inv).
  - intros idx c0 st0 Hlt (HJ0 & Hk0 & Hsub0 & [Hin|?] & HP0); [|lia].
    eapply returns_mono; [by apply Hbody|].
    intros [ctl c'] st' (Hctl & HJ' & Hgrow & Hk' & Hkeep & HPidx). simpl in Hctl.
    assert (∀ x, x ∈ s0 → x ≤ idx → P x st') as Hbelow.
    { intros x Hx Hle. destruct (decide (x = idx)) as [->|Hne]; [done|].
      apply Hkeep, HP0; [done|lia]. }
    destruct Hctl as [->|[-> Hlast]]; [|split; auto].
    destruct Hk' as [s Hs']. exists s. split; [done|].
    assert (pts (funcPtsGraph st') node = s) as Hpts.
    { unfold pts. by rewrite Hs'. }
    assert (idx ∈ s) as Hidx by (rewrite <- Hpts; by apply Hgrow).
    assert (s0 ⊆ s) as Hsub' by (rewrite <- Hpts; set_solver).
    destruct (find_next_spec s idx) as [(Hr & Hgt & Hmin)|[Hall ->]].
    + split; [done|]. split; [done|]. split; [by eauto|].
      split; [by rewrite Hpts|]. split; [left; by rewrite Hpts|].
      intros x Hx Hltx. apply Hbelow; [done|].
      destruct (decide (x ≤ idx)) as [|Hn]; [done|].
      specialize (Hmin x (Hsub' x Hx)). lia.
    + pose proof (getSize_above s idx Hidx).
      split; [done|]. split; [done|]. split; [by eauto|].
      split; [by rewrite Hpts|]. split; [right; by apply getSize_mono|].
      intros x Hx _. apply Hbelow; [done|]. apply Hall. by apply Hsub'.
  - intros idx c0 st0 Hge (HJ0 & _ & _ & _ & HP0). split; [done|].
    intros x Hx. apply HP0; [done|]. pose proof (getSize_above s0 x Hx). lia.
  - lia.
  - assert (pts (funcPtsGraph st) node = s0) as Hpts.
    { unfold pts. by rewrite Hs. }
    split; [done|]. split; [by eauto|]. split; [by rewrite Hpts|]. split.
    + destruct (find_first_spec s0) as [[Hin _]|[_ ->]];
        [left; by rewrite Hpts|right; lia].
    + intros x Hx Hlt. destruct (find_first_spec s0) as [[_ Hmin]|[-> _]].
      * specialize (Hmin x Hx). lia.
      * by apply elem_of_empty in Hx.
Qed.

End Returns.


(** * What the transfer functions write *)

Section GraphOnly.

Context {NF : Type} `{AndersNodeFactory NF}.
Local Abbreviation State := (State (NF:=NF)).
Local Abbreviation M := (M (NF:=NF)).

(** [st'] is [st] with another points-to graph. *)
Definition graphOnly (st st' : State) : Prop :=
  st' = upd_funcPtsGraph (λ _, funcPtsGraph st') st.

Lemma graphOnly_refl st : graphOnly st st.
Proof. by destruct st. Qed.

Lemma graphOnly_step st st' f :
  graphOnly st st' → graphOnly st (upd_funcPtsGraph f st').
Proof. unfold graphOnly. intros ->. by destruct st. Qed.

Lemma graphOnly_nodeFactory st st' :
  graphOnly st st' → nodeFactory st' = nodeFactory st.
Proof. by intros ->. Qed.

Lemma graphOnly_typeShortcutsObj st st' :
  graphOnly st st' → typeShortcutsObj st' = typeShortcutsObj st.
Proof. by intros ->. Qed.

Lemma pts_lookup g n s : g !! n = Some s → pts g n = s.
Proof. unfold pts. by intros ->. Qed.

(** ** Store *)

Section Store.
Variables (st : State) (valNode ptrNode : N) (sv sp : gset N).
Hypothesis Hval : funcPtsGraph st !! valNode = Some sv.
Hypothesis Hptr : funcPtsGraph st !! ptrNode = Some sp.

Let J (st1 : State) : Prop :=
  graphOnly st st1 ∧ funcPtsGraph st1 !! valNode = Some sv ∧
  (∀ n, isSpecialNode (nodeFactory st) n = true →
        pts (funcPtsGraph st1) n = pts (funcPtsGraph st) n) ∧
  (∀ n, pts (funcPtsGraph st1) n = pts (funcPtsGraph st) n ∨
        pts (funcPtsGraph st1) n = pts (funcPtsGraph st) n ∪ sv).
Let P (o : N) (st1 : State) : Prop :=
  isSpecialNode (nodeFactory st) o = false →
  pts (funcPtsGraph st1) o = pts (funcPtsGraph st) o ∪ sv.

Lemma storeBody_step idx c st1 :
  J st1 → is_Some (funcPtsGraph st1 !! ptrNode) →
  returns (storeBody valNode idx c) st1 (λ r st2,
    (fst r = Next idx ∨ fst r = Break ∧ ∀ x, x ∈ sp → x ≤ idx) ∧
    J st2 ∧
    pts (funcPtsGraph st1) ptrNode ⊆ pts (funcPtsGraph st2) ptrNode ∧
    is_Some (funcPtsGraph st2 !! ptrNode) ∧
    (∀ x, P x st1 → P x st2) ∧ P idx st2).
Proof.
  intros (Hg & Hv & Hspecial & Hany) Hk. unfold storeBody.
  apply returns_bind, returns_gets.
  rewrite (graphOnly_nodeFactory _ _ Hg).
  destruct (isSpecialNode (nodeFactory st) idx) eqn:Hsp.
  - apply returns_ret. simpl. split; [by left|]. split; [done|].
    split; [done|]. split; [done|]. split; [done|].
    unfold P. congruence.
  - apply returns_bind. eapply returns_ptsCopy; [exact Hv|].
    apply returns_ret. unfold J, P. simpl. split; [by left|].
    assert (pts (funcPtsGraph st1) idx ∪ sv = pts (funcPtsGraph st) idx ∪ sv)
      as Hidx.
    { destruct (Hany idx) as [->| ->]; set_solver. }
    split; [|split; [|split; [|split]]].
    + split; [by apply graphOnly_step|]. split; [|split].
      * destruct (decide (idx = valNode)) as [->|Hne].
        -- rewrite lookup_insert_eq. f_equal.
           rewrite (pts_lookup _ _ _ Hv). set_solver.
        -- by rewrite lookup_insert_ne.
      * intros n Hn. rewrite pts_insert. case_decide; [congruence|].
        by apply Hspecial.
      * intros n. rewrite pts_insert. case_decide as Hd; [|apply Hany].
        subst n. right. rewrite <- Hidx. set_solver.
    + intros x. rewrite pts_insert. case_decide; [|done]. subst. set_solver.
    + destruct (decide (idx = ptrNode)) as [->|Hne].
      * rewrite lookup_insert_eq. by eauto.
      * by rewrite lookup_insert_ne.
    + intros x HP Hx. simpl. rewrite pts_insert. case_decide; [|by apply HP].
      subst x. rewrite <- Hidx. set_solver.
    + intros _. simpl. rewrite pts_insert. case_decide; [|done].
      rewrite <- Hidx. set_solver.
Qed.

Lemma forEachPts_storeBody c :
  returns (forEachPts ptrNode (storeBody valNode) c) st (λ _ st',
    J st' ∧ ∀ o, o ∈ sp → P o st').
Proof.
  apply (returns_forEachPts_covers ptrNode _ sp J P); [done| |].
  - split; [apply graphOnly_refl|]. split; [done|]. split; [done|].
    intros n. by left.
  - intros idx c0 st1 HJ _ Hk _. by apply storeBody_step.
Qed.

End Store.

(** X9: a store of a pointer-typed value, the sets of the value and of
    the pointer being in the graph, completes and changes the graph
    alone.  Every object the pointer pointed to that is not a special
    node gains the value's set; no special node changes; and whatever
    changes gains exactly the value's set. *)
Theorem runStore_writes_every_pointee (val ptr : Value) (c : bool)
    (st : State) (sv sp : gset N) :
  isPointerTy (vty val) = true →
  funcPtsGraph st !! getValueNodeFor (nodeFactory st) (vid val) = Some sv →
  funcPtsGraph st !! getValueNodeFor (nodeFactory st) (vid ptr) = Some sp →
  ∃ c' st',
    runStore val ptr c st = (Done c', st') ∧
    st' = upd_funcPtsGraph (λ _, funcPtsGraph st') st ∧
    (∀ o, o ∈ sp → isSpecialNode (nodeFactory st) o = false →
          pts (funcPtsGraph st') o = pts (funcPtsGraph st) o ∪ sv) ∧
    (∀ n, isSpecialNode (nodeFactory st) n = true →
          pts (funcPtsGraph st') n = pts (funcPtsGraph st) n) ∧
    (∀ n, pts (funcPtsGraph st') n = pts (funcPtsGraph st) n ∨
          pts (funcPtsGraph st') n = pts (funcPtsGraph st) n ∪ sv).
Proof.
  intros Hty Hv Hp.
  destruct (forEachPts_storeBody st _ _ sv sp Hv Hp c)
    as (c' & st' & Hrun & (Hg & _ & Hspecial & Hany) & Hcover).
  exists c', st'. split; [|by repeat split; auto].
  unfold runStore. rewrite Hty. simpl.
  unfold mbind, M_bind, bind, gets, ptsFind. simpl. by rewrite Hv, Hp.
Qed.

End GraphOnly.

(** Witness for X9: [store %v, %p] in [MemExample]. *)
Lemma runStore_writes_every_pointee_witness :
  ∃ c' st',
    runStore MemExample.v MemExample.p false MemExample.before = (Done c', st') ∧
    st' = upd_funcPtsGraph (λ _, funcPtsGraph st') MemExample.before ∧
    (∀ o, o ∈ ({[1; 4]} : gset N) →
          isSpecialNode (nodeFactory MemExample.before) o = false →
          pts (funcPtsGraph st') o
            = pts (funcPtsGraph MemExample.before) o ∪ {[5]}) ∧
    (∀ n, isSpecialNode (nodeFactory MemExample.before) n = true →
          pts (funcPtsGraph st') n = pts (funcPtsGraph MemExample.before) n) ∧
    (∀ n, pts (funcPtsGraph st') n = pts (funcPtsGraph MemExample.before) n ∨
          pts (funcPtsGraph st') n
            = pts (funcPtsGraph MemExample.before) n ∪ {[5]}).
Proof.
  apply (runStore_writes_every_pointee MemExample.v MemExample.p false
           MemExample.before {[5]} {[1; 4]}).
  - reflexivity.
  - vm_compute. reflexivity.
  - vm_compute. reflexivity.
Defined.

(** In the example the store makes object 4 point to [cb]. *)
Example store_example :
  fst (runOnInstruction 14 Examples.noStructInfo Examples.noGEPOffset
         Examples.fieldZero (SpecFactory.extendObjectSize Examples.sizeOne)
         Examples.f_main MemExample.store false MemExample.before) = Done true ∧
  pts (funcPtsGraph (snd (runStore MemExample.v MemExample.p false
                            MemExample.before))) 4 = {[5]} ∧
  pts (funcPtsGraph (snd (runStore MemExample.v MemExample.p false
                            MemExample.before))) 1 = ∅.
Proof. repeat split; vm_compute; reflexivity. Qed.

(** ** Bitcast, phi and select *)

(** The operands whose sets a bitcast, a phi or a select copies into the
    set of the instruction; a select's first operand is its condition. *)
Definition copiedOperands (I : Instruction) : option (list Value) :=
  match ikind I with
  | BitCast src => Some [src]
  | PHI incoming => Some incoming
  | Select operands => Some (tail operands)
  | _ => None
  end.

Lemma difference_empty_union (s old : gset N) : s ∖ old = ∅ ↔ s ∪ old = old.
Proof.
  split; intros Heq; apply set_eq; intros x.
  - rewrite elem_of_union. split; [intros [Hx|?]; [|done]|by right].
    destruct (decide (x ∈ old)) as [|Hn]; [done|].
    assert (x ∈ s ∖ old) as Hd by (by apply elem_of_difference).
    rewrite Heq in Hd. by apply elem_of_empty in Hd.
  - split; [|by intros ?%elem_of_empty].
    intros [Hx Hn]%elem_of_difference. exfalso. apply Hn.
    rewrite <- Heq. apply elem_of_union. by left.
Qed.

Lemma size_difference_pos (s old : gset N) :
  (0 <? N.of_nat (size (s ∖ old))) = bool_decide (s ∪ old ≠ old).
Proof.
  destruct (decide (s ∖ old = ∅)) as [He|Hne].
  - rewrite He, size_empty. simpl. symmetry. apply bool_decide_eq_false_2.
    intros Hn. apply Hn. by apply difference_empty_union.
  - assert (size (s ∖ old) ≠ 0%nat) as Hsz.
    { intros Hz. apply size_empty_inv in Hz. apply Hne. by apply leibniz_equiv. }
    transitivity true; [apply N.ltb_lt; lia|].
    symmetry. apply bool_decide_eq_true_2. intros Heq. apply Hne.
    by apply difference_empty_union.
Qed.

Lemma grow_flags (D1 D2 D3 : gset N) :
  D1 ⊆ D2 → D2 ⊆ D3 →
  bool_decide (D2 ≠ D1) || bool_decide (D3 ≠ D2) = bool_decide (D3 ≠ D1).
Proof.
  intros H12 H23. destruct (decide (D2 = D1)) as [->|Hne].
  - by rewrite (bool_decide_eq_false_2 (D1 ≠ D1)) by (by intros []).
  - rewrite (bool_decide_eq_true_2 (D2 ≠ D1)) by done. simpl. symmetry.
    apply bool_decide_eq_true_2. intros ->. apply Hne.
    by apply (anti_symm (⊆)).
Qed.

Section Copy.

Context {NF : Type} `{AndersNodeFactory NF}.
Local Abbreviation State := (State (NF:=NF)).
Local Abbreviation M := (M (NF:=NF)).

Variables (st : State) (dst : N).

Let nodeOf (src : Value) : N := getValueNodeFor (nodeFactory st) (vid src).

Lemma copyFromAll_returns why srcs : ∀ c st1,
  (∀ src, src ∈ srcs → nodeOf src ≠ InvalidIndex) →
  graphOnly st st1 →
  (∀ n, n ≠ dst → pts (funcPtsGraph st1) n = pts (funcPtsGraph st) n) →
  pts (funcPtsGraph st) dst ⊆ pts (funcPtsGraph st1) dst →
  returns (copyFromAll why dst srcs c) st1 (λ c' st',
    graphOnly st st' ∧
    (∀ n, n ≠ dst → pts (funcPtsGraph st') n = pts (funcPtsGraph st) n) ∧
    pts (funcPtsGraph st') dst =
      pts (funcPtsGraph st1) dst
      ∪ ⋃ (map (λ src, pts (funcPtsGraph st) (nodeOf src)) srcs) ∧
    c' = c || bool_decide (pts (funcPtsGraph st') dst
                           ≠ pts (funcPtsGraph st1) dst)).
Proof.
  induction srcs as [|src srcs IH]; intros c st1 Hvalid Hg Hother Hsub; simpl.
  - apply returns_ret. split; [done|]. split; [done|]. split; [set_solver|].
    rewrite bool_decide_eq_false_2 by (by intros []). by rewrite orb_false_r.
  - apply returns_bind. unfold copyFrom.
    apply returns_bind, returns_gets. rewrite (graphOnly_nodeFactory _ _ Hg).
    fold (nodeOf src).
    apply returns_bind, returns_assert;
      [apply negb_true_iff, N.eqb_neq, Hvalid; by left|].
    apply returns_bind, returns_gets.
    assert (pts (funcPtsGraph st1) (nodeOf src) ∪ pts (funcPtsGraph st1) dst
            = pts (funcPtsGraph st1) dst
              ∪ pts (funcPtsGraph st) (nodeOf src)) as Hnew.
    { destruct (decide (nodeOf src = dst)) as [->|Hne]; [set_solver|].
      rewrite (Hother _ Hne). set_solver. }
    assert (∀ (c1 : bool) (st2 : State),
              graphOnly st st2 →
              (∀ n, n ≠ dst →
                    pts (funcPtsGraph st2) n = pts (funcPtsGraph st) n) →
              pts (funcPtsGraph st2) dst =
                pts (funcPtsGraph st1) dst
                ∪ pts (funcPtsGraph st) (nodeOf src) →
              c1 = c || bool_decide (pts (funcPtsGraph st2) dst
                                     ≠ pts (funcPtsGraph st1) dst) →
              returns (copyFromAll why dst srcs c1) st2 (λ c' st',
                graphOnly st st' ∧
                (∀ n, n ≠ dst →
                      pts (funcPtsGraph st') n = pts (funcPtsGraph st) n) ∧
                pts (funcPtsGraph st') dst =
                  pts (funcPtsGraph st1) dst
                  ∪ (pts (funcPtsGraph st) (nodeOf src)
                     ∪ ⋃ (map (λ src, pts (funcPtsGraph st) (nodeOf src))
                              srcs)) ∧
                c' = c || bool_decide (pts (funcPtsGraph st') dst
                                       ≠ pts (funcPtsGraph st1) dst)))
      as Hrest.
    { intros c1 st2 Hg2 Hother2 Hdst2 Hc1.
      eapply returns_mono;
        [apply IH; [intros; apply Hvalid; by right|done|done|set_solver]|].
      intros c' st' (Hg' & Hother' & Hdst' & Hc').
      split; [done|]. split; [done|]. split; [rewrite Hdst', Hdst2; set_solver|].
      rewrite Hc', Hc1, <- orb_assoc. f_equal.
      apply grow_flags; [rewrite Hdst2|rewrite Hdst']; apply union_subseteq_l. }
    destruct (funcPtsGraph st1 !! nodeOf src) as [s|] eqn:Hs.
    + apply returns_bind. eapply returns_ptsCopy; [exact Hs|].
      apply returns_ret. simpl.
      assert (pts (funcPtsGraph st1) (nodeOf src) = s) as Hps
        by (by apply pts_lookup).
      apply Hrest.
      * by apply graphOnly_step.
      * intros n Hn. simpl. rewrite pts_insert. case_decide; [congruence|].
        by apply Hother.
      * simpl. rewrite pts_insert. case_decide; [|done]. by rewrite <- Hps, Hnew.
      * simpl. rewrite size_difference_pos, pts_insert. case_decide; [|done].
        done.
    + apply returns_ret. apply Hrest; [done|done| |].
      * rewrite <- Hnew. unfold pts at 2. rewrite Hs. simpl. set_solver.
      * rewrite bool_decide_eq_false_2 by (by intros []). by rewrite orb_false_r.
Qed.

End Copy.

Section CopyInstruction.

Context {NF : Type} `{AndersNodeFactory NF}.
Variable LLVM_VERSION_MAJOR : N.
Variable getStructInfo : Ty → N → option StructInfo.
Variable getGEPOffset : Instruction → N → Z.
Variable offsetToFieldNum : Ty → Z → N → N.
Variable extendObjectSize : NF → N → Ty → N → NF * N.
Local Abbreviation State := (State (NF:=NF)).

(** X10: a bitcast, a phi or a select all of whose copied operands have
    a value node completes and changes the graph alone, and in it the set
    of the instruction alone, which becomes its union with the sets the
    copied operands had (the condition of a select is not copied).  The
    flag is raised exactly when that set grew. *)
Theorem copy_instructions_take_the_union (F : Function) (I : Instruction)
    (srcs : list Value) (c : bool) (st : State) :
  copiedOperands I = Some srcs →
  (∀ src, src ∈ srcs →
          getValueNodeFor (nodeFactory st) (vid src) ≠ InvalidIndex) →
  ∃ c' st',
    runOnInstruction LLVM_VERSION_MAJOR getStructInfo getGEPOffset
      offsetToFieldNum extendObjectSize F I c st = (Done c', st') ∧
    st' = upd_funcPtsGraph (λ _, funcPtsGraph st') st ∧
    (∀ n, n ≠ getValueNodeFor (nodeFactory st) (iid I) →
          pts (funcPtsGraph st') n = pts (funcPtsGraph st) n) ∧
    pts (funcPtsGraph st') (getValueNodeFor (nodeFactory st) (iid I)) =
      pts (funcPtsGraph st) (getValueNodeFor (nodeFactory st) (iid I))
      ∪ ⋃ (map (λ src, pts (funcPtsGraph st)
                           (getValueNodeFor (nodeFactory st) (vid src)))
               srcs) ∧
    c' = c || bool_decide
                (pts (funcPtsGraph st')
                     (getValueNodeFor (nodeFactory st) (iid I))
                 ≠ pts (funcPtsGraph st)
                       (getValueNodeFor (nodeFactory st) (iid I))).
Proof.
  intros HI Hvalid.
  assert (∀ why,
            returns (copyFromAll why (getValueNodeFor (nodeFactory st) (iid I))
                                 srcs c) st (λ c' st',
              st' = upd_funcPtsGraph (λ _, funcPtsGraph st') st ∧
              (∀ n, n ≠ getValueNodeFor (nodeFactory st) (iid I) →
                    pts (funcPtsGraph st') n = pts (funcPtsGraph st) n) ∧
              pts (funcPtsGraph st') (getValueNodeFor (nodeFactory st) (iid I)) =
                pts (funcPtsGraph st) (getValueNodeFor (nodeFactory st) (iid I))
                ∪ ⋃ (map (λ src, pts (funcPtsGraph st)
                                     (getValueNodeFor (nodeFactory st) (vid src)))
                         srcs) ∧
              c' = c || bool_decide
                          (pts (funcPtsGraph st')
                               (getValueNodeFor (nodeFactory st) (iid I))
                           ≠ pts (funcPtsGraph st)
                                 (getValueNodeFor (nodeFactory st) (iid I)))))
    as Hcopy.
  { intros why.
    apply (copyFromAll_returns st _ why srcs c st Hvalid (graphOnly_refl st));
      done. }
  unfold copiedOperands in HI. unfold runOnInstruction.
  destruct (ikind I) as [| | | | | | |src|incoming|operands|]; try done;
    injection HI as <-.
  - destruct (Hcopy "Failed to find bitcast src node")
      as (c' & st' & Hrun & Hpost).
    exists c', st'. split; [|done]. simpl in Hrun.
    unfold mbind, M_bind, bind, gets in *.
    by destruct (copyFrom _ _ _ _ _) as [[| |] ?].
  - destruct (Hcopy "Failed to find phi src node") as (c' & st' & Hrun & Hpost).
    by exists c', st'.
  - destruct (Hcopy "Failed to find select src node")
      as (c' & st' & Hrun & Hpost).
    by exists c', st'.
Qed.

End CopyInstruction.

(** Witness for X10: [%302 = phi [%v], [%p]] in [MemExample]. *)
Lemma copy_instructions_take_the_union_witness :
  ∃ c' st',
    runOnInstruction 14 Examples.noStructInfo Examples.noGEPOffset
      Examples.fieldZero (SpecFactory.extendObjectSize Examples.sizeOne)
      Examples.f_main MemExample.phi false MemExample.before = (Done c', st') ∧
    st' = upd_funcPtsGraph (λ _, funcPtsGraph st') MemExample.before ∧
    (∀ n, n ≠ getValueNodeFor (nodeFactory MemExample.before)
                              (iid MemExample.phi) →
          pts (funcPtsGraph st') n = pts (funcPtsGraph MemExample.before) n) ∧
    pts (funcPtsGraph st')
        (getValueNodeFor (nodeFactory MemExample.before) (iid MemExample.phi)) =
      pts (funcPtsGraph MemExample.before)
          (getValueNodeFor (nodeFactory MemExample.before) (iid MemExample.phi))
      ∪ ⋃ (map (λ src, pts (funcPtsGraph MemExample.before)
                           (getValueNodeFor (nodeFactory MemExample.before)
                                            (vid src)))
               [MemExample.v; MemExample.p]) ∧
    c' = false || bool_decide
                    (pts (funcPtsGraph st')
                         (getValueNodeFor (nodeFactory MemExample.before)
                                          (iid MemExample.phi))
                     ≠ pts (funcPtsGraph MemExample.before)
                           (getValueNodeFor (nodeFactory MemExample.before)
                                            (iid MemExample.phi))).
Proof.
  apply (copy_instructions_take_the_union 14 Examples.noStructInfo
           Examples.noGEPOffset Examples.fieldZero
           (SpecFactory.extendObjectSize Examples.sizeOne)
           Examples.f_main MemExample.phi [MemExample.v; MemExample.p] false
           MemExample.before).
  - reflexivity.
  - intros src [->|[->|[]%elem_of_nil]%elem_of_cons]%elem_of_cons;
      vm_compute; discriminate.
Defined.

(** In the example the phi gathers [cb], the null object and object 4. *)
Example phi_example :
  runOnInstruction 14 Examples.noStructInfo Examples.noGEPOffset
    Examples.fieldZero (SpecFactory.extendObjectSize Examples.sizeOne)
    Examples.f_main MemExample.phi false MemExample.before
  = (Done true,
     upd_funcPtsGraph (λ g, <[6 := {[1; 4; 5]}]> g) MemExample.before).
Proof. vm_compute. reflexivity. Qed.


(** * What a call binds *)

Section HandleCall.

Context {NF : Type} `{AndersNodeFactory NF}.
Local Abbreviation State := (State (NF:=NF)).
Local Abbreviation M := (M (NF:=NF)).

Variable st : State.

Let nodeOf (v : Value) : N := getValueNodeFor (nodeFactory st) (vid v).

(** The state [st1] was reached from [st] by binding calls: the graph
    alone changed, it grew, only nodes of [targets] outside the shortcut
    targets changed, and what they gained is in [U]. *)
Definition boundFrom (targets : N → Prop) (U : gset N) (st1 : State) : Prop :=
  graphOnly st st1 ∧
  (∀ n, pts (funcPtsGraph st) n ⊆ pts (funcPtsGraph st1) n) ∧
  (∀ n, pts (funcPtsGraph st1) n ⊆ pts (funcPtsGraph st) n ∪ U) ∧
  (∀ n, ¬ targets n → pts (funcPtsGraph st1) n = pts (funcPtsGraph st) n).

Lemma boundFrom_refl targets U : boundFrom targets U st.
Proof.
  split; [apply graphOnly_refl|]. split; [done|]. split; [set_solver|done].
Qed.

Lemma bindArgs_returns (targets : N → Prop) (U : gset N) actuals :
  ∀ formals c st1,
    length actuals = length formals →
    (∀ arg, arg ∈ actuals → nodeOf arg ≠ InvalidIndex) →
    (∀ farg, farg ∈ formals → nodeOf farg ≠ InvalidIndex) →
    (∀ arg, arg ∈ actuals → pts (funcPtsGraph st) (nodeOf arg) ⊆ U) →
    (∀ farg, farg ∈ formals → nodeOf farg ∉ typeShortcutsObj st →
             targets (nodeOf farg)) →
    boundFrom targets U st1 →
    returns (bindArgs actuals formals c) st1 (λ _ st',
      boundFrom targets U st' ∧
      (∀ n, pts (funcPtsGraph st1) n ⊆ pts (funcPtsGraph st') n) ∧
      ∀ (i : nat) arg farg,
        actuals !! i = Some arg → formals !! i = Some farg →
        nodeOf farg ∉ typeShortcutsObj st →
        pts (funcPtsGraph st1) (nodeOf arg)
          ⊆ pts (funcPtsGraph st') (nodeOf farg)).
Proof.
  induction actuals as [|arg actuals IH];
    intros [|farg formals] c st1 Hlen Hva Hvf HU Htg Hb; simpl in *; try done.
  - apply returns_ret. split; [done|]. split; [done|]. by intros [|i].
  - destruct Hb as (Hg & Hle & Hup & Hfr).
    assert (∀ (c1 : bool) (st2 : State),
              boundFrom targets U st2 →
              (∀ n, pts (funcPtsGraph st1) n ⊆ pts (funcPtsGraph st2) n) →
              (nodeOf farg ∉ typeShortcutsObj st →
               pts (funcPtsGraph st1) (nodeOf arg)
                 ⊆ pts (funcPtsGraph st2) (nodeOf farg)) →
              returns (bindArgs actuals formals c1) st2 (λ _ st',
                boundFrom targets U st' ∧
                (∀ n, pts (funcPtsGraph st1) n ⊆ pts (funcPtsGraph st') n) ∧
                ∀ (i : nat) arg0 farg0,
                  (arg :: actuals) !! i = Some arg0 →
                  (farg :: formals) !! i = Some farg0 →
                  nodeOf farg0 ∉ typeShortcutsObj st →
                  pts (funcPtsGraph st1) (nodeOf arg0)
                    ⊆ pts (funcPtsGraph st') (nodeOf farg0))) as Hrest.
    { intros c1 st2 Hb2 Hle2 Hhead.
      eapply returns_mono.
      - apply IH; try done.
        + by injection Hlen.
        + intros; apply Hva; by right.
        + intros; apply Hvf; by right.
        + intros; apply HU; by right.
        + intros; apply Htg; [by right|done].
      - intros _ st' (Hb' & Hle' & Hpos). split; [done|].
        split; [intros n; etrans; [apply Hle2|apply Hle']|].
        intros [|i] arg0 farg0; simpl.
        + intros [= <-] [= <-] Hns. etrans; [by apply Hhead|apply Hle'].
        + intros Ha Hf Hns. etrans; [apply Hle2|]. by eapply Hpos. }
    apply returns_bind, returns_gets. rewrite (graphOnly_nodeFactory _ _ Hg).
    fold (nodeOf arg). fold (nodeOf farg).
    apply returns_bind, returns_assert;
      [apply negb_true_iff, N.eqb_neq, Hva; by left|].
    apply returns_bind, returns_gets.
    destruct (funcPtsGraph st1 !! nodeOf arg) as [s|] eqn:Hs.
    + apply returns_bind, returns_assert;
        [apply negb_true_iff, N.eqb_neq, Hvf; by left|].
      apply returns_bind, returns_gets.
      rewrite (graphOnly_typeShortcutsObj _ _ Hg).
      destruct (decide (nodeOf farg ∈ typeShortcutsObj st)) as [Hin|Hnin].
      * rewrite bool_decide_eq_true_2 by done.
        apply Hrest; [by repeat split|done|done].
      * rewrite bool_decide_eq_false_2 by done.
        apply returns_bind. eapply returns_ptsCopy; [exact Hs|].
        assert (pts (funcPtsGraph st1) (nodeOf arg) = s) as Hps
          by (by apply pts_lookup).
        apply Hrest.
        -- split; [by apply graphOnly_step|]. simpl.
           split; [|split]; intros n; rewrite pts_insert; case_decide;
             try subst n.
           ++ specialize (Hle (nodeOf farg)). set_solver.
           ++ apply Hle.
           ++ pose proof (Hup (nodeOf farg)) as Hf1.
              pose proof (Hup (nodeOf arg)) as Ha1.
              pose proof (HU arg (list_elem_of_here _ _)) as HU1.
              rewrite Hps in Ha1. set_solver.
           ++ apply Hup.
           ++ intros Hnt. exfalso. apply Hnt, Htg; [by left|done].
           ++ apply Hfr.
        -- intros n. simpl. rewrite pts_insert. case_decide; [|done].
           subst n. set_solver.
        -- intros _. simpl. rewrite pts_insert. case_decide; [|done].
           rewrite Hps. set_solver.
    + apply Hrest; [by repeat split|done|].
      intros _. unfold pts at 1. rewrite Hs. simpl. set_solver.
Qed.


(** The loop of the return binding, for a callee that is not taken for
    an allocator. *)
Lemma bindReturn_returns (targets : N → Prop) (U : gset N) CS CF
    retNode callNode sR c st1 :
  nameContainsAlloc CF = false →
  funcPtsGraph st1 !! retNode = Some sR →
  pts (funcPtsGraph st) retNode ⊆ U →
  targets callNode →
  boundFrom targets U st1 →
  returns (forEachPts retNode (bindReturn CS CF callNode) c) st1 (λ _ st',
    boundFrom targets U st' ∧
    (∀ n, pts (funcPtsGraph st1) n ⊆ pts (funcPtsGraph st') n) ∧
    sR ⊆ pts (funcPtsGraph st') callNode).
Proof.
  intros Hname HsR HU Htg Hb.
  eapply returns_mono.
  - apply (returns_forEachPts_covers retNode _ sR
             (λ st2, boundFrom targets U st2 ∧
                     ∀ n, pts (funcPtsGraph st1) n ⊆ pts (funcPtsGraph st2) n)
             (λ x st2, x ∈ pts (funcPtsGraph st2) callNode)); [done|done|].
    intros idx c0 st2 [(Hg & Hle & Hup & Hfr) Hmono] _ Hk Hidx.
    unfold bindReturn.
    apply returns_bind, returns_gets. rewrite Hname, andb_false_r.
    apply returns_bind, returns_ret. apply returns_bind, returns_ptsInsert.
    apply returns_ret. simpl. split; [by left|].
    split; [|split; [|split; [|split]]].
    + split; [split; [by apply graphOnly_step|]|]; simpl.
      * split; [|split]; intros n; rewrite pts_insert; case_decide;
          try subst n.
        -- specialize (Hle callNode). set_solver.
        -- apply Hle.
        -- pose proof (Hup callNode). pose proof (Hup retNode). set_solver.
        -- apply Hup.
        -- by intros [].
        -- apply Hfr.
      * intros n. rewrite pts_insert. case_decide; [|done]. subst n.
        specialize (Hmono callNode). set_solver.
    + intros x. rewrite pts_insert. case_decide; [|done]. subst. set_solver.
    + destruct Hk as [s Hs]. destruct (decide (callNode = retNode)) as [->|Hne].
      * rewrite lookup_insert_eq. by eauto.
      * rewrite lookup_insert_ne by done. by eauto.
    + intros x Hx. rewrite pts_insert. case_decide; [|done]. set_solver.
    + rewrite pts_insert. case_decide; [|done]. set_solver.
  - intros _ st' [[Hb' Hmono] Hall]. split; [done|]. split; [done|].
    intros x Hx. by apply Hall.
Qed.

End HandleCall.

Lemma union_list_map_subseteq {A} (f : A → gset N) (l : list A) (a : A) :
  a ∈ l → f a ⊆ ⋃ (map f l).
Proof.
  intros Ha x Hx. apply elem_of_union_list. exists (f a). split; [|done].
  apply list_elem_of_fmap. by exists a.
Qed.

Section HandleCallTheorem.

Context {NF : Type} `{AndersNodeFactory NF}.
Local Abbreviation State := (State (NF:=NF)).

(** The nodes a call of [CF] at [CS] can change: the node of the call,
    and the formals that are no shortcut targets. *)
Definition callTargets (st : State) (CS : Instruction) (CF : Function)
    (n : N) : Prop :=
  (isVoidTy (fretTy CF) = false ∧
   n = getValueNodeFor (nodeFactory st) (iid CS)) ∨
  (fisVarArg CF = false ∧ (n ∉ typeShortcutsObj st) ∧
   (∃ farg, farg ∈ fargs CF ∧
            n = getValueNodeFor (nodeFactory st) (vid farg))).

(** What the call can add: the sets of the actuals and of the return
    node. *)
Definition callSources (st : State) (CS : Instruction) (CF : Function)
    : gset N :=
  ⋃ (map (λ arg, pts (funcPtsGraph st)
                     (getValueNodeFor (nodeFactory st) (vid arg)))
         (call_args CS))
  ∪ pts (funcPtsGraph st) (getReturnNodeFor (nodeFactory st) (fid CF)).

(** The formals of a callee that is not variadic hold the sets of their
    actuals. *)
Definition argsBound (st : State) (CS : Instruction) (CF : Function)
    (st' : State) : Prop :=
  fisVarArg CF = false →
  ∀ (i : nat) arg farg,
    call_args CS !! i = Some arg → fargs CF !! i = Some farg →
    getValueNodeFor (nodeFactory st) (vid farg) ∉ typeShortcutsObj st →
    pts (funcPtsGraph st) (getValueNodeFor (nodeFactory st) (vid arg))
      ⊆ pts (funcPtsGraph st')
            (getValueNodeFor (nodeFactory st) (vid farg)).

Lemma handleCall_bound (CS : Instruction) (CF : Function) (st : State) :
  fisIntrinsic CF = false → fempty CF = false →
  (if fisVarArg CF
   then getVarargNodeFor (nodeFactory st) (fid CF) ≠ InvalidIndex
   else length (call_args CS) = length (fargs CF) ∧
        ∀ v, v ∈ call_args CS ++ fargs CF →
             getValueNodeFor (nodeFactory st) (vid v) ≠ InvalidIndex) →
  (isVoidTy (fretTy CF) = false →
     nameContainsAlloc CF = false ∧
     getReturnNodeFor (nodeFactory st) (fid CF) ≠ InvalidIndex ∧
     getValueNodeFor (nodeFactory st) (iid CS) ≠ InvalidIndex) →
  returns (handleCall CS CF) st (λ _ st',
    boundFrom st (callTargets st CS CF) (callSources st CS CF) st' ∧
    argsBound st CS CF st' ∧
    (isVoidTy (fretTy CF) = false →
     pts (funcPtsGraph st) (getReturnNodeFor (nodeFactory st) (fid CF))
       ⊆ pts (funcPtsGraph st') (getValueNodeFor (nodeFactory st) (iid CS)))).
Proof.
  intros Hint Hbody Hargs_pre Hret.
  unfold callTargets, callSources, argsBound.
  set (nodeOf := λ v : Value, getValueNodeFor (nodeFactory st) (vid v)).
  set (retNode := getReturnNodeFor (nodeFactory st) (fid CF)).
  set (callNode := getValueNodeFor (nodeFactory st) (iid CS)).
  set (targets := λ n : N,
         (isVoidTy (fretTy CF) = false ∧ n = callNode) ∨
         (fisVarArg CF = false ∧ (n ∉ typeShortcutsObj st) ∧
          (∃ farg, farg ∈ fargs CF ∧ n = nodeOf farg))).
  set (U := ⋃ (map (λ arg, pts (funcPtsGraph st) (nodeOf arg)) (call_args CS))
            ∪ pts (funcPtsGraph st) retNode).
  set (args_ok := λ st' : State,
         fisVarArg CF = false →
         ∀ (i : nat) arg farg,
           call_args CS !! i = Some arg → fargs CF !! i = Some farg →
           nodeOf farg ∉ typeShortcutsObj st →
           pts (funcPtsGraph st) (nodeOf arg)
             ⊆ pts (funcPtsGraph st') (nodeOf farg)).
  unfold handleCall. rewrite Hint, Hbody.
    (* the return binding, from any state the argument binding left *)
    assert (∀ (c : bool) (st1 : State),
              boundFrom st targets U st1 → args_ok st1 →
              returns
                (if negb (isVoidTy (fretTy CF)) then
                   nf ← gets nodeFactory;
                   assert (notInvalid (getReturnNodeFor nf (fid CF)))
                          "Return node not found!";;
                   assert (notInvalid (getValueNodeFor nf (iid CS)))
                          "Call node not found!";;
                   itr ← ptsFind (getReturnNodeFor nf (fid CF));
                   match itr with
                   | Some _ =>
                       forEachPts (getReturnNodeFor nf (fid CF))
                         (bindReturn CS CF (getValueNodeFor nf (iid CS))) c
                   | None => mret c
                   end
                 else mret c) st1
                (λ _ st',
                   boundFrom st targets U st' ∧ args_ok st' ∧
                   (isVoidTy (fretTy CF) = false →
                    pts (funcPtsGraph st) retNode
                      ⊆ pts (funcPtsGraph st') callNode))) as Hreturn.
    { intros c st1 Hb Hargs.
      destruct (isVoidTy (fretTy CF)) eqn:Hvoid; simpl.
      - apply returns_ret. split; [done|]. split; [done|]. by intros ?.
      - destruct (Hret eq_refl) as (Hname & Hrn & Hcn).
        pose proof Hb as (Hg & Hle & Hup & Hfr).
        apply returns_bind, returns_gets.
        rewrite (graphOnly_nodeFactory _ _ Hg).
        fold retNode. fold callNode.
        apply returns_bind, returns_assert;
          [by apply negb_true_iff, N.eqb_neq|].
        apply returns_bind, returns_assert;
          [by apply negb_true_iff, N.eqb_neq|].
        apply returns_bind, returns_gets.
        destruct (funcPtsGraph st1 !! retNode) as [sR|] eqn:HsR.
        + eapply returns_mono.
          * apply (bindReturn_returns st targets U CS CF retNode callNode sR);
              try done.
            -- unfold U. set_solver.
            -- unfold targets. by left.
          * intros _ st' (Hb' & Hmono & Hcover). split; [done|]. split.
            -- intros Hn i arg farg Ha Hf Hns.
               etrans; [by eapply Hargs|apply Hmono].
            -- intros _. etrans; [apply Hle|].
               by rewrite (pts_lookup _ _ _ HsR).
        + apply returns_ret. split; [done|]. split; [done|]. intros _.
          etrans; [apply Hle|]. unfold pts at 1. rewrite HsR. set_solver. }
    destruct (fisVarArg CF) eqn:Hvar.
    - apply returns_bind. apply returns_bind, returns_gets.
      apply returns_bind, returns_assert;
        [by apply negb_true_iff, N.eqb_neq|].
      apply returns_ret. apply Hreturn; [apply boundFrom_refl|].
      by intros ?.
    - destruct Hargs_pre as [Hlen Hvalid].
      unfold arg_size. rewrite Hlen, N.eqb_refl. simpl.
      apply returns_bind. apply returns_bind.
      eapply returns_mono.
      + apply (bindArgs_returns st targets U (call_args CS) (fargs CF) false st);
          try done.
        * intros arg Ha. apply Hvalid, elem_of_app. by left.
        * intros farg Hf. apply Hvalid, elem_of_app. by right.
        * intros arg Ha. unfold U.
          etrans; [|apply union_subseteq_l].
          by apply (union_list_map_subseteq
                      (λ arg, pts (funcPtsGraph st) (nodeOf arg))).
        * intros farg Hf Hns. unfold targets. right.
          split; [done|]. split; [done|]. by exists farg.
        * apply boundFrom_refl.
      + intros c1 st1 (Hb1 & _ & Hpos). apply returns_ret.
        apply Hreturn; [done|]. intros _ i arg farg Ha Hf Hns.
        by eapply Hpos.
Qed.

(** X11: [handleCall] for a callee with a body that is no intrinsic,
    whose argument count is that of the call site unless it is variadic,
    and whose name does not hold "alloc" when it returns a value.  With
    the nodes it asserts in place, it completes and changes the graph
    alone.  For a callee that is not variadic, the set of every formal
    that is no shortcut target takes in the set its actual had; when the
    callee returns a value, the set of the call takes in the set the
    return node had.  Nothing but these formals and the call changes,
    sets only grow, and all that is added comes from the sets of the
    actuals and of the return node. *)
Theorem handleCall_binds_arguments_and_return (CS : Instruction)
    (CF : Function) (st : State) :
  fisIntrinsic CF = false → fempty CF = false →
  (if fisVarArg CF
   then getVarargNodeFor (nodeFactory st) (fid CF) ≠ InvalidIndex
   else length (call_args CS) = length (fargs CF) ∧
        ∀ v, v ∈ call_args CS ++ fargs CF →
             getValueNodeFor (nodeFactory st) (vid v) ≠ InvalidIndex) →
  (isVoidTy (fretTy CF) = false →
     nameContainsAlloc CF = false ∧
     getReturnNodeFor (nodeFactory st) (fid CF) ≠ InvalidIndex ∧
     getValueNodeFor (nodeFactory st) (iid CS) ≠ InvalidIndex) →
  ∃ c' st',
    handleCall CS CF st = (Done c', st') ∧
    st' = upd_funcPtsGraph (λ _, funcPtsGraph st') st ∧
    (fisVarArg CF = false →
     ∀ (i : nat) arg farg,
       call_args CS !! i = Some arg → fargs CF !! i = Some farg →
       getValueNodeFor (nodeFactory st) (vid farg) ∉ typeShortcutsObj st →
       pts (funcPtsGraph st) (getValueNodeFor (nodeFactory st) (vid arg))
         ⊆ pts (funcPtsGraph st')
               (getValueNodeFor (nodeFactory st) (vid farg))) ∧
    (isVoidTy (fretTy CF) = false →
     pts (funcPtsGraph st) (getReturnNodeFor (nodeFactory st) (fid CF))
       ⊆ pts (funcPtsGraph st') (getValueNodeFor (nodeFactory st) (iid CS))) ∧
    (∀ n, pts (funcPtsGraph st) n ⊆ pts (funcPtsGraph st') n) ∧
    (∀ n, pts (funcPtsGraph st') n ≠ pts (funcPtsGraph st) n →
          (isVoidTy (fretTy CF) = false ∧
           n = getValueNodeFor (nodeFactory st) (iid CS)) ∨
          (fisVarArg CF = false ∧ (n ∉ typeShortcutsObj st) ∧
           (∃ farg, farg ∈ fargs CF ∧
                    n = getValueNodeFor (nodeFactory st) (vid farg)))) ∧
    (∀ n, pts (funcPtsGraph st') n ⊆
          pts (funcPtsGraph st) n
          ∪ (⋃ (map (λ arg, pts (funcPtsGraph st)
                                (getValueNodeFor (nodeFactory st) (vid arg)))
                    (call_args CS))
             ∪ pts (funcPtsGraph st)
                   (getReturnNodeFor (nodeFactory st) (fid CF)))).
Proof.
  intros Hint Hbody Hargs_pre Hret.
  destruct (handleCall_bound CS CF st Hint Hbody Hargs_pre Hret)
    as (c' & st' & Hrun & (Hg & Hle & Hup & Hfr) & Hargs & Hr).
  unfold callTargets, callSources, argsBound in *.
  set (nodeOf := λ v : Value, getValueNodeFor (nodeFactory st) (vid v)) in *.
  set (retNode := getReturnNodeFor (nodeFactory st) (fid CF)) in *.
  set (callNode := getValueNodeFor (nodeFactory st) (iid CS)) in *.
  set (targets := λ n : N,
         (isVoidTy (fretTy CF) = false ∧ n = callNode) ∨
         (fisVarArg CF = false ∧ (n ∉ typeShortcutsObj st) ∧
          (∃ farg, farg ∈ fargs CF ∧ n = nodeOf farg))) in *.
  set (U := ⋃ (map (λ arg, pts (funcPtsGraph st) (nodeOf arg)) (call_args CS))
            ∪ pts (funcPtsGraph st) retNode) in *.
  set (args_ok := λ st' : State,
         fisVarArg CF = false →
         ∀ (i : nat) arg farg,
           call_args CS !! i = Some arg → fargs CF !! i = Some farg →
           nodeOf farg ∉ typeShortcutsObj st →
           pts (funcPtsGraph st) (nodeOf arg)
             ⊆ pts (funcPtsGraph st') (nodeOf farg)) in *.
  exists c', st'. split; [done|]. split; [done|]. split; [done|].
  split; [done|]. split; [done|]. split; [|done].
  intros n Hne. destruct (decide (isVoidTy (fretTy CF) = false ∧ n = callNode))
    as [?|Hn1]; [by left|].
  right.
  destruct (decide (fisVarArg CF = false)) as [Hv|Hv];
    [|exfalso; apply Hne, Hfr; intros [?|[? _]]; done].
  destruct (decide (n ∈ typeShortcutsObj st)) as [Hin|Hnin];
    [exfalso; apply Hne, Hfr; intros [?|(_ & ? & _)]; done|].
  split; [done|]. split; [done|].
  destruct (decide (Exists (λ farg, n = nodeOf farg) (fargs CF)))
    as [(farg & ? & ?)%Exists_exists|Hnex]; [by exists farg|].
  exfalso. apply Hne, Hfr. intros [?|(_ & _ & farg & ? & ?)]; [done|].
  apply Hnex, Exists_exists. by exists farg.
Qed.

End HandleCallTheorem.

(** Witness for X11: the call of [pick] in [CallExample]. *)
Lemma handleCall_binds_arguments_and_return_witness :
  ∃ c' st',
    handleCall CallExample.call CallExample.pick CallExample.before
      = (Done c', st') ∧
    pts (funcPtsGraph CallExample.before) 2 ⊆ pts (funcPtsGraph st') 3 ∧
    pts (funcPtsGraph CallExample.before) 4 ⊆ pts (funcPtsGraph st') 5.
Proof.
  destruct (handleCall_binds_arguments_and_return CallExample.call
              CallExample.pick CallExample.before)
    as (c' & st' & Hrun & _ & Hargs & Hret & _).
  - reflexivity.
  - reflexivity.
  - split; [reflexivity|].
    intros v [->|[->|[]%elem_of_nil]%elem_of_cons]%elem_of_cons;
      vm_compute; discriminate.
  - intros _. split; [reflexivity|]. split; vm_compute; discriminate.
  - exists c', st'. split; [exact Hrun|]. split.
    + apply (Hargs eq_refl 0%nat CallExample.v CallExample.x eq_refl eq_refl).
      vm_compute. intros Hin. discriminate Hin.
    + apply (Hret eq_refl).
Defined.

(** In the example the formal gains object 6 and the call object 7. *)
Example call_example :
  handleCall CallExample.call CallExample.pick CallExample.before
  = (Done true,
     upd_funcPtsGraph (λ g, <[5 := {[7]}]> (<[3 := {[6]}]> g))
                      CallExample.before).
Proof. vm_compute. reflexivity. Qed.


(** * What a load reads *)

Section Load.

Context {NF : Type} `{AndersNodeFactory NF}.
Variable getStructInfo : Ty → N → option StructInfo.
Local Abbreviation State := (State (NF:=NF)).
Local Abbreviation M := (M (NF:=NF)).

(** [st'] is [st] with another graph and other shortcut targets. *)
Definition graphAndTargetsOnly (st st' : State) : Prop :=
  st' = upd_funcPtsGraph (λ _, funcPtsGraph st')
          (upd_typeShortcutsObj (λ _, typeShortcutsObj st') st).

Lemma graphAndTargetsOnly_refl st : graphAndTargetsOnly st st.
Proof. by destruct st. Qed.

Lemma graphAndTargetsOnly_graph st st' f :
  graphAndTargetsOnly st st' →
  graphAndTargetsOnly st (upd_funcPtsGraph f st').
Proof. unfold graphAndTargetsOnly. intros ->. by destruct st. Qed.

Lemma graphAndTargetsOnly_targets st st' f :
  graphAndTargetsOnly st st' →
  graphAndTargetsOnly st (upd_typeShortcutsObj f st').
Proof. unfold graphAndTargetsOnly. intros ->. by destruct st. Qed.

Lemma graphAndTargetsOnly_nodeFactory st st' :
  graphAndTargetsOnly st st' → nodeFactory st' = nodeFactory st.
Proof. by intros ->. Qed.

Variables (st : State) (valNode : N).

(** Reached from [st] by a load into [valNode], through [from]. *)
Let J (from st1 : State) : Prop :=
  graphAndTargetsOnly st st1 ∧
  (∀ n, pts (funcPtsGraph from) n ⊆ pts (funcPtsGraph st1) n) ∧
  (∀ n, n ≠ valNode → pts (funcPtsGraph st1) n = pts (funcPtsGraph st) n) ∧
  typeShortcutsObj st1 = typeShortcutsObj from.

Lemma J_refl st1 :
  graphAndTargetsOnly st st1 →
  (∀ n, n ≠ valNode → pts (funcPtsGraph st1) n = pts (funcPtsGraph st) n) →
  J st1 st1.
Proof. by intros; repeat split. Qed.

Lemma J_insert from st1 x :
  J from st1 →
  J from (upd_funcPtsGraph (λ g, <[valNode := {[x]} ∪ pts g valNode]> g) st1).
Proof.
  intros (Hf & Hle & Hother & Ht).
  split; [by apply graphAndTargetsOnly_graph|].
  simpl. split; [|split; [|done]].
  - intros n. rewrite pts_insert. case_decide; [|by apply Hle].
    subst n. specialize (Hle valNode). set_solver.
  - intros n Hn. rewrite pts_insert. case_decide; [congruence|].
    by apply Hother.
Qed.

Lemma J_trans a b c : J a b → J b c → J a c.
Proof.
  intros (_ & Hab & _ & Ht1) (Hf & Hbc & Ho & Ht2). split; [done|].
  split; [|split; [done|congruence]].
  intros n. etrans; [apply Hab|apply Hbc].
Qed.

(** The inner loop copies the set of one object. *)
Lemma loadInner_returns idx s2 c st1 :
  funcPtsGraph st1 !! idx = Some s2 →
  graphAndTargetsOnly st st1 →
  (∀ n, n ≠ valNode → pts (funcPtsGraph st1) n = pts (funcPtsGraph st) n) →
  returns (forEachPts idx (loadInner valNode) c) st1 (λ _ st2,
    J st1 st2 ∧ s2 ⊆ pts (funcPtsGraph st2) valNode).
Proof.
  intros Hs2 Hf Hother.
  eapply returns_mono.
  - apply (returns_forEachPts_covers idx _ s2 (J st1)
             (λ x st2, x ∈ pts (funcPtsGraph st2) valNode));
      [done|by apply J_refl|].
    intros idx2 c0 st2 HJ _ Hk Hidx2. unfold loadInner.
    apply returns_bind, returns_ptsInsert. apply returns_ret. simpl.
    split; [by left|]. split; [by apply J_insert|].
    split; [|split; [|split]].
    + intros x. rewrite pts_insert. case_decide; [|done]. subst. set_solver.
    + destruct Hk as [s Hs]. destruct (decide (valNode = idx)) as [->|Hne].
      * rewrite lookup_insert_eq. by eauto.
      * rewrite lookup_insert_ne by done. by eauto.
    + intros x Hx. rewrite pts_insert. case_decide; [|done]. set_solver.
    + rewrite pts_insert. case_decide; [|done]. set_solver.
  - intros _ st2 [HJ Hall]. split; [done|]. intros x Hx. by apply Hall.
Qed.

(** The outer loop visits every object the pointer pointed to. *)
Lemma loadOuter_returns ptrNode sp c st1 :
  funcPtsGraph st1 !! ptrNode = Some sp →
  graphAndTargetsOnly st st1 →
  (∀ n, pts (funcPtsGraph st) n ⊆ pts (funcPtsGraph st1) n) →
  (∀ n, n ≠ valNode → pts (funcPtsGraph st1) n = pts (funcPtsGraph st) n) →
  returns (forEachPts ptrNode (loadOuter valNode ptrNode (getSize sp)) c) st1
    (λ _ st',
       J st1 st' ∧
       ∀ o, o ∈ sp → o ≠ getNullObjectNode (nodeFactory st) →
            pts (funcPtsGraph st) o ⊆ pts (funcPtsGraph st') valNode).
Proof.
  intros Hsp Hf Hle0 Hother.
  apply (returns_forEachPts_covers ptrNode _ sp (J st1)
           (λ o st2, o ≠ getNullObjectNode (nodeFactory st) →
                     pts (funcPtsGraph st) o
                       ⊆ pts (funcPtsGraph st2) valNode));
    [done|by apply J_refl|].
  intros idx c0 st2 HJ Hsub Hk Hidx. pose proof HJ as (Hf2 & Hle2 & Ho2 & Ht2).
  destruct Hk as [s Hs]. unfold loadOuter.
  apply returns_bind, returns_gets.
  rewrite (graphAndTargetsOnly_nodeFactory _ _ Hf2).
  apply returns_bind. eapply returns_ptsDeref; [exact Hs|].
  destruct ((idx =? getNullObjectNode (nodeFactory st))
            && (find_next s idx =? getSize sp)) eqn:Hnull.
  - apply andb_prop in Hnull as [Hn%N.eqb_eq Hlast%N.eqb_eq].
    apply returns_bind, returns_ptsInsert. apply returns_ret. simpl.
    split; [|split; [by apply J_insert|split; [|split; [|split]]]].
    + right. split; [done|]. intros x Hx.
      assert (x ∈ s) as Hxs.
      { rewrite <- (pts_lookup _ _ _ Hs). by apply Hsub. }
      pose proof (getSize_above sp x Hx) as Hlt.
      destruct (find_next_spec s idx) as [(_ & _ & Hmin)|[Hall _]];
        [|by apply Hall].
      destruct (decide (x ≤ idx)) as [|Hgt]; [done|].
      specialize (Hmin x Hxs). lia.
    + intros x. rewrite pts_insert. case_decide; [|done]. subst. set_solver.
    + destruct (decide (valNode = ptrNode)) as [->|Hne].
      * rewrite lookup_insert_eq. by eauto.
      * rewrite lookup_insert_ne by done. by eauto.
    + intros o HP Ho. rewrite pts_insert. case_decide; [|by apply HP].
      specialize (HP Ho). set_solver.
    + intros Ho. by subst idx.
  - clear Hnull. apply returns_bind, returns_gets.
    destruct (funcPtsGraph st2 !! idx) as [s2|] eqn:Hs2.
    + apply returns_bind. eapply returns_mono.
      * by apply (loadInner_returns idx s2 c0 st2).
      * intros c1 st3 [HJ3 Hcopied]. apply returns_ret. simpl.
        pose proof HJ3 as (Hf3 & Hle3 & Ho3 & Ht3).
        split; [by left|]. split; [by eapply J_trans|].
        split; [apply Hle3|]. split.
        -- destruct (funcPtsGraph st3 !! ptrNode) as [s3|] eqn:Hs3; [by eauto|].
           exfalso. pose proof (Hle3 ptrNode idx) as Hin.
           unfold pts at 2 in Hin. rewrite Hs3 in Hin.
           by apply elem_of_empty in Hin; [|done].
        -- split.
           ++ intros o HP Ho. etrans; [by apply HP|apply Hle3].
           ++ intros _. etrans; [apply Hle0|]. etrans; [apply Hle2|].
              by rewrite (pts_lookup _ _ _ Hs2).
    + apply returns_ret. simpl. split; [by left|]. split; [done|].
      split; [done|]. split; [by eauto|]. split; [done|].
      intros _. etrans; [apply Hle0|]. etrans; [apply Hle2|].
      unfold pts at 1. rewrite Hs2. set_solver.
Qed.


Lemma forEachPts_unfold node body c (st1 : State) s :
  funcPtsGraph st1 !! node = Some s →
  forEachPts node body c st1 =
  forPts (N.to_nat (getSize s)) node (getSize s) body (find_first s) c st1.
Proof.
  intros Hs. unfold forEachPts, ptsDeref, ptsFind, mbind, M_bind, bind, gets.
  by rewrite Hs.
Qed.

End Load.

Section LoadTheorem.

Context {NF : Type} `{AndersNodeFactory NF}.
Variable getStructInfo : Ty → N → option StructInfo.
Local Abbreviation State := (State (NF:=NF)).

(** X12: a load whose value node is no shortcut target yet, the set of
    its pointer being in the graph, completes.  The set of the load takes
    in the set of every object the pointer pointed to, the null object
    apart; no other set changes and none shrinks; of the other tables
    only the shortcut targets can change, by gaining the value node of
    the load. *)
Theorem runLoad_reads_every_pointee (F : Function) (I : Instruction)
    (ptr : Value) (c : bool) (st : State) (sp : gset N) :
  getValueNodeFor (nodeFactory st) (iid I) ∉ typeShortcutsObj st →
  funcPtsGraph st !! getValueNodeFor (nodeFactory st) (vid ptr) = Some sp →
  ∃ c' st',
    runLoad getStructInfo F I ptr c st = (Done c', st') ∧
    st' = upd_funcPtsGraph (λ _, funcPtsGraph st')
            (upd_typeShortcutsObj (λ _, typeShortcutsObj st') st) ∧
    (∀ o, o ∈ sp → o ≠ getNullObjectNode (nodeFactory st) →
          pts (funcPtsGraph st) o
            ⊆ pts (funcPtsGraph st')
                  (getValueNodeFor (nodeFactory st) (iid I))) ∧
    (∀ n, n ≠ getValueNodeFor (nodeFactory st) (iid I) →
          pts (funcPtsGraph st') n = pts (funcPtsGraph st) n) ∧
    (∀ n, pts (funcPtsGraph st) n ⊆ pts (funcPtsGraph st') n) ∧
    typeShortcutsObj st ⊆ typeShortcutsObj st' ∧
    typeShortcutsObj st' ⊆
      typeShortcutsObj st ∪ {[getValueNodeFor (nodeFactory st) (iid I)]}.
Proof.
  intros Hfast Hsp.
  set (valNode := getValueNodeFor (nodeFactory st) (iid I)) in *.
  set (ptrNode := getValueNodeFor (nodeFactory st) (vid ptr)) in *.
  set (Q := λ (_ : bool) (st' : State),
         graphAndTargetsOnly st st' ∧
         (∀ o, o ∈ sp → o ≠ getNullObjectNode (nodeFactory st) →
               pts (funcPtsGraph st) o ⊆ pts (funcPtsGraph st') valNode) ∧
         (∀ n, n ≠ valNode →
               pts (funcPtsGraph st') n = pts (funcPtsGraph st) n) ∧
         (∀ n, pts (funcPtsGraph st) n ⊆ pts (funcPtsGraph st') n) ∧
         typeShortcutsObj st ⊆ typeShortcutsObj st' ∧
         typeShortcutsObj st' ⊆ typeShortcutsObj st ∪ {[valNode]}).
  (* the loop, from the state the shortcut step left *)
  assert (∀ stS : State,
            graphAndTargetsOnly st stS →
            is_Some (funcPtsGraph stS !! ptrNode) →
            (∀ n, pts (funcPtsGraph st) n ⊆ pts (funcPtsGraph stS) n) →
            (∀ n, n ≠ valNode →
                  pts (funcPtsGraph stS) n = pts (funcPtsGraph st) n) →
            typeShortcutsObj st ⊆ typeShortcutsObj stS →
            typeShortcutsObj stS ⊆ typeShortcutsObj st ∪ {[valNode]} →
            ∀ c1,
            returns
              (itr ← ptsFind ptrNode;
               match itr with
               | Some s =>
                   forPts (N.to_nat (getSize s)) ptrNode (getSize s)
                          (loadOuter valNode ptrNode (getSize s))
                          (find_first s) c1
               | None => mret c1
               end) stS Q)
    as Hloop.
  { intros stS HfS [s Hs] HleS HoS Ht1 Ht2 c1.
    apply returns_bind, returns_gets. rewrite Hs.
    assert (sp ⊆ s) as Hsub.
    { rewrite <- (pts_lookup _ _ _ Hs), <- (pts_lookup _ _ _ Hsp).
      apply HleS. }
    destruct (loadOuter_returns st valNode ptrNode s c1 stS Hs HfS HleS HoS)
      as (c' & st' & Hrun & (Hf' & Hle' & Ho' & Ht') & Hcover).
    exists c', st'. split; [by rewrite <- (forEachPts_unfold _ _ _ _ _ Hs)|].
    split; [done|]. split; [by intros o Ho; apply Hcover, Hsub|].
    split; [done|]. split; [intros n; etrans; [apply HleS|apply Hle']|].
    by rewrite Ht'. }
  assert (returns (runLoad getStructInfo F I ptr c) st Q)
    as (c' & st' & Hrun & Hpost); [|by exists c', st'].
  unfold runLoad. apply returns_bind, returns_gets. fold valNode.
  apply returns_bind, returns_gets.
  rewrite bool_decide_eq_false_2 by done. apply returns_bind.
  assert (∀ c1, returns (mret c1 : M bool) st (λ a st1,
            returns
              (itr ← ptsFind ptrNode;
               match itr with
               | Some s =>
                   forPts (N.to_nat (getSize s)) ptrNode (getSize s)
                          (loadOuter valNode ptrNode (getSize s))
                          (find_first s) a
               | None => mret a
               end) st1 Q)) as Hplain.
  { intros c1. apply returns_ret.
    apply Hloop;
      [apply graphAndTargetsOnly_refl|by rewrite Hsp; eexists
      |done|done|done|set_solver]. }
  destruct (ity I) as [| |ElTy a| | | | | |]; try apply Hplain.
  destruct (isStructTy ElTy); [|apply Hplain].
  apply returns_bind. unfold findTypeShortcut.
  destruct (getStructInfo ElTy (fparent F)) as [si|];
    [apply returns_gets|apply returns_ret];
    [|apply Hplain].
  destruct (typeShortcuts st !! siId si) as [obj|]; [|apply Hplain].
  apply returns_bind, returns_ptsInsert.
  apply returns_bind, returns_modify. apply returns_ret.
  apply Hloop; simpl.
  - apply graphAndTargetsOnly_targets, graphAndTargetsOnly_graph,
      graphAndTargetsOnly_refl.
  - destruct (decide (valNode = ptrNode)) as [Heq|Hne].
    + rewrite Heq, lookup_insert_eq. by eauto.
    + rewrite lookup_insert_ne by done. by eauto.
  - intros n. rewrite pts_insert. case_decide; [|done]. subst. set_solver.
  - intros n Hn. rewrite pts_insert. case_decide; [congruence|done].
  - set_solver.
  - set_solver.
Qed.

End LoadTheorem.

(** Witness for X12: [%302 = load %p] after [store %v, %p] in
    [MemExample]. *)
Lemma runLoad_reads_every_pointee_witness :
  ∃ c' st',
    runLoad Examples.noStructInfo Examples.f_main MemExample.load MemExample.p
            false MemExample.stored = (Done c', st') ∧
    pts (funcPtsGraph MemExample.stored) 4 ⊆ pts (funcPtsGraph st') 6.
Proof.
  destruct (runLoad_reads_every_pointee Examples.noStructInfo Examples.f_main
              MemExample.load MemExample.p false MemExample.stored {[1; 4]})
    as (c' & st' & Hrun & _ & Hcover & _).
  - vm_compute. intros Hin. discriminate Hin.
  - vm_compute. reflexivity.
  - exists c', st'. split; [exact Hrun|].
    apply (Hcover 4); [|vm_compute; discriminate].
    apply elem_of_union. right. by apply elem_of_singleton.
Defined.

(** In the example the load yields [cb], stored before. *)
Example load_example :
  fst (runLoad Examples.noStructInfo Examples.f_main MemExample.load
               MemExample.p false MemExample.stored) = Done true ∧
  pts (funcPtsGraph (snd (runLoad Examples.noStructInfo Examples.f_main
                            MemExample.load MemExample.p false
                            MemExample.stored))) 6 = {[5]}.
Proof. split; vm_compute; reflexivity. Qed.


(** * What the flag [Changed] reports *)

Create HintDb honest.

Section Honest.

Context {NF : Type} `{AndersNodeFactory NF}.
Local Abbreviation State := (State (NF:=NF)).
Local Abbreviation M := (M (NF:=NF)).

(** Some points-to set of [st'] holds an element it lacks in [st]. *)
Definition grew (st st' : State) : Prop :=
  ∃ n x, x ∈ pts (funcPtsGraph st') n ∧ x ∉ pts (funcPtsGraph st) n.

(** Entered with the flag [c], the computation [m] lets no set shrink,
    and the flag [c' a] of its result [a] is set only if [c] was, or if
    some set has grown. *)
Definition honest {A} (c : bool) (c' : A → bool) (m : M A) : Prop :=
  ∀ st a st', m st = (Done a, st') →
    graph_le st st' ∧ (c' a = true → c = true ∨ grew st st').

Lemma grew_le_r (st st1 st2 : State) :
  grew st st1 → graph_le st1 st2 → grew st st2.
Proof. intros (n & x & Hin & Hout) Hle. exists n, x. split; [by apply Hle|done]. Qed.

Lemma grew_le_l (st st1 st2 : State) :
  graph_le st st1 → grew st1 st2 → grew st st2.
Proof.
  intros Hle (n & x & Hin & Hout). exists n, x. split; [done|].
  intros Hx. by apply Hout, Hle.
Qed.

Lemma grew_strict (st st' : State) :
  graph_le st st' → grew st st' →
  ∃ n, pts (funcPtsGraph st) n ⊂ pts (funcPtsGraph st') n.
Proof.
  intros Hle (n & x & Hin & Hout). exists n. split; [apply Hle|].
  intros Hsub. by apply Hout, Hsub.
Qed.

Lemma honest_ret {A} (a : A) c (c' : A → bool) :
  (c' a = true → c = true) → honest c c' (mret a).
Proof.
  intros Hc st a' st' [= <- <-]. split; [apply graph_le_refl|]. auto.
Qed.

Lemma honest_bind {A B} (m : M A) (k : A → M B) c c1 c2 :
  honest c c1 m → (∀ a, honest (c1 a) c2 (k a)) → honest c c2 (m ≫= k).
Proof.
  intros Hm Hk st b st2 (a & st1 & H1 & H2)%bind_Done.
  destruct (Hm _ _ _ H1) as [Hle1 Hc1].
  destruct (Hk a _ _ _ H2) as [Hle2 Hc2].
  split; [by eapply graph_le_trans|]. intros Hb.
  destruct (Hc2 Hb) as [Ha|Hg].
  - destruct (Hc1 Ha) as [?|Hg]; [by left|right]. by eapply grew_le_r.
  - right. by eapply grew_le_l.
Qed.

Lemma honest_pre {A} (m : M A) c d (c' : A → bool) :
  honest d c' m → (d = true → c = true) → honest c c' m.
Proof.
  intros Hm Hd st a st' Hrun. destruct (Hm _ _ _ Hrun) as [Hle Hc].
  split; [done|]. intros [?|?]%Hc; auto.
Qed.

Lemma honest_post {A} (m : M A) c (c1 c2 : A → bool) :
  honest c c1 m → (∀ a, c2 a = true → c1 a = true) → honest c c2 m.
Proof.
  intros Hm Hd st a st' Hrun. destruct (Hm _ _ _ Hrun) as [Hle Hc].
  split; [done|]. intros ?%Hd. auto.
Qed.

(** A flag of its own that the computation starts at [false] can be
    joined to any other. *)
Lemma honest_frame {A} (m : M A) C (c' : A → bool) :
  honest false c' m → honest C (λ a, C || c' a) m.
Proof.
  intros Hm st a st' Hrun. destruct (Hm _ _ _ Hrun) as [Hle Hc].
  split; [done|]. intros [->|[?|?]%Hc]%orb_true_iff; auto. done.
Qed.

Lemma honest_fatal {A} why c (c' : A → bool) : honest c c' (fatal why).
Proof. intros st a st' [=]. Qed.

Lemma honest_outOfFuel {A} c (c' : A → bool) : honest c c' outOfFuel.
Proof. intros st a st' [=]. Qed.

Lemma honest_gets {A} (f : State → A) c : honest c (λ _, c) (gets f).
Proof. intros st a st' [= <- <-]. split; [apply graph_le_refl|auto]. Qed.

Lemma honest_assert b why c : honest c (λ _, c) (assert b why).
Proof. destruct b; [by apply honest_ret|apply honest_fatal]. Qed.

Lemma honest_modify f c :
  (∀ st : State, funcPtsGraph (f st) = funcPtsGraph st) →
  honest c (λ _, c) (modify f).
Proof.
  intros Hf st a st' [= <- <-]. split; [|auto].
  intros n. by rewrite Hf.
Qed.

Lemma honest_ptsFind n c : honest c (λ _, c) (ptsFind n).
Proof. apply honest_gets. Qed.

Lemma honest_ptsDeref n c : honest c (λ _, c) (ptsDeref n).
Proof.
  unfold ptsDeref. eapply honest_bind; [apply honest_ptsFind|].
  intros [s|]; [by apply honest_ret|apply honest_fatal].
Qed.

Lemma honest_ptsInsert n idx c : honest c (λ r, c || r) (ptsInsert n idx).
Proof.
  intros st a st' [= <- <-]. split.
  - intros m. simpl. rewrite pts_insert. destruct (decide (n = m)) as [->|];
      set_solver.
  - intros [->|Hnew%bool_decide_eq_true]%orb_true_iff; [by left|right].
    exists n, idx. split; [|done]. simpl. rewrite pts_insert.
    rewrite decide_True by done. set_solver.
Qed.

Lemma honest_ptsCopy dst src c :
  honest c (λ n, c || (0 <? n)) (ptsCopy dst src).
Proof.
  intros st a st'. unfold ptsCopy, ptsDeref, ptsFind, mbind, M_bind, bind, gets.
  simpl. destruct (funcPtsGraph st !! src) as [s|] eqn:Hs; simpl; [|done].
  intros [= <- <-]. split.
  - intros m. simpl. rewrite pts_insert. destruct (decide (dst = m)) as [->|];
      set_solver.
  - intros [->|Hpos%N.ltb_lt]%orb_true_iff; [by left|right].
    destruct (set_choose_L (s ∖ pts (funcPtsGraph st) dst)) as [x Hx].
    { intros Hempty. rewrite Hempty, size_empty in Hpos. lia. }
    apply elem_of_difference in Hx as [Hin Hout].
    exists dst, x. split; [|done]. simpl. rewrite pts_insert.
    rewrite decide_True by done. set_solver.
Qed.

Lemma honest_forM {A} (f : A → M unit) l c :
  (∀ x, honest c (λ _, c) (f x)) → honest c (λ _, c) (forM f l).
Proof.
  intros Hf. induction l as [|x l IH]; simpl; [by apply honest_ret|].
  eapply honest_bind; [apply Hf|]. intros ?. apply IH.
Qed.

Lemma honest_forPts fuel node end_ body :
  (∀ idx c, honest c snd (body idx c)) →
  ∀ idx c, honest c (λ r, r) (forPts fuel node end_ body idx c).
Proof.
  intros Hb. induction fuel as [|fuel IH]; intros idx c; simpl;
    destruct (idx <? end_); try (by apply honest_ret);
    [apply honest_outOfFuel|].
  eapply honest_bind; [apply Hb|]. intros [[|idx'] c1]; simpl.
  - by apply honest_ret.
  - eapply honest_bind; [apply honest_ptsDeref|]. intros s. apply IH.
Qed.

Lemma honest_forEachPts node body c :
  (∀ idx c, honest c snd (body idx c)) →
  honest c (λ r, r) (forEachPts node body c).
Proof.
  intros Hb. unfold forEachPts.
  eapply honest_bind; [apply honest_ptsDeref|]. intros s.
  by apply honest_forPts.
Qed.

Lemma honest_getFuncDef F c : honest c (λ _, c) (getFuncDef F).
Proof.
  unfold getFuncDef. eapply honest_bind; [apply honest_gets|].
  intros fs. by apply honest_ret.
Qed.

Lemma honest_addCallee CS F c : honest c (λ _, c) (addCallee CS F).
Proof.
  intros st a st' Hrun.
  assert (st' = snd (addCallee CS F st)) as -> by by rewrite Hrun.
  destruct (addCallee_frame CS F st) as [Hg _]. split; [|auto].
  intros n. by rewrite Hg.
Qed.

End Honest.

(** The side conditions on flags. *)
Ltac flag_logic :=
  cbn [fst snd]; unfold orb; intros;
  repeat match goal with
         | Hb : context [if ?b then _ else _] |- _ => destruct b eqn:?
         | |- context [if ?b then _ else _] => destruct b eqn:?
         end;
  try done; try congruence.

Ltac hon_leaf :=
  first
    [ apply honest_gets | apply honest_assert | apply honest_ptsFind
    | apply honest_ptsDeref | apply honest_ptsInsert | apply honest_ptsCopy
    | apply honest_getFuncDef | apply honest_addCallee
    | apply honest_modify; intros; reflexivity ].

(** The shape of a computation decides which rule applies; a computation
    in front of a bind hands on its own flag when it yields one and the
    flag it was entered with otherwise. *)
Ltac hon :=
  cbv beta zeta;
  lazymatch goal with
  | |- honest _ _ (mret _) => apply honest_ret; flag_logic
  | |- honest _ _ (fatal _) => apply honest_fatal
  | |- honest _ _ outOfFuel => apply honest_outOfFuel
  | |- honest _ _ (mbind _ _) => eapply honest_bind; [hon_first|intros ?; hon]
  | |- honest _ _ (forEachPts _ _ _) =>
      eapply honest_pre; [apply honest_forEachPts; intros; hon|flag_logic]
  | |- honest _ _ (forPts _ _ _ _ _ _) =>
      eapply honest_pre; [apply honest_forPts; intros; hon|flag_logic]
  | |- honest _ _ (forM _ _) => apply honest_forM; intros ?; hon
  | |- honest _ _ (if ?b then _ else _) => destruct b eqn:?; hon
  | |- honest _ _ (match ?x with _ => _ end) => destruct x eqn:?; hon
  | |- honest _ _ (let (_, _) := ?x in _) => destruct x eqn:?; hon
  | |- honest _ _ _ =>
      first [ eapply honest_pre; [solve [eauto with honest nocore]|flag_logic]
            | eapply honest_post; [hon_leaf|flag_logic]
            | idtac ]
  end
with hon_first :=
  first
    [ hon_leaf
    | eapply honest_pre; [solve [eauto with honest nocore]|flag_logic]
    | lazymatch goal with
      | |- honest _ _ (forEachPts _ _ _) =>
          eapply honest_pre; [apply honest_forEachPts; intros; hon|flag_logic]
      | |- honest _ _ (forM _ _) =>
          apply honest_forM; intros ?; hon
      | |- honest (A:=bool) ?c ?c1 _ => unify c1 (λ r : bool, r); hon
      | |- honest (A:=?A) ?c ?c1 _ => unify c1 (λ _ : A, c); hon
      end ].

Section HonestFunctions.

Context {NF : Type} `{AndersNodeFactory NF}.

Variable LLVM_VERSION_MAJOR : N.
Variable getStructInfo : Ty → N → option StructInfo.
Variable getGEPOffset : Instruction → N → Z.
Variable offsetToFieldNum : Ty → Z → N → N.
Variable extendObjectSize : NF → N → Ty → N → NF * N.

Local Abbreviation State := (State (NF:=NF)).
Local Abbreviation M := (M (NF:=NF)).
Local Abbreviation honest := (honest (NF:=NF)).

Lemma honest_findCalleesByType CS c :
  honest c (λ _, c) (findCalleesByType LLVM_VERSION_MAJOR CS).
Proof. unfold findCalleesByType. hon. Qed.
Hint Resolve honest_findCalleesByType : honest.

Lemma honest_bindArgs actuals : ∀ formals c,
  honest c (λ r, r) (bindArgs actuals formals c).
Proof.
  induction actuals as [|arg actuals IH]; intros [|farg formals] c; simpl;
    hon.
Qed.
Hint Resolve honest_bindArgs : honest.

Lemma honest_bindReturn CS CF callNode idx c :
  honest c snd (bindReturn CS CF callNode idx c).
Proof. unfold bindReturn. hon. Qed.
Hint Resolve honest_bindReturn : honest.

Lemma honest_handleCall CS CF C :
  honest C (λ r, C || r) (handleCall CS CF).
Proof.
  apply honest_frame. unfold handleCall.
  destruct (fisIntrinsic CF); [hon|]. destruct (fempty CF); [hon|].
  eapply honest_bind
    with (c1 := λ r : option bool, match r with Some c => c | None => false end).
  - hon.
  - intros [c|]; hon.
Qed.
Hint Resolve honest_handleCall : honest.

Lemma honest_indirectCallee CS idx c :
  honest c snd (indirectCallee CS idx c).
Proof. unfold indirectCallee. hon. Qed.
Hint Resolve honest_indirectCallee : honest.

Lemma honest_runCall CS callee c :
  honest c (λ r, r) (runCall LLVM_VERSION_MAJOR CS callee c).
Proof. unfold runCall. hon. Qed.

Lemma honest_runRet F rv c : honest c (λ r, r) (runRet F rv c).
Proof. unfold runRet. hon. Qed.

Lemma honest_loadInner valNode idx2 c :
  honest c snd (loadInner valNode idx2 c).
Proof. unfold loadInner. hon. Qed.
Hint Resolve honest_loadInner : honest.

Lemma honest_loadOuter valNode ptrNode end_ idx c :
  honest c snd (loadOuter valNode ptrNode end_ idx c).
Proof. unfold loadOuter. hon. Qed.
Hint Resolve honest_loadOuter : honest.

Lemma honest_runLoad F I ptr c :
  honest c (λ r, r) (runLoad getStructInfo F I ptr c).
Proof. unfold runLoad, findTypeShortcut. hon. Qed.

Lemma honest_storeBody valNode idx c :
  honest c snd (storeBody valNode idx c).
Proof. unfold storeBody. hon. Qed.
Hint Resolve honest_storeBody : honest.

Lemma honest_runStore val ptr c : honest c (λ r, r) (runStore val ptr c).
Proof. unfold runStore. hon. Qed.

Lemma honest_gepResize F ptrTy idx allocSize c :
  honest c (λ _, c)
    (gepResize getStructInfo extendObjectSize F ptrTy idx allocSize).
Proof. unfold gepResize. hon. Qed.
Hint Resolve honest_gepResize : honest.

Lemma honest_gepBody F I srcTy valNode idx c :
  honest c snd
    (gepBody getStructInfo getGEPOffset offsetToFieldNum extendObjectSize
             F I srcTy valNode idx c).
Proof. unfold gepBody. hon. Qed.
Hint Resolve honest_gepBody : honest.

Lemma honest_runGEP F I ptr srcTy c :
  honest c (λ r, r)
    (runGEP getStructInfo getGEPOffset offsetToFieldNum extendObjectSize
            F I ptr srcTy c).
Proof. unfold runGEP. hon. Qed.

Lemma honest_copyFrom why dst src c :
  honest c (λ r, r) (copyFrom why dst src c).
Proof. unfold copyFrom. hon. Qed.
Hint Resolve honest_copyFrom : honest.

Lemma honest_copyFromAll why dst srcs : ∀ c,
  honest c (λ r, r) (copyFromAll why dst srcs c).
Proof.
  induction srcs as [|src srcs IH]; intros c; simpl; [hon|].
  eapply honest_bind; [apply honest_copyFrom|]. intros c1. apply IH.
Qed.

Hint Resolve honest_runCall honest_runRet honest_runLoad honest_runStore
     honest_runGEP honest_copyFromAll : honest.

Lemma honest_runOnInstruction F I c :
  honest c (λ r, r)
    (runOnInstruction LLVM_VERSION_MAJOR getStructInfo getGEPOffset
                      offsetToFieldNum extendObjectSize F I c).
Proof. unfold runOnInstruction. hon. Qed.

Lemma honest_runOnInstructions F Is : ∀ c,
  honest c (λ r, r)
    (runOnInstructions LLVM_VERSION_MAJOR getStructInfo getGEPOffset
                       offsetToFieldNum extendObjectSize F Is c).
Proof.
  induction Is as [|I Is IH]; intros c; simpl; [hon|].
  eapply honest_bind; [apply honest_runOnInstruction|]. intros c1. apply IH.
Qed.

Lemma honest_runOnFunction FI :
  honest false (λ r, r)
    (runOnFunction LLVM_VERSION_MAJOR getStructInfo getGEPOffset
                   offsetToFieldNum extendObjectSize FI).
Proof.
  unfold runOnFunction.
  eapply honest_bind; [apply honest_modify; intros; reflexivity|].
  intros ?. apply honest_runOnInstructions.
Qed.

Lemma honest_processFunctions Fs : ∀ c,
  honest c (λ r, r)
    (processFunctions LLVM_VERSION_MAJOR getStructInfo getGEPOffset
                      offsetToFieldNum extendObjectSize Fs c).
Proof.
  induction Fs as [|FI Fs IH]; intros c; simpl; [hon|].
  destruct (_ || _ || _); [apply IH|].
  eapply honest_bind; [apply honest_frame, honest_runOnFunction|].
  intros c1. apply IH.
Qed.

Lemma honest_shortcutNode obj node c :
  honest c (λ _, c) (shortcutNode obj node).
Proof. unfold shortcutNode. hon. Qed.
Hint Resolve honest_shortcutNode : honest.

Lemma honest_createTypeShortcut entry c :
  honest c (λ _, c) (createTypeShortcut entry).
Proof. unfold createTypeShortcut. hon. Qed.
Hint Resolve honest_createTypeShortcut : honest.

Lemma honest_doModulePass Mod :
  honest false (λ r, r)
    (doModulePass LLVM_VERSION_MAJOR getStructInfo getGEPOffset
                  offsetToFieldNum extendObjectSize Mod).
Proof.
  unfold doModulePass, createTypeShortcuts.
  eapply honest_bind; [apply honest_modify; intros; reflexivity|]. intros ?.
  eapply honest_bind with (c1 := λ _, false); [hon|]. intros ?.
  eapply honest_bind; [apply honest_gets|]. intros it.
  destruct (it <? 2); [apply honest_processFunctions|hon].
Qed.

(** X13: when the pass over a module reports a change, some points-to
    set is strictly larger than before: the flag is raised by nothing
    but the insertion of a new element into a set of the graph, and no
    set loses an element meanwhile. *)
Theorem doModulePass_reports_only_growth (Mod : Module) (st st' : State) :
  doModulePass LLVM_VERSION_MAJOR getStructInfo getGEPOffset
               offsetToFieldNum extendObjectSize Mod st = (Done true, st') →
  ∃ n, pts (funcPtsGraph st) n ⊂ pts (funcPtsGraph st') n.
Proof.
  intros Hrun. destruct (honest_doModulePass Mod _ _ _ Hrun) as [Hle Hc].
  apply grew_strict; [done|]. by destruct (Hc eq_refl).
Qed.

End HonestFunctions.

(** Witness for X13: the pass over [MemExample.prog], whose store and
    load both add to a set, reports a change. *)
Lemma doModulePass_reports_only_growth_witness :
  ∃ n, pts (funcPtsGraph MemExample.before) n ⊂
       pts (funcPtsGraph
              (snd (doModulePass 14 Examples.noStructInfo Examples.noGEPOffset
                      Examples.fieldZero
                      (SpecFactory.extendObjectSize Examples.sizeOne)
                      MemExample.prog MemExample.before))) n.
Proof.
  apply (doModulePass_reports_only_growth 14 Examples.noStructInfo
           Examples.noGEPOffset Examples.fieldZero
           (SpecFactory.extendObjectSize Examples.sizeOne)
           MemExample.prog MemExample.before).
  vm_compute. reflexivity.
Defined.


(** * What the finalization sweep records *)

(** The instructions the sweep works on: [CallInst]s that are no inline
    assembly. *)
Definition finalized (CI : Instruction) : bool :=
  isCallInst CI && negb (isInlineAsm CI).

Definition finalizedIds (L : list Instruction) : gset N :=
  list_to_set (map iid (filter (λ CI, finalized CI = true) L)).

Lemma finalizedIds_nil : finalizedIds [] = ∅.
Proof. done. Qed.

Lemma finalizedIds_cons CI L :
  finalizedIds (CI :: L) =
  (if finalized CI then {[iid CI]} else ∅) ∪ finalizedIds L.
Proof.
  unfold finalizedIds. rewrite filter_cons.
  destruct (decide (finalized CI = true)) as [->|Hn]; simpl; [done|].
  destruct (finalized CI); [done|]. set_solver.
Qed.

Lemma finalizedIds_app L1 L2 :
  finalizedIds (L1 ++ L2) = finalizedIds L1 ∪ finalizedIds L2.
Proof.
  induction L1 as [|CI L1 IH]; simpl.
  - rewrite finalizedIds_nil. set_solver.
  - rewrite !finalizedIds_cons, IH. set_solver.
Qed.

Lemma finalizedIds_spec L cs :
  cs ∈ finalizedIds L ↔ ∃ CI, CI ∈ L ∧ finalized CI = true ∧ iid CI = cs.
Proof.
  unfold finalizedIds. rewrite elem_of_list_to_set, list_elem_of_fmap. split.
  - intros (CI & -> & [? ?]%list_elem_of_filter). eauto.
  - intros (CI & ? & ? & <-). exists CI. split; [done|].
    by apply list_elem_of_filter.
Qed.

Section Finalization.

Context {NF : Type} `{AndersNodeFactory NF}.
Variable LLVM_VERSION_MAJOR : N.
Local Abbreviation State := (State (NF:=NF)).
Local Abbreviation M := (M (NF:=NF)).

(** [st'] is [st] with other tables [Callees], [Callers] and
    [calleeByType]. *)
Definition sweptOnly (st st' : State) : Prop :=
  st' = upd_Callees (λ _, Callees st')
          (upd_Callers (λ _, Callers st')
             (upd_calleeByType (λ _, calleeByType st') st)).

(** What finalizing the call sites [ids] does to [st]. *)
Definition finalizedFrom (ids : gset N) (st st' : State) : Prop :=
  sweptOnly st st' ∧
  (∀ cs, default ∅ (Callees st' !! cs) = default ∅ (Callees st !! cs)) ∧
  (∀ cs, is_Some (Callees st' !! cs) ↔
         is_Some (Callees st !! cs) ∨ cs ∈ ids) ∧
  (∀ f cs, cs ∈ callersOf st' f ↔
           cs ∈ callersOf st f ∨
           (cs ∈ ids ∧ f ∈ default ∅ (Callees st !! cs))) ∧
  (∀ cs, cs ∉ ids → calleeByType st' !! cs = calleeByType st !! cs) ∧
  (∀ cs, cs ∈ ids → is_Some (calleeByType st' !! cs)).

Lemma sweptOnly_refl st : sweptOnly st st.
Proof. by destruct st. Qed.

Lemma sweptOnly_trans st1 st2 st3 :
  sweptOnly st1 st2 → sweptOnly st2 st3 → sweptOnly st1 st3.
Proof.
  unfold sweptOnly. intros H1 H2. rewrite H2. rewrite H1.
  by destruct st1.
Qed.

Lemma sweptOnly_taken st st' :
  sweptOnly st st' → AddressTakenFuncs st' = AddressTakenFuncs st.
Proof. by intros ->. Qed.

Lemma finalizedFrom_refl st : finalizedFrom ∅ st st.
Proof.
  split; [apply sweptOnly_refl|]. split; [done|].
  split; [intros cs; split; [by left|intros [?|?]; [done|set_solver]]|].
  split; [intros f cs; split; [by left|intros [?|[? _]]; [done|set_solver]]|].
  split; [done|set_solver].
Qed.

Lemma finalizedFrom_trans A B st1 st2 st3 :
  finalizedFrom A st1 st2 → finalizedFrom B st2 st3 →
  finalizedFrom (A ∪ B) st1 st3.
Proof.
  intros (Hf1 & Hv1 & Hk1 & Hc1 & Ho1 & Ht1) (Hf2 & Hv2 & Hk2 & Hc2 & Ho2 & Ht2).
  split; [by eapply sweptOnly_trans|].
  split; [intros cs; by rewrite Hv2|].
  split; [intros cs; rewrite Hk2, Hk1, elem_of_union; tauto|].
  split; [intros f cs; rewrite Hc2, Hc1, Hv1, elem_of_union; tauto|].
  split.
  - intros cs [HA HB]%not_elem_of_union. by rewrite Ho2, Ho1.
  - intros cs [HA|HB]%elem_of_union; [|by apply Ht2].
    destruct (decide (cs ∈ B)) as [HB|HB]; [by apply Ht2|].
    rewrite Ho2 by done. by apply Ht1.
Qed.

(** The loop [for (Function *CF : FS) Ctx->Callers[CF].insert(CI)]. *)
Lemma addCallers_returns cs l : ∀ st : State,
  ∃ st',
    forM (λ CF, modify (upd_Callers (λ m,
            <[CF := {[cs]} ∪ default ∅ (m !! CF)]> m))) l st = (Done tt, st') ∧
    st' = upd_Callers (λ _, Callers st') st ∧
    ∀ f x, x ∈ callersOf st' f ↔ x ∈ callersOf st f ∨ (x = cs ∧ f ∈ l).
Proof.
  induction l as [|CF l IH]; intros st; simpl.
  - exists st. split; [done|]. split; [by destruct st|].
    intros f x. split; [by left|]. intros [?|[_ ?%elem_of_nil]]; done.
  - destruct (IH (upd_Callers (λ m, <[CF := {[cs]} ∪ default ∅ (m !! CF)]> m) st))
      as (st' & Hrun & Hframe & Hcs).
    exists st'. split; [|split].
    + unfold mbind, M_bind, bind, modify. exact Hrun.
    + rewrite Hframe. by destruct st.
    + intros f x. rewrite Hcs, elem_of_cons. unfold callersOf. simpl.
      destruct (decide (CF = f)) as [->|Hne].
      * rewrite lookup_insert_eq. simpl. rewrite elem_of_union, elem_of_singleton.
        tauto.
      * rewrite lookup_insert_ne by done. split; [tauto|].
        intros [?|[-> [?|?]]]; auto. congruence.
Qed.

Lemma findCalleesByType_runs CS (st : State) :
  (∀ k F, AddressTakenFuncs st !! k = Some F → fisVarArg F = true →
          (length (fargs F) ≤ length (call_args CS))%nat) →
  ∃ TS st',
    findCalleesByType LLVM_VERSION_MAJOR CS st = (Done TS, st') ∧
    st' = upd_calleeByType (λ _, calleeByType st') st ∧
    calleeByType st' = <[iid CS := TS]> (calleeByType st).
Proof.
  intros Hva.
  destruct (findCalleesByType_loop_returns LLVM_VERSION_MAJOR CS
              (map_to_list (AddressTakenFuncs st))
              (λ k F Hk, Hva k F (proj1 (elem_of_map_to_list _ _ _) Hk))
              (default ∅ (calleeByType st !! iid CS))) as [TS Hl].
  unfold findCalleesByType, mbind, M_bind, bind, gets, modify, mret, M_ret, ret.
  simpl. rewrite lookup_insert_eq. simpl. rewrite Hl. simpl.
  eexists _, _. split; [done|]. simpl. split; [by destruct st|].
  by rewrite insert_insert_eq.
Qed.

Lemma findCalleesByType_Done CS (st st' : State) TS :
  findCalleesByType LLVM_VERSION_MAJOR CS st = (Done TS, st') →
  st' = upd_calleeByType (λ _, calleeByType st') st ∧
  calleeByType st' = <[iid CS := TS]> (calleeByType st).
Proof.
  unfold findCalleesByType, mbind, M_bind, bind, gets, modify, mret, M_ret, ret.
  simpl. rewrite lookup_insert_eq. simpl.
  destruct (findCalleesByType_loop _ _ _ _) as [TS'| |]; simpl; try done.
  intros [= <- <-]. simpl. split; [by destruct st|].
  by rewrite insert_insert_eq.
Qed.

(** What finalizing one instruction has done when it completes. *)
Lemma finalizeInstruction_Done CI (st st' : State) :
  finalizeInstruction LLVM_VERSION_MAJOR CI st = (Done tt, st') →
  finalizedFrom (if finalized CI then {[iid CI]} else ∅) st st'.
Proof.
  unfold finalizeInstruction, finalized.
  destruct (isCallInst CI); simpl;
    [|intros [= <-]; apply finalizedFrom_refl].
  destruct (isInlineAsm CI); simpl;
    [intros [= <-]; apply finalizedFrom_refl|].
  set (st1 := upd_Callees
                (λ m, <[iid CI := default ∅ (m !! iid CI)]> m) st).
  destruct (addCallers_returns (iid CI)
              (elements (default ∅ (Callees st !! iid CI))) st1)
    as (st2 & Hrun2 & Hframe2 & Hcs2).
  unfold mbind, M_bind, bind, gets, modify, mret, M_ret, ret. simpl.
  fold st1. rewrite lookup_insert_eq. simpl.
  unfold mbind, M_bind, bind, modify in Hrun2. rewrite Hrun2.
  destruct (findCalleesByType LLVM_VERSION_MAJOR CI st2) as [[TS| |] st3]
    eqn:Hrun3; try done.
  intros [= <-].
  destruct (findCalleesByType_Done CI st2 st3 TS Hrun3) as [Hframe3 Hty3].
  assert (Callees st3 = <[iid CI := default ∅ (Callees st !! iid CI)]> (Callees st))
    as HCallees by by rewrite Hframe3, Hframe2.
  assert (Callers st3 = Callers st2) as HCallers by by rewrite Hframe3.
  split; [|split; [|split; [|split; [|split]]]].
  - unfold sweptOnly. rewrite Hframe3 at 1. rewrite Hframe2 at 1.
    unfold st1. rewrite HCallees, HCallers. destruct st.
    unfold upd_Callees, upd_Callers, upd_calleeByType. simpl. by f_equal.
  - intros cs. rewrite HCallees.
    destruct (decide (iid CI = cs)) as [->|Hne].
    + rewrite lookup_insert_eq. done.
    + by rewrite lookup_insert_ne.
  - intros cs. rewrite HCallees, elem_of_singleton.
    destruct (decide (iid CI = cs)) as [->|Hne].
    + rewrite lookup_insert_eq. split; [by right|by eexists].
    + rewrite lookup_insert_ne by done. split; [by left|].
      intros [?|?]; [done|congruence].
  - intros f cs. unfold callersOf at 1. rewrite HCallers.
    fold (callersOf st2 f). rewrite Hcs2, elem_of_elements, elem_of_singleton.
    unfold callersOf, st1. simpl. split.
    + intros [?|[-> ?]]; auto.
    + intros [?|[-> ?]]; auto.
  - intros cs Hne%not_elem_of_singleton. rewrite Hty3.
    rewrite lookup_insert_ne by done. by rewrite Hframe2.
  - intros cs ->%elem_of_singleton. rewrite Hty3, lookup_insert_eq.
    by eexists.
Qed.

Lemma finalizeInstruction_returns CI (st : State) :
  (finalized CI = true →
   ∀ k F, AddressTakenFuncs st !! k = Some F → fisVarArg F = true →
          (length (fargs F) ≤ length (call_args CI))%nat) →
  ∃ st',
    finalizeInstruction LLVM_VERSION_MAJOR CI st = (Done tt, st') ∧
    finalizedFrom (if finalized CI then {[iid CI]} else ∅) st st'.
Proof.
  intros Hva.
  assert (∃ st', finalizeInstruction LLVM_VERSION_MAJOR CI st = (Done tt, st'))
    as [st' Hrun]; [|exists st'; split; [done|by apply finalizeInstruction_Done]].
  unfold finalizeInstruction, finalized in *.
  destruct (isCallInst CI); simpl in *; [|by exists st].
  destruct (isInlineAsm CI); simpl in *; [by exists st|].
  specialize (Hva eq_refl).
  set (st1 := upd_Callees
                (λ m, <[iid CI := default ∅ (m !! iid CI)]> m) st).
  destruct (addCallers_returns (iid CI)
              (elements (default ∅ (Callees st !! iid CI))) st1)
    as (st2 & Hrun2 & Hframe2 & Hcs2).
  destruct (findCalleesByType_runs CI st2) as (TS & st3 & Hrun3 & _).
  { replace (AddressTakenFuncs st2) with (AddressTakenFuncs st); [done|].
    by rewrite Hframe2. }
  exists st3.
  unfold mbind, M_bind, bind, gets, modify, mret, M_ret, ret. simpl.
  fold st1. rewrite lookup_insert_eq. simpl.
  unfold mbind, M_bind, bind, modify in Hrun2. rewrite Hrun2.
  by rewrite Hrun3.
Qed.

Lemma forM_finalizeInstruction_Done L : ∀ st st' : State,
  forM (finalizeInstruction LLVM_VERSION_MAJOR) L st = (Done tt, st') →
  finalizedFrom (finalizedIds L) st st'.
Proof.
  induction L as [|CI L IH]; intros st st'; simpl.
  - intros [= <-]. rewrite finalizedIds_nil. apply finalizedFrom_refl.
  - intros ([] & st1 & Hrun1 & Hrun2)%bind_Done.
    rewrite finalizedIds_cons. eapply finalizedFrom_trans.
    + by apply finalizeInstruction_Done.
    + by apply IH.
Qed.

Lemma forM_finalizeFunctions_Done (Fs : list (Function * list Instruction)) :
  ∀ st st' : State,
  forM (λ FI, forM (finalizeInstruction LLVM_VERSION_MAJOR) (instructions FI))
       Fs st = (Done tt, st') →
  finalizedFrom (finalizedIds (concat (map instructions Fs))) st st'.
Proof.
  induction Fs as [|FI Fs IH]; intros st st'; simpl.
  - intros [= <-]. rewrite finalizedIds_nil. apply finalizedFrom_refl.
  - intros ([] & st1 & Hrun1 & Hrun2)%bind_Done.
    rewrite finalizedIds_app. eapply finalizedFrom_trans.
    + by apply forM_finalizeInstruction_Done.
    + by apply IH.
Qed.

(** What the sweep of a module has done when it completes. *)
Lemma doFinalization_Done Mod (st st' : State) b :
  doFinalization LLVM_VERSION_MAJOR Mod st = (Done b, st') →
  b = false ∧
  finalizedFrom (finalizedIds (module_instructions Mod)) st st'.
Proof.
  unfold doFinalization. intros ([] & st1 & Hrun1 & [= <- <-])%bind_Done.
  split; [done|]. by apply forM_finalizeFunctions_Done.
Qed.

(** No variadic function whose address is taken has more formals than a
    call site of [L] has actuals. *)
Definition variadicsFit (L : list Instruction) (st : State) : Prop :=
  ∀ k F CI, AddressTakenFuncs st !! k = Some F → fisVarArg F = true →
            CI ∈ L → finalized CI = true →
            (length (fargs F) ≤ length (call_args CI))%nat.

Lemma variadicsFit_frame L (st st' : State) :
  sweptOnly st st' → variadicsFit L st → variadicsFit L st'.
Proof.
  intros Hf Hv k F CI Hk. rewrite (sweptOnly_taken _ _ Hf) in Hk.
  exact (Hv k F CI Hk).
Qed.

Lemma forM_finalizeInstruction L : ∀ st : State,
  variadicsFit L st →
  ∃ st',
    forM (finalizeInstruction LLVM_VERSION_MAJOR) L st = (Done tt, st') ∧
    finalizedFrom (finalizedIds L) st st'.
Proof.
  induction L as [|CI L IH]; intros st Hv; simpl.
  - exists st. split; [done|]. rewrite finalizedIds_nil. apply finalizedFrom_refl.
  - destruct (finalizeInstruction_returns CI st) as (st1 & Hrun1 & Hfin1).
    { intros Hc k F Hk Hva. apply (Hv k F CI); auto. by left. }
    destruct (IH st1) as (st2 & Hrun2 & Hfin2).
    { apply (variadicsFit_frame L st); [apply Hfin1|].
      intros k F CI' ? ? ? ?. apply (Hv k F CI'); auto. by right. }
    exists st2. split.
    + unfold mbind, M_bind, bind. by rewrite Hrun1.
    + rewrite finalizedIds_cons. by eapply finalizedFrom_trans.
Qed.

Lemma forM_finalizeFunctions Fs : ∀ st : State,
  variadicsFit (concat (map instructions Fs)) st →
  ∃ st',
    forM (λ FI, forM (finalizeInstruction LLVM_VERSION_MAJOR) (instructions FI))
         Fs st = (Done tt, st') ∧
    finalizedFrom (finalizedIds (concat (map instructions Fs))) st st'.
Proof.
  induction Fs as [|FI Fs IH]; intros st Hv; simpl.
  - exists st. split; [done|]. rewrite finalizedIds_nil. apply finalizedFrom_refl.
  - destruct (forM_finalizeInstruction (instructions FI) st) as (st1 & Hrun1 & Hfin1).
    { intros k F CI ? ? ? ?. apply (Hv k F CI); auto. simpl.
      apply elem_of_app. by left. }
    destruct (IH st1) as (st2 & Hrun2 & Hfin2).
    { apply (variadicsFit_frame _ st); [apply Hfin1|].
      intros k F CI ? ? ? ?. apply (Hv k F CI); auto. simpl.
      apply elem_of_app. by right. }
    exists st2. split.
    + unfold mbind, M_bind, bind. by rewrite Hrun1.
    + rewrite finalizedIds_app. by eapply finalizedFrom_trans.
Qed.

(** X14: the finalization sweep of a module completes whenever no
    variadic address-taken function has more formals than one of the call
    sites it works on (the [CallInst]s that are no inline assembly) has
    actuals.  It then has put every such call site into [Callers] of each
    function that [Callees] records for it, and nothing else into
    [Callers]; it has created the keys of these call sites in [Callees]
    and in the type-based table, without changing any set of [Callees];
    and it has changed no other part of the state. *)
Theorem doFinalization_inverts_callees (Mod : Module) (st : State) :
  variadicsFit (module_instructions Mod) st →
  ∃ st',
    doFinalization LLVM_VERSION_MAJOR Mod st = (Done false, st') ∧
    sweptOnly st st' ∧
    (∀ f cs, cs ∈ callersOf st' f ↔
             cs ∈ callersOf st f ∨
             (cs ∈ finalizedIds (module_instructions Mod) ∧
              f ∈ default ∅ (Callees st !! cs))) ∧
    (∀ cs, default ∅ (Callees st' !! cs) = default ∅ (Callees st !! cs)) ∧
    (∀ cs, is_Some (Callees st' !! cs) ↔
           is_Some (Callees st !! cs) ∨
           cs ∈ finalizedIds (module_instructions Mod)) ∧
    (∀ cs, cs ∈ finalizedIds (module_instructions Mod) →
           is_Some (calleeByType st' !! cs)) ∧
    (∀ cs, cs ∉ finalizedIds (module_instructions Mod) →
           calleeByType st' !! cs = calleeByType st !! cs).
Proof.
  intros Hv.
  destruct (forM_finalizeFunctions (mfunctions Mod) st Hv)
    as (st' & Hrun & Hf & Hvals & Hkeys & Hcallers & Hother & Htyped).
  exists st'. split.
  - unfold doFinalization, mbind, M_bind, bind. by rewrite Hrun.
  - repeat split; try done; by apply Hkeys || by apply Hcallers.
Qed.

End Finalization.

(** Witness for X14: the finalization sweep of [Examples.chainTaken] from
    the state the fixpoint loop leaves. *)
Lemma doFinalization_inverts_callees_witness :
  ∃ st',
    doFinalization 14 Examples.chainTaken FinalExample.analysed = (Done false, st') ∧
    213 ∈ callersOf st' 101 ∧
    is_Some (Callees st' !! 211) ∧
    is_Some (calleeByType st' !! 213).
Proof.
  destruct (doFinalization_inverts_callees 14 Examples.chainTaken
              FinalExample.analysed)
    as (st' & Hrun & _ & Hcallers & _ & Hkeys & Htyped & _).
  - intros k F CI Hk Hva.
    assert (AddressTakenFuncs FinalExample.analysed = {[103 := Examples.f_cb]})
      as Heq by (vm_compute; reflexivity).
    rewrite Heq in Hk. apply lookup_singleton_Some in Hk as [_ <-].
    discriminate Hva.
  - exists st'. split; [exact Hrun|]. split; [|split].
    + apply Hcallers. right. split; vm_compute; reflexivity.
    + apply Hkeys. right. vm_compute. reflexivity.
    + apply Htyped. vm_compute. reflexivity.
Defined.

(** In the example the sweep adds nothing to [Callers], the
    initialization sweep having recorded the direct calls already, and
    creates the keys of the two call sites in the type-based table. *)
Example finalization_example :
  let st' := snd (doFinalization 14 Examples.chainTaken FinalExample.analysed) in
  Callees FinalExample.analysed = {[211 := {[102]}; 213 := {[101]}]} ∧
  Callers st' = Callers FinalExample.analysed ∧
  calleeByType FinalExample.analysed = ∅ ∧
  calleeByType st' = {[211 := {[103]}; 213 := {[103]}]}.
Proof. split; [|split; [|split]]; vm_compute; reflexivity. Qed.


(** * What the initialization sweep records *)

(** The [CallInst]s among the users of [F] that call [F]. *)
Definition directCallers (Mod : Module) (F : Function) : gset N :=
  list_to_set (map iid (filter (λ U, isCallInst U && callsFunction F U)
                               (users Mod F))).

(** Identities of the functions of [Fs] named [main] or [SyS_...]. *)
Definition entriesOf (Fs : list Function) : gset N :=
  list_to_set (map fid (filter (λ F, isEntry F = true) Fs)).

Lemma entriesOf_cons F Fs :
  entriesOf (F :: Fs) = (if isEntry F then {[fid F]} else ∅) ∪ entriesOf Fs.
Proof.
  unfold entriesOf. rewrite filter_cons.
  destruct (decide (isEntry F = true)) as [->|Hn]; simpl; [done|].
  destruct (isEntry F); [done|]. set_solver.
Qed.

Lemma entriesOf_spec Fs f :
  f ∈ entriesOf Fs ↔ ∃ F, F ∈ Fs ∧ isEntry F = true ∧ fid F = f.
Proof.
  unfold entriesOf. rewrite elem_of_list_to_set, list_elem_of_fmap. split.
  - intros (F & -> & [? ?]%list_elem_of_filter). eauto.
  - intros (F & ? & ? & <-). exists F. split; [done|].
    by apply list_elem_of_filter.
Qed.

Section Initialization.

Context {NF : Type} `{AndersNodeFactory NF}.
Variable getStructInfo : Ty → N → option StructInfo.
Local Abbreviation State := (State (NF:=NF)).
Local Abbreviation M := (M (NF:=NF)).

(** The factory the sweep has reached after the functions [Fs]: a value
    node is created for each function whose address is taken. *)
Fixpoint factoryAfter (nf : NF) (Fs : list Function) : NF :=
  match Fs with
  | [] => nf
  | F :: Fs' =>
      factoryAfter (if fhasAddressTaken F
                    then fst (createValueNode nf (fid F)) else nf) Fs'
  end.

(** The assertion of the sweep holds at every function of [Fs]: when
    its turn comes, a function whose address is taken has an object
    node. *)
Fixpoint objectNodesFound (nf : NF) (Fs : list Function) : bool :=
  match Fs with
  | [] => true
  | F :: Fs' =>
      if fhasAddressTaken F then
        notInvalid (getObjectNodeFor (fst (createValueNode nf (fid F))) (fid F))
        && objectNodesFound (fst (createValueNode nf (fid F))) Fs'
      else objectNodesFound nf Fs'
  end.

(** The edge from the value node created for [F] in the factory [nf] to
    the object node of [F]. *)
Definition hasFunctionEdge (nf : NF) (F : Function) (st' : State) : Prop :=
  getObjectNodeFor (fst (createValueNode nf (fid F))) (fid F)
  ∈ pts (funcPtsGraph st') (snd (createValueNode nf (fid F))).

(** [F] returns a pointer to the struct type with the identity [k]. *)
Definition returnsStruct (Mod : Module) (F : Function) (k : N) : Prop :=
  ∃ si, structOfPointer getStructInfo (fretTy F) (mid Mod) = Some si ∧
        siId si = k.

(** [F] takes a pointer to the struct type with the identity [k]. *)
Definition takesStruct (Mod : Module) (F : Function) (k : N) : Prop :=
  ∃ A si, A ∈ fargs F ∧
          structOfPointer getStructInfo (vty A) (mid Mod) = Some si ∧
          siId si = k.

(** [GV] is no external global and, under its array layers, of the
    struct type with the identity [k]. *)
Definition holdsStruct (Mod : Module) (ext : gset N) (GV : GlobalVariable)
    (k : N) : Prop :=
  (gvguid GV ∉ ext) ∧
  isStructTy (collapseArrayTy (gvElementType GV)) = true ∧
  ∃ si, getStructInfo (collapseArrayTy (gvElementType GV)) (mid Mod) = Some si ∧
        siId si = k.

Lemma recordStruct_keys si node (m : gmap N (StructInfo * gset N)) k :
  is_Some (recordStruct si node m !! k) ↔ is_Some (m !! k) ∨ siId si = k.
Proof.
  unfold recordStruct. destruct (decide (siId si = k)) as [<-|Hne].
  - rewrite lookup_insert_eq. split; [by right|by eexists].
  - rewrite lookup_insert_ne by done. split; [by left|by intros [?|?]].
Qed.

(** What the body of the loop over the functions does for [F]. *)
Definition initStep (Mod : Module) (F : Function) (st st' : State) : Prop :=
  Funcs st' = Funcs st ∧ Callees st' = Callees st ∧
  Callers st' =
    <[fid (default F (Funcs st !! fguid F)) :=
        directCallers Mod F
        ∪ default ∅ (Callers st !! fid (default F (Funcs st !! fguid F)))]>
      (Callers st) ∧
  AddressTakenFuncs st' =
    (if fhasAddressTaken F then <[fid F := F]> (AddressTakenFuncs st)
     else AddressTakenFuncs st) ∧
  nodeFactory st' =
    (if fhasAddressTaken F then fst (createValueNode (nodeFactory st) (fid F))
     else nodeFactory st) ∧
  graph_le st st' ∧
  (fhasAddressTaken F = true → hasFunctionEdge (nodeFactory st) F st') ∧
  reachable st' =
    (if isEntry F then {[fid F]} ∪ reachable st else reachable st) ∧
  unvisited st' =
    (if isEntry F then {[fid F]} ∪ unvisited st else unvisited st) ∧
  globalStructs st' = globalStructs st ∧
  (∀ k, is_Some (retStructs st' !! k) ↔
        is_Some (retStructs st !! k) ∨ returnsStruct Mod F k) ∧
  (∀ k, is_Some (argStructs st' !! k) ↔
        is_Some (argStructs st !! k) ∨ takesStruct Mod F k).

Lemma forM_initGlobal Mod GVs : ∀ st : State,
  ∃ st', forM (initGlobal getStructInfo Mod) GVs st = (Done tt, st') ∧
         st' = upd_globalStructs (λ _, globalStructs st') st ∧
         ∀ k, is_Some (globalStructs st' !! k) ↔
              is_Some (globalStructs st !! k) ∨
              ∃ GV, GV ∈ GVs ∧ holdsStruct Mod (ExtGobjs st) GV k.
Proof.
  induction GVs as [|GV GVs IH]; intros st; simpl.
  - exists st. split; [done|]. split; [by destruct st|].
    intros k. split; [by left|]. by intros [?|(? & ?%elem_of_nil & _)].
  - assert (∃ st1, initGlobal getStructInfo Mod GV st = (Done tt, st1) ∧
                   st1 = upd_globalStructs (λ _, globalStructs st1) st ∧
                   ∀ k, is_Some (globalStructs st1 !! k) ↔
                        is_Some (globalStructs st !! k) ∨
                        holdsStruct Mod (ExtGobjs st) GV k)
      as (st1 & Hrun1 & Hf1 & Hk1).
    { unfold initGlobal, holdsStruct, mbind, M_bind, bind, gets, modify, mret,
        M_ret, ret.
      destruct (decide (gvguid GV ∈ ExtGobjs st)) as [Hext|Hext].
      { rewrite bool_decide_eq_true_2 by done.
        exists st. split; [done|]. split; [by destruct st|].
        intros k. split; [by left|]. by intros [?|[? _]]. }
      rewrite bool_decide_eq_false_2 by done.
      destruct (isStructTy _) eqn:Hst.
      2:{ exists st. split; [done|]. split; [by destruct st|].
          intros k. split; [by left|]. by intros [?|(_ & ? & _)]. }
      destruct (getStructInfo _ _) as [si|] eqn:Hsi.
      2:{ exists st. split; [done|]. split; [by destruct st|].
          intros k. split; [by left|]. by intros [?|(_ & _ & ? & ? & _)]. }
      eexists. split; [done|]. split; [by destruct st|].
      intros k. simpl. rewrite recordStruct_keys. split.
      - intros [?|?]; [by left|right]. split; [done|]. split; [done|].
        by exists si.
      - intros [?|(_ & _ & si' & [= <-] & ?)]; [by left|by right]. }
    destruct (IH st1) as (st2 & Hrun2 & Hf2 & Hk2).
    exists st2. split; [|split].
    + unfold mbind, M_bind, bind. by rewrite Hrun1.
    + rewrite Hf2, Hf1. by destruct st.
    + intros k. rewrite Hk2, Hk1.
      assert (ExtGobjs st1 = ExtGobjs st) as -> by by rewrite Hf1.
      split.
      * intros [[?|?]|(GV' & ? & ?)]; auto.
        -- right. exists GV. split; [by left|done].
        -- right. exists GV'. split; [by right|done].
      * intros [?|(GV' & [->|?]%elem_of_cons & ?)]; auto.
        right. by exists GV'.
Qed.

Lemma forM_argStructs Mod args : ∀ st : State,
  ∃ st',
    forM (λ A : Value,
            match structOfPointer getStructInfo (vty A) (mid Mod) with
            | Some stInfo =>
                nf ← gets nodeFactory;
                modify (upd_argStructs
                          (recordStruct stInfo (getValueNodeFor nf (vid A))))
            | None => mret tt
            end) args st = (Done tt, st') ∧
    st' = upd_argStructs (λ _, argStructs st') st ∧
    ∀ k, is_Some (argStructs st' !! k) ↔
         is_Some (argStructs st !! k) ∨
         ∃ A si, A ∈ args ∧
                 structOfPointer getStructInfo (vty A) (mid Mod) = Some si ∧
                 siId si = k.
Proof.
  induction args as [|A args IH]; intros st; simpl.
  - exists st. split; [done|]. split; [by destruct st|].
    intros k. split; [by left|]. by intros [?|(? & ? & ?%elem_of_nil & _)].
  - unfold mbind, M_bind, bind at 1.
    destruct (structOfPointer getStructInfo (vty A) (mid Mod)) as [si|] eqn:Hs;
      simpl.
    + unfold mbind, M_bind, bind, gets, modify. simpl.
      destruct (IH (upd_argStructs
                      (recordStruct si (getValueNodeFor (nodeFactory st) (vid A))) st))
        as (st' & Hrun & Hf & Hk).
      exists st'. split; [exact Hrun|]. split; [rewrite Hf; by destruct st|].
      intros k. rewrite Hk. simpl. rewrite recordStruct_keys. split.
      * intros [[?|?]|(A' & si' & ? & ? & ?)]; auto.
        -- right. exists A, si. split; [by left|done].
        -- right. exists A', si'. split; [by right|done].
      * intros [?|(A' & si' & [->|?]%elem_of_cons & Hs' & ?)]; auto.
        -- left. right. congruence.
        -- right. by exists A', si'.
    + destruct (IH st) as (st' & Hrun & Hf & Hk).
      exists st'. split; [exact Hrun|]. split; [done|].
      intros k. rewrite Hk. split.
      * intros [?|(A' & si' & ? & ? & ?)]; auto.
        right. exists A', si'. split; [by right|done].
      * intros [?|(A' & si' & [->|?]%elem_of_cons & Hs' & ?)]; auto;
          [congruence|].
        right. by exists A', si'.
Qed.

Lemma initFunction_returns Mod F (st : State) :
  (fhasAddressTaken F = true →
   notInvalid (getObjectNodeFor (fst (createValueNode (nodeFactory st) (fid F)))
                                (fid F)) = true) →
  ∃ st', initFunction getStructInfo Mod F st = (Done tt, st') ∧
         initStep Mod F st st'.
Proof.
  intros Hpre.
  unfold initFunction, initStep, hasFunctionEdge, directCallers,
    returnsStruct, takesStruct.
  destruct (fhasAddressTaken F) eqn:Ht, (isEntry F) eqn:He,
    (structOfPointer getStructInfo (fretTy F) (mid Mod)) as [si|] eqn:Hs.
  all: unfold getFuncDef, ptsInsert, mbind, M_bind, bind, gets, modify, mret,
         M_ret, ret; simpl.
  all: try (specialize (Hpre eq_refl);
            destruct (createValueNode (nodeFactory st) (fid F)) as [nf' v] eqn:Hc;
            simpl in *; rewrite Hpre; simpl).
  all: match goal with
       | |- ∃ st', forM ?f ?l ?s = _ ∧ _ =>
           destruct (forM_argStructs Mod l s) as (st' & Hrun & Hf & Hk);
           exists st'; split; [exact Hrun|];
           simpl in Hk; rewrite Hf; simpl
       end.
  all: repeat match goal with |- _ ∧ _ => split end; try done; try exact Hk.
  all: try (intros n; simpl; rewrite pts_insert; destruct (decide (v = n)) as [->|];
            set_solver).
  all: try (intros _; rewrite pts_insert, decide_True by done; set_solver).
  all: try (intros n; done).
  all: try (intros k; rewrite recordStruct_keys; split;
            [intros [?|?]; [by left|right; by exists si]
            |intros [?|(si' & [= <-] & ?)]; [by left|by right]]).
  all: intros k; split; [by left|]; by intros [?|(? & ? & _)].
Qed.

(** What the loop over the functions [Fs] does. *)
Definition initialised (Mod : Module) (Fs : list Function)
    (st st' : State) : Prop :=
  Funcs st' = Funcs st ∧ Callees st' = Callees st ∧
  (∀ g cs, cs ∈ callersOf st' g ↔
           cs ∈ callersOf st g ∨
           ∃ F, F ∈ Fs ∧ fid (default F (Funcs st !! fguid F)) = g ∧
                cs ∈ directCallers Mod F) ∧
  (∀ k, is_Some (AddressTakenFuncs st' !! k) ↔
        is_Some (AddressTakenFuncs st !! k) ∨
        ∃ F, F ∈ Fs ∧ fhasAddressTaken F = true ∧ fid F = k) ∧
  (∀ k F, AddressTakenFuncs st' !! k = Some F →
          AddressTakenFuncs st !! k = Some F ∨
          (F ∈ Fs ∧ fhasAddressTaken F = true ∧ fid F = k)) ∧
  nodeFactory st' = factoryAfter (nodeFactory st) Fs ∧
  graph_le st st' ∧
  (∀ pre F post, Fs = pre ++ F :: post → fhasAddressTaken F = true →
                 hasFunctionEdge (factoryAfter (nodeFactory st) pre) F st') ∧
  reachable st' = reachable st ∪ entriesOf Fs ∧
  unvisited st' = unvisited st ∪ entriesOf Fs ∧
  globalStructs st' = globalStructs st ∧
  (∀ k, is_Some (retStructs st' !! k) ↔
        is_Some (retStructs st !! k) ∨ ∃ F, F ∈ Fs ∧ returnsStruct Mod F k) ∧
  (∀ k, is_Some (argStructs st' !! k) ↔
        is_Some (argStructs st !! k) ∨ ∃ F, F ∈ Fs ∧ takesStruct Mod F k).

Lemma initialised_nil Mod st : initialised Mod [] st st.
Proof.
  split; [done|]. split; [done|].
  split; [intros g cs; split; [by left|intros [?|(? & ?%elem_of_nil & _)]; done]|].
  split; [intros k; split; [by left|intros [?|(? & ?%elem_of_nil & _)]; done]|].
  split; [by left|]. split; [done|]. split; [apply graph_le_refl|].
  split; [by intros [|] F post ?|].
  unfold entriesOf. simpl. split; [set_solver|]. split; [set_solver|].
  split; [done|].
  split; intros k; (split; [by left|]);
    by intros [?|(? & ?%elem_of_nil & _)].
Qed.

Lemma initialised_cons Mod F Fs st st1 st2 :
  initStep Mod F st st1 → initialised Mod Fs st1 st2 →
  initialised Mod (F :: Fs) st st2.
Proof.
  intros (HF1 & HC1 & HCs1 & HT1 & HN1 & HG1 & HE1 & HR1 & HU1
          & Hgs1 & Hrs1 & Has1)
         (HF2 & HC2 & HCs2 & HT2 & HTv2 & HN2 & HG2 & HE2 & HR2 & HU2
          & Hgs2 & Hrs2 & Has2).
  split; [congruence|]. split; [congruence|].
  split; [|split; [|split; [|split; [|split; [|split; [|split;
    [|split; [|split; [|split]]]]]]]]].
  - intros g cs. rewrite HCs2, HF1. unfold callersOf at 1. rewrite HCs1.
    set (RF := default F (Funcs st !! fguid F)).
    destruct (decide (fid RF = g)) as [<-|Hne].
    + rewrite lookup_insert_eq. simpl. rewrite elem_of_union.
      fold (callersOf st (fid RF)). split.
      * intros [[?|?]|(F' & ? & ? & ?)]; auto.
        -- right. exists F. split; [by left|done].
        -- right. exists F'. split; [by right|done].
      * intros [?|(F' & [->|?]%elem_of_cons & ? & ?)]; auto.
        right. by exists F'.
    + rewrite lookup_insert_ne by done. fold (callersOf st g). split.
      * intros [?|(F' & ? & ? & ?)]; auto.
        right. exists F'. split; [by right|done].
      * intros [?|(F' & [->|?]%elem_of_cons & ? & ?)]; auto; [done|].
        right. by exists F'.
  - intros k. rewrite HT2, HT1. split.
    + intros [Hk|(F' & ? & ? & ?)].
      * destruct (fhasAddressTaken F) eqn:Ht; [|by left].
        destruct (decide (fid F = k)) as [<-|Hne].
        -- right. exists F. split; [by left|done].
        -- rewrite lookup_insert_ne in Hk by done. by left.
      * right. exists F'. split; [by right|done].
    + intros [Hk|(F' & [->|?]%elem_of_cons & Ht & <-)].
      * left. destruct (fhasAddressTaken F); [|done].
        destruct (decide (fid F = k)) as [<-|Hne].
        -- rewrite lookup_insert_eq. by eexists.
        -- by rewrite lookup_insert_ne.
      * left. rewrite Ht, lookup_insert_eq. by eexists.
      * right. by exists F'.
  - intros k F' [Hk|(? & ? & ?)]%HTv2.
    + rewrite HT1 in Hk. destruct (fhasAddressTaken F) eqn:Ht; [|by left].
      destruct (decide (fid F = k)) as [<-|Hne].
      * rewrite lookup_insert_eq in Hk. injection Hk as <-.
        right. split; [by left|done].
      * rewrite lookup_insert_ne in Hk by done. by left.
    + right. split; [by right|done].
  - simpl. by rewrite HN2, HN1.
  - by eapply graph_le_trans.
  - intros [|F0 pre] F' post Heq Ht; simpl in *.
    + injection Heq as <- <-. apply HG2, HE1, Ht.
    + injection Heq as <- ->. rewrite <- HN1. by eapply HE2.
  - rewrite HR2, HR1, entriesOf_cons. destruct (isEntry F); set_solver.
  - rewrite HU2, HU1, entriesOf_cons. destruct (isEntry F); set_solver.
  - congruence.
  - intros k. rewrite Hrs2, Hrs1. split.
    + intros [[?|?]|(F' & ? & ?)]; auto.
      * right. exists F. split; [by left|done].
      * right. exists F'. split; [by right|done].
    + intros [?|(F' & [->|?]%elem_of_cons & ?)]; auto.
      right. by exists F'.
  - intros k. rewrite Has2, Has1. split.
    + intros [[?|?]|(F' & ? & ?)]; auto.
      * right. exists F. split; [by left|done].
      * right. exists F'. split; [by right|done].
    + intros [?|(F' & [->|?]%elem_of_cons & ?)]; auto.
      right. by exists F'.
Qed.

Lemma forM_initFunction Mod (Fs : list (Function * list Instruction)) :
  ∀ st : State,
  objectNodesFound (nodeFactory st) (map fst Fs) = true →
  ∃ st',
    forM (λ FI, initFunction getStructInfo Mod (fst FI)) Fs st = (Done tt, st') ∧
    initialised Mod (map fst Fs) st st'.
Proof.
  induction Fs as [|FI Fs IH]; intros st Hfound; simpl in *.
  - exists st. split; [done|apply initialised_nil].
  - destruct (initFunction_returns Mod (fst FI) st) as (st1 & Hrun1 & Hstep).
    { intros Ht. rewrite Ht in Hfound. by apply andb_true_iff in Hfound as [? _]. }
    destruct (IH st1) as (st2 & Hrun2 & Hinit).
    { destruct Hstep as (_ & _ & _ & _ & -> & _).
      destruct (fhasAddressTaken (fst FI)); [|done].
      by apply andb_true_iff in Hfound as [_ ?]. }
    exists st2. split.
    + unfold mbind, M_bind, bind. by rewrite Hrun1.
    + by eapply initialised_cons.
Qed.

Lemma doInitialization_returns Mod (st : State) :
  objectNodesFound (nodeFactory st) (map fst (mfunctions Mod)) = true →
  ∃ st1 st',
    doInitialization getStructInfo Mod st = (Done false, st') ∧
    st1 = upd_globalStructs (λ _, globalStructs st1) st ∧
    (∀ k, is_Some (globalStructs st1 !! k) ↔
          is_Some (globalStructs st !! k) ∨
          ∃ GV, GV ∈ mglobals Mod ∧ holdsStruct Mod (ExtGobjs st) GV k) ∧
    initialised Mod (map fst (mfunctions Mod)) st1 st'.
Proof.
  intros Hfound.
  destruct (forM_initGlobal Mod (mglobals Mod) st) as (st1 & Hrun1 & Hf1 & Hk1).
  destruct (forM_initFunction Mod (mfunctions Mod) st1) as (st2 & Hrun2 & Hinit).
  { by rewrite Hf1. }
  exists st1, st2. split; [|done].
  unfold doInitialization, mbind, M_bind, bind. by rewrite Hrun1, Hrun2.
Qed.

Lemma initFunction_fatal Mod F (st : State) :
  fhasAddressTaken F = true →
  notInvalid (getObjectNodeFor (fst (createValueNode (nodeFactory st) (fid F)))
                               (fid F)) = false →
  fst (initFunction getStructInfo Mod F st) = Fatal "Object node not found!".
Proof.
  intros Ht Hno. unfold initFunction. rewrite Ht.
  unfold getFuncDef, mbind, M_bind, bind, gets, modify, mret, M_ret, ret. simpl.
  destruct (createValueNode (nodeFactory st) (fid F)) as [nf' v] eqn:Hc.
  simpl in *. by rewrite Hno.
Qed.

Lemma forM_initFunction_fatal Mod (Fs : list (Function * list Instruction)) :
  ∀ st : State,
  objectNodesFound (nodeFactory st) (map fst Fs) = false →
  fst (forM (λ FI, initFunction getStructInfo Mod (fst FI)) Fs st)
  = Fatal "Object node not found!".
Proof.
  induction Fs as [|FI Fs IH]; intros st Hfound; simpl in *; [done|].
  destruct (fhasAddressTaken (fst FI)) eqn:Ht.
  - destruct (notInvalid _) eqn:Hinv; simpl in Hfound.
    + destruct (initFunction_returns Mod (fst FI) st) as (st1 & Hrun1 & Hstep);
        [done|].
      unfold mbind, M_bind, bind. rewrite Hrun1. apply IH.
      destruct Hstep as (_ & _ & _ & _ & -> & _). by rewrite Ht.
    + pose proof (initFunction_fatal Mod (fst FI) st Ht Hinv) as Hf.
      unfold mbind, M_bind, bind.
      destruct (initFunction getStructInfo Mod (fst FI) st) as [[?|?|] ?];
        simpl in *; congruence.
  - destruct (initFunction_returns Mod (fst FI) st) as (st1 & Hrun1 & Hstep);
      [by rewrite Ht|].
    unfold mbind, M_bind, bind. rewrite Hrun1. apply IH.
    destruct Hstep as (_ & _ & _ & _ & -> & _). by rewrite Ht.
Qed.

(** X15: the initialization sweep of a module completes when every
    function of the module whose address is taken has an object node at
    its turn.  It then has marked as reachable, and as unvisited, the
    functions of the module named [main] or [SyS_...] and no other, and
    has recorded each [CallInst] of the module that calls a function [F]
    directly among the callers of the definition [getFuncDef] resolves
    [F] to, adding nothing else to [Callers] and nothing to [Callees]. *)
Theorem doInitialization_seeds_entries_and_callers (Mod : Module) (st : State) :
  objectNodesFound (nodeFactory st) (map fst (mfunctions Mod)) = true →
  ∃ st',
    doInitialization getStructInfo Mod st = (Done false, st') ∧
    reachable st' = reachable st ∪ entriesOf (map fst (mfunctions Mod)) ∧
    unvisited st' = unvisited st ∪ entriesOf (map fst (mfunctions Mod)) ∧
    Callees st' = Callees st ∧
    (∀ g cs, cs ∈ callersOf st' g ↔
             cs ∈ callersOf st g ∨
             ∃ F, F ∈ map fst (mfunctions Mod) ∧
                  fid (default F (Funcs st !! fguid F)) = g ∧
                  cs ∈ directCallers Mod F).
Proof.
  intros Hfound.
  destruct (doInitialization_returns Mod st Hfound)
    as (st1 & st' & Hrun & Hf1 & _ & Hinit).
  rewrite Hf1 in Hinit.
  destruct Hinit as (_ & HC & HCs & _ & _ & _ & _ & _ & HR & HU & _).
  by exists st'.
Qed.

(** X16: the initialization sweep stops at the assertion
    [Object node not found!] exactly when some function of the module
    whose address is taken lacks an object node at its turn.  Otherwise
    it completes, and then the functions it has added to
    [AddressTakenFuncs] are the functions of the module whose address is
    taken; for each of them it has created a value node, and the set of
    that node holds the object node of the function. *)
Theorem doInitialization_collects_address_taken (Mod : Module) (st : State) :
  if objectNodesFound (nodeFactory st) (map fst (mfunctions Mod)) then
    ∃ st',
      doInitialization getStructInfo Mod st = (Done false, st') ∧
      (∀ k, is_Some (AddressTakenFuncs st' !! k) ↔
            is_Some (AddressTakenFuncs st !! k) ∨
            ∃ F, F ∈ map fst (mfunctions Mod) ∧
                 fhasAddressTaken F = true ∧ fid F = k) ∧
      (∀ k F, AddressTakenFuncs st' !! k = Some F →
              AddressTakenFuncs st !! k = Some F ∨
              (F ∈ map fst (mfunctions Mod) ∧
               fhasAddressTaken F = true ∧ fid F = k)) ∧
      nodeFactory st' =
        factoryAfter (nodeFactory st) (map fst (mfunctions Mod)) ∧
      (∀ pre F post,
          map fst (mfunctions Mod) = pre ++ F :: post →
          fhasAddressTaken F = true →
          hasFunctionEdge (factoryAfter (nodeFactory st) pre) F st')
  else
    fst (doInitialization getStructInfo Mod st)
    = Fatal "Object node not found!".
Proof.
  destruct (objectNodesFound _ _) eqn:Hfound.
  - destruct (doInitialization_returns Mod st Hfound)
      as (st1 & st' & Hrun & Hf1 & _ & Hinit).
    rewrite Hf1 in Hinit.
    destruct Hinit as (_ & _ & _ & HT & HTv & HN & _ & HE & _).
    by exists st'.
  - destruct (forM_initGlobal Mod (mglobals Mod) st) as (st1 & Hrun1 & Hf1 & _).
    pose proof (forM_initFunction_fatal Mod (mfunctions Mod) st1) as Hf.
    rewrite Hf1 in Hf at 1. specialize (Hf Hfound).
    unfold doInitialization, mbind, M_bind, bind. rewrite Hrun1.
    destruct (forM _ (mfunctions Mod) st1) as [[?|?|] ?]; simpl in *;
      congruence.
Qed.

(** X21: when the initialization sweep completes, the struct types it
    has added to [retStructs] are those some function of the module
    returns a pointer to, the ones added to [argStructs] those some
    function of the module takes a pointer to, and the ones added to
    [globalStructs] those that some global of the module that is not
    external has under its array layers; a struct type that the layout
    oracle does not know is not recorded. *)
Theorem doInitialization_records_struct_types (Mod : Module) (st : State) :
  objectNodesFound (nodeFactory st) (map fst (mfunctions Mod)) = true →
  ∃ st',
    doInitialization getStructInfo Mod st = (Done false, st') ∧
    (∀ k, is_Some (retStructs st' !! k) ↔
          is_Some (retStructs st !! k) ∨
          ∃ F, F ∈ map fst (mfunctions Mod) ∧ returnsStruct Mod F k) ∧
    (∀ k, is_Some (argStructs st' !! k) ↔
          is_Some (argStructs st !! k) ∨
          ∃ F, F ∈ map fst (mfunctions Mod) ∧ takesStruct Mod F k) ∧
    (∀ k, is_Some (globalStructs st' !! k) ↔
          is_Some (globalStructs st !! k) ∨
          ∃ GV, GV ∈ mglobals Mod ∧ holdsStruct Mod (ExtGobjs st) GV k).
Proof.
  intros Hfound.
  destruct (doInitialization_returns Mod st Hfound)
    as (st1 & st' & Hrun & Hf1 & Hgk & Hinit).
  destruct Hinit as (_ & _ & _ & _ & _ & _ & _ & _ & _ & _ & Hgs & Hrs & Has).
  exists st'. split; [exact Hrun|].
  rewrite Hf1 in Hrs, Has. simpl in Hrs, Has.
  split; [exact Hrs|]. split; [exact Has|].
  intros k. rewrite Hgs. apply Hgk.
Qed.

End Initialization.

(** Witness for X15: the initialization sweep of [Examples.chainTaken],
    the factory holding the object node of [cb]. *)
Lemma doInitialization_seeds_entries_and_callers_witness :
  ∃ st',
    doInitialization Examples.noStructInfo Examples.chainTaken
      (Examples.initial Examples.cbFactory) = (Done false, st') ∧
    reachable st' = {[100]} ∧
    213 ∈ callersOf st' 101.
Proof.
  destruct (doInitialization_seeds_entries_and_callers Examples.noStructInfo
              Examples.chainTaken (Examples.initial Examples.cbFactory))
    as (st' & Hrun & HR & _ & _ & HCs).
  - vm_compute. reflexivity.
  - exists st'. split; [exact Hrun|]. split.
    + rewrite HR. vm_compute. reflexivity.
    + apply HCs. right. exists Examples.f_foo. split; [|split].
      * simpl. right. left.
      * reflexivity.
      * vm_compute. reflexivity.
Defined.

(** In the example [cb] is collected and its value node, 3, points to its
    object node, 2; without the object node the sweep stops. *)
Example initialization_example :
  let st' := snd (doInitialization Examples.noStructInfo Examples.chainTaken
                    (Examples.initial Examples.cbFactory)) in
  AddressTakenFuncs st' = {[103 := Examples.f_cb]} ∧
  funcPtsGraph st' = {[3 := {[2]}]} ∧
  fst (doInitialization Examples.noStructInfo Examples.chainTaken
         (Examples.initial SpecFactory.empty))
  = Fatal "Object node not found!".
Proof. split; [|split]; vm_compute; reflexivity. Qed.

(** Witness for X21: [make] returns a pointer to [struct s] and [use]
    takes one. *)
Lemma doInitialization_records_struct_types_witness :
  ∃ st',
    doInitialization ShortcutExample.structInfo ShortcutExample.prog
      (Examples.initial ShortcutExample.factory) = (Done false, st') ∧
    is_Some (retStructs st' !! 1) ∧ is_Some (argStructs st' !! 1) ∧
    globalStructs st' !! 1 = None.
Proof.
  destruct (doInitialization_records_struct_types ShortcutExample.structInfo
              ShortcutExample.prog (Examples.initial ShortcutExample.factory))
    as (st' & Hrun & Hrs & Has & Hgs).
  - vm_compute. reflexivity.
  - exists st'. split; [exact Hrun|]. split; [|split].
    + apply Hrs. right. exists ShortcutExample.make. split.
      * simpl. left.
      * exists ShortcutExample.sInfo. split; reflexivity.
    + apply Has. right. exists ShortcutExample.use. split.
      * simpl. right. left.
      * exists (mkValue 300 (PointerTy ShortcutExample.sTy 0)),
          ShortcutExample.sInfo.
        split; [simpl; left|split; reflexivity].
    + apply eq_None_not_Some. intros [Hk|(GV & Hin & _)]%Hgs.
      * vm_compute in Hk. by destruct Hk.
      * simpl in Hin. by apply elem_of_nil in Hin.
Defined.

(** In the example the tables are those of [ShortcutExample.before]. *)
Example struct_tables_example :
  let st' := snd (doInitialization ShortcutExample.structInfo ShortcutExample.prog
                    (Examples.initial ShortcutExample.factory)) in
  retStructs st' = retStructs ShortcutExample.before ∧
  argStructs st' = argStructs ShortcutExample.before.
Proof. split; vm_compute; reflexivity. Qed.


(** * What a GEP derives *)

Section Gep.

Context {NF : Type} `{AndersNodeFactory NF}.
Variable getStructInfo : Ty → N → option StructInfo.
Variable getGEPOffset : Instruction → N → Z.
Variable offsetToFieldNum : Ty → Z → N → N.
Variable extendObjectSize : NF → N → Ty → N → NF * N.
Local Abbreviation State := (State (NF:=NF)).
Local Abbreviation M := (M (NF:=NF)).

(** The object [idx] is smaller than the struct type the GEP indexes. *)
Definition tooSmall (nf : NF) (F : Function) (srcTy : Ty) (idx : N) : bool :=
  isStructTy (getElementTy srcTy)
  && (getObjectSize nf idx
      <? from_option siExpandedSize 0
           (getStructInfo (getElementTy srcTy) (fparent F))).

(** The node the GEP [I] derives from the object [idx]: the field node
    at the field number of the offset, or the node at [allocSize - 1]
    when the field number exceeds the size. *)
Definition gepField (nf : NF) (F : Function) (I : Instruction) (srcTy : Ty)
    (idx : N) : N :=
  let fieldNum :=
    offsetToFieldNum srcTy (getGEPOffset I (fparent F)) (fparent F) in
  if getObjectSize nf idx <? add32 (getObjectOffset nf idx) fieldNum
  then sub32 (getObjectSize nf idx) 1
  else add32 idx fieldNum.

(** What the GEP [I] adds for the object [idx]: a special node is handed
    on as it is, an object that is too small is dropped. *)
Definition gepTargets (nf : NF) (F : Function) (I : Instruction) (srcTy : Ty)
    (idx : N) : gset N :=
  if isSpecialNode nf idx then {[idx]}
  else if tooSmall nf F srcTy idx then ∅
  else {[gepField nf F I srcTy idx]}.

Section Loop.
Variables (st : State) (F : Function) (I : Instruction) (srcTy : Ty)
          (valNode ptrNode : N) (sp : gset N).
Hypothesis Hptr : funcPtsGraph st !! ptrNode = Some sp.
Hypothesis Hoff : (0 ≤ getGEPOffset I (fparent F))%Z.
Hypothesis Hinfo :
  isStructTy (getElementTy srcTy) = true →
  is_Some (getStructInfo (getElementTy srcTy) (fparent F)).
Hypothesis Hopaque : ∀ idx,
  tooSmall (nodeFactory st) F srcTy idx = true →
  isOpaqueObject (nodeFactory st) idx = false.

Let J (st1 : State) : Prop :=
  graphOnly st st1 ∧
  (∀ n, n ≠ valNode → pts (funcPtsGraph st1) n = pts (funcPtsGraph st) n) ∧
  pts (funcPtsGraph st) valNode ⊆ pts (funcPtsGraph st1) valNode ∧
  (∀ x, x ∈ pts (funcPtsGraph st1) valNode →
        x ∈ pts (funcPtsGraph st) valNode ∨
        ∃ o, o ∈ pts (funcPtsGraph st1) ptrNode ∧
             x ∈ gepTargets (nodeFactory st) F I srcTy o).
Let P (o : N) (st1 : State) : Prop :=
  gepTargets (nodeFactory st) F I srcTy o ⊆ pts (funcPtsGraph st1) valNode.





End Loop.


End Gep.




(** * What a direct call records *)

Section SolverOnly.

Context {NF : Type} `{AndersNodeFactory NF}.
Local Abbreviation State := (State (NF:=NF)).
Local Abbreviation M := (M (NF:=NF)).

(** [st'] is [st] with another node factory and another graph. *)
Definition solverOnly (st st' : State) : Prop :=
  st' = upd_funcPtsGraph (λ _, funcPtsGraph st')
          (upd_nodeFactory (λ _, nodeFactory st') st).

Lemma solverOnly_refl st : solverOnly st st.
Proof. by destruct st. Qed.

Lemma solverOnly_trans st1 st2 st3 :
  solverOnly st1 st2 → solverOnly st2 st3 → solverOnly st1 st3.
Proof. unfold solverOnly. intros H1 H2. rewrite H2, H1. by destruct st1. Qed.

Lemma solverOnly_graph st f : solverOnly st (upd_funcPtsGraph f st).
Proof. by destruct st. Qed.

Lemma solverOnly_factory st f : solverOnly st (upd_nodeFactory f st).
Proof. by destruct st. Qed.

Lemma traced_solverOnly {A} (m : M A) st :
  traced solverOnly m → solverOnly st (snd (m st)).
Proof.
  intros Htr. apply (rtc_across solverOnly solverOnly);
    eauto using solverOnly_refl, solverOnly_trans.
Qed.

End SolverOnly.

Ltac tr_c :=
  trace_by ltac:(first
    [ apply traced_modify; intros; apply solverOnly_graph
    | apply traced_modify; intros; apply solverOnly_factory ]).

Section DirectCall.

Context {NF : Type} `{AndersNodeFactory NF}.
Variable LLVM_VERSION_MAJOR : N.
Local Abbreviation State := (State (NF:=NF)).
Local Abbreviation M := (M (NF:=NF)).
Local Abbreviation solverOnly := (solverOnly (NF:=NF)).

Lemma solverOnly_ptsInsert n idx : traced solverOnly (ptsInsert n idx).
Proof. unfold ptsInsert. tr_c. Qed.

Lemma solverOnly_ptsCopy dst src : traced solverOnly (ptsCopy dst src).
Proof. unfold ptsCopy. tr_c. Qed.

#[local] Hint Resolve solverOnly_ptsInsert solverOnly_ptsCopy : traced.

Lemma solverOnly_bindArgs actuals : ∀ formals c,
  traced solverOnly (bindArgs actuals formals c).
Proof.
  induction actuals as [|a actuals IH]; intros [|f formals] c; simpl; tr_c.
Qed.

Lemma solverOnly_bindReturn CS CF callNode idx c :
  traced solverOnly (bindReturn CS CF callNode idx c).
Proof. unfold bindReturn. tr_c. Qed.

#[local] Hint Resolve solverOnly_bindArgs solverOnly_bindReturn : traced.

(** Binding the arguments and the return value of a call changes the
    node factory and the graph only, whatever its outcome. *)
Lemma solverOnly_handleCall CS CF : traced solverOnly (handleCall CS CF).
Proof. unfold handleCall. tr_c. Qed.

(** X18: at a direct call of [CF], whatever comes of binding arguments
    and return value, the call site has the definition that [getFuncDef]
    resolves [CF] to among its callees, beside the callees it had; that
    definition is reachable; it is queued as unvisited when it was not
    reachable before, and the queue is left alone otherwise.  No other
    key of [Callees] changes, and [Callers] and the type-based table are
    not touched. *)
Theorem direct_call_records_definition (CS : Instruction) (CF : Function)
    (c : bool) (st : State) :
  let RCF := default CF (Funcs st !! fguid CF) in
  let st' := snd (runCall LLVM_VERSION_MAJOR CS (CalledFunction CF) c st) in
  Callees st' =
    <[iid CS := {[fid RCF]} ∪ default ∅ (Callees st !! iid CS)]> (Callees st) ∧
  reachable st' = {[fid RCF]} ∪ reachable st ∧
  unvisited st' =
    (if bool_decide (fid RCF ∈ reachable st) then unvisited st
     else {[fid RCF]} ∪ unvisited st) ∧
  Callers st' = Callers st ∧ calleeByType st' = calleeByType st ∧
  unresolvedFPts st' = unresolvedFPts st.
Proof.
  intros RCF st'.
  set (st1 := snd (addCallee CS RCF st)).
  assert (addCallee CS RCF st = (Done tt, st1)) as Ha.
  { unfold st1, addCallee, mbind, M_bind, bind, gets, modify. simpl.
    by destruct (bool_decide _). }
  assert (st' = snd (handleCall CS RCF st1)) as Hst'.
  { unfold st', runCall, getFuncDef, mbind, M_bind, bind, gets, mret, M_ret, ret.
    cbv beta. fold RCF. rewrite Ha.
    by destruct (handleCall CS RCF st1) as [[?| |] ?]. }
  pose proof (traced_solverOnly (handleCall CS RCF) st1
                (solverOnly_handleCall CS RCF)) as Hs.
  rewrite <- Hst' in Hs. rewrite Hs. simpl.
  unfold st1, addCallee, mbind, M_bind, bind, gets, modify.
  simpl. destruct (decide (fid RCF ∈ reachable st)) as [Hin|Hout].
  - rewrite bool_decide_eq_false_2 by (by intros ?).
    rewrite bool_decide_eq_true_2 by done. by simpl.
  - rewrite bool_decide_eq_true_2 by done.
    rewrite bool_decide_eq_false_2 by done. by simpl.
Qed.

End DirectCall.

(** In the call chain, [main] calls [foo]: the call site 213 gets [foo]
    as callee, and [foo], not reachable before, is queued. *)
Example direct_call_example :
  let st' := snd (runCall 14 (Examples.callVoid 213 Examples.f_foo)
                    (CalledFunction Examples.f_foo) false
                    (Examples.initial SpecFactory.empty)) in
  Callees st' = {[213 := {[101]}]} ∧ reachable st' = {[101]} ∧
  unvisited st' = {[101]}.
Proof. split; [|split]; vm_compute; reflexivity. Qed.


(** * What a type shortcut links *)

Section Shortcut.

Context {NF : Type} `{AndersNodeFactory NF}.
Local Abbreviation State := (State (NF:=NF)).
Local Abbreviation M := (M (NF:=NF)).

(** The object of the shortcut for [stInfo], created in [nf]. *)
Definition shortcutObject (nf : NF) (stInfo : StructInfo) : N :=
  snd (createObjectNode nf (siRealType stInfo) (isFieldUnion stInfo 0) true).

(** The factory once the object and its fields [1 .. size - 1] exist. *)
Definition shortcutFactory (nf : NF) (stInfo : StructInfo) : NF :=
  foldl (λ nf1 i, fst (createFieldNode nf1 (shortcutObject nf stInfo) i
                        (isFieldUnion stInfo i) true))
        (fst (createObjectNode nf (siRealType stInfo)
                (isFieldUnion stInfo 0) true))
        (map N.of_nat (seq 1 (N.to_nat (siExpandedSize stInfo) - 1))).

Lemma forM_fieldNodes (g : NF → N → NF) l : ∀ st : State,
  forM (λ i, modify (upd_nodeFactory (λ nf, g nf i))) l st
  = (Done tt, upd_nodeFactory (λ nf, foldl g nf l) st).
Proof.
  induction l as [|i l IH]; intros st; simpl.
  - by destruct st.
  - unfold mbind, M_bind, bind, modify at 1. rewrite IH. by destruct st.
Qed.

(** [st'] is [st] with another graph and other shortcut targets. *)
Definition linkedOnly (st st' : State) : Prop :=
  st' = upd_typeShortcutsObj (λ _, typeShortcutsObj st')
          (upd_funcPtsGraph (λ _, funcPtsGraph st') st).

(** The loops [for (NodeIndex node : nodes)]. *)
Lemma forM_shortcutNode obj l : ∀ st : State,
  ∃ st',
    forM (shortcutNode obj) l st = (Done tt, st') ∧
    linkedOnly st st' ∧
    typeShortcutsObj st' = list_to_set l ∪ typeShortcutsObj st ∧
    ∀ n, pts (funcPtsGraph st') n =
         if decide (n ∈ l) then {[obj]} ∪ pts (funcPtsGraph st) n
         else pts (funcPtsGraph st) n.
Proof.
  induction l as [|node l IH]; intros st; simpl.
  - exists st. split; [done|]. split; [by destruct st|].
    split; [set_solver|]. intros n.
    by destruct (decide (n ∈ [])) as [?%elem_of_nil|].
  - set (st1 := upd_typeShortcutsObj (λ t, {[node]} ∪ t)
                  (upd_funcPtsGraph
                     (λ g, <[node := {[obj]} ∪ pts g node]> g) st)).
    destruct (IH st1) as (st' & Hrun & Hf & Ht & Hp).
    exists st'. split; [|split; [|split]].
    + unfold mbind, M_bind, bind. exact Hrun.
    + unfold linkedOnly in *. rewrite Hf. unfold st1. by destruct st.
    + rewrite Ht. unfold st1. simpl. set_solver.
    + intros n. rewrite Hp. unfold st1. simpl. rewrite pts_insert.
      destruct (decide (n ∈ node :: l)) as [Hin'|Hout'],
        (decide (n ∈ l)) as [Hin|Hout],
        (decide (node = n)) as [Heq|Hne];
        try rewrite elem_of_cons in Hin'; try rewrite elem_of_cons in Hout';
        try done; try set_solver.
      all: try (destruct Hout'; by auto).
      all: try (destruct Hin'; congruence).
Qed.

(** X19: for a struct type that some function returns a pointer to,
    that some function takes a pointer to as an argument (the entry
    [argEntry] of [argStructs]) and that is the type of no global, the
    shortcut loop, when the factory hands out an object node, creates the
    object and its field nodes, registers the object as the shortcut of
    the type, inserts it into the set of every recorded return node and
    argument node of the type and makes these nodes shortcut targets; the
    other sets and the other tables stay as they are. *)
Theorem createTypeShortcut_links_every_node
    (entry : N * (StructInfo * gset N)) (argEntry : StructInfo * gset N)
    (st : State) :
  argStructs st !! siId (fst (snd entry)) = Some argEntry →
  globalStructs st !! siId (fst (snd entry)) = None →
  shortcutObject (nodeFactory st) (fst (snd entry)) ≠ InvalidIndex →
  ∃ st',
    createTypeShortcut entry st = (Done tt, st') ∧
    typeShortcuts st' =
      <[siId (fst (snd entry)) := shortcutObject (nodeFactory st) (fst (snd entry))]>
        (typeShortcuts st) ∧
    nodeFactory st' = shortcutFactory (nodeFactory st) (fst (snd entry)) ∧
    typeShortcutsObj st' =
      snd (snd entry) ∪ snd argEntry ∪ typeShortcutsObj st ∧
    (∀ n, pts (funcPtsGraph st') n =
          if decide (n ∈ snd (snd entry) ∪ snd argEntry)
          then {[shortcutObject (nodeFactory st) (fst (snd entry))]}
               ∪ pts (funcPtsGraph st) n
          else pts (funcPtsGraph st) n) ∧
    st' = upd_typeShortcuts (λ _, typeShortcuts st')
            (upd_typeShortcutsObj (λ _, typeShortcutsObj st')
               (upd_funcPtsGraph (λ _, funcPtsGraph st')
                  (upd_nodeFactory (λ _, nodeFactory st') st))).
Proof.
  intros Harg Hglob Hobj. destruct entry as [k [stInfo nodes]]. simpl in *.
  unfold shortcutFactory, shortcutObject in *.
  destruct (createObjectNode (nodeFactory st) (siRealType stInfo)
              (isFieldUnion stInfo 0) true) as [nf' obj] eqn:Hc.
  simpl in *.
  set (st1 := upd_typeShortcuts (λ m, <[siId stInfo := obj]> m)
                (upd_nodeFactory
                   (λ nf, foldl (λ nf1 i, fst (createFieldNode nf1 obj i
                                                 (isFieldUnion stInfo i) true))
                                nf
                                (map N.of_nat
                                   (seq 1 (N.to_nat (siExpandedSize stInfo) - 1))))
                   (upd_nodeFactory (λ _, nf') st))).
  destruct (forM_shortcutNode obj (elements nodes) st1)
    as (st2 & Hrun2 & Hf2 & Ht2 & Hp2).
  destruct (forM_shortcutNode obj (elements (snd argEntry)) st2)
    as (st3 & Hrun3 & Hf3 & Ht3 & Hp3).
  exists st3. split; [|split; [|split; [|split; [|split]]]].
  - assert (returns (createTypeShortcut (k, (stInfo, nodes))) st
              (λ _ st', st' = st3)) as ([] & st' & Hrun & ->); [|exact Hrun].
    unfold createTypeShortcut. simpl.
    apply returns_bind, returns_gets. apply returns_bind, returns_gets.
    rewrite Harg. rewrite bool_decide_eq_true_2 by done.
    apply returns_bind, returns_gets. rewrite Hc.
    apply returns_bind, returns_modify.
    apply returns_bind, returns_assert.
    { unfold notInvalid. by apply negb_true_iff, N.eqb_neq. }
    apply returns_bind. eexists tt, _.
    split; [apply (forM_fieldNodes
              (λ nf1 i, fst (createFieldNode nf1 obj i (isFieldUnion stInfo i) true)))|].
    apply returns_bind, returns_modify. fold st1.
    apply returns_bind. exists tt, st2. split; [exact Hrun2|].
    exists tt, st3. by split.
  - rewrite Hf3, Hf2. done.
  - rewrite Hf3, Hf2. done.
  - rewrite Ht3, Ht2. simpl. rewrite !list_to_set_elements_L. set_solver.
  - intros n. rewrite Hp3, Hp2. simpl.
    destruct (decide (n ∈ elements (snd argEntry))) as [Ha|Ha];
      destruct (decide (n ∈ elements nodes)) as [Hn|Hn];
      rewrite elem_of_elements in Ha, Hn.
    all: destruct (decide (n ∈ nodes ∪ snd argEntry)) as [Hu|Hu];
      set_solver.
  - unfold linkedOnly in *. rewrite Hf3 at 1. rewrite Hf2 at 1.
    rewrite Hf3, Hf2. simpl. by destruct st.
Qed.

End Shortcut.

(** Witness for X19: the shortcut of [struct s] in [ShortcutExample]. *)
Lemma createTypeShortcut_links_every_node_witness :
  ∃ st',
    createTypeShortcut ShortcutExample.entry ShortcutExample.before = (Done tt, st') ∧
    typeShortcuts st' = {[1 := 4]} ∧
    typeShortcutsObj st' = {[2; 3]}.
Proof.
  destruct (createTypeShortcut_links_every_node ShortcutExample.entry
              (ShortcutExample.sInfo, {[3]}) ShortcutExample.before)
    as (st' & Hrun & Hts & _ & Hobj & _).
  - vm_compute. reflexivity.
  - vm_compute. reflexivity.
  - vm_compute. discriminate.
  - exists st'. split; [exact Hrun|]. split.
    + rewrite Hts. vm_compute. reflexivity.
    + rewrite Hobj. vm_compute. reflexivity.
Defined.

(** In the example the object is node 4, its second field node 5, and the
    two recorded nodes point to the object. *)
Example shortcut_example :
  let st' := snd (createTypeShortcut ShortcutExample.entry ShortcutExample.before) in
  funcPtsGraph st' = {[2 := {[4]}; 3 := {[4]}]} ∧
  length (SpecFactory.nodes (nodeFactory st')) = 6%nat.
Proof. split; vm_compute; reflexivity. Qed.


(** * What an indirect call resolves *)

Lemma getSize_zero (s : gset N) : getSize s = 0 ↔ s = ∅.
Proof.
  split.
  - intros H0. apply set_eq. intros x. split; [|by intros ?%elem_of_empty].
    intros Hx%getSize_above. lia.
  - intros ->. unfold getSize. by rewrite elements_empty.
Qed.

Section IndirectCall.

Context {NF : Type} `{AndersNodeFactory NF}.
Variable LLVM_VERSION_MAJOR : N.
Local Abbreviation State := (State (NF:=NF)).
Local Abbreviation M := (M (NF:=NF)).

(** [handleCall] for [CF] at [CS] meets none of its assertions and
    creates no node: it has nothing to bind, or the nodes it asserts are
    in place and a callee that returns a value is not taken for an
    allocator. *)
Definition bindable (nf : NF) (CS : Instruction) (CF : Function) : Prop :=
  fisIntrinsic CF = true ∨ fempty CF = true ∨
  (fisVarArg CF = false ∧ length (call_args CS) ≠ length (fargs CF)) ∨
  ((if fisVarArg CF
    then getVarargNodeFor nf (fid CF) ≠ InvalidIndex
    else length (call_args CS) = length (fargs CF) ∧
         ∀ v, v ∈ call_args CS ++ fargs CF →
              getValueNodeFor nf (vid v) ≠ InvalidIndex) ∧
   (isVoidTy (fretTy CF) = false →
      nameContainsAlloc CF = false ∧
      getReturnNodeFor nf (fid CF) ≠ InvalidIndex ∧
      getValueNodeFor nf (iid CS) ≠ InvalidIndex)).

(** Every element of a set of [st'] is an element of a set of [st]. *)
Definition noNewElement (st st' : State) : Prop :=
  ∀ n x, x ∈ pts (funcPtsGraph st') n → ∃ m, x ∈ pts (funcPtsGraph st) m.

Lemma handleCall_completes CS CF (st : State) :
  bindable (nodeFactory st) CS CF →
  returns (handleCall CS CF) st (λ _ st',
    graphOnly st st' ∧ graph_le st st' ∧ noNewElement st st').
Proof.
  assert (graphOnly st st ∧ graph_le st st ∧ noNewElement st st) as Hsame.
  { split; [apply graphOnly_refl|]. split; [apply graph_le_refl|].
    intros n x Hx. by exists n. }
  intros Hb. destruct (fisIntrinsic CF) eqn:Hint;
    [unfold handleCall; rewrite Hint; by apply returns_ret|].
  destruct (fempty CF) eqn:Hbody;
    [unfold handleCall; rewrite Hint, Hbody; by apply returns_ret|].
  destruct Hb as [?|[?|[[Hva Hlen]|[Hargs Hret]]]]; try congruence.
  - unfold handleCall. rewrite Hint, Hbody, Hva.
    assert ((N.of_nat (length (call_args CS)) =? arg_size CF) = false) as ->.
    { apply N.eqb_neq. unfold arg_size. lia. }
    simpl. apply returns_bind, returns_ret. by apply returns_ret.
  - eapply returns_mono; [by apply handleCall_bound|].
    intros c' st' ((Hg & Hle & Hup & _) & _ & _). split; [done|].
    split; [done|]. intros n x [Hx|Hx]%Hup%elem_of_union; [by exists n|].
    unfold callSources in Hx.
    apply elem_of_union in Hx as [Hx|Hx]; [|by eexists].
    apply elem_of_union_list in Hx as (X & HX & Hx).
    apply list_elem_of_fmap in HX as (arg & -> & _). by eexists.
Qed.

(** [st'] is [st] with another graph and other tables [Callees],
    [reachable] and [unvisited]. *)
Definition callsOnly (st st' : State) : Prop :=
  st' = upd_funcPtsGraph (λ _, funcPtsGraph st')
          (upd_Callees (λ _, Callees st')
             (upd_reachable (λ _, reachable st')
                (upd_unvisited (λ _, unvisited st') st))).

Lemma callsOnly_refl st : callsOnly st st.
Proof. by destruct st. Qed.

Lemma callsOnly_trans st1 st2 st3 :
  callsOnly st1 st2 → callsOnly st2 st3 → callsOnly st1 st3.
Proof. unfold callsOnly. intros H1 H2. rewrite H2, H1. by destruct st1. Qed.

Lemma callsOnly_graphOnly st st' : graphOnly st st' → callsOnly st st'.
Proof. unfold graphOnly, callsOnly. intros ->. by destruct st. Qed.

Lemma callsOnly_addCallee CS F (st : State) :
  addCallee CS F st = (Done tt, snd (addCallee CS F st)) ∧
  callsOnly st (snd (addCallee CS F st)).
Proof.
  unfold addCallee, callsOnly, mbind, M_bind, bind, gets, modify. simpl.
  destruct (bool_decide _); simpl; split; try done; by destruct st.
Qed.

Lemma callsOnly_nodeFactory st st' :
  callsOnly st st' → nodeFactory st' = nodeFactory st.
Proof. by intros ->. Qed.

Section Loop.
Variables (st : State) (CS : Instruction) (callee : N) (sp : gset N).
Hypothesis Hsp : funcPtsGraph st !! callee = Some sp.
Hypothesis Hobjects : ∀ n idx,
  idx ∈ pts (funcPtsGraph st) n →
  isSpecialNode (nodeFactory st) idx = true ∨
  isObjectNode (nodeFactory st) idx = true.
Hypothesis Hbindable : ∀ idx CF,
  getValueForNode (nodeFactory st) idx = Some (FunctionValue CF) →
  bindable (nodeFactory st) CS CF.

(** The object [idx] stands for the function [CF]. *)
Definition functionAt (idx : N) (CF : Function) : Prop :=
  isSpecialNode (nodeFactory st) idx = false ∧
  getValueForNode (nodeFactory st) idx = Some (FunctionValue CF).

Let calleesOf (st1 : State) : gset N := default ∅ (Callees st1 !! iid CS).

Let J (st1 : State) : Prop :=
  is_Some (funcPtsGraph st1 !! callee) ∧
  callsOnly st st1 ∧ graph_le st st1 ∧ noNewElement st st1 ∧
  (∀ cs, cs ≠ iid CS → Callees st1 !! cs = Callees st !! cs) ∧
  (∀ f, f ∈ calleesOf st1 →
        f ∈ calleesOf st ∨
        ∃ idx CF, idx ∈ pts (funcPtsGraph st1) callee ∧
                  functionAt idx CF ∧ fid CF = f) ∧
  (∀ f, f ∈ reachable st1 → f ∈ reachable st ∨ f ∈ calleesOf st1).
Let Q (st1 st2 : State) : Prop :=
  calleesOf st1 ⊆ calleesOf st2 ∧ reachable st1 ⊆ reachable st2.
Let P (idx : N) (st1 : State) : Prop :=
  Q st st1 ∧
  ∀ CF, functionAt idx CF →
        fid CF ∈ calleesOf st1 ∧ fid CF ∈ reachable st1.

Lemma indirectCallee_step idx c (st1 : State) :
  J st1 → Q st st1 → is_Some (funcPtsGraph st1 !! callee) →
  idx ∈ pts (funcPtsGraph st1) callee →
  returns (indirectCallee CS idx c) st1 (λ r st2,
    (fst r = Next idx ∨ fst r = Break ∧ ∀ x, x ∈ sp → x ≤ idx) ∧
    (J st2 ∧ Q st st2) ∧
    pts (funcPtsGraph st1) callee ⊆ pts (funcPtsGraph st2) callee ∧
    is_Some (funcPtsGraph st2 !! callee) ∧
    (∀ x, P x st1 → P x st2) ∧ P idx st2).
Proof.
  intros HJ HQ Hk Hidx.
  pose proof HJ as (_ & Hf & Hle & Hnew & Hother & Hup & Hreach).
  pose proof (callsOnly_nodeFactory _ _ Hf) as Hnf.
  assert ((∀ CF, ¬ functionAt idx CF) →
          (fst (Next idx, c) = Next idx ∨
           fst (Next idx, c) = Break ∧ ∀ x, x ∈ sp → x ≤ idx) ∧
          (J st1 ∧ Q st st1) ∧
          pts (funcPtsGraph st1) callee ⊆ pts (funcPtsGraph st1) callee ∧
          is_Some (funcPtsGraph st1 !! callee) ∧
          (∀ x, P x st1 → P x st1) ∧ P idx st1) as Hskip.
  { intros Hno. split; [by left|]. split; [done|]. split; [done|].
    split; [done|]. split; [done|]. split; [done|].
    intros CF HCF. by destruct (Hno CF). }
  unfold indirectCallee. apply returns_bind, returns_gets. rewrite Hnf.
  destruct (isSpecialNode (nodeFactory st) idx) eqn:Hspecial.
  { apply returns_ret, Hskip. intros CF [? _]. congruence. }
  apply returns_bind, returns_assert.
  { destruct (Hnew callee idx Hidx) as [m Hm].
    destruct (Hobjects m idx Hm); [congruence|done]. }
  destruct (getValueForNode (nodeFactory st) idx) as [[CF|v]|] eqn:Hval.
  2:{ apply returns_ret, Hskip. intros CF [_ ?]. congruence. }
  2:{ apply returns_ret, Hskip. intros CF [_ ?]. congruence. }
  destruct (callsOnly_addCallee CS CF st1) as [Hadd Hfa].
  set (st1a := snd (addCallee CS CF st1)) in *.
  pose proof (addCallee_reachable CS CF st1) as Hr1.
  pose proof (addCallee_Callees CS CF st1) as Hc1.
  destruct (addCallee_frame CS CF st1) as (Hg1 & _).
  fold st1a in Hr1, Hc1, Hg1.
  apply returns_bind. exists tt, st1a. split; [exact Hadd|].
  apply returns_bind. eapply returns_mono.
  { apply handleCall_completes.
    rewrite (callsOnly_nodeFactory _ _ Hfa), Hnf. by apply (Hbindable idx). }
  intros c1 st2 (Hg2 & Hle2 & Hnew2). apply returns_ret. simpl.
  assert (Callees st2 = Callees st1a) as Hc2 by by rewrite Hg2.
  assert (reachable st2 = reachable st1a) as Hr2 by by rewrite Hg2.
  assert (calleesOf st2 = {[fid CF]} ∪ calleesOf st1) as Hcs2.
  { unfold calleesOf. by rewrite Hc2, Hc1, lookup_insert_eq. }
  assert (graph_le st1 st2) as Hle12.
  { intros n. etrans; [|apply Hle2]. by rewrite Hg1. }
  assert (Q st1 st2) as [HQc HQr].
  { split; [rewrite Hcs2|rewrite Hr2, Hr1]; set_solver. }
  assert (is_Some (funcPtsGraph st2 !! callee)) as Hk2.
  { destruct (funcPtsGraph st2 !! callee) eqn:Hk2; [by eexists|].
    exfalso. pose proof (Hle12 callee idx Hidx) as Hin.
    unfold pts in Hin. rewrite Hk2 in Hin. set_solver. }
  split; [by left|]. split; [split|].
  - split; [done|]. split; [|split; [|split; [|split; [|split]]]].
    + eapply callsOnly_trans; [exact Hf|].
      eapply callsOnly_trans; [exact Hfa|]. by apply callsOnly_graphOnly.
    + intros n. etrans; [apply Hle|apply Hle12].
    + intros n x Hx. destruct (Hnew2 n x Hx) as [m Hm].
      rewrite Hg1 in Hm. by apply (Hnew m).
    + intros cs Hne. rewrite Hc2, Hc1, lookup_insert_ne by done.
      by apply Hother.
    + intros f. rewrite Hcs2.
      intros [->%elem_of_singleton|Hf1]%elem_of_union.
      * right. exists idx, CF. split; [by apply Hle12|]. by split.
      * destruct (Hup f Hf1) as [?|(idx' & CF' & ? & ? & ?)]; [by left|].
        right. exists idx', CF'. split; [by apply Hle12|]. by split.
    + intros f. rewrite Hr2, Hr1, Hcs2.
      intros [->%elem_of_singleton|Hf1]%elem_of_union.
      * right. set_solver.
      * destruct (Hreach f Hf1); [by left|right; set_solver].
  - destruct HQ as [HQc0 HQr0]. split; set_solver.
  - split; [apply Hle12|]. split; [done|]. split.
    + intros x [[HQc' HQr'] HP]. split; [split; set_solver|].
      intros CF' HCF'. destruct (HP CF' HCF'). split; set_solver.
    + destruct HQ as [HQc0 HQr0]. split; [split; set_solver|].
      intros CF' [_ HCF']. rewrite Hval in HCF'. injection HCF' as <-.
      rewrite Hcs2, Hr2, Hr1. set_solver.
Qed.

Lemma forEachPts_indirectCallee c :
  returns (forEachPts callee (indirectCallee CS) c) st (λ _ st',
    (J st' ∧ Q st st') ∧ ∀ idx, idx ∈ sp → P idx st').
Proof.
  apply (returns_forEachPts_covers callee _ sp (λ st1, J st1 ∧ Q st st1) P);
    [done| |].
  - split; [|done]. split; [by rewrite Hsp; eexists|].
    split; [apply callsOnly_refl|].
    split; [apply graph_le_refl|]. split; [intros n x ?; by exists n|].
    split; [done|]. split; [by left|by left].
  - intros idx c0 st1 [HJ HQ] _ Hk Hin. by apply indirectCallee_step.
Qed.

End Loop.

(** X20: an indirect call whose operand has a value node with a set in
    the graph completes and leaves the factory alone, provided that
    every element of every set is a special node or an object node and
    that every function behind a node of the factory is one that
    [handleCall] skips (an intrinsic, a function without a body, a
    non-variadic function of another arity than the call site) or one
    that it binds without failing an assertion and without creating a
    node: the nodes it asserts are in place and, when the function
    returns a value, its name does not contain "alloc".
    Every object of the set that stands for a function has made that
    function a callee of the call site and reachable; every callee the
    site gains stands behind an object its operand points to; every
    function that becomes reachable is a callee of the site; no other
    key of [Callees] changes; [Callers] and the type-based table are not
    touched; and the node of the operand leaves [unresolvedFPts] exactly
    when its set is not empty. *)
Theorem indirect_call_resolves_function_objects (CS : Instruction)
    (CO : Value) (c : bool) (st : State) (sp : gset N) :
  getValueNodeFor (nodeFactory st) (vid CO) ≠ InvalidIndex →
  funcPtsGraph st !! getValueNodeFor (nodeFactory st) (vid CO) = Some sp →
  (∀ n idx, idx ∈ pts (funcPtsGraph st) n →
            isSpecialNode (nodeFactory st) idx = true ∨
            isObjectNode (nodeFactory st) idx = true) →
  (∀ idx CF, getValueForNode (nodeFactory st) idx = Some (FunctionValue CF) →
             bindable (nodeFactory st) CS CF) →
  ∃ c' st',
    runCall LLVM_VERSION_MAJOR CS (CalledValue CO) c st = (Done c', st') ∧
    nodeFactory st' = nodeFactory st ∧
    (∀ idx CF, idx ∈ sp → functionAt st idx CF →
               fid CF ∈ default ∅ (Callees st' !! iid CS) ∧
               fid CF ∈ reachable st') ∧
    (∀ f, f ∈ default ∅ (Callees st' !! iid CS) →
          f ∈ default ∅ (Callees st !! iid CS) ∨
          ∃ idx CF,
            idx ∈ pts (funcPtsGraph st')
                      (getValueNodeFor (nodeFactory st) (vid CO)) ∧
            functionAt st idx CF ∧ fid CF = f) ∧
    (∀ f, f ∈ reachable st' →
          f ∈ reachable st ∨ f ∈ default ∅ (Callees st' !! iid CS)) ∧
    default ∅ (Callees st !! iid CS) ⊆ default ∅ (Callees st' !! iid CS) ∧
    reachable st ⊆ reachable st' ∧
    (∀ cs, cs ≠ iid CS → Callees st' !! cs = Callees st !! cs) ∧
    unresolvedFPts st' =
      (if decide (pts (funcPtsGraph st')
                      (getValueNodeFor (nodeFactory st) (vid CO)) = ∅)
       then unresolvedFPts st
       else unresolvedFPts st ∖ {[getValueNodeFor (nodeFactory st) (vid CO)]}) ∧
    Callers st' = Callers st ∧ calleeByType st' = calleeByType st.
Proof.
  intros Hvalid Hsp Hobjects Hbindable.
  set (callee := getValueNodeFor (nodeFactory st) (vid CO)) in *.
  destruct (forEachPts_indirectCallee st CS callee sp Hsp Hobjects Hbindable c)
    as (c' & st2 & Hrun
        & (([s Hs] & Hf & Hle & Hnew & Hother & Hup & Hreach) & HQc & HQr)
        & Hcover).
  assert (pts (funcPtsGraph st2) callee = s) as Hps by by apply pts_lookup.
  set (st' := if negb (getSize s =? 0)
              then upd_unresolvedFPts (λ u, u ∖ {[callee]}) st2 else st2).
  assert (runCall LLVM_VERSION_MAJOR CS (CalledValue CO) c st = (Done c', st'))
    as Hcall.
  { unfold runCall. fold callee.
    assert (returns
              (nf ← gets nodeFactory;
               assert (notInvalid (getValueNodeFor nf (vid CO)))
                      "Callee node not found!";;
               itr ← ptsFind (getValueNodeFor nf (vid CO));
               match itr with
               | Some _ =>
                   Changed ← forEachPts (getValueNodeFor nf (vid CO))
                               (indirectCallee CS) c;
                   s ← ptsDeref (getValueNodeFor nf (vid CO));
                   (if negb (getSize s =? 0)
                    then modify (upd_unresolvedFPts
                                   (λ u, u ∖ {[getValueNodeFor nf (vid CO)]}))
                    else mret tt);;
                   mret Changed
               | None =>
                   TS ← findCalleesByType LLVM_VERSION_MAJOR CS;
                   (if negb (bool_decide (TS = ∅))
                    then modify (upd_unresolvedFPts
                                   (λ u, {[getValueNodeFor nf (vid CO)]} ∪ u))
                    else mret tt);;
                   mret c
               end) st (λ r st3, r = c' ∧ st3 = st'))
      as (? & ? & Hr & -> & ->); [|exact Hr].
    apply returns_bind, returns_gets. fold callee.
    apply returns_bind, returns_assert;
      [by apply negb_true_iff, N.eqb_neq|].
    apply returns_bind, returns_gets. rewrite Hsp.
    apply returns_bind. exists c', st2. split; [exact Hrun|].
    apply returns_bind. eapply returns_ptsDeref; [exact Hs|].
    unfold st'. destruct (negb (getSize s =? 0)).
    - apply returns_bind, returns_modify. by apply returns_ret.
    - apply returns_bind, returns_ret. by apply returns_ret. }
  assert (Callees st' = Callees st2 ∧ reachable st' = reachable st2 ∧
          funcPtsGraph st' = funcPtsGraph st2 ∧
          nodeFactory st' = nodeFactory st2 ∧ Callers st' = Callers st2 ∧
          calleeByType st' = calleeByType st2)
    as (HC' & HR' & HG' & HN' & HCs' & HT').
  { unfold st'. by destruct (negb (getSize s =? 0)). }
  exists c', st'. split; [exact Hcall|]. rewrite HC', HR', HG', HN', HCs', HT'.
  split; [by rewrite Hf|].
  split; [intros idx CF Hin HCF; by apply (Hcover idx Hin)|].
  split; [done|]. split; [done|]. split; [done|]. split; [done|].
  split; [done|]. split; [|split; by rewrite Hf].
  rewrite Hps. unfold st'.
  destruct (decide (s = ∅)) as [->|Hne].
  - rewrite (proj2 (getSize_zero ∅)) by done. simpl. by rewrite Hf.
  - destruct (getSize s =? 0) eqn:H0.
    + apply N.eqb_eq, getSize_zero in H0. done.
    + simpl. by rewrite Hf.
Qed.

End IndirectCall.

(** In [MemExample] every element of a set is a special node or an object
    node. *)
Lemma memExample_objects n idx :
  idx ∈ pts (funcPtsGraph MemExample.before) n →
  isSpecialNode (nodeFactory MemExample.before) idx = true ∨
  isObjectNode (nodeFactory MemExample.before) idx = true.
Proof.
  assert (funcPtsGraph MemExample.before
          = <[2 := {[1; 4]}]> (<[3 := {[5]}]> ∅)) as -> by reflexivity.
  unfold pts. destruct (decide (n = 2)) as [->|Hn2].
  - rewrite lookup_insert_eq. simpl.
    intros [->%elem_of_singleton| ->%elem_of_singleton]%elem_of_union;
      [left|right]; reflexivity.
  - rewrite lookup_insert_ne by done. destruct (decide (n = 3)) as [->|Hn3].
    + rewrite lookup_insert_eq. simpl. intros ->%elem_of_singleton.
      right. reflexivity.
    + rewrite lookup_insert_ne by done. rewrite lookup_empty. simpl.
      by intros ?%elem_of_empty.
Qed.

(** The one function the factory of [MemExample] knows, [cb], can be
    bound at the call. *)
Lemma memExample_bindable idx CF :
  getValueForNode (nodeFactory MemExample.before) idx = Some (FunctionValue CF) →
  bindable (nodeFactory MemExample.before) MemExample.icall CF.
Proof.
  unfold getValueForNode. simpl. unfold SpecFactory.node. simpl.
  destruct (N.to_nat idx) as [|[|[|[|[|[|[|n]]]]]]]; simpl; try done.
  intros [= <-]. right. right. right. split; [|done].
  simpl. split; [done|]. by intros v ?%elem_of_nil.
Qed.

(** Witness for X20: the call through [%v], which points to [cb]. *)
Lemma indirect_call_resolves_function_objects_witness :
  ∃ c' st',
    runCall 14 MemExample.icall (CalledValue MemExample.v) false
            MemExample.before = (Done c', st') ∧
    103 ∈ default ∅ (Callees st' !! 330) ∧ 103 ∈ reachable st'.
Proof.
  destruct (indirect_call_resolves_function_objects 14 MemExample.icall
              MemExample.v false MemExample.before {[5]})
    as (c' & st' & Hrun & _ & Hcover & _).
  - vm_compute. discriminate.
  - vm_compute. reflexivity.
  - apply memExample_objects.
  - apply memExample_bindable.
  - exists c', st'. split; [exact Hrun|].
    apply (Hcover 5 Examples.f_cb); [by apply elem_of_singleton|].
    split; reflexivity.
Defined.

(** In the example [cb] becomes the callee of the site, reachable and
    unvisited. *)
Example indirect_call_example :
  let st' := snd (runCall 14 MemExample.icall (CalledValue MemExample.v) false
                    MemExample.before) in
  Callees st' = {[330 := {[103]}]} ∧ reachable st' = {[103]} ∧
  unvisited st' = {[103]}.
Proof. split; [|split]; vm_compute; reflexivity. Qed.


(** * What a return hands to the return node *)

Section Ret.

Context {NF : Type} `{AndersNodeFactory NF}.
Local Abbreviation State := (State (NF:=NF)).
Local Abbreviation M := (M (NF:=NF)).

(** X22: a return of a value, the node of the value and the return
    node of the function being known, completes and changes the graph
    alone, and in it the set of the return node alone: that set takes in
    the set of the returned value, unless the return node is a shortcut
    target, which keeps its set.  The flag is raised exactly when the set
    grew. *)
Theorem runRet_copies_unless_shortcut (F : Function) (rv : Value) (c : bool)
    (st : State) :
  getValueNodeFor (nodeFactory st) (vid rv) ≠ InvalidIndex →
  getReturnNodeFor (nodeFactory st) (fid F) ≠ InvalidIndex →
  ∃ c' st',
    runRet F rv c st = (Done c', st') ∧
    st' = upd_funcPtsGraph (λ _, funcPtsGraph st') st ∧
    (∀ n, n ≠ getReturnNodeFor (nodeFactory st) (fid F) →
          pts (funcPtsGraph st') n = pts (funcPtsGraph st) n) ∧
    pts (funcPtsGraph st') (getReturnNodeFor (nodeFactory st) (fid F)) =
      (if decide (getReturnNodeFor (nodeFactory st) (fid F)
                  ∈ typeShortcutsObj st)
       then pts (funcPtsGraph st) (getReturnNodeFor (nodeFactory st) (fid F))
       else pts (funcPtsGraph st) (getReturnNodeFor (nodeFactory st) (fid F))
            ∪ pts (funcPtsGraph st) (getValueNodeFor (nodeFactory st) (vid rv))) ∧
    c' = c || bool_decide
                (pts (funcPtsGraph st') (getReturnNodeFor (nodeFactory st) (fid F))
                 ≠ pts (funcPtsGraph st) (getReturnNodeFor (nodeFactory st) (fid F))).
Proof.
  intros Hrv HRT.
  set (rvNode := getValueNodeFor (nodeFactory st) (vid rv)) in *.
  set (RT := getReturnNodeFor (nodeFactory st) (fid F)) in *.
  assert (∀ X : gset N, bool_decide (X ≠ X) = false) as Hsame.
  { intros X. apply bool_decide_eq_false_2. by intros []. }
  unfold runRet. apply returns_bind, returns_gets. fold rvNode RT.
  apply returns_bind, returns_assert; [by apply negb_true_iff, N.eqb_neq|].
  apply returns_bind, returns_assert; [by apply negb_true_iff, N.eqb_neq|].
  apply returns_bind, returns_gets.
  destruct (decide (RT ∈ typeShortcutsObj st)) as [Hin|Hnin].
  - rewrite bool_decide_eq_true_2 by done. apply returns_ret.
    split; [by destruct st|]. split; [done|]. split; [done|].
    by rewrite Hsame, orb_false_r.
  - rewrite bool_decide_eq_false_2 by done.
    apply returns_bind, returns_gets.
    destruct (funcPtsGraph st !! rvNode) as [s|] eqn:Hs.
    + apply returns_bind. eapply returns_ptsCopy; [exact Hs|].
      apply returns_ret. simpl.
      rewrite (pts_lookup _ _ _ Hs).
      split; [by destruct st|]. split; [|split].
      * intros n Hn. rewrite pts_insert. by rewrite decide_False.
      * rewrite pts_insert, decide_True by done. set_solver.
      * rewrite pts_insert, decide_True by done.
        rewrite <- size_difference_pos.
        by destruct (0 <? _), c.
    + apply returns_ret. split; [by destruct st|]. split; [done|].
      split; [unfold pts at 3; rewrite Hs; simpl; set_solver|].
      by rewrite Hsame, orb_false_r.
Qed.

End Ret.

(** Witness for X22: [ret %v] in [pick] of [CallExample]. *)
Lemma runRet_copies_unless_shortcut_witness :
  ∃ c' st',
    runRet CallExample.pick CallExample.v false CallExample.before
      = (Done c', st') ∧
    pts (funcPtsGraph st') 4 = {[6; 7]}.
Proof.
  destruct (runRet_copies_unless_shortcut CallExample.pick CallExample.v false
              CallExample.before)
    as (c' & st' & Hrun & _ & _ & Hret & _).
  - vm_compute. discriminate.
  - vm_compute. discriminate.
  - exists c', st'. split; [exact Hrun|].
    etrans; [exact Hret|]. vm_compute. reflexivity.
Defined.


(** * The two maps of a completed run *)

(** The instructions of all modules, in the order of the sweeps. *)
Definition allInstructions (modules : list Module) : list Instruction :=
  concat (map module_instructions modules).

Section Output.

Context {NF : Type} `{AndersNodeFactory NF}.

Variable LLVM_VERSION_MAJOR : N.
Variable getStructInfo : Ty → N → option StructInfo.
Variable getGEPOffset : Instruction → N → Z.
Variable offsetToFieldNum : Ty → Z → N → N.
Variable extendObjectSize : NF → N → Ty → N → NF * N.

Local Abbreviation State := (State (NF:=NF)).
Local Abbreviation M := (M (NF:=NF)).
Local Abbreviation doFinal := (doFinalization (NF:=NF) LLVM_VERSION_MAJOR).
Local Abbreviation passRun :=
  (CallGraphPass_run LLVM_VERSION_MAJOR getStructInfo getGEPOffset
                     offsetToFieldNum extendObjectSize).

(** The finalization sweep over all modules, when it completes. *)
Lemma sweep_doFinalization_Done modules : ∀ again (st st' : State) r,
  sweep doFinal modules again st = (Done r, st') →
  r = again ∧
  finalizedFrom (finalizedIds (allInstructions modules)) st st'.
Proof.
  induction modules as [|Mod modules IH]; intros again st st' r; simpl.
  - intros [= <- <-]. split; [done|]. apply finalizedFrom_refl.
  - intros (b & st1 & Hrun1 & Hrun2)%bind_Done.
    apply doFinalization_Done in Hrun1 as [-> Hfin1].
    apply IH in Hrun2 as [-> Hfin2]. split; [by rewrite orb_false_r|].
    unfold allInstructions. simpl. rewrite finalizedIds_app.
    by eapply finalizedFrom_trans.
Qed.

(** X23: after a completed run, every [CallInst] of the modules that
    is no inline assembly is a key of [Callees] and of the type-based
    table, and it is among the callers of every function that [Callees]
    records for it: [Callers] holds the inverse of [Callees] on these
    call sites. *)
Theorem run_callers_cover_callees (fuel : nat) (modules : list Module)
    (st st' : State) :
  passRun fuel modules st = (Done tt, st') →
  ∀ cs, cs ∈ finalizedIds (allInstructions modules) →
        is_Some (Callees st' !! cs) ∧ is_Some (calleeByType st' !! cs) ∧
        ∀ f, f ∈ default ∅ (Callees st' !! cs) → cs ∈ callersOf st' f.
Proof.
  intros Hrun cs Hcs. unfold CallGraphPass_run, run in Hrun.
  apply bind_Done in Hrun as ([] & st0 & _ & Hrun).
  apply bind_Done in Hrun as ([] & st1 & _ & Hrun).
  apply bind_Done in Hrun as ([] & st2 & _ & Hrun).
  apply bind_Done in Hrun as ([] & st3 & _ & Hrun).
  destruct fuel as [|fuel]; [done|]. simpl in Hrun.
  apply bind_Done in Hrun as (again & st4 & Hsweep & Hrun).
  apply bind_Done in Hrun as ([] & st5 & [= <-] & Hrun).
  apply sweep_doFinalization_Done in Hsweep
    as [-> (_ & Hvals & Hkeys & Hcallers & _ & Htyped)].
  injection Hrun as <-. simpl.
  split; [apply Hkeys; by right|]. split; [by apply Htyped|].
  intros f Hf. rewrite Hvals in Hf.
  apply (Hcallers f cs). right. by split.
Qed.

End Output.

(** Witness for X23: the run over [Examples.chainTaken]. *)
Lemma run_callers_cover_callees_witness :
  is_Some (Callees Examples.chainTaken_final !! 213) ∧
  is_Some (calleeByType Examples.chainTaken_final !! 213) ∧
  213 ∈ callersOf Examples.chainTaken_final 101.
Proof.
  destruct (run_callers_cover_callees 14 Examples.noStructInfo
              Examples.noGEPOffset Examples.fieldZero
              (SpecFactory.extendObjectSize Examples.sizeOne)
              2 [Examples.chainTaken] (Examples.initial Examples.cbFactory)
              Examples.chainTaken_final) with (cs := 213)
    as (HC & HT & Hcallers).
  - vm_compute. reflexivity.
  - vm_compute. reflexivity.
  - split; [exact HC|]. split; [exact HT|].
    apply Hcallers. vm_compute. reflexivity.
Defined.
